(** * balanced-k-groups: a shallow embedding of the partitioning engine

    This development embeds the TypeScript sources of the library
    (evaluator and evaluation cache, round-robin, LPT, KK, DP, backtracking,
    flow, metaheuristics, local refinement, the [auto] orchestrator and the
    recovery fallback) as Rocq functions and states the properties of the
    specification about them (C1 to C10), followed by further properties of
    the cache, the evaluator, the validation, the comparators, the dealing
    and greedy solvers, the refinements and the entry point (X1 to X23).

    Conventions of the embedding.
    - A JavaScript [number] that holds a capacity, a group sum or an index is
      an integer ([Z]): on integers below 2^53 double arithmetic is exact, so
      sums, differences and comparisons are the ones written in the source.
      The embedding therefore speaks for integer capacities; a statement
      that needs the sums to be exact carries the condition [exactItems]
      (non-negative integer capacities with a safe total), and says that the
      sums it speaks of are safe integers.  For capacities that are not
      integers the module [OnDoubles] embeds the evaluator and
      [localRefine] over primitive binary64 floats, where every operation
      rounds as in the source.
    - A string is a string of bytes; ids and algorithm names are taken to be
      written in ASCII, where [toLowerCase] and the order of [<] on strings
      are those of the source.
      [Math.max()] and [Math.min()] of an empty argument list and the
      [Infinity] initialisers are kept, through the type [xnum].
      Quantities that the source obtains by division ([targetSum], the
      fitness [1/(1+delta)]) are rationals ([Q]).  The derived statistics
      [mean], [stdev] and [cv] are functions of [groupSums] alone and are not
      carried in the records.
    - A JavaScript array is a list; [a[i]] is a lookup that yields
      [undefined] ([None]) out of range, and reading a property of
      [undefined] raises [TypeError].
    - [throw] / [try]-[catch] is the error monad [Result].
    - [performance.now()] is read through an oracle: the k-th budget check of
      a loop is answered by a function [nat -> bool] ([true] = the budget is
      exceeded), so every theorem quantified over the oracle holds for every
      behaviour of the wall clock.
    - [Array.prototype.sort] is stable; it is modelled by a stable insertion
      sort over the comparator of the source. *)

From Stdlib Require Import ZArith QArith Qround Lia Ascii String Sorted.
From Stdlib Require PrimFloat.
From stdpp Require Import base tactics option list numbers strings pretty gmap.

Local Open Scope Z_scope.

(** ** JavaScript values and exceptions *)

Module JS.

(** Numbers extended with the non-finite doubles the code can produce. *)
Inductive xnum : Type :=
  | NaN
  | NegInf
  | Fin (z : Z)
  | PosInf.

Definition xmax (a b : xnum) : xnum :=
  match a, b with
  | NaN, _ | _, NaN => NaN
  | PosInf, _ | _, PosInf => PosInf
  | NegInf, x | x, NegInf => x
  | Fin x, Fin y => Fin (Z.max x y)
  end.

Definition xmin (a b : xnum) : xnum :=
  match a, b with
  | NaN, _ | _, NaN => NaN
  | NegInf, _ | _, NegInf => NegInf
  | PosInf, x | x, PosInf => x
  | Fin x, Fin y => Fin (Z.min x y)
  end.

(** [Math.max(...l)] and [Math.min(...l)] *)
Definition Math_max (l : list Z) : xnum := foldr (fun z acc => xmax (Fin z) acc) NegInf l.
Definition Math_min (l : list Z) : xnum := foldr (fun z acc => xmin (Fin z) acc) PosInf l.

(** [a - b] on doubles *)
Definition xsub (a b : xnum) : xnum :=
  match a, b with
  | NaN, _ | _, NaN => NaN
  | Fin x, Fin y => Fin (x - y)
  | PosInf, PosInf | NegInf, NegInf => NaN
  | PosInf, _ => PosInf
  | NegInf, _ => NegInf
  | Fin _, PosInf => NegInf
  | Fin _, NegInf => PosInf
  end.

(** [a < b] and [a <= b] on doubles: every comparison with [NaN] is false. *)
Definition xltb (a b : xnum) : bool :=
  match a, b with
  | NaN, _ | _, NaN => false
  | Fin x, Fin y => x <? y
  | NegInf, NegInf => false
  | NegInf, _ => true
  | _, NegInf => false
  | PosInf, _ => false
  | Fin _, PosInf => true
  end.

Definition xleb (a b : xnum) : bool :=
  match a, b with
  | NaN, _ | _, NaN => false
  | Fin x, Fin y => x <=? y
  | NegInf, _ => true
  | _, NegInf => false
  | _, PosInf => true
  | PosInf, _ => false
  end.

(** The exceptions that the modelled code raises.  [TypeError] is the
    engine's error for a property read on [undefined]; [Error] is
    [new Error(msg)]; the others are the library's error classes of
    [errors.ts] ([AlgorithmError] keeps the algorithm and the operation that
    [createAlgorithmError] records). *)
Inductive Exn : Type :=
  | TypeError
  | Error (msg : string)
  | ValidationError (msg : string)
  | InfeasibleError (msg : string)
  | AlgorithmError (algorithm operation : string).

Inductive Result (A : Type) : Type :=
  | Ok (a : A)
  | Throw (e : Exn).
Arguments Ok {A} a.
Arguments Throw {A} e.

Definition bind {A B} (r : Result A) (k : A -> Result B) : Result B :=
  match r with
  | Ok a => k a
  | Throw e => Throw e
  end.

(** [x!.f] where [x] may be [undefined] *)
Definition defined {A} (o : option A) : Result A :=
  match o with
  | Some a => Ok a
  | None => Throw TypeError
  end.

(** [try { r } catch (error) { throw h(error) }] *)
Definition rethrow {A} (h : Exn -> Exn) (r : Result A) : Result A :=
  match r with
  | Ok a => Ok a
  | Throw e => Throw (h e)
  end.

Definition isOk {A} (r : Result A) : bool :=
  match r with Ok _ => true | Throw _ => false end.

(** [a[i]] for a number [i]: [undefined] when [i] is negative or past the end *)
Definition at_ {A} (a : list A) (i : Z) : option A :=
  if 0 <=? i then a !! Z.to_nat i else None.

(** [ToInt32]: the value that the bitwise operators see *)
Definition toInt32 (z : Z) : Z :=
  let m := z mod 4294967296 in
  if 2147483648 <=? m then m - 4294967296 else m.

(** [x >>> 0] *)
Definition toUint32 (z : Z) : Z := z mod 4294967296.

(** Stable sort by a comparator; [le a b] is [cmp(a, b) <= 0]. *)
Fixpoint insertSorted {A} (le : A -> A -> bool) (x : A) (l : list A) : list A :=
  match l with
  | [] => [x]
  | y :: ys => if le x y then x :: y :: ys else y :: insertSorted le x ys
  end.

Definition sort {A} (le : A -> A -> bool) (l : list A) : list A :=
  foldr (insertSorted le) [] l.

(** a [for] loop whose body may throw *)
Fixpoint foldM {A S} (f : S -> A -> Result S) (s : S) (l : list A) : Result S :=
  match l with
  | [] => Ok s
  | x :: rest => bind (f s x) (fun s' => foldM f s' rest)
  end.

(** [a[i].push(x)] on an array of arrays *)
Definition pushAt {A} (a : list (list A)) (i : nat) (x : A) : list (list A) :=
  alter (fun g => g ++ [x]) i a.

(** [a[i] += v] *)
Definition addAt (a : list Z) (i : nat) (v : Z) : list Z :=
  alter (fun s => s + v) i a.

End JS.

Export JS.

Global Instance Result_bind : MBind Result := fun A B k r => bind r k.
Global Instance Result_ret : MRet Result := @Ok.
Global Instance Result_fmap : FMap Result :=
  fun A B f r => match r with Ok a => Ok (f a) | Throw e => Throw e end.

(** ** Items ([types.ts]) *)

Inductive Id : Type :=
  | IdStr (s : string)
  | IdNum (n : Z).

Global Instance Id_eq_dec : EqDecision Id.
Proof. solve_decision. Defined.

Record Item : Type := mkItem { id : Id; capacity : Z }.

Definition capacities (items : list Item) : list Z := map capacity items.

Definition sumZ (l : list Z) : Z := foldl Z.add 0 l.

(** [fromCapacities(capacities)] of [index.ts], with the default prefix *)
Definition fromCapacities (caps : list Z) : list Item :=
  imap (fun index capacity => mkItem (IdStr ("item" +:+ pretty index)) capacity) caps.

(** ** Evaluation cache ([cache.ts]) *)

Module EvaluationCache.

(** A JavaScript [Map] keeps its keys in insertion order; the keys are the
    strings [hash.toString(36)], an injective image of the 32-bit hash, so
    the hash itself is the key.  The [timestamp] of an entry is never read. *)
Definition Bucket (T : Type) : Type := list (Z * T).

Definition mapGet {T} (bucket : Bucket T) (key : Z) : option T :=
  snd <$> List.find (fun e => bool_decide (e.1 = key)) bucket.

Definition mapHas {T} (bucket : Bucket T) (key : Z) : bool :=
  bool_decide (is_Some (mapGet bucket key)).

Definition mapSet {T} (bucket : Bucket T) (key : Z) (value : T) : Bucket T :=
  if mapHas bucket key
  then map (fun e => if bool_decide (e.1 = key) then (key, value) else e) bucket
  else bucket ++ [(key, value)].

Definition mapDelete {T} (bucket : Bucket T) (key : Z) : Bucket T :=
  filter (fun e => e.1 ≠ key) bucket.

(** The [WeakMap] is keyed by the identity of the items array: a [nat]
    stands for the object reference. *)
Record t (T : Type) : Type := mk {
  store : gmap nat (Bucket T);
  maxEntriesPerItemsRef : nat
}.
Arguments mk {T}.
Arguments store {T}.
Arguments maxEntriesPerItemsRef {T}.

Definition new {T} (maxEntries : Z) : t T :=
  mk ∅ (Z.to_nat (Z.max 10 maxEntries)).

Definition get {T} (c : t T) (itemsRef : nat) (groupingKey : Z) : option T :=
  bucket ← store c !! itemsRef; mapGet bucket groupingKey.

Definition set {T} (c : t T) (itemsRef : nat) (groupingKey : Z) (value : T) : t T :=
  let bucket := default [] (store c !! itemsRef) in
  let bucket :=
    if bool_decide (maxEntriesPerItemsRef c ≤ length bucket)%nat
    then match bucket with
         | (firstKey, _) :: _ => mapDelete bucket firstKey
         | [] => bucket
         end
    else bucket in
  mk (<[itemsRef := mapSet bucket groupingKey value]> (store c)) (maxEntriesPerItemsRef c).

Definition clear {T} (c : t T) : t T := mk ∅ (maxEntriesPerItemsRef c).

End EvaluationCache.

(** ** Evaluator ([algorithms/evaluate.ts]) *)

Module Evaluate.

Record EvaluationResult : Type := mkEvaluationResult {
  groupSums : list Z;
  delta : xnum;
  totalCapacity : Z
}.

(** [let sum = 0; for (i ...) sum += items[idxs[i]].capacity] *)
Fixpoint sumGroup (items : list Item) (idxs : list Z) (sum : Z) : Result Z :=
  match idxs with
  | [] => Ok sum
  | i :: rest => it ← defined (at_ items i); sumGroup items rest (sum + capacity it)
  end.

Fixpoint sumGroups (items : list Item) (groupsByIndex : list (list Z)) : Result (list Z) :=
  match groupsByIndex with
  | [] => Ok []
  | idxs :: rest =>
      sum ← sumGroup items idxs 0;
      sums ← sumGroups items rest;
      mret (sum :: sums)
  end.

(** the second loop: [total], [maxSum] from [-Infinity], [minSum] from [Infinity] *)
Definition scanSums (sums : list Z) : Z * xnum * xnum :=
  foldl (fun '(total, maxSum, minSum) s =>
           (total + s,
            if xltb maxSum (Fin s) then Fin s else maxSum,
            if xltb (Fin s) minSum then Fin s else minSum))
        (0, NegInf, PosInf) sums.

Definition evaluateGroupingFastCPU (items : list Item) (groupsByIndex : list (list Z))
  : Result EvaluationResult :=
  groupSums ← sumGroups items groupsByIndex;
  let '(total, maxSum, minSum) := scanSums groupSums in
  mret (mkEvaluationResult groupSums (xsub maxSum minSum) total).

(** [hash = ((hash << 5) - hash + group[i]) & 0xffffffff] *)
Definition hashStep (hash idx : Z) : Z :=
  toInt32 (toInt32 (hash * 32) - hash + idx).

Definition hashGrouping (groupsByIndex : list (list Z)) : Z :=
  foldl (fun hash group => foldl hashStep hash group) 0 groupsByIndex.

Record Options : Type := mkOptions {
  maxCacheItems : Z;
  maxCacheGroups : Z;
  maxCacheGroupSize : Z
}.

Definition defaultOptions : Options := mkOptions 1000 50 100.

Definition Cache : Type := EvaluationCache.t EvaluationResult.

(** [globalEvaluationCache = new EvaluationCache(200)] *)
Definition globalEvaluationCache : Cache := EvaluationCache.new 200.

(** [groupingKey]: [None] is the empty string (caching skipped) *)
Definition groupingKeyOf (groupsByIndex : list (list Z)) (options : Options) : option Z :=
  let totalItems := Z.of_nat (foldl (fun sum group => (sum + length group)%nat) 0%nat groupsByIndex) in
  let groupCount := Z.of_nat (length groupsByIndex) in
  let maxGroupSize := Math_max (map (fun g => Z.of_nat (length g)) groupsByIndex) in
  let shouldSkipCache :=
    (maxCacheItems options <? totalItems)
    || (maxCacheGroups options <? groupCount)
    || xltb (Fin (maxCacheGroupSize options)) maxGroupSize in
  if shouldSkipCache then None else Some (hashGrouping groupsByIndex).

(** [evaluateGrouping(items, groupsByIndex, options)], threading the global
    cache; [itemsRef] is the identity of the [items] array. *)
Definition evaluateGrouping (cache : Cache) (itemsRef : nat) (items : list Item)
    (groupsByIndex : list (list Z)) (options : Options)
  : Result EvaluationResult * Cache :=
  let groupingKey := groupingKeyOf groupsByIndex options in
  match groupingKey ≫= EvaluationCache.get cache itemsRef with
  | Some cached => (Ok cached, cache)
  | None =>
      match evaluateGroupingFastCPU items groupsByIndex with
      | Ok result =>
          (Ok result,
           match groupingKey with
           | Some key => EvaluationCache.set cache itemsRef key result
           | None => cache
           end)
      | Throw _ => (Throw (AlgorithmError "evaluate" "grouping evaluation"), cache)
      end
  end.

(** [validateGrouping(items, groupsByIndex, expectedGroupSize).valid] *)
Definition validateGrouping (items : list Item) (groupsByIndex : list (list Z))
    (expectedGroupSize : nat) : bool :=
  let allIndices := concat groupsByIndex in
  let uniqueIndices := remove_dups allIndices in
  forallb (fun group => bool_decide (length group = expectedGroupSize)) groupsByIndex
  && bool_decide (length allIndices = length uniqueIndices)
  && bool_decide (length uniqueIndices = length items)
  && forallb (fun index => negb ((index <? 0) || (Z.of_nat (length items) <=? index))) allIndices.

End Evaluate.

(** ** Result shape ([types.ts]) *)

Record Grouping : Type := mkGrouping {
  groupsById : list (list Id);
  groupsByIndex : list (list Z);
  groupSums : list Z;
  delta : xnum;
  iterations : option nat;
  methodUsed : string
}.

(** [Math.max(...sums) - Math.min(...sums)] *)
Definition deltaOf (sums : list Z) : xnum := xsub (Math_max sums) (Math_min sums).

(** [a[i].push(x)]: raises when [a[i]] is [undefined] *)
Definition push {A} (a : list (list A)) (i : nat) (x : A) : Result (list (list A)) :=
  match a !! i with
  | Some _ => Ok (pushAt a i x)
  | None => Throw TypeError
  end.

(** [items.map((item, index) => ({ item, index }))] *)
Definition indexed (items : list Item) : list (Item * Z) :=
  imap (fun index item => (item, Z.of_nat index)) items.

(** [Array.from({ length: groups }, () => [])] and [new Array(groups).fill(0)] *)
Definition emptyGroups {A} (groups : nat) : list (list A) := replicate groups [].
Definition zeros (groups : nat) : list Z := replicate groups 0.

(** ** Comparators ([utils/comparators.ts]) *)

(** [String(id)] *)
Definition String_ (a : Id) : string :=
  match a with
  | IdStr s => s
  | IdNum n => pretty n
  end.

Definition compareIds (a b : Id) : Z :=
  let strA := String_ a in
  let strB := String_ b in
  if String.ltb strA strB then -1
  else if String.ltb strB strA then 1
  else 0.

Definition compareItemsByCapacity (a b : Item) : Z :=
  let capacityDiff := capacity b - capacity a in
  if bool_decide (capacityDiff ≠ 0) then capacityDiff
  else compareIds (id a) (id b).

(** [arr.sort(cmp)] for a comparator that returns a number *)
Definition sortBy {A} (cmp : A -> A -> Z) (l : list A) : list A :=
  JS.sort (fun a b => cmp a b <=? 0) l.

(** ** Round-robin ([algorithms/roundrobin.ts]) *)

Module RoundRobin.

Record State : Type := mkState {
  st_groupsById : list (list Id);
  st_groupsByIndex : list (list Z);
  st_groupSums : list Z;
  st_currentGroup : nat
}.

(** one turn of [for (const { item, index } of indexedItems)] *)
Definition assign (groups : nat) (st : State) (e : Item * Z) : Result State :=
  let '(item, index) := e in
  let currentGroup := st_currentGroup st in
  groupsById ← push (st_groupsById st) currentGroup (id item);
  groupsByIndex ← push (st_groupsByIndex st) currentGroup index;
  mret (mkState groupsById groupsByIndex
          (addAt (st_groupSums st) currentGroup (capacity item))
          ((currentGroup + 1) `mod` groups)%nat).

Definition distribute (groups : nat) : State -> list (Item * Z) -> Result State :=
  foldM (assign groups).

Definition toAlgorithmError (algorithm : string) (_ : Exn) : Exn :=
  AlgorithmError algorithm "partition".

Definition roundRobinPartition (items : list Item) (groups groupSize : nat) : Result Grouping :=
  rethrow (toAlgorithmError "roundrobin")
    (let indexedItems :=
       sortBy (fun a b => compareItemsByCapacity a.1 b.1) (indexed items) in
     st ← distribute groups (mkState (emptyGroups groups) (emptyGroups groups) (zeros groups) 0)
            indexedItems;
     mret (mkGrouping (st_groupsById st) (st_groupsByIndex st) (st_groupSums st)
             (deltaOf (st_groupSums st)) (Some 1%nat) "roundrobin")).

Record OptState : Type := mkOptState {
  os_groupsById : list (list Id);
  os_groupsByIndex : list (list Z);
  os_groupSums : list Z;
  os_groupCounts : list nat
}.

(** [for (let g = 1; g < groups; g++) if (groupCounts[g] < groupSize &&
    groupSums[g] < bestSum) { bestGroup = g; bestSum = groupSums[g] }]
    started from [bestGroup = 0], [bestSum = groupSums[0]] *)
Definition lightest (groups groupSize : nat) (groupSums : list Z) (groupCounts : list nat)
    (bestSum0 : Z) : nat * Z :=
  foldl (fun '(bestGroup, bestSum) g =>
           match groupCounts !! g, groupSums !! g with
           | Some count, Some sum =>
               if bool_decide (count < groupSize)%nat && (sum <? bestSum)
               then (g, sum) else (bestGroup, bestSum)
           | _, _ => (bestGroup, bestSum)
           end)
        (0%nat, bestSum0) (seq 1 (groups - 1)).

(** [for (let g = 0; g < groups; g++) if (groupCounts[g] < groupSize) { bestGroup = g; break }] *)
Definition firstWithSpace (groups groupSize : nat) (groupCounts : list nat) (bestGroup : nat) : nat :=
  match List.find (fun g => match groupCounts !! g with
                            | Some count => bool_decide (count < groupSize)%nat
                            | None => false
                            end) (seq 0 groups) with
  | Some g => g
  | None => bestGroup
  end.

(** the group that receives the next item *)
Definition chooseGroup (groups groupSize : nat) (groupSums : list Z) (groupCounts : list nat)
  : nat :=
  let '(bestGroup, _) := lightest groups groupSize groupSums groupCounts (default 0 (groupSums !! 0%nat)) in
  match groupCounts !! bestGroup with
  | Some count =>
      if bool_decide (groupSize ≤ count)%nat
      then firstWithSpace groups groupSize groupCounts bestGroup
      else bestGroup
  | None => bestGroup
  end.

Definition assignOptimized (groups groupSize : nat) (st : OptState) (e : Item * Z)
  : Result OptState :=
  let '(item, index) := e in
  let bestGroup := chooseGroup groups groupSize (os_groupSums st) (os_groupCounts st) in
  groupsById ← push (os_groupsById st) bestGroup (id item);
  groupsByIndex ← push (os_groupsByIndex st) bestGroup index;
  mret (mkOptState groupsById groupsByIndex
          (addAt (os_groupSums st) bestGroup (capacity item))
          (alter S bestGroup (os_groupCounts st))).

Definition distributeOptimized (groups groupSize : nat)
  : OptState -> list (Item * Z) -> Result OptState :=
  foldM (assignOptimized groups groupSize).

Definition optimizedRoundRobinPartition (items : list Item) (groups groupSize : nat)
  : Result Grouping :=
  rethrow (toAlgorithmError "roundrobin-optimized")
    (let indexedItems :=
       sortBy (fun a b => compareItemsByCapacity a.1 b.1) (indexed items) in
     st ← distributeOptimized groups groupSize
            (mkOptState (emptyGroups groups) (emptyGroups groups) (zeros groups)
               (replicate groups 0%nat))
            indexedItems;
     mret (mkGrouping (os_groupsById st) (os_groupsByIndex st) (os_groupSums st)
             (deltaOf (os_groupSums st)) (Some 1%nat) "roundrobin-optimized")).

(** [roundRobin(items, groups, groupSize, { seed, optimized = true })]; the
    seed is passed on and never read. *)
Definition roundRobin (items : list Item) (groups groupSize : nat) (optimized : bool)
  : Result Grouping :=
  if negb optimized || bool_decide (length items ≤ 20)%nat
  then roundRobinPartition items groups groupSize
  else optimizedRoundRobinPartition items groups groupSize.

End RoundRobin.

(** ** Seeded pseudo-random numbers

    [randState = (1664525 * randState + 1013904223) >>> 0] is exact integer
    arithmetic.  What the callers do with the double [randState / 0xffffffff]
    (scale and floor it, compare it with a rate) is double arithmetic; the
    record [Doubles] collects these operations, each a function of the
    generator state, and the solvers are parameterised by it.  [exactDoubles]
    computes them over the rationals; it agrees with the double computation
    except where the scaled value is an exact integer boundary. *)

Definition lcg (randState : Z) : Z := toUint32 (1664525 * randState + 1013904223).

(** [(seed ?? 123456789) >>> 0] *)
Definition seedState (seed : option Z) : Z := toUint32 (default 123456789 seed).

Record Doubles : Type := mkDoubles {
  (** [Math.floor((randState / 0xffffffff) * n)] *)
  floorRand : Z -> nat -> nat;
  (** [(randState / 0xffffffff) < rate] *)
  randBelow : Z -> Q -> bool;
  (** [(randState / 0xffffffff) < Math.exp(deltaFitness / temperature)] at
      iteration [k] of the annealing schedule *)
  randAccepts : Z -> Q -> nat -> bool
}.

Definition exactDoubles : Doubles := {|
  floorRand := fun randState n => Z.to_nat (randState * Z.of_nat n / 4294967295);
  randBelow := fun randState rate => negb (Qle_bool rate (randState # 4294967295));
  randAccepts := fun _ _ _ => false
|}.

(** ** Swap moves shared by the refinement passes *)

(** [groupsByIndex[g][i] = v] *)
Definition setAt {A} (groupsByIndex : list (list A)) (g i : nat) (v : A) : list (list A) :=
  alter (fun group => <[i := v]> group) g groupsByIndex.

(** [groupSums.filter((_, gg) => gg !== g1 && gg !== g2)] *)
Definition otherSums (groupSums : list Z) (g1 g2 : nat) : list Z :=
  map snd (filter (fun p => p.1 ≠ g1 ∧ p.1 ≠ g2) (imap pair groupSums)).

(** [Math.max(maxOther, newSum1, newSum2) - Math.min(minOther, newSum1, newSum2)] *)
Definition newDeltaOf (groupSums : list Z) (g1 g2 : nat) (newSum1 newSum2 : Z) : xnum :=
  let maxOther := Math_max (otherSums groupSums g1 g2) in
  let minOther := Math_min (otherSums groupSums g1 g2) in
  xsub (xmax (xmax maxOther (Fin newSum1)) (Fin newSum2))
       (xmin (xmin minOther (Fin newSum1)) (Fin newSum2)).

(** [idx = groupsByIndex[g][i]] together with [items[idx].capacity] *)
Definition member (items : list Item) (groupsByIndex : list (list Z)) (g i : nat)
  : Result (Z * Z) :=
  group ← defined (groupsByIndex !! g);
  idx ← defined (group !! i);
  item ← defined (at_ items idx);
  mret (idx, capacity item).

(** [groupSums[g]] where [g] is a group that has just been read *)
Definition sumAt (groupSums : list Z) (g : nat) : Z := default 0 (groupSums !! g).

(** ** Local refinement ([algorithms/localRefine.ts]) *)

Module LocalRefine.

Inductive SwapStrategy : Type := best | stochastic.

Record LocalRefineOptions : Type := mkOptions {
  maxIters : Z;
  strategy : SwapStrategy;
  enable11 : bool;
  enable22 : bool;
  seed : option Z
}.

Definition defaultOptions : LocalRefineOptions := mkOptions 200 best true true None.

Record LocalRefineResult : Type := mkResult {
  groupsByIndex : list (list Z);
  groupSums : list Z;
  iterations : nat;
  improvements : nat
}.

(** the mutable variables of the closure *)
Record State : Type := mkState {
  st_groupsByIndex : list (list Z);
  st_groupSums : list Z;
  st_randState : Z;
  st_improvements : nat
}.

(** what a [bestMove] closure does when called: index writes in order, then
    [groupSums[g1] = newSum1; groupSums[g2] = newSum2] *)
Record Move : Type := mkMove {
  mv_writes : list (nat * nat * Z);
  mv_g1 : nat;
  mv_newSum1 : Z;
  mv_g2 : nat;
  mv_newSum2 : Z
}.

Definition applyMove (m : Move) (st : State) : State :=
  mkState
    (foldl (fun gbi '(g, i, v) => setAt gbi g i v) (st_groupsByIndex st) (mv_writes m))
    (<[mv_g2 m := mv_newSum2 m]> (<[mv_g1 m := mv_newSum1 m]> (st_groupSums st)))
    (st_randState st) (st_improvements st).

(** the candidate 1-1 swap of positions [(g1, i1)] and [(g2, i2)] *)
Definition swap11 (items : list Item) (st : State) (g1 i1 g2 i2 : nat) : Result (xnum * Move) :=
  '(idx1, cap1) ← member items (st_groupsByIndex st) g1 i1;
  '(idx2, cap2) ← member items (st_groupsByIndex st) g2 i2;
  let newSum1 := sumAt (st_groupSums st) g1 - cap1 + cap2 in
  let newSum2 := sumAt (st_groupSums st) g2 - cap2 + cap1 in
  mret (newDeltaOf (st_groupSums st) g1 g2 newSum1 newSum2,
        mkMove [(g1, i1, idx2); (g2, i2, idx1)] g1 newSum1 g2 newSum2).

(** the candidate 2-2 swap *)
Definition swap22 (items : list Item) (st : State) (g1 i1a i1b g2 i2a i2b : nat)
  : Result (xnum * Move) :=
  '(idx1a, c1a) ← member items (st_groupsByIndex st) g1 i1a;
  '(idx1b, c1b) ← member items (st_groupsByIndex st) g1 i1b;
  '(idx2a, c2a) ← member items (st_groupsByIndex st) g2 i2a;
  '(idx2b, c2b) ← member items (st_groupsByIndex st) g2 i2b;
  let newSum1 := sumAt (st_groupSums st) g1 - c1a - c1b + c2a + c2b in
  let newSum2 := sumAt (st_groupSums st) g2 - c2a - c2b + c1a + c1b in
  mret (newDeltaOf (st_groupSums st) g1 g2 newSum1 newSum2,
        mkMove [(g1, i1a, idx2a); (g1, i1b, idx2b); (g2, i2a, idx1a); (g2, i2b, idx1b)]
          g1 newSum1 g2 newSum2).

Definition getDelta (st : State) : xnum := deltaOf (st_groupSums st).

Definition applyIfBetter (st : State) (c : xnum * Move) : bool * State :=
  let '(newDelta, move) := c in
  if xltb newDelta (getDelta st) then (true, applyMove move st) else (false, st).

Definition apply11IfBetter (items : list Item) (st : State) (g1 i1 g2 i2 : nat)
  : Result (bool * State) :=
  c ← swap11 items st g1 i1 g2 i2; mret (applyIfBetter st c).

Definition apply22IfBetter (items : list Item) (st : State) (g1 i1a i1b g2 i2a i2b : nat)
  : Result (bool * State) :=
  c ← swap22 items st g1 i1a i1b g2 i2a i2b; mret (applyIfBetter st c).

(** the index tuples of the nested [for] loops of [iterateBest], in order *)
Definition pairs (groups : nat) : list (nat * nat) :=
  g1 ← seq 0 groups; g2 ← seq (g1 + 1) (groups - (g1 + 1)); [(g1, g2)].

Definition scan11 (groups groupSize : nat) : list (nat * nat * nat * nat) :=
  '(g1, g2) ← pairs groups;
  i1 ← seq 0 groupSize; i2 ← seq 0 groupSize; [(g1, i1, g2, i2)].

Definition scan22 (groups groupSize : nat) : list (nat * nat * nat * nat * nat * nat) :=
  '(g1, g2) ← pairs groups;
  i1a ← seq 0 groupSize; i1b ← seq (i1a + 1) (groupSize - (i1a + 1));
  i2a ← seq 0 groupSize; i2b ← seq (i2a + 1) (groupSize - (i2a + 1));
  [(g1, i1a, i1b, g2, i2a, i2b)].

(** [if (newDelta < bestDelta) { bestDelta = newDelta; bestMove = ... }] *)
Definition keepBetter (acc : xnum * option Move) (c : xnum * Move) : xnum * option Move :=
  if xltb c.1 acc.1 then (c.1, Some c.2) else acc.

Definition iterateBest (items : list Item) (options : LocalRefineOptions)
    (groups groupSize : nat) (st : State) : Result (bool * State) :=
  let acc := (getDelta st, None) in
  acc ← (if enable11 options
         then foldM (fun acc '(g1, i1, g2, i2) =>
                       c ← swap11 items st g1 i1 g2 i2; mret (keepBetter acc c))
                acc (scan11 groups groupSize)
         else Ok acc);
  acc ← (if enable22 options
         then foldM (fun acc '(g1, i1a, i1b, g2, i2a, i2b) =>
                       c ← swap22 items st g1 i1a i1b g2 i2a i2b; mret (keepBetter acc c))
                acc (scan22 groups groupSize)
         else Ok acc);
  match acc.2 with
  | Some bestMove =>
      let st' := applyMove bestMove st in
      Ok (true, mkState (st_groupsByIndex st') (st_groupSums st') (st_randState st')
                  (S (st_improvements st')))
  | None => Ok (false, st)
  end.

Section Stochastic.
Context (fp : Doubles) (items : list Item) (groups groupSize : nat).

(** [rand()]: the new generator state stands for the double it yields *)
Definition rand (st : State) : Z * State :=
  let r := lcg (st_randState st) in
  (r, mkState (st_groupsByIndex st) (st_groupSums st) r (st_improvements st)).

(** [Math.floor(rand() * n)] *)
Definition randIndex (n : nat) (st : State) : nat * State :=
  let '(r, st) := rand st in (floorRand fp r n, st).

(** [let b = Math.floor(rand() * n); if (b === a) b = (b + 1) % n] *)
Definition randOther (n a : nat) (st : State) : nat * State :=
  let '(b, st) := randIndex n st in
  (if bool_decide (b = a) then ((b + 1) `mod` n)%nat else b, st).

Definition improved (st : State) : State :=
  mkState (st_groupsByIndex st) (st_groupSums st) (st_randState st) (S (st_improvements st)).

Fixpoint try11 (attempts : nat) (st : State) : Result (bool * State) :=
  match attempts with
  | O => Ok (false, st)
  | S attempts =>
      let '(g1, st) := randIndex groups st in
      let '(g2, st) := randOther groups g1 st in
      let '(i1, st) := randIndex groupSize st in
      let '(i2, st) := randIndex groupSize st in
      '(applied, st) ← apply11IfBetter items st g1 i1 g2 i2;
      if applied : bool then Ok (true, improved st) else try11 attempts st
  end.

Fixpoint try22 (attempts : nat) (st : State) : Result (bool * State) :=
  match attempts with
  | O => Ok (false, st)
  | S attempts =>
      let '(g1, st) := randIndex groups st in
      let '(g2, st) := randOther groups g1 st in
      let '(i1a, st) := randIndex groupSize st in
      let '(i1b, st) := randOther groupSize i1a st in
      let '(i2a, st) := randIndex groupSize st in
      let '(i2b, st) := randOther groupSize i2a st in
      '(applied, st) ← apply22IfBetter items st g1 i1a i1b g2 i2a i2b;
      if applied : bool then Ok (true, improved st) else try22 attempts st
  end.

Definition iterateStochastic (options : LocalRefineOptions) (st : State)
  : Result (bool * State) :=
  let attempts := Nat.max 100 (groups * groupSize * 2) in
  '(found, st) ← (if enable11 options then try11 attempts st else Ok (false, st));
  if found : bool then Ok (true, st)
  else
    '(found, st) ← (if enable22 options then try22 attempts st else Ok (false, st));
    Ok (found, st).

(** [while (improved && iterations < maxIters) { iterations++; improved = ... }];
    [fuel] is the number of iterations that [maxIters] still allows *)
Fixpoint loop (options : LocalRefineOptions) (fuel : nat) (iterations : nat) (st : State)
  : Result (nat * State) :=
  match fuel with
  | O => Ok (iterations, st)
  | S fuel =>
      '(improved, st) ← match strategy options with
                        | best => iterateBest items options groups groupSize st
                        | stochastic => iterateStochastic options st
                        end;
      if improved : bool then loop options fuel (S iterations) st
      else Ok (S iterations, st)
  end.

End Stochastic.

Definition localRefine (fp : Doubles) (items : list Item) (groupsByIndex : list (list Z))
    (options : LocalRefineOptions) : Result LocalRefineResult :=
  let groups := length groupsByIndex in
  let groupSize := default 0%nat (length <$> groupsByIndex !! 0%nat) in
  if negb (forallb (fun group => bool_decide (length group = groupSize)) (drop 1 groupsByIndex))
  then Throw (Error "localRefine requires equal-sized groups")
  else
    groupSums ← Evaluate.sumGroups items groupsByIndex;
    '(iterations, st) ← loop fp items groups groupSize options (Z.to_nat (maxIters options)) 0
                          (mkState groupsByIndex groupSums (seedState (seed options)) 0);
    mret (mkResult (st_groupsByIndex st) (st_groupSums st) iterations (st_improvements st)).

End LocalRefine.

(** ** KK-inspired partition ([algorithms/kk.ts]) *)

Module KK.

Record PartitionSet : Type := mkPartitionSet { indices : list Z; sum : Z }.

(** [items[idx].capacity] *)
Definition capacityAt (items : list Item) (idx : Z) : Result Z :=
  item ← defined (at_ items idx); mret (capacity item).

(** [indices.reduce((acc, idx) => acc + items[idx].capacity, 0)] *)
Definition sumOf (items : list Item) (idxs : list Z) : Result Z :=
  foldM (fun acc idx => c ← capacityAt items idx; mret (acc + c)) 0 idxs.

(** [splitIntoTwo(items, indices)] *)
Definition splitIntoTwo (items : list Item) (indices : list Z) : Result (list Z * list Z) :=
  withCaps ← foldM (fun acc idx => c ← capacityAt items idx; mret (acc ++ [(idx, c)])) [] indices;
  let sorted := sortBy (fun a b => b.2 - a.2) withCaps in
  let '(left_, right_, _, _) :=
    foldl (fun '(left_, right_, sumL, sumR) '(idx, c) =>
             if sumL <=? sumR
             then (left_ ++ [idx], right_, sumL + c, sumR)
             else (left_, right_ ++ [idx], sumL, sumR + c))
          ([], [], 0, 0) sorted in
  mret (left_, right_).

(** [while (partitions.length < groups)]: every turn that does not [break]
    adds one partition, so [fuel = groups] turns suffice *)
Fixpoint splitLoop (items : list Item) (groups : nat) (fuel : nat)
    (partitions : list PartitionSet) : Result (list PartitionSet) :=
  match fuel with
  | O => Ok partitions
  | S fuel =>
      if bool_decide (length partitions < groups)%nat then
        match sortBy (fun a b => sum b - sum a) partitions with
        | [] => Ok []
        | top :: partitions =>
            if bool_decide (length (indices top) ≤ 1)%nat then Ok partitions
            else
              '(left_, right_) ← splitIntoTwo items (indices top);
              sumL ← sumOf items left_;
              sumR ← sumOf items right_;
              splitLoop items groups fuel
                (partitions ++ [mkPartitionSet left_ sumL; mkPartitionSet right_ sumR])
        end
      else Ok partitions
  end.

(** [while (partitions.length > groups)]: merge the two smallest sets *)
Fixpoint mergeLoop (groups : nat) (fuel : nat) (partitions : list PartitionSet)
  : Result (list PartitionSet) :=
  match fuel with
  | O => Ok partitions
  | S fuel =>
      if bool_decide (groups < length partitions)%nat then
        match sortBy (fun a b => sum a - sum b) partitions with
        | a :: b :: partitions =>
            mergeLoop groups fuel
              (partitions ++ [mkPartitionSet (indices a ++ indices b) (sum a + sum b)])
        | _ => Throw TypeError
        end
      else Ok partitions
  end.

(** first [g] with [groupsByIndex[g].length > groupSize], resp. [< groupSize] *)
Definition findDonor (groupsByIndex : list (list Z)) (groupSize : nat) : option nat :=
  fst <$> list_find (fun group => groupSize < length group)%nat groupsByIndex.
Definition findReceiver (groupsByIndex : list (list Z)) (groupSize : nat) : option nat :=
  fst <$> list_find (fun group => length group < groupSize)%nat groupsByIndex.

(** the scan over the donor's items: [if (d <= bestDelta) { bestDelta = d;
    bestIdxInDonor = i }] *)
Definition bestDonorItem (items : list Item) (sums : list Z) (donorGroup : list Z)
    (donor receiver : nat) : Result (option nat) :=
  acc ← foldM (fun '(bestDelta, bestIdxInDonor) '(i, idx) =>
                 cap ← capacityAt items idx;
                 let temp := <[receiver := sumAt sums receiver + cap]>
                               (<[donor := sumAt sums donor - cap]> sums) in
                 let d := deltaOf temp in
                 mret (if xleb d bestDelta then (d, Some i) else (bestDelta, bestIdxInDonor)))
           (deltaOf sums, None) (imap pair donorGroup);
  mret acc.2.

Fixpoint repairLoop (items : list Item) (groupSize : nat) (fuel : nat)
    (groupsByIndex : list (list Z)) (sums : list Z) : Result (list (list Z)) :=
  match fuel with
  | O => Ok groupsByIndex
  | S fuel =>
      match findDonor groupsByIndex groupSize, findReceiver groupsByIndex groupSize with
      | Some donor, Some receiver =>
          let donorGroup := default [] (groupsByIndex !! donor) in
          bestIdxInDonor ← bestDonorItem items sums donorGroup donor receiver;
          let moveIdx := default (length donorGroup - 1)%nat bestIdxInDonor in
          itemIdx ← defined (donorGroup !! moveIdx);
          cap ← capacityAt items itemIdx;
          repairLoop items groupSize fuel
            (pushAt (alter (delete moveIdx) donor groupsByIndex) receiver itemIdx)
            (<[receiver := sumAt sums receiver + cap]> (<[donor := sumAt sums donor - cap]> sums))
      | _, _ => Ok groupsByIndex
      end
  end.

(** [repairToExactSizes(items, groupsByIndex, groupSize, maxIters)]: the
    array is repaired in place, the result is its final content *)
Definition repairToExactSizes (items : list Item) (groupsByIndex : list (list Z))
    (groupSize : nat) (maxIters : nat) : Result (list (list Z)) :=
  sums ← foldM (fun acc group => s ← sumOf items group; mret (acc ++ [s])) [] groupsByIndex;
  repairLoop items groupSize maxIters groupsByIndex sums.

(** the index tuples of the nested loops of [localOptimizeOneOne] *)
Definition scan (groupsByIndex : list (list Z)) : list (nat * nat * nat * nat) :=
  let groups := length groupsByIndex in
  g1 ← seq 0 groups; g2 ← seq (g1 + 1) (groups - (g1 + 1));
  i1 ← seq 0 (length (default [] (groupsByIndex !! g1)));
  i2 ← seq 0 (length (default [] (groupsByIndex !! g2)));
  [(g1, i1, g2, i2)].

(** the first swap of the scan with [newDelta < currentDelta], applied *)
Fixpoint firstImproving (items : list Item) (groupsByIndex : list (list Z)) (sums : list Z)
    (candidates : list (nat * nat * nat * nat)) : Result (option (list (list Z) * list Z)) :=
  match candidates with
  | [] => Ok None
  | (g1, i1, g2, i2) :: rest =>
      '(idx1, cap1) ← member items groupsByIndex g1 i1;
      '(idx2, cap2) ← member items groupsByIndex g2 i2;
      let newSum1 := sumAt sums g1 - cap1 + cap2 in
      let newSum2 := sumAt sums g2 - cap2 + cap1 in
      let temp := <[g2 := newSum2]> (<[g1 := newSum1]> sums) in
      if xltb (deltaOf temp) (deltaOf sums)
      then Ok (Some (setAt (setAt groupsByIndex g1 i1 idx2) g2 i2 idx1, temp))
      else firstImproving items groupsByIndex sums rest
  end.

Fixpoint localLoop (items : list Item) (fuel : nat) (iters : nat)
    (groupsByIndex : list (list Z)) (sums : list Z) : Result (nat * list (list Z)) :=
  match fuel with
  | O => Ok (iters, groupsByIndex)
  | S fuel =>
      found ← firstImproving items groupsByIndex sums (scan groupsByIndex);
      match found with
      | Some (groupsByIndex, sums) => localLoop items fuel (S iters) groupsByIndex sums
      | None => Ok (S iters, groupsByIndex)
      end
  end.

(** [localOptimizeOneOne(items, groupsByIndex, maxLocalIters)] returns
    [iters]; the refined array comes with it *)
Definition localOptimizeOneOne (items : list Item) (groupsByIndex : list (list Z))
    (maxLocalIters : nat) : Result (nat * list (list Z)) :=
  sums ← Evaluate.sumGroups items groupsByIndex;
  localLoop items maxLocalIters 0 groupsByIndex sums.

Record Options : Type := mkOptions { maxRepairIters : nat; maxLocalIters : nat }.
Definition defaultOptions : Options := mkOptions 1000 300.

Definition kkWith (items : list Item) (groups groupSize : nat) (options : Options)
  : Result Grouping :=
  rethrow (fun _ => AlgorithmError "kk" "partition")
    (let allIndices := map snd (indexed items) in
     let initial := mkPartitionSet allIndices (sumZ (capacities items)) in
     partitions ← splitLoop items groups groups [initial];
     partitions ← mergeLoop groups (length partitions) partitions;
     let groupsByIndex := map indices partitions in
     groupsByIndex ← repairToExactSizes items groupsByIndex groupSize (maxRepairIters options);
     '(localIters, groupsByIndex) ← localOptimizeOneOne items groupsByIndex (maxLocalIters options);
     groupSums ← Evaluate.sumGroups items groupsByIndex;
     groupsById ← foldM (fun acc g =>
                           ids ← foldM (fun ids idx => item ← defined (at_ items idx);
                                                       mret (ids ++ [id item])) [] g;
                           mret (acc ++ [ids])) [] groupsByIndex;
     mret (mkGrouping groupsById groupsByIndex groupSums (deltaOf groupSums)
             (Some (1 + localIters)%nat) "kk")).

Definition kk (items : list Item) (groups groupSize : nat) : Result Grouping :=
  kkWith items groups groupSize defaultOptions.

End KK.

(** the result record shared by [dp], [backtracking] and [flow]
    ([DPResult], [BacktrackingResult], [FlowResult]) *)
Record SolverResult : Type := mkSolverResult {
  sr_groupsByIndex : list (list Z);
  sr_groupSums : list Z;
  sr_iterations : nat;
  sr_method : string
}.

(** [items.findIndex(item => item.id === x)]: [-1] when there is none *)
Definition findIndex (items : list Item) (x : Id) : Z :=
  match list_find (fun item => id item = x) items with
  | Some (i, _) => Z.of_nat i
  | None => -1
  end.

(** [for (i ...) { const idx = sortedIdx[i]; if (idx >= 0) groupsByIndex[i % groups].push(idx) }] *)
Definition cyclicById (items sortedItems : list Item) (groups : nat) : Result (list (list Z)) :=
  foldM (fun groupsByIndex '(i, s) =>
           let idx := findIndex items (id s) in
           if 0 <=? idx then push groupsByIndex (i `mod` groups)%nat idx
           else Ok groupsByIndex)
        (emptyGroups groups) (imap pair sortedItems).

(** ** Flow placeholder ([algorithms/flow.ts]) *)

Module Flow.

(** [let best = 0; for (g = 1 ...) if (groupSums[g] < groupSums[best] &&
    groupsByIndex[g].length < targetGroupSize) best = g] *)
Definition pick (targetGroups targetGroupSize : nat) (groupsByIndex : list (list Z))
    (groupSums : list Z) : nat :=
  foldl (fun best g =>
           if (sumAt groupSums g <? sumAt groupSums best)
              && bool_decide (length (default [] (groupsByIndex !! g)) < targetGroupSize)%nat
           then g else best)
        0%nat (seq 1 (targetGroups - 1)).

Definition place (targetGroups targetGroupSize : nat)
    (st : list (list Z) * list Z * nat) (e : Z * Z) : Result (list (list Z) * list Z * nat) :=
  let '(groupsByIndex, groupSums, iterations) := st in
  let '(idx, cap) := e in
  let best := pick targetGroups targetGroupSize groupsByIndex groupSums in
  groupsByIndex ← push groupsByIndex best idx;
  mret (groupsByIndex, addAt groupSums best cap, S iterations).

Definition flow (items : list Item) (groups groupSize : nat) : Result SolverResult :=
  let totalItems := length items in
  if bool_decide (totalItems ≠ groups * groupSize)%nat
  then Throw (Error "Flow requires exact group size constraints")
  else
    let sorted := sortBy (fun a b => b.2 - a.2)
                    (imap (fun idx it => (Z.of_nat idx, capacity it)) items) in
    '(groupsByIndex, groupSums, iterations) ←
       foldM (place groups groupSize) (emptyGroups groups, zeros groups, 0%nat) sorted;
    mret (mkSolverResult groupsByIndex groupSums iterations "flow-heuristic").

End Flow.

(** ** Dynamic programming ([algorithms/dp.ts]) *)

Module DP.

Record DPOptions : Type := mkOptions {
  maxIters : Z;
  maxTotalSum : Z;
  maxItems : Z;
  (** the k-th evaluation of [performance.now() - startTime > timeLimitMs] *)
  timeUp : nat -> bool
}.

Definition defaultOptions (timeUp : nat -> bool) : DPOptions :=
  mkOptions 1000 10000 20 timeUp.

(** [Math.round(x)] *)
Definition Math_round (x : Q) : Z := Qfloor (Qplus x (1 # 2)).

(** [Math.max(1, Math.floor(1000 / Math.max(...capacities)))]; [None] is
    [Infinity] (largest capacity 0), which turns every scaled sum into [NaN] *)
Definition scaleFactorOf (capacities : list Z) : option Z :=
  match Math_max capacities with
  | Fin 0 => None
  | Fin m => Some (Z.max 1 (1000 / m))
  | _ => Some 1
  end.

(** the table [dp], with [None] for [Infinity], and the table [parent] *)
Record Tables : Type := mkTables {
  tb_dp : list (list (option Z));
  tb_parent : list (list Z)
}.

Definition cell {A} (t : list (list A)) (i j : nat) : option A := t !! i ≫= (fun row => row !! j).
Definition setCell {A} (t : list (list A)) (i j : nat) (v : A) : list (list A) :=
  alter (fun row => <[j := v]> row) i t.

(** the body of the inner loop, for row [i] and column [j] *)
Definition relax (targetGroupSize : nat) (scaledCapacities : option (list Z))
    (scaledTargetSum : Z) (i : nat) (t : Tables) (j : nat) : Tables :=
  if bool_decide (targetGroupSize ≤ i)%nat then
    let prevItems := (i - targetGroupSize)%nat in
    let prevGroups := (j - 1)%nat in
    match cell (tb_dp t) prevItems prevGroups, scaledCapacities with
    | Some (Some prev), Some scaled =>
        let groupSum := sumZ (take targetGroupSize (drop prevItems scaled)) in
        let currentDelta := Z.abs (groupSum - scaledTargetSum) in
        let newDelta := Z.max prev currentDelta in
        match cell (tb_dp t) i j with
        | Some (Some old) =>
            if newDelta <? old
            then mkTables (setCell (tb_dp t) i j (Some newDelta))
                          (setCell (tb_parent t) i j (Z.of_nat prevItems))
            else t
        | _ => mkTables (setCell (tb_dp t) i j (Some newDelta))
                        (setCell (tb_parent t) i j (Z.of_nat prevItems))
        end
    | _, _ => t
    end
  else t.

(** the outer loop over [i], with [iterations++] and the budget [break] *)
Fixpoint fill (options : DPOptions) (targetGroups targetGroupSize : nat)
    (scaledCapacities : option (list Z)) (scaledTargetSum : Z)
    (rows : list nat) (iterations : nat) (t : Tables) : nat * Tables :=
  match rows with
  | [] => (iterations, t)
  | i :: rows =>
      let t := foldl (relax targetGroupSize scaledCapacities scaledTargetSum i) t
                 (seq 1 targetGroups) in
      let iterations := S iterations in
      if (maxIters options <? Z.of_nat iterations) || timeUp options iterations
      then (iterations, t)
      else fill options targetGroups targetGroupSize scaledCapacities scaledTargetSum
             rows iterations t
  end.

(** [while (currentGroups > 0 && currentItems > 0)] of the reconstruction *)
Fixpoint reconstruct (parent : list (list Z)) (currentGroups currentItems : nat)
    (groupsByIndex : list (list Z)) : list (list Z) :=
  match currentGroups with
  | O => groupsByIndex
  | S g =>
      if bool_decide (0 < currentItems)%nat then
        match cell parent currentItems currentGroups with
        | Some prevItems =>
            if 0 <=? prevItems then
              reconstruct parent g (Z.to_nat prevItems)
                (alter (fun group =>
                          group ++ map Z.of_nat (seq (Z.to_nat prevItems)
                                                   (currentItems - Z.to_nat prevItems)))
                       g groupsByIndex)
            else groupsByIndex
        | None => groupsByIndex
        end
      else groupsByIndex
  end.

Definition dp (items : list Item) (groups groupSize : nat) (options : DPOptions)
  : Result SolverResult :=
  let totalItems := length items in
  let targetGroupSize := groupSize in
  let targetGroups := groups in
  if bool_decide (totalItems ≠ targetGroups * targetGroupSize)%nat
  then Throw (Error "DP requires exact group size constraints")
  else if maxItems options <? Z.of_nat totalItems
  then Throw (Error ("DP algorithm restricted to problems with ≤" +:+ pretty (maxItems options)
                     +:+ " items for security. Use heuristic algorithms for larger problems."))
  else
    let sortedItems := sortBy compareItemsByCapacity items in
    let capacities := map capacity sortedItems in
    let totalSum := sumZ capacities in
    if maxTotalSum options <? totalSum
    then Throw (Error ("DP algorithm restricted to problems with total capacity ≤"
                       +:+ pretty (maxTotalSum options)
                       +:+ " for security. Use heuristic algorithms for larger problems."))
    else
      let targetSum := Qdiv (inject_Z totalSum) (inject_Z (Z.of_nat targetGroups)) in
      let scaleFactor := scaleFactorOf capacities in
      let scaledCapacities := (fun f => map (fun cap => cap * f) capacities) <$> scaleFactor in
      let scaledTotalSum := sumZ <$> scaledCapacities in
      let scaledTargetSum := default 0 ((fun f => Math_round (Qmult targetSum (inject_Z f))) <$> scaleFactor) in
      let estimatedMemoryBytes :=
        (fun total => (Z.of_nat totalItems + 1) * (Z.of_nat targetGroups + 1) * (total + 1) * 8)
          <$> scaledTotalSum in
      let maxMemoryBytes := 50 * 1024 * 1024 in
      if default false ((fun bytes => maxMemoryBytes <? bytes) <$> estimatedMemoryBytes)
      then Throw (Error ("DP algorithm would require "
                         +:+ pretty (Math_round (default 0 estimatedMemoryBytes # 1048576))
                         +:+ "MB memory. Use heuristic algorithms for this problem size."))
      else
        let t0 := mkTables
                    (setCell (replicate (totalItems + 1) (replicate (targetGroups + 1) None)) 0 0 (Some 0))
                    (replicate (totalItems + 1) (replicate (targetGroups + 1) (-1))) in
        let '(iterations, t) :=
          fill options targetGroups targetGroupSize scaledCapacities scaledTargetSum
            (seq 1 totalItems) 0 t0 in
        match cell (tb_dp t) totalItems targetGroups with
        | Some (Some _) =>
            let groupsByIndex :=
              reconstruct (tb_parent t) targetGroups totalItems (emptyGroups targetGroups) in
            groupSums ← Evaluate.sumGroups items groupsByIndex;
            mret (mkSolverResult groupsByIndex groupSums iterations "dp-integer-scaled")
        | _ =>
            groupsByIndex ← cyclicById items sortedItems targetGroups;
            groupSums ← Evaluate.sumGroups items groupsByIndex;
            mret (mkSolverResult groupsByIndex groupSums iterations "dp-fallback")
        end.

End DP.

(** ** LPT ([algorithms/lpt.ts]) *)

Module LPT.

Definition MAX_22_COMBINATIONS : Z := 200000.

Record Options : Type := mkOptions {
  useRefinement : bool;
  maxRefinementIters : Z;
  useAdvanced : bool
}.

Definition defaultOptions : Options := mkOptions true 100 false.

Record State : Type := mkState {
  st_groupsById : list (list Id);
  st_groupsByIndex : list (list Z);
  st_groupSums : list Z
}.

(** the group with minimum sum that still has space *)
Definition withSpace (groups groupSize : nat) (groupSums : list Z) (groupCounts : list nat)
  : option nat :=
  fst (foldl (fun '(bestGroup, bestSum) g =>
                match groupCounts !! g, groupSums !! g with
                | Some count, Some sum =>
                    if bool_decide (count < groupSize)%nat && xltb (Fin sum) bestSum
                    then (Some g, Fin sum) else (bestGroup, bestSum)
                | _, _ => (bestGroup, bestSum)
                end)
             (None, PosInf) (seq 0 groups)).

(** [bestGroup = 0; for (g = 1 ...) if (groupSums[g] < groupSums[bestGroup]) bestGroup = g] *)
Definition minSum (groups : nat) (groupSums : list Z) : nat :=
  foldl (fun bestGroup g =>
           if sumAt groupSums g <? sumAt groupSums bestGroup then g else bestGroup)
        0%nat (seq 1 (groups - 1)).

Definition assign (groups groupSize : nat) (acc : State * list nat) (e : Item * Z)
  : Result (State * list nat) :=
  let '(st, groupCounts) := acc in
  let '(item, index) := e in
  let bestGroup := default (minSum groups (st_groupSums st))
                     (withSpace groups groupSize (st_groupSums st) groupCounts) in
  groupsById ← push (st_groupsById st) bestGroup (id item);
  groupsByIndex ← push (st_groupsByIndex st) bestGroup index;
  mret (mkState groupsById groupsByIndex (addAt (st_groupSums st) bestGroup (capacity item)),
        alter S bestGroup groupCounts).

(** [items[idx].id] *)
Definition idAt (items : list Item) (idx : Z) : Result Id :=
  item ← defined (at_ items idx); mret (id item).

Definition scan11 (st : State) : list (nat * nat * nat * nat) :=
  let groups := length (st_groupsById st) in
  g1 ← seq 0 groups; g2 ← seq (g1 + 1) (groups - (g1 + 1));
  i1 ← seq 0 (length (default [] (st_groupsByIndex st !! g1)));
  i2 ← seq 0 (length (default [] (st_groupsByIndex st !! g2)));
  [(g1, i1, g2, i2)].

(** [try11Swaps]: the first swap of the scan that lowers delta is performed *)
Fixpoint try11Swaps (items : list Item) (st : State) (candidates : list (nat * nat * nat * nat))
  : Result (option State) :=
  match candidates with
  | [] => Ok None
  | (g1, i1, g2, i2) :: rest =>
      '(idx1, cap1) ← member items (st_groupsByIndex st) g1 i1;
      '(idx2, cap2) ← member items (st_groupsByIndex st) g2 i2;
      let currentDelta := deltaOf (st_groupSums st) in
      let newSum1 := sumAt (st_groupSums st) g1 - cap1 + cap2 in
      let newSum2 := sumAt (st_groupSums st) g2 - cap2 + cap1 in
      let tempSums := <[g2 := newSum2]> (<[g1 := newSum1]> (st_groupSums st)) in
      if xltb (deltaOf tempSums) currentDelta then
        id1 ← idAt items idx1;
        id2 ← idAt items idx2;
        mret (Some (mkState
                      (setAt (setAt (st_groupsById st) g1 i1 id2) g2 i2 id1)
                      (setAt (setAt (st_groupsByIndex st) g1 i1 idx2) g2 i2 idx1)
                      tempSums))
      else try11Swaps items st rest
  end.

Definition scan22 (st : State) : list (nat * nat * nat * nat * nat * nat) :=
  let groups := length (st_groupsById st) in
  g1 ← seq 0 groups; g2 ← seq (g1 + 1) (groups - (g1 + 1));
  let n1 := length (default [] (st_groupsByIndex st !! g1)) in
  let n2 := length (default [] (st_groupsByIndex st !! g2)) in
  let comb1 := Z.of_nat n1 * (Z.of_nat n1 - 1) / 2 in
  let comb2 := Z.of_nat n2 * (Z.of_nat n2 - 1) / 2 in
  if MAX_22_COMBINATIONS <? comb1 * comb2 then []
  else
    i1a ← seq 0 n1; i1b ← seq (i1a + 1) (n1 - (i1a + 1));
    i2a ← seq 0 n2; i2b ← seq (i2a + 1) (n2 - (i2a + 1));
    [(g1, i1a, i1b, g2, i2a, i2b)].

Fixpoint try22Swaps (items : list Item) (st : State)
    (candidates : list (nat * nat * nat * nat * nat * nat)) : Result (option State) :=
  match candidates with
  | [] => Ok None
  | (g1, i1a, i1b, g2, i2a, i2b) :: rest =>
      '(idx1a, cap1a) ← member items (st_groupsByIndex st) g1 i1a;
      '(idx1b, cap1b) ← member items (st_groupsByIndex st) g1 i1b;
      '(idx2a, cap2a) ← member items (st_groupsByIndex st) g2 i2a;
      '(idx2b, cap2b) ← member items (st_groupsByIndex st) g2 i2b;
      let currentDelta := deltaOf (st_groupSums st) in
      let newSum1 := sumAt (st_groupSums st) g1 - cap1a - cap1b + cap2a + cap2b in
      let newSum2 := sumAt (st_groupSums st) g2 - cap2a - cap2b + cap1a + cap1b in
      let tempSums := <[g2 := newSum2]> (<[g1 := newSum1]> (st_groupSums st)) in
      if xltb (deltaOf tempSums) currentDelta then
        id1a ← idAt items idx1a; id1b ← idAt items idx1b;
        id2a ← idAt items idx2a; id2b ← idAt items idx2b;
        mret (Some (mkState
                      (setAt (setAt (setAt (setAt (st_groupsById st) g1 i1a id2a) g1 i1b id2b)
                                g2 i2a id1a) g2 i2b id1b)
                      (setAt (setAt (setAt (setAt (st_groupsByIndex st) g1 i1a idx2a) g1 i1b idx2b)
                                g2 i2a idx1a) g2 i2b idx1b)
                      tempSums))
      else try22Swaps items st rest
  end.

(** [performLocalRefinement]: returns [iterations] with the refined arrays *)
Fixpoint performLocalRefinement (items : list Item) (fuel : nat) (iterations : nat) (st : State)
  : Result (nat * State) :=
  match fuel with
  | O => Ok (iterations, st)
  | S fuel =>
      let iterations := S iterations in
      found ← try11Swaps items st (scan11 st);
      match found with
      | Some st => performLocalRefinement items fuel iterations st
      | None =>
          found ← try22Swaps items st (scan22 st);
          match found with
          | Some st => performLocalRefinement items fuel iterations st
          | None => Ok (iterations, st)
          end
      end
  end.

Definition greedy (items : list Item) (groups groupSize : nat) : Result State :=
  let indexedItems := sortBy (fun a b => compareItemsByCapacity a.1 b.1) (indexed items) in
  acc ← foldM (assign groups groupSize)
          (mkState (emptyGroups groups) (emptyGroups groups) (zeros groups),
           replicate groups 0%nat)
          indexedItems;
  mret acc.1.

Definition lptPartition (items : list Item) (groups groupSize : nat)
    (useRefinement : bool) (maxRefinementIters : Z) : Result Grouping :=
  let maxGroupsForRefinement := 20%nat in
  let maxGroupSizeForRefinement := 50%nat in
  rethrow (fun _ => AlgorithmError "lpt" "partition")
    (st ← greedy items groups groupSize;
     '(iterations, st, refinementApplied) ←
        (if useRefinement
            && bool_decide (groups ≤ maxGroupsForRefinement)%nat
            && bool_decide (groupSize ≤ maxGroupSizeForRefinement)%nat
         then
           '(n, st) ← performLocalRefinement items (Z.to_nat maxRefinementIters) 0 st;
           mret ((1 + n)%nat, st, true)
         else Ok (1%nat, st, false));
     mret (mkGrouping (st_groupsById st) (st_groupsByIndex st) (st_groupSums st)
             (deltaOf (st_groupSums st)) (Some iterations)
             (if refinementApplied : bool then "lpt-refined" else "lpt"))).

(** the rounds of [advancedLptPartition] *)
Fixpoint refinementRoundsLoop (items : list Item) (rounds : nat) (roundIters : nat)
    (iterations : nat) (st : State) : Result (nat * State) :=
  match rounds with
  | O => Ok (iterations, st)
  | S rounds =>
      '(additionalIters, st) ← performLocalRefinement items roundIters 0 st;
      refinementRoundsLoop items rounds roundIters (iterations + additionalIters) st
  end.

Definition advancedLptPartition (items : list Item) (groups groupSize : nat)
    (useRefinement : bool) (maxRefinementIters : Z) : Result Grouping :=
  result ← lptPartition items groups groupSize false 100;
  let st := mkState (groupsById result) (groupsByIndex result) (groupSums result) in
  '(iterations, st) ←
     (if useRefinement then
        (* Math.min(3, Math.ceil(maxRefinementIters / 50)) *)
        let refinementRounds := Z.min 3 ((maxRefinementIters + 49) / 50) in
        let roundIters := maxRefinementIters / refinementRounds in
        refinementRoundsLoop items (Z.to_nat refinementRounds) (Z.to_nat roundIters) 1 st
      else Ok (1%nat, st));
  mret (mkGrouping (st_groupsById st) (st_groupsByIndex st) (st_groupSums st)
          (deltaOf (st_groupSums st)) (Some iterations) "lpt-advanced").

Definition lpt (items : list Item) (groups groupSize : nat) (options : Options)
  : Result Grouping :=
  if useAdvanced options
  then advancedLptPartition items groups groupSize (useRefinement options)
         (maxRefinementIters options)
  else lptPartition items groups groupSize (useRefinement options) (maxRefinementIters options).

End LPT.

(** ** Comparisons on rationals *)

Definition Qltb (a b : Q) : bool := negb (Qle_bool b a).
Definition Qmaxb (a b : Q) : Q := if Qle_bool a b then b else a.
Definition Qabsb (a : Q) : Q := if Qle_bool 0 a then a else Qopp a.

(** ** Backtracking ([algorithms/backtracking.ts]) *)

Module Backtracking.

Record BacktrackingOptions : Type := mkOptions {
  maxIters : Z;
  enablePruning : bool;
  enableEarlyTermination : bool;
  enableBoundCalculation : bool;
  maxRecursionDepth : Z;
  (** the k-th evaluation of [performance.now() - startTime > timeLimitMs] *)
  timeUp : nat -> bool
}.

Definition defaultOptions (timeUp : nat -> bool) : BacktrackingOptions :=
  mkOptions 10000 true true true 50 timeUp.

(** the variables shared by the recursion: [iterations], [bestDelta]
    ([None] is [Infinity]) and [bestGroups] *)
Record Search : Type := mkSearch {
  iterations : nat;
  bestDelta : option Q;
  bestGroups : list (list nat)
}.

Section Search.
Context (options : BacktrackingOptions) (totalItems targetGroups targetGroupSize : nat)
        (capacities : list Z) (totalSum : Z) (targetSum : Q).

(** [x >= bestDelta] and [x < bestDelta] *)
Definition reaches (x : Q) (best : option Q) : bool :=
  match best with Some b => Qle_bool b x | None => false end.
Definition beats (x : Q) (best : option Q) : bool :=
  match best with Some b => Qltb x b | None => true end.

Definition assigned (currentGroups : list (list nat)) : nat :=
  foldl (fun sum g => (sum + length g)%nat) 0%nat currentGroups.

Definition calculateLowerBound (currentGroups : list (list nat)) (currentSums : list Z) : Q :=
  if negb (enableBoundCalculation options) then 0%Q
  else
    let currentDelta :=
      foldl (fun currentDelta g =>
               let s := sumAt currentSums g in
               if 0 <? s then Qmaxb currentDelta (Qabsb (Qminus (inject_Z s) targetSum))
               else currentDelta)
            0%Q (seq 0 targetGroups) in
    let remainingCapacity := totalSum - sumZ currentSums in
    let remainingItems := (totalItems - assigned currentGroups)%nat in
    if bool_decide (remainingItems = 0%nat) then currentDelta
    else
      let avgRemainingPerGroup :=
        Qdiv (inject_Z remainingCapacity) (inject_Z (Z.of_nat targetGroups)) in
      Qmaxb currentDelta (Qabsb (Qminus avgRemainingPerGroup targetSum)).

Definition canImprove (best : option Q) (currentGroups : list (list nat))
    (currentSums : list Z) (currentDelta : Q) : bool :=
  if negb (enablePruning options) then true
  else if reaches currentDelta best then false
  else if reaches (calculateLowerBound currentGroups currentSums) best then false
  else if bool_decide ((totalItems - assigned currentGroups)%nat = 0%nat) then true
  else
    negb (existsb (fun g =>
                     bool_decide (length (default [] (currentGroups !! g)) = targetGroupSize)
                     && Qltb (Qmult targetSum (3 # 2)) (inject_Z (sumAt currentSums g)))
                  (seq 0 targetGroups)).

(** [backtrackRecursive]; [fuel] is the number of items still to place, so
    the recursion is structural *)
Fixpoint backtrackRecursive (fuel : nat) (itemIndex : nat) (currentGroups : list (list nat))
    (currentSums : list Z) (currentDelta : Q) (recursionDepth : nat) (s : Search) : Search :=
  let s := mkSearch (S (iterations s)) (bestDelta s) (bestGroups s) in
  if (maxIters options <? Z.of_nat (iterations s)) || timeUp options (iterations s) then s
  else if maxRecursionDepth options <? Z.of_nat recursionDepth then s
  else if enableEarlyTermination options
          && match bestDelta s with Some b => Qle_bool b (1 # 10) | None => false end then s
  else if negb (canImprove (bestDelta s) currentGroups currentSums currentDelta) then s
  else if bool_decide (itemIndex = totalItems) then
    if beats currentDelta (bestDelta s)
    then mkSearch (iterations s) (Some currentDelta) currentGroups
    else s
  else
    match fuel with
    | O => s
    | S fuel =>
        foldl (fun s g =>
                 if bool_decide (length (default [] (currentGroups !! g)) < targetGroupSize)%nat
                 then
                   let newSum := sumAt currentSums g + default 0 (capacities !! itemIndex) in
                   let newDelta :=
                     Qmaxb currentDelta (Qabsb (Qminus (inject_Z newSum) targetSum)) in
                   backtrackRecursive fuel (S itemIndex) (pushAt currentGroups g itemIndex)
                     (<[g := newSum]> currentSums) newDelta (S recursionDepth) s
                 else s)
              s (seq 0 targetGroups)
    end.

End Search.

(** the conversion of [bestGroups] back to original item indices *)
Definition toOriginal (items sortedItems : list Item) (bestGroups : list (list nat))
    (targetGroups : nat) : Result (list (list Z)) :=
  foldM (fun acc g =>
           group ← defined (bestGroups !! g);
           converted ← foldM (fun out sortedIndex =>
                                sortedItem ← defined (sortedItems !! sortedIndex);
                                let originalIndex := findIndex items (id sortedItem) in
                                mret (if 0 <=? originalIndex then out ++ [originalIndex] else out))
                          [] group;
           mret (acc ++ [converted]))
        [] (seq 0 targetGroups).

Definition backtracking (items : list Item) (groups groupSize : nat)
    (options : BacktrackingOptions) : Result SolverResult :=
  let totalItems := length items in
  let targetGroupSize := groupSize in
  let targetGroups := groups in
  if bool_decide (totalItems ≠ targetGroups * targetGroupSize)%nat
  then Throw (Error "Backtracking requires exact group size constraints")
  else
    let sortedItems := sortBy (fun a b => capacity b - capacity a) items in
    let capacities := map capacity sortedItems in
    let totalSum := sumZ capacities in
    let targetSum := Qdiv (inject_Z totalSum) (inject_Z (Z.of_nat targetGroups)) in
    let s := backtrackRecursive options totalItems targetGroups targetGroupSize capacities
               totalSum targetSum totalItems 0 (emptyGroups targetGroups) (zeros targetGroups)
               0%Q 0 (mkSearch 0 None []) in
    if bool_decide (length (bestGroups s) = 0%nat) then
      groupsByIndex ← cyclicById items sortedItems targetGroups;
      groupSums ← Evaluate.sumGroups items groupsByIndex;
      mret (mkSolverResult groupsByIndex groupSums (iterations s) "backtracking-fallback")
    else
      groupsByIndex ← toOriginal items sortedItems (bestGroups s) targetGroups;
      groupSums ← Evaluate.sumGroups items groupsByIndex;
      mret (mkSolverResult groupsByIndex groupSums (iterations s) "backtracking").

End Backtracking.

(** ** Metaheuristics ([algorithms/metaheuristic.ts]) *)

Module Metaheuristic.

Inductive MetaheuristicType : Type := Genetic | SimulatedAnnealing | TabuSearch.

(** [initialTemperature], [coolingRate] and [minTemperature] enter only
    through [Doubles.randAccepts]. *)
Record MetaheuristicOptions : Type := mkOptions {
  type : MetaheuristicType;
  maxIters : Z;
  seed : option Z;
  populationSize : nat;
  mutationRate : Q;
  crossoverRate : Q;
  eliteSize : nat;
  tabuSize : nat;
  aspirationCriteria : bool;
  (** the k-th evaluation of [performance.now() - startTime > timeLimitMs] *)
  timeUp : nat -> bool
}.

Definition defaultOptions (type : MetaheuristicType) (timeUp : nat -> bool)
  : MetaheuristicOptions :=
  mkOptions type 1000 None 50 (1 # 10) (8 # 10) 5 20 true timeUp.

Record MetaheuristicResult : Type := mkResult {
  groupsByIndex : list (list Z);
  groupSums : list Z;
  iterations : nat;
  method : string;
  fitness : Q
}.

(** a [number[][]] whose entries may be [undefined] ([None]): a swap at a
    position past the end of a group leaves a hole *)
Definition Solution : Type := list (list (option Z)).

(** [a[i]] and [a[i] = v] on an array that may have holes *)
Definition readEntry (a : list (option Z)) (i : nat) : option Z := mjoin (a !! i).
Definition writeEntry (a : list (option Z)) (i : nat) (v : option Z) : list (option Z) :=
  if bool_decide (i < length a)%nat then <[i := v]> a
  else a ++ replicate (i - length a) None ++ [v].

Section Solver.
Context (fp : Doubles) (items : list Item) (options : MetaheuristicOptions)
        (totalItems targetGroups targetGroupSize : nat).

Definition groupSumOf (group : list (option Z)) : Result Z :=
  foldM (fun sum entry => idx ← defined entry; item ← defined (at_ items idx);
                          mret (sum + capacity item)) 0 group.

Definition calculateGroupSums (groupsByIndex : Solution) : Result (list Z) :=
  foldM (fun groupSums g => group ← defined (groupsByIndex !! g);
                            sum ← groupSumOf group; mret (groupSums ++ [sum]))
        [] (seq 0 targetGroups).

(** [1 / (1 + delta)]; with no group at all [delta] is [-Infinity] and the
    quotient is zero *)
Definition calculateFitness (groupsByIndex : Solution) : Result Q :=
  groupSums ← calculateGroupSums groupsByIndex;
  mret (match deltaOf groupSums with
        | Fin delta => Qinv (inject_Z (1 + delta))
        | _ => 0%Q
        end).

(** [[a[i], a[j]] = [a[j], a[i]]] *)
Definition swapFlat (a : list (option Z)) (i j : nat) : list (option Z) :=
  let aj := readEntry a j in
  let ai := readEntry a i in
  writeEntry (writeEntry a i aj) j ai.

(** the Fisher-Yates loop, [i] from [length - 1] down to [1] *)
Fixpoint shuffle (i : nat) (a : list (option Z)) (randState : Z) : list (option Z) * Z :=
  match i with
  | O => (a, randState)
  | S i' =>
      let randState := lcg randState in
      let j := floorRand fp randState (i + 1) in
      shuffle i' (swapFlat a i j) randState
  end.

Definition generateRandomSolution (randState : Z) : Result (Solution * Z) :=
  let '(shuffledIndices, randState) :=
    shuffle (totalItems - 1) (map (fun i => Some (Z.of_nat i)) (seq 0 totalItems)) randState in
  groupsByIndex ← foldM (fun groupsByIndex i =>
                           push groupsByIndex (i `mod` targetGroups)%nat (readEntry shuffledIndices i))
                     (emptyGroups targetGroups) (seq 0 totalItems);
  mret (groupsByIndex, randState).

(** [[m[g1][i1], m[g2][i2]] = [m[g2][i2], m[g1][i1]]] *)
Definition swapEntries (solution : Solution) (g1 i1 g2 i2 : nat) : Result Solution :=
  group2 ← defined (solution !! g2);
  group1 ← defined (solution !! g1);
  let v2 := readEntry group2 i2 in
  let v1 := readEntry group1 i1 in
  let solution := alter (fun group => writeEntry group i1 v2) g1 solution in
  mret (alter (fun group => writeEntry group i2 v1) g2 solution).

(** [mutate] and [generateNeighbor]: one random cross-group swap *)
Definition generateNeighbor (solution : Solution) (randState : Z) : Result (Solution * Z) :=
  let randState := lcg randState in
  let g1 := floorRand fp randState targetGroups in
  let randState := lcg randState in
  let g2 := floorRand fp randState targetGroups in
  if bool_decide (g1 ≠ g2) then
    let randState := lcg randState in
    let i1 := floorRand fp randState targetGroupSize in
    let randState := lcg randState in
    let i2 := floorRand fp randState targetGroupSize in
    neighbor ← swapEntries solution g1 i1 g2 i2;
    mret (neighbor, randState)
  else Ok (solution, randState).

Definition mutate := generateNeighbor.

(** the first loop of [crossover]: a coin flip per slot *)
Definition inherit (parent1 parent2 : Solution) (acc : Solution * list (option Z) * Z)
    (slot : nat * nat) : Result (Solution * list (option Z) * Z) :=
  let '(child, usedItems, randState) := acc in
  let '(g, i) := slot in
  let randState := lcg randState in
  parent ← defined ((if randBelow fp randState (1 # 2) then parent1 else parent2) !! g);
  let item := readEntry parent i in
  if bool_decide (item ∈ usedItems) then Ok (child, usedItems, randState)
  else
    child ← push child g item;
    mret (child, usedItems ++ [item], randState).

(** the second loop: every unused item goes to the first group with room *)
Definition backfill (usedItems : list (option Z)) (child : Solution) (i : nat) : Solution :=
  if bool_decide (Some (Z.of_nat i) ∈ usedItems) then child
  else
    match list_find (fun group => length group < targetGroupSize)%nat
            (take targetGroups child) with
    | Some (g, _) => pushAt child g (Some (Z.of_nat i))
    | None => child
    end.

Definition crossover (parent1 parent2 : Solution) (randState : Z) : Result (Solution * Z) :=
  '(child, usedItems, randState) ←
     foldM (inherit parent1 parent2) (emptyGroups targetGroups, [], randState)
       (g ← seq 0 targetGroups; i ← seq 0 targetGroupSize; [(g, i)]);
  mret (foldl (backfill usedItems) child (seq 0 totalItems), randState).

(** the population with its fitness, sorted by fitness (descending) *)
Definition Scored : Type := list (Solution * Q).

(** one new member of the population beyond the elite *)
Definition breed (fitnessScores : Scored) (randState : Z) : Result (Solution * Z) :=
  let randState := lcg randState in
  '(newSolution, randState) ←
     (if randBelow fp randState (crossoverRate options) then
        let randState := lcg randState in
        parent1 ← defined (fitnessScores !! floorRand fp randState (eliteSize options));
        let randState := lcg randState in
        parent2 ← defined (fitnessScores !! floorRand fp randState (eliteSize options));
        crossover parent1.1 parent2.1 randState
      else
        let randState := lcg randState in
        copied ← defined (fitnessScores !! floorRand fp randState (populationSize options));
        mret (copied.1, randState));
  let randState := lcg randState in
  if randBelow fp randState (mutationRate options)
  then mutate newSolution randState
  else Ok (newSolution, randState).

Record Best : Type := mkBest { bestSolution : Solution; bestFitness : Q }.

(** the body of one generation after the budget check *)
Definition generation (population : list Solution) (best : Best) (randState : Z)
  : Result (list Solution * Best * Z) :=
  '(fitnessScores, best) ←
     foldM (fun '(fitnessScores, best) solution =>
              fitness ← calculateFitness solution;
              mret (fitnessScores ++ [(solution, fitness)],
                    if Qltb (bestFitness best) fitness then mkBest solution fitness else best))
           ([], best) population;
  let fitnessScores := JS.sort (fun a b => Qle_bool b.2 a.2) fitnessScores in
  elite ← foldM (fun newPopulation i =>
                   scored ← defined (fitnessScores !! i);
                   mret (newPopulation ++ [scored.1]))
            [] (seq 0 (eliteSize options));
  '(newPopulation, randState) ←
     foldM (fun '(newPopulation, randState) _ =>
              '(newSolution, randState) ← breed fitnessScores randState;
              mret (newPopulation ++ [newSolution], randState))
           (elite, randState)
           (seq (eliteSize options) (populationSize options - eliteSize options));
  mret (take (populationSize options) newPopulation, best, randState).

(** [for (generation = 0; generation < maxIters; generation++)] *)
Fixpoint generations (fuel : nat) (iterations : nat) (population : list Solution)
    (best : Best) (randState : Z) : Result (nat * Best) :=
  match fuel with
  | O => Ok (iterations, best)
  | S fuel =>
      let iterations := S iterations in
      if timeUp options iterations then Ok (iterations, best)
      else
        '(population, best, randState) ← generation population best randState;
        generations fuel iterations population best randState
  end.

(** the returned record: [calculateGroupSums(bestSolution)] has read every
    entry, so none of them is [undefined] *)
Definition finish (best : Best) (iterations : nat) (method : string)
  : Result MetaheuristicResult :=
  groupSums ← calculateGroupSums (bestSolution best);
  groupsByIndex ← foldM (fun acc group =>
                           idxs ← foldM (fun idxs entry => idx ← defined entry;
                                                           mret (idxs ++ [idx])) [] group;
                           mret (acc ++ [idxs]))
                     [] (bestSolution best);
  mret (mkResult groupsByIndex groupSums iterations method (bestFitness best)).

Definition geneticAlgorithm (randState : Z) : Result MetaheuristicResult :=
  '(population, randState) ←
     foldM (fun '(population, randState) _ =>
              '(solution, randState) ← generateRandomSolution randState;
              mret (population ++ [solution], randState))
           ([], randState) (seq 0 (populationSize options));
  first ← defined (population !! 0%nat);
  firstFitness ← calculateFitness first;
  '(iterations, best) ← generations (Z.to_nat (maxIters options)) 0 population
                          (mkBest first firstFitness) randState;
  finish best iterations "metaheuristic-genetic".

Fixpoint annealing (fuel : nat) (iterations : nat) (currentSolution : Solution)
    (currentFitness : Q) (best : Best) (randState : Z) : Result (nat * Best) :=
  match fuel with
  | O => Ok (iterations, best)
  | S fuel =>
      let iteration := iterations in
      let iterations := S iterations in
      if timeUp options iterations then Ok (iterations, best)
      else
        '(neighbor, randState) ← generateNeighbor currentSolution randState;
        neighborFitness ← calculateFitness neighbor;
        let deltaFitness := Qminus neighborFitness currentFitness in
        let '(accepted, randState) :=
          if Qltb 0 deltaFitness then (true, randState)
          else let randState := lcg randState in
               (randAccepts fp randState deltaFitness iteration, randState) in
        if accepted : bool then
          annealing fuel iterations neighbor neighborFitness
            (if Qltb (bestFitness best) neighborFitness
             then mkBest neighbor neighborFitness else best)
            randState
        else annealing fuel iterations currentSolution currentFitness best randState
  end.

Definition simulatedAnnealing (randState : Z) : Result MetaheuristicResult :=
  '(currentSolution, randState) ← generateRandomSolution randState;
  currentFitness ← calculateFitness currentSolution;
  '(iterations, best) ← annealing (Z.to_nat (maxIters options)) 0 currentSolution
                          currentFitness (mkBest currentSolution currentFitness) randState;
  finish best iterations "metaheuristic-simulated-annealing".

(** a tabu move [`${g1}-${i1}-${g2}-${i2}`] *)
Definition TabuMove : Type := nat * nat * nat * nat.

Definition neighbourhood : list TabuMove :=
  g1 ← seq 0 targetGroups; g2 ← seq (g1 + 1) (targetGroups - (g1 + 1));
  i1 ← seq 0 targetGroupSize; i2 ← seq 0 targetGroupSize; [(g1, i1, g2, i2)].

(** the scan of all swap neighbours: the best admissible one *)
Definition bestNeighbour (currentSolution : Solution) (best : Best) (tabuList : list TabuMove)
  : Result (option (Solution * Q * TabuMove)) :=
  foldM (fun bestNeighbor '(g1, i1, g2, i2) =>
           neighbor ← swapEntries currentSolution g1 i1 g2 i2;
           neighborFitness ← calculateFitness neighbor;
           let move := (g1, i1, g2, i2) in
           if negb (bool_decide (move ∈ tabuList))
              || (aspirationCriteria options && Qltb (bestFitness best) neighborFitness)
           then
             mret (match bestNeighbor with
                   | Some (_, bestNeighborFitness, _) =>
                       if Qltb bestNeighborFitness neighborFitness
                       then Some (neighbor, neighborFitness, move) else bestNeighbor
                   | None => Some (neighbor, neighborFitness, move)
                   end)
           else Ok bestNeighbor)
        None neighbourhood.

(** [tabuList.add(move); if (tabuList.size > tabuSize) delete the oldest] *)
Definition remember (tabuList : list TabuMove) (move : TabuMove) : list TabuMove :=
  let tabuList := if bool_decide (move ∈ tabuList) then tabuList else tabuList ++ [move] in
  if bool_decide (tabuSize options < length tabuList)%nat then drop 1 tabuList else tabuList.

Fixpoint tabuLoop (fuel : nat) (iterations : nat) (currentSolution : Solution)
    (best : Best) (tabuList : list TabuMove) : Result (nat * Best) :=
  match fuel with
  | O => Ok (iterations, best)
  | S fuel =>
      let iterations := S iterations in
      if timeUp options iterations then Ok (iterations, best)
      else
        found ← bestNeighbour currentSolution best tabuList;
        match found with
        | Some (bestNeighbor, bestNeighborFitness, bestMove) =>
            tabuLoop fuel iterations bestNeighbor
              (if Qltb (bestFitness best) bestNeighborFitness
               then mkBest bestNeighbor bestNeighborFitness else best)
              (remember tabuList bestMove)
        | None => tabuLoop fuel iterations currentSolution best tabuList
        end
  end.

Definition tabuSearch (randState : Z) : Result MetaheuristicResult :=
  '(currentSolution, randState) ← generateRandomSolution randState;
  currentFitness ← calculateFitness currentSolution;
  '(iterations, best) ← tabuLoop (Z.to_nat (maxIters options)) 0 currentSolution
                          (mkBest currentSolution currentFitness) [];
  finish best iterations "metaheuristic-tabu-search".

End Solver.

Definition metaheuristic (fp : Doubles) (items : list Item) (groups groupSize : nat)
    (options : MetaheuristicOptions) : Result MetaheuristicResult :=
  let randState := seedState (seed options) in
  let totalItems := length items in
  let targetGroupSize := groupSize in
  let targetGroups := groups in
  if bool_decide (totalItems ≠ targetGroups * targetGroupSize)%nat
  then Throw (Error "Metaheuristic requires exact group size constraints")
  else
    match type options with
    | Genetic =>
        geneticAlgorithm fp items options totalItems targetGroups targetGroupSize randState
    | SimulatedAnnealing =>
        simulatedAnnealing fp items options totalItems targetGroups targetGroupSize randState
    | TabuSearch =>
        tabuSearch fp items options totalItems targetGroups targetGroupSize randState
    end.

End Metaheuristic.

(** ** Input validation ([validation.ts]) *)

Module Validation.

Definition MAX_SAFE_INTEGER : Z := 9007199254740991.

(** [isItemArray(items)] ([types.ts]): what is left of the type guard once
    the items are typed, [capacity > 0] *)
Definition isItemArray (items : list Item) : bool :=
  forallb (fun item => 0 <? capacity item) items.

(** [createValidationError('items', items, 'array of valid Item objects')] *)
Definition invalidItems : Exn :=
  ValidationError "Invalid items: expected array of valid Item objects".

(** [assertUniqueIds]: the [isItemArray] guard, then the ids compared as
    [Set] members *)
Definition assertUniqueIds (items : list Item) : Result unit :=
  if negb (isItemArray items) then Throw invalidItems
  else if bool_decide (NoDup (map id items)) then Ok tt
  else Throw (ValidationError "Duplicate item IDs found").

(** [validateCapacities]: the [isItemArray] guard, then the scan of the
    capacities; a capacity is a finite number by its type *)
Definition validateCapacities (items : list Item) : Result unit :=
  if negb (isItemArray items) then Throw invalidItems
  else if forallb (fun item => 0 <? capacity item) items then Ok tt
  else Throw (ValidationError "Invalid capacities found").

Definition validateGroupParameters (groups groupSize : nat) : Result unit :=
  if bool_decide (groups = 0%nat) then Throw (ValidationError "Invalid groups: expected positive integer")
  else if bool_decide (groupSize = 0%nat)
  then Throw (ValidationError "Invalid groupSize: expected positive integer")
  else if bool_decide (1000 < groups)%nat
  then Throw (ValidationError "Invalid groups: expected reasonable number (≤ 1000), too many groups may cause performance issues")
  else if bool_decide (1000 < groupSize)%nat
  then Throw (ValidationError "Invalid groupSize: expected reasonable number (≤ 1000), too large group size may cause performance issues")
  else Ok tt.

Definition validateItemCount (items : list Item) (groups groupSize : nat) : Result unit :=
  if bool_decide (length items ≠ groups * groupSize)%nat
  then Throw (ValidationError "Item count mismatch")
  else Ok tt.

Definition validatePartitionInputs (items : list Item) (groups groupSize : nat) : Result unit :=
  if bool_decide (length items = 0%nat)
  then Throw (ValidationError "Items array cannot be empty")
  else
    _ ← validateGroupParameters groups groupSize;
    _ ← validateItemCount items groups groupSize;
    _ ← (if negb (isItemArray items) then Throw invalidItems else Ok tt);
    _ ← assertUniqueIds items;
    _ ← validateCapacities items;
    if bool_decide (sumZ (capacities items) = 0)
    then Throw (InfeasibleError "Total capacity is zero - cannot create meaningful groups")
    else
      match xsub (Math_max (capacities items)) (Math_min (capacities items)) with
      | Fin capacityRange =>
          if MAX_SAFE_INTEGER / 1000 <? capacityRange
          then Throw (ValidationError "Capacity range is too large and may cause numerical precision issues")
          else Ok tt
      | _ => Ok tt
      end.

End Validation.

(** ** Recovery ([recovery.ts]) *)

Module Recovery.

(** [createGracefulDegradation(items, groups, groupSize, originalError)] *)
Definition createGracefulDegradation (items : list Item) (groups groupSize : nat)
  : Result Grouping :=
  let sortedItems := sortBy (fun a b => capacity b.1 - capacity a.1) (indexed items) in
  '(groupsById, groupsByIndex, groupSums) ←
     foldM (fun '(groupsById, groupsByIndex, groupSums) '(i, (item, index)) =>
              let groupIndex := (i `mod` groups)%nat in
              groupsById ← push groupsById groupIndex (id item);
              groupsByIndex ← push groupsByIndex groupIndex index;
              mret (groupsById, groupsByIndex, addAt groupSums groupIndex (capacity item)))
           (emptyGroups groups, emptyGroups groups, zeros groups) (imap pair sortedItems);
  mret (mkGrouping groupsById groupsByIndex groupSums (deltaOf groupSums) None
          "graceful-degradation").

(** A recovery strategy: which errors it handles and what it recovers.  The
    four default strategies all return [null]. *)
Record RecoveryStrategy : Type := mkStrategy {
  name : string;
  canHandle : Exn -> bool;
  recover : list Item -> nat -> nat -> Exn -> Result (option Grouping)
}.

(** [error instanceof AlgorithmError]; none of the modelled exceptions is a
    [TimeoutError], [MemoryError] or [NumericalError] *)
Definition isAlgorithmError (e : Exn) : bool :=
  match e with AlgorithmError _ _ => true | _ => false end.

Definition NumericalPrecisionRecovery : RecoveryStrategy :=
  mkStrategy "NumericalPrecisionRecovery" (fun _ => false) (fun _ _ _ _ => Ok None).
Definition ProblemSizeReduction : RecoveryStrategy :=
  mkStrategy "ProblemSizeReduction" (fun _ => false) (fun _ _ _ _ => Ok None).
Definition TimeoutRecovery : RecoveryStrategy :=
  mkStrategy "TimeoutRecovery" (fun _ => false) (fun _ _ _ _ => Ok None).
Definition SimplerAlgorithmFallback : RecoveryStrategy :=
  mkStrategy "SimplerAlgorithmFallback" isAlgorithmError (fun _ _ _ _ => Ok None).

Definition defaultStrategies : list RecoveryStrategy :=
  [NumericalPrecisionRecovery; ProblemSizeReduction; TimeoutRecovery; SimplerAlgorithmFallback].

(** [RecoveryManager.recover]: the first strategy that handles the error and
    returns a result wins; a strategy that throws is skipped *)
Fixpoint recoverWith (strategies : list RecoveryStrategy) (items : list Item)
    (groups groupSize : nat) (error : Exn) : option Grouping :=
  match strategies with
  | [] => None
  | strategy :: rest =>
      if canHandle strategy error then
        match recover strategy items groups groupSize error with
        | Ok (Some result) =>
            Some (mkGrouping (groupsById result) (groupsByIndex result) (groupSums result)
                    (delta result) (iterations result)
                    (methodUsed result +:+ " (recovered via " +:+ name strategy +:+ ")"))
        | _ => recoverWith rest items groups groupSize error
        end
      else recoverWith rest items groups groupSize error
  end.

Definition defaultRecoveryManager_recover : list Item -> nat -> nat -> Exn -> option Grouping :=
  recoverWith defaultStrategies.

End Recovery.

(** ** The entry point and the [auto] strategy ([index.ts]) *)

Module Index.

Inductive Method : Type :=
  | m_auto | m_lpt | m_kk | m_dp | m_backtracking | m_ilp | m_metaheuristic | m_flow
  | m_roundrobin.

Global Instance Method_eq_dec : EqDecision Method.
Proof. solve_decision. Defined.

Inductive SelectionStrategy : Type := s_speed | s_quality | s_balanced.

Record Hybrid : Type := mkHybrid { enable : option bool; refineIters : option Z }.

Record PartitionOptions : Type := mkPartitionOptions {
  method : option Method;
  timeLimitMs : option Z;
  seed : option Z;
  maxIters : option Z;
  earlyStopDelta : option Z;
  preferredAlgorithms : option (list string);
  disallowedAlgorithms : option (list string);
  selectionStrategy : option SelectionStrategy;
  hybrid : option Hybrid;
  allowPlaceholderAlgorithms : option bool
}.


Record NormalizedOptions : Type := mkNormalizedOptions {
  n_method : Method;
  n_timeLimitMs : Z;
  n_seed : option Z;
  n_maxIters : Z;
  n_earlyStopDelta : Z;
  n_preferredAlgorithms : option (list string);
  n_disallowedAlgorithms : option (list string);
  n_selectionStrategy : option SelectionStrategy;
  n_hybrid : option Hybrid;
  n_allowPlaceholderAlgorithms : bool
}.

Definition normalizeOptions (options : PartitionOptions) : NormalizedOptions :=
  mkNormalizedOptions
    (default m_auto (method options))
    (default 30000 (timeLimitMs options))
    (seed options)
    (default 1000 (maxIters options))
    (default 0 (earlyStopDelta options))
    (preferredAlgorithms options)
    (disallowedAlgorithms options)
    (selectionStrategy options)
    (hybrid options)
    (default false (allowPlaceholderAlgorithms options)).

(** [validatePartitionOptions]: the numeric options must be non-negative;
    the other checks hold by typing *)
Definition validatePartitionOptions (options : PartitionOptions) : Result unit :=
  if forallb (fun o => match o with Some value => 0 <=? value | None => true end)
       [timeLimitMs options; seed options; maxIters options; earlyStopDelta options]
  then Ok tt
  else Throw (ValidationError "Invalid option: expected non-negative finite number").

(** What the orchestrator reads from its environment: the double operations,
    the wall clock (one oracle per polling loop), the recommendations of the
    performance-history tracker as [(algorithm, confidence)] pairs, and the
    evaluation cache together with the identity of the private copy of the
    items. *)
Record Env : Type := mkEnv {
  fp : Doubles;
  autoTimeUp : nat -> bool;
  dpTimeUp : nat -> bool;
  backtrackingTimeUp : nat -> bool;
  metaheuristicTimeUp : nat -> bool;
  recommendations : list (string * Q);
  cache : Evaluate.Cache;
  itemsRef : nat
}.

Definition toLowerAscii (c : ascii) : ascii :=
  let n := nat_of_ascii c in
  if bool_decide (65 ≤ n ≤ 90)%nat then ascii_of_nat (n + 32) else c.

Fixpoint toLowerCase (s : string) : string :=
  match s with
  | EmptyString => EmptyString
  | String c rest => String (toLowerAscii c) (toLowerCase rest)
  end.

Definition has (set : list string) (a : string) : bool := bool_decide (a ∈ set).

Definition determineCandidateAlgorithms (problemSize : nat) (timeLimitMs : Z)
    (allowPlaceholderAlgorithms : bool) : list string :=
  let placeholders := if allowPlaceholderAlgorithms then ["flow"; "ilp"] else [] in
  if bool_decide (problemSize ≤ 12)%nat
  then ["roundrobin"; "dp"; "backtracking"; "lpt"; "kk"] ++ placeholders
  else if bool_decide (problemSize ≤ 60)%nat
  then ["roundrobin"; "lpt"; "kk"] ++ placeholders
  else ["roundrobin"; "lpt"; "kk"]
         ++ (if 300 <=? timeLimitMs then ["metaheuristic"] else [])
         ++ placeholders.

(** [scoreByAlg.get(a) ?? 0] after the loop over the recommendations *)
Definition scoreByAlg (recs : list (string * Q)) (a : string) : Q :=
  default 0%Q
    (foldl (fun score '(algorithm, confidence) =>
              if bool_decide (toLowerCase algorithm = a)
              then Some (Qmaxb (default 0%Q score) confidence) else score)
           None recs).

Definition prioritizeByHistory (recs : list (string * Q)) (candidates : list string)
  : list string :=
  match recs with
  | [] => candidates
  | _ =>
      match candidates with
      | first :: rest =>
          first :: JS.sort (fun a b => Qle_bool (scoreByAlg recs b) (scoreByAlg recs a)) rest
      | [] => ["undefined"]
      end
  end.

Definition qualityPriority (a : string) : Z :=
  if bool_decide (a = "kk") then 3
  else if bool_decide (a = "lpt") || bool_decide (a = "dp") then 2
  else if bool_decide (a = "backtracking") || bool_decide (a = "flow")
          || bool_decide (a = "metaheuristic") then 1
  else 0.

Definition speedPriority (a : string) : Z :=
  if bool_decide (a = "roundrobin") then 3
  else if bool_decide (a = "lpt") || bool_decide (a = "kk") then 2
  else if bool_decide (a = "flow") then 1
  else 0.

Record AutoOptions : Type := mkAutoOptions {
  a_timeLimitMs : Z;
  a_seed : option Z;
  a_maxIters : Z;
  a_earlyStopDelta : Z;
  a_preferredAlgorithms : option (list string);
  a_disallowedAlgorithms : option (list string);
  a_selectionStrategy : option SelectionStrategy;
  a_hybrid : option Hybrid;
  a_isLargeProblem : bool;
  a_allowPlaceholderAlgorithms : option bool
}.

(** the candidate list after filtering and the three reorderings *)
Definition selectCandidates (env : Env) (items : list Item) (options : AutoOptions)
  : list string :=
  let baseCandidates :=
    determineCandidateAlgorithms (length items) (a_timeLimitMs options)
      (default false (a_allowPlaceholderAlgorithms options)) in
  let baseCandidates :=
    match a_disallowedAlgorithms options with
    | Some (d :: ds) =>
        let disallowed := map toLowerCase (d :: ds) in
        List.filter (fun a => negb (has disallowed a)) baseCandidates
    | _ => baseCandidates
    end in
  let baseCandidates :=
    match a_preferredAlgorithms options with
    | Some (p :: ps) =>
        let preferred := map toLowerCase (p :: ps) in
        JS.sort (fun a b => implb (has preferred b) (has preferred a)) baseCandidates
    | _ => baseCandidates
    end in
  let candidates := prioritizeByHistory (recommendations env) baseCandidates in
  match a_selectionStrategy options with
  | Some s_quality => sortBy (fun a b => qualityPriority b - qualityPriority a) candidates
  | Some s_speed => sortBy (fun a b => speedPriority b - speedPriority a) candidates
  | _ => candidates
  end.

(** the [Grouping] that the orchestrator builds from a [dp], [backtracking],
    [flow] or [metaheuristic] result *)
Definition asGrouping (items : list Item) (groupsByIndex : list (list Z)) (groupSums : list Z)
    (iterations : nat) (method : string) : Result Grouping :=
  groupsById ← foldM (fun acc g =>
                        ids ← foldM (fun ids i => item ← defined (at_ items i);
                                                  mret (ids ++ [id item])) [] g;
                        mret (acc ++ [ids])) [] groupsByIndex;
  mret (mkGrouping groupsById groupsByIndex groupSums (deltaOf groupSums) (Some iterations) method).

(** one [case] of the [switch]: the candidate's result, and whether the
    [case] tests it against [earlyStopDelta] *)
Definition runCandidate (env : Env) (items : list Item) (groups groupSize : nat)
    (options : AutoOptions) (algo : string) : option (Result Grouping * bool) :=
  if bool_decide (algo = "roundrobin") then
    Some (RoundRobin.roundRobin items groups groupSize true, true)
  else if bool_decide (algo = "lpt") then
    Some (LPT.lpt items groups groupSize
            (LPT.mkOptions true (Z.max 10 (a_maxIters options / 5)) false), true)
  else if bool_decide (algo = "kk") then
    Some (KK.kk items groups groupSize, true)
  else if bool_decide (algo = "dp") then
    Some (r ← DP.dp items groups groupSize (DP.defaultOptions (dpTimeUp env));
          asGrouping items (sr_groupsByIndex r) (sr_groupSums r) (sr_iterations r) (sr_method r),
          false)
  else if bool_decide (algo = "backtracking") then
    Some (r ← Backtracking.backtracking items groups groupSize
                (Backtracking.mkOptions 10000 true true true
                   (if a_isLargeProblem options then 20 else 50) (backtrackingTimeUp env));
          asGrouping items (sr_groupsByIndex r) (sr_groupSums r) (sr_iterations r) (sr_method r),
          false)
  else if bool_decide (algo = "flow") then
    Some (r ← Flow.flow items groups groupSize;
          asGrouping items (sr_groupsByIndex r) (sr_groupSums r) (sr_iterations r) (sr_method r),
          false)
  else if bool_decide (algo = "metaheuristic") then
    Some (r ← Metaheuristic.metaheuristic (fp env) items groups groupSize
                (Metaheuristic.mkOptions Metaheuristic.Genetic
                   (Z.max 100 (a_maxIters options / 2)) (a_seed options)
                   50 (1 # 10) (8 # 10) 5 20 true (metaheuristicTimeUp env));
          asGrouping items (Metaheuristic.groupsByIndex r) (Metaheuristic.groupSums r)
            (Metaheuristic.iterations r) (Metaheuristic.method r),
          false)
  else None.

(** [tryUpdateBest] *)
Definition tryUpdateBest (bestResult : option Grouping) (candidate : Grouping) : option Grouping :=
  match bestResult with
  | None => Some candidate
  | Some best => if xltb (delta candidate) (delta best) then Some candidate else bestResult
  end.

(** the loop [for (const algo of candidates)]: [inl] is an early [return]
    from inside the loop, [inr] the value of [bestResult] when it ends;
    [checks] counts the budget checks made so far *)
Fixpoint candidateLoop (env : Env) (items : list Item) (groups groupSize : nat)
    (options : AutoOptions) (checks : nat) (candidates : list string)
    (bestResult : option Grouping) : Grouping + option Grouping :=
  match candidates with
  | [] => inr bestResult
  | algo :: rest =>
      if autoTimeUp env checks then inr bestResult
      else
        match runCandidate env items groups groupSize options algo with
        | Some (Ok candidate, earlyStop) =>
            let bestResult := tryUpdateBest bestResult candidate in
            if earlyStop && xleb (delta candidate) (Fin (a_earlyStopDelta options))
            then inl candidate
            else candidateLoop env items groups groupSize options (S checks) rest bestResult
        | _ => candidateLoop env items groups groupSize options (S checks) rest bestResult
        end
  end.

(** the optional hybrid refinement of [bestResult] *)
Definition hybridRefine (items : list Item) (groups groupSize : nat) (options : AutoOptions)
    (bestResult : option Grouping) : option Grouping :=
  match a_hybrid options, bestResult with
  | Some h, Some currentBest =>
      if default false (enable h) then
        let refineIters := Z.max 5 (default (a_maxIters options / 10) (refineIters h)) in
        match LPT.lpt items groups groupSize (LPT.mkOptions true refineIters false) with
        | Ok refined =>
            if xltb (delta refined) (delta currentBest) then Some refined else bestResult
        | Throw _ => bestResult
        end
      else bestResult
  | _, _ => bestResult
  end.

Definition executeAutoStrategy (env : Env) (items : list Item) (groups groupSize : nat)
    (options : AutoOptions) : Result Grouping :=
  let candidates := selectCandidates env items options in
  match candidateLoop env items groups groupSize options 0 candidates None with
  | inl early => Ok early
  | inr bestResult =>
      match hybridRefine items groups groupSize options bestResult with
      | Some best => Ok best
      | None => Recovery.createGracefulDegradation items groups groupSize
      end
  end.

(** the [switch] on the method *)
Definition runMethod (env : Env) (itemsCopy : list Item) (groups groupSize : nat)
    (normalizedOptions : NormalizedOptions) (isLargeProblem : bool) : Result Grouping :=
  match n_method normalizedOptions with
  | m_roundrobin => RoundRobin.roundRobin itemsCopy groups groupSize true
  | m_lpt =>
      LPT.lpt itemsCopy groups groupSize
        (LPT.mkOptions (negb isLargeProblem) (n_maxIters normalizedOptions / 10) false)
  | m_kk => KK.kk itemsCopy groups groupSize
  | _ =>
      executeAutoStrategy env itemsCopy groups groupSize
        (mkAutoOptions (n_timeLimitMs normalizedOptions) (n_seed normalizedOptions)
           (n_maxIters normalizedOptions) (n_earlyStopDelta normalizedOptions)
           (n_preferredAlgorithms normalizedOptions) (n_disallowedAlgorithms normalizedOptions)
           (n_selectionStrategy normalizedOptions) (n_hybrid normalizedOptions)
           isLargeProblem None)
  end.

(** the inner [try] block after the [switch] *)
Definition validateAndScore (env : Env) (itemsCopy : list Item) (groupSize : nat)
    (isLargeProblem : bool) (result : Grouping) : Result Grouping * Evaluate.Cache :=
  if negb (Evaluate.validateGrouping itemsCopy (groupsByIndex result) groupSize)
  then (Throw (AlgorithmError (methodUsed result) "result validation"), cache env)
  else
    match Evaluate.evaluateGrouping (cache env) (itemsRef env) itemsCopy (groupsByIndex result)
            (if isLargeProblem then Evaluate.mkOptions 500 25 50
             else Evaluate.mkOptions 1000 50 100) with
    | (Ok evalResult, cache) =>
        (Ok (mkGrouping (groupsById result) (groupsByIndex result)
               (Evaluate.groupSums evalResult) (Evaluate.delta evalResult)
               (iterations result) (methodUsed result)), cache)
    | (Throw e, cache) => (Throw e, cache)
    end.

(** [ensureInputImmutability(items)] *)
Definition ensureInputImmutability (items : list Item) : list Item :=
  map (fun item => mkItem (id item) (capacity item)) items.

Definition isLargeProblem (totalItems groups groupSize : nat) : bool :=
  bool_decide (50 < totalItems)%nat || bool_decide (10 < groups)%nat
  || bool_decide (20 < groupSize)%nat.

Definition isVeryLargeProblem (totalItems groups groupSize : nat) : bool :=
  bool_decide (100 < totalItems)%nat || bool_decide (20 < groups)%nat
  || bool_decide (50 < groupSize)%nat.

(** the early fallback to simpler heuristics for very large problems *)
Definition forceSimpler (isVeryLarge : bool) (normalizedOptions : NormalizedOptions)
  : NormalizedOptions :=
  if isVeryLarge && bool_decide (n_method normalizedOptions = m_auto)
  then mkNormalizedOptions (n_method normalizedOptions) (n_timeLimitMs normalizedOptions)
         (n_seed normalizedOptions) (n_maxIters normalizedOptions)
         (n_earlyStopDelta normalizedOptions)
         (Some ["roundrobin"; "lpt"]) (Some ["dp"; "backtracking"; "metaheuristic"])
         (n_selectionStrategy normalizedOptions) (n_hybrid normalizedOptions)
         (n_allowPlaceholderAlgorithms normalizedOptions)
  else normalizedOptions.

(** the inner [try] block: run the method, validate and score its result *)
Definition attempt (env : Env) (itemsCopy : list Item) (groups groupSize : nat)
    (normalizedOptions : NormalizedOptions) (isLarge : bool)
  : Result Grouping * Evaluate.Cache :=
  match runMethod env itemsCopy groups groupSize normalizedOptions isLarge with
  | Ok result => validateAndScore env itemsCopy groupSize isLarge result
  | Throw e => (Throw e, cache env)
  end.

(** the inner [catch]: recovery, then graceful degradation; an exception of
    the degradation itself reaches the outer [catch] *)
Definition recoverOrDegrade (itemsCopy : list Item) (groups groupSize : nat)
    (outcome : Result Grouping * Evaluate.Cache) : Result Grouping * Evaluate.Cache :=
  match outcome with
  | (Ok result, cache) => (Ok result, cache)
  | (Throw algorithmError, cache) =>
      match Recovery.defaultRecoveryManager_recover itemsCopy groups groupSize algorithmError with
      | Some recoveredResult => (Ok recoveredResult, cache)
      | None =>
          (rethrow (fun e => AlgorithmError "partitionBalanced" "main function")
             (Recovery.createGracefulDegradation itemsCopy groups groupSize),
           cache)
      end
  end.

Definition partitionBalanced (env : Env) (items : list Item) (groups groupSize : nat)
    (options : PartitionOptions) : Result Grouping * Evaluate.Cache :=
  match Validation.validatePartitionInputs items groups groupSize ≫=
          (fun _ => validatePartitionOptions options) with
  | Throw e => (Throw e, cache env)
  | Ok _ =>
      let itemsCopy := ensureInputImmutability items in
      let normalizedOptions := normalizeOptions options in
      let totalItems := length itemsCopy in
      let isLarge := isLargeProblem totalItems groups groupSize in
      let isVeryLarge := isVeryLargeProblem totalItems groups groupSize in
      let normalizedOptions := forceSimpler isVeryLarge normalizedOptions in
      recoverOrDegrade itemsCopy groups groupSize
        (attempt env itemsCopy groups groupSize normalizedOptions isLarge)
  end.

End Index.

(** ** A further function of [validation.ts] *)

(** [isFeasible(items, groups, groupSize)]: [true] when the four checks
    return, [false] when one of them throws *)
Definition isFeasible (items : list Item) (groups groupSize : nat) : bool :=
  isOk (_ ← Validation.assertUniqueIds items;
        _ ← Validation.validateCapacities items;
        _ ← Validation.validateGroupParameters groups groupSize;
        Validation.validateItemCount items groups groupSize).

(** ** Local refinement on IEEE doubles

    The capacities of the source are doubles.  The definitions of this
    module are those of [LocalRefine] and of the evaluator with every
    capacity, sum and delta a primitive binary64 float, so that additions
    and subtractions round as they do in the source. *)

Module OnDoubles.
Import PrimFloat.

Record Item64 : Type := mkItem64 { id64 : Id; capacity64 : float }.

(** [fromCapacities(capacities)] *)
Definition fromCapacities (caps : list float) : list Item64 :=
  imap (fun index capacity => mkItem64 (IdStr ("item" +:+ pretty index)) capacity) caps.

(** [Math.max(a, b)] and [Math.min(a, b)]: [NaN] when an argument is [NaN],
    and [+0] is larger than [-0] *)
Definition max2 (a b : float) : float :=
  if is_nan a || is_nan b then nan
  else if ltb a b then b
  else if ltb b a then a
  else if get_sign a then b else a.

Definition min2 (a b : float) : float :=
  if is_nan a || is_nan b then nan
  else if ltb a b then a
  else if ltb b a then b
  else if get_sign a then a else b.

(** [Math.max(...l)] and [Math.min(...l)] *)
Definition Math_max (l : list float) : float := foldl max2 neg_infinity l.
Definition Math_min (l : list float) : float := foldl min2 infinity l.

(** [Math.max(...sums) - Math.min(...sums)] *)
Definition deltaOf (sums : list float) : float := sub (Math_max sums) (Math_min sums).

(** [let s = 0; for (i ...) s += items[group[i]].capacity] *)
Fixpoint sumGroup (items : list Item64) (idxs : list Z) (sum : float) : Result float :=
  match idxs with
  | [] => Ok sum
  | i :: rest => it ← defined (at_ items i); sumGroup items rest (add sum (capacity64 it))
  end.

Fixpoint sumGroups (items : list Item64) (groupsByIndex : list (list Z))
  : Result (list float) :=
  match groupsByIndex with
  | [] => Ok []
  | idxs :: rest =>
      sum ← sumGroup items idxs zero;
      sums ← sumGroups items rest;
      mret (sum :: sums)
  end.

(** the [groupSums] and the [delta] of [evaluateGroupingFastCPU]: [maxSum]
    from [-Infinity] by [if (s > maxSum)], [minSum] from [Infinity] by
    [if (s < minSum)] *)
Definition evaluateGroupingFastCPU (items : list Item64) (groupsByIndex : list (list Z))
  : Result (list float * float) :=
  groupSums ← sumGroups items groupsByIndex;
  let '(maxSum, minSum) :=
    foldl (fun '(maxSum, minSum) s =>
             (if ltb maxSum s then s else maxSum, if ltb s minSum then s else minSum))
          (neg_infinity, infinity) groupSums in
  mret (groupSums, sub maxSum minSum).

Record LocalRefineResult : Type := mkResult {
  groupsByIndex : list (list Z);
  groupSums : list float;
  iterations : nat;
  improvements : nat
}.

Record State : Type := mkState {
  st_groupsByIndex : list (list Z);
  st_groupSums : list float;
  st_randState : Z;
  st_improvements : nat
}.

Record Move : Type := mkMove {
  mv_writes : list (nat * nat * Z);
  mv_g1 : nat;
  mv_newSum1 : float;
  mv_g2 : nat;
  mv_newSum2 : float
}.

Definition applyMove (m : Move) (st : State) : State :=
  mkState
    (foldl (fun gbi '(g, i, v) => setAt gbi g i v) (st_groupsByIndex st) (mv_writes m))
    (<[mv_g2 m := mv_newSum2 m]> (<[mv_g1 m := mv_newSum1 m]> (st_groupSums st)))
    (st_randState st) (st_improvements st).

(** [groupSums.filter((_, gg) => gg !== g1 && gg !== g2)] *)
Definition otherSums (groupSums : list float) (g1 g2 : nat) : list float :=
  map snd (filter (fun p => p.1 ≠ g1 ∧ p.1 ≠ g2) (imap pair groupSums)).

(** [Math.max(maxOther, newSum1, newSum2) - Math.min(minOther, newSum1, newSum2)] *)
Definition newDeltaOf (groupSums : list float) (g1 g2 : nat) (newSum1 newSum2 : float)
  : float :=
  let maxOther := Math_max (otherSums groupSums g1 g2) in
  let minOther := Math_min (otherSums groupSums g1 g2) in
  sub (Math_max [maxOther; newSum1; newSum2]) (Math_min [minOther; newSum1; newSum2]).

(** [idx = groupsByIndex[g][i]] together with [items[idx].capacity] *)
Definition member (items : list Item64) (groupsByIndex : list (list Z)) (g i : nat)
  : Result (Z * float) :=
  group ← defined (groupsByIndex !! g);
  idx ← defined (group !! i);
  item ← defined (at_ items idx);
  mret (idx, capacity64 item).

(** [groupSums[g]] where [g] is a group that has just been read *)
Definition sumAt (groupSums : list float) (g : nat) : float := default zero (groupSums !! g).

Definition swap11 (items : list Item64) (st : State) (g1 i1 g2 i2 : nat)
  : Result (float * Move) :=
  '(idx1, cap1) ← member items (st_groupsByIndex st) g1 i1;
  '(idx2, cap2) ← member items (st_groupsByIndex st) g2 i2;
  let newSum1 := add (sub (sumAt (st_groupSums st) g1) cap1) cap2 in
  let newSum2 := add (sub (sumAt (st_groupSums st) g2) cap2) cap1 in
  mret (newDeltaOf (st_groupSums st) g1 g2 newSum1 newSum2,
        mkMove [(g1, i1, idx2); (g2, i2, idx1)] g1 newSum1 g2 newSum2).

Definition swap22 (items : list Item64) (st : State) (g1 i1a i1b g2 i2a i2b : nat)
  : Result (float * Move) :=
  '(idx1a, c1a) ← member items (st_groupsByIndex st) g1 i1a;
  '(idx1b, c1b) ← member items (st_groupsByIndex st) g1 i1b;
  '(idx2a, c2a) ← member items (st_groupsByIndex st) g2 i2a;
  '(idx2b, c2b) ← member items (st_groupsByIndex st) g2 i2b;
  let newSum1 := add (add (sub (sub (sumAt (st_groupSums st) g1) c1a) c1b) c2a) c2b in
  let newSum2 := add (add (sub (sub (sumAt (st_groupSums st) g2) c2a) c2b) c1a) c1b in
  mret (newDeltaOf (st_groupSums st) g1 g2 newSum1 newSum2,
        mkMove [(g1, i1a, idx2a); (g1, i1b, idx2b); (g2, i2a, idx1a); (g2, i2b, idx1b)]
          g1 newSum1 g2 newSum2).

Definition getDelta (st : State) : float := deltaOf (st_groupSums st).

Definition applyIfBetter (st : State) (c : float * Move) : bool * State :=
  let '(newDelta, move) := c in
  if ltb newDelta (getDelta st) then (true, applyMove move st) else (false, st).

Definition apply11IfBetter (items : list Item64) (st : State) (g1 i1 g2 i2 : nat)
  : Result (bool * State) :=
  c ← swap11 items st g1 i1 g2 i2; mret (applyIfBetter st c).

Definition apply22IfBetter (items : list Item64) (st : State) (g1 i1a i1b g2 i2a i2b : nat)
  : Result (bool * State) :=
  c ← swap22 items st g1 i1a i1b g2 i2a i2b; mret (applyIfBetter st c).

(** [if (newDelta < bestDelta) { bestDelta = newDelta; bestMove = ... }] *)
Definition keepBetter (acc : float * option Move) (c : float * Move) : float * option Move :=
  if ltb c.1 acc.1 then (c.1, Some c.2) else acc.

Definition iterateBest (items : list Item64) (options : LocalRefine.LocalRefineOptions)
    (groups groupSize : nat) (st : State) : Result (bool * State) :=
  let acc := (getDelta st, None) in
  acc ← (if LocalRefine.enable11 options
         then foldM (fun acc '(g1, i1, g2, i2) =>
                       c ← swap11 items st g1 i1 g2 i2; mret (keepBetter acc c))
                acc (LocalRefine.scan11 groups groupSize)
         else Ok acc);
  acc ← (if LocalRefine.enable22 options
         then foldM (fun acc '(g1, i1a, i1b, g2, i2a, i2b) =>
                       c ← swap22 items st g1 i1a i1b g2 i2a i2b; mret (keepBetter acc c))
                acc (LocalRefine.scan22 groups groupSize)
         else Ok acc);
  match acc.2 with
  | Some bestMove =>
      let st' := applyMove bestMove st in
      Ok (true, mkState (st_groupsByIndex st') (st_groupSums st') (st_randState st')
                  (S (st_improvements st')))
  | None => Ok (false, st)
  end.

Section Stochastic.
Context (fp : Doubles) (items : list Item64) (groups groupSize : nat).

Definition rand (st : State) : Z * State :=
  let r := lcg (st_randState st) in
  (r, mkState (st_groupsByIndex st) (st_groupSums st) r (st_improvements st)).

Definition randIndex (n : nat) (st : State) : nat * State :=
  let '(r, st) := rand st in (floorRand fp r n, st).

Definition randOther (n a : nat) (st : State) : nat * State :=
  let '(b, st) := randIndex n st in
  (if bool_decide (b = a) then ((b + 1) `mod` n)%nat else b, st).

Definition improved (st : State) : State :=
  mkState (st_groupsByIndex st) (st_groupSums st) (st_randState st) (S (st_improvements st)).

Fixpoint try11 (attempts : nat) (st : State) : Result (bool * State) :=
  match attempts with
  | O => Ok (false, st)
  | S attempts =>
      let '(g1, st) := randIndex groups st in
      let '(g2, st) := randOther groups g1 st in
      let '(i1, st) := randIndex groupSize st in
      let '(i2, st) := randIndex groupSize st in
      '(applied, st) ← apply11IfBetter items st g1 i1 g2 i2;
      if applied : bool then Ok (true, improved st) else try11 attempts st
  end.

Fixpoint try22 (attempts : nat) (st : State) : Result (bool * State) :=
  match attempts with
  | O => Ok (false, st)
  | S attempts =>
      let '(g1, st) := randIndex groups st in
      let '(g2, st) := randOther groups g1 st in
      let '(i1a, st) := randIndex groupSize st in
      let '(i1b, st) := randOther groupSize i1a st in
      let '(i2a, st) := randIndex groupSize st in
      let '(i2b, st) := randOther groupSize i2a st in
      '(applied, st) ← apply22IfBetter items st g1 i1a i1b g2 i2a i2b;
      if applied : bool then Ok (true, improved st) else try22 attempts st
  end.

Definition iterateStochastic (options : LocalRefine.LocalRefineOptions) (st : State)
  : Result (bool * State) :=
  let attempts := Nat.max 100 (groups * groupSize * 2) in
  '(found, st) ← (if LocalRefine.enable11 options then try11 attempts st else Ok (false, st));
  if found : bool then Ok (true, st)
  else
    '(found, st) ← (if LocalRefine.enable22 options then try22 attempts st
                    else Ok (false, st));
    Ok (found, st).

Fixpoint loop (options : LocalRefine.LocalRefineOptions) (fuel : nat) (iterations : nat)
    (st : State) : Result (nat * State) :=
  match fuel with
  | O => Ok (iterations, st)
  | S fuel =>
      '(improved, st) ← match LocalRefine.strategy options with
                        | LocalRefine.best => iterateBest items options groups groupSize st
                        | LocalRefine.stochastic => iterateStochastic options st
                        end;
      if improved : bool then loop options fuel (S iterations) st
      else Ok (S iterations, st)
  end.

End Stochastic.

Definition localRefine (fp : Doubles) (items : list Item64) (groupsByIndex : list (list Z))
    (options : LocalRefine.LocalRefineOptions) : Result LocalRefineResult :=
  let groups := length groupsByIndex in
  let groupSize := default 0%nat (length <$> groupsByIndex !! 0%nat) in
  if negb (forallb (fun group => bool_decide (length group = groupSize)) (drop 1 groupsByIndex))
  then Throw (Error "localRefine requires equal-sized groups")
  else
    groupSums ← sumGroups items groupsByIndex;
    '(iterations, st) ← loop fp items groups groupSize options
                          (Z.to_nat (LocalRefine.maxIters options)) 0
                          (mkState groupsByIndex groupSums
                             (seedState (LocalRefine.seed options)) 0);
    mret (mkResult (st_groupsByIndex st) (st_groupSums st) iterations (st_improvements st)).

End OnDoubles.

(** ** Vocabulary of the statements *)

(** [partitionBalanced] scores its result on a private copy of the items,
    an array that the cache has never seen: the cache has no bucket for it. *)
Definition fresh (env : Index.Env) : Prop :=
  EvaluationCache.store (Index.cache env) !! Index.itemsRef env = None.

(** An environment in which no budget check ever fires, the performance
    history is empty and the cache is the initial one; and one in which the
    orchestrator's budget is already exhausted at its first check. *)
Definition never : nat -> bool := fun _ => false.
Definition always : nat -> bool := fun _ => true.
Definition idleEnv : Index.Env :=
  Index.mkEnv exactDoubles never never never never [] Evaluate.globalEvaluationCache 0.
Definition expiredEnv : Index.Env :=
  Index.mkEnv exactDoubles always never never never [] Evaluate.globalEvaluationCache 0.

(** what the inner [try] block makes of a method's result when the cache
    misses: the validated grouping with the evaluator's sums and delta *)
Definition scored (items : list Item) (groupSize : nat) (result : Grouping) : Result Grouping :=
  if negb (Evaluate.validateGrouping items (groupsByIndex result) groupSize)
  then Throw (AlgorithmError (methodUsed result) "result validation")
  else
    match Evaluate.evaluateGroupingFastCPU items (groupsByIndex result) with
    | Ok evalResult =>
        Ok (mkGrouping (groupsById result) (groupsByIndex result)
              (Evaluate.groupSums evalResult) (Evaluate.delta evalResult)
              (iterations result) (methodUsed result))
    | Throw _ => Throw (AlgorithmError "evaluate" "grouping evaluation")
    end.

(** The invariant of the refinement loop: [groupSums] holds the sums of
    [groupsByIndex], which has [groups] groups of [groupSize] members. *)
Definition tracked (items : list Item) (groups groupSize : nat) (st : LocalRefine.State) : Prop :=
  Evaluate.sumGroups items (LocalRefine.st_groupsByIndex st) = Ok (LocalRefine.st_groupSums st)
  ∧ length (LocalRefine.st_groupsByIndex st) = groups
  ∧ Forall (fun group => length group = groupSize) (LocalRefine.st_groupsByIndex st).

(** the delta of [st'] is not larger than that of [st] *)
Definition noWorse (st st' : LocalRefine.State) : Prop :=
  xleb (deltaOf (LocalRefine.st_groupSums st')) (deltaOf (LocalRefine.st_groupSums st)) = true.

(** what the scan of [iterateBest] holds in [bestDelta] and [bestMove] *)
Definition bestSoFar (items : list Item) (groups groupSize : nat) (st : LocalRefine.State)
    (acc : xnum * option LocalRefine.Move) : Prop :=
  xleb acc.1 (LocalRefine.getDelta st) = true
  ∧ match acc.2 with
    | None => True
    | Some m =>
        tracked items groups groupSize (LocalRefine.applyMove m st)
        ∧ deltaOf (LocalRefine.st_groupSums (LocalRefine.applyMove m st)) = acc.1
    end.

(** how many of the positions below [n] a cyclic deal over [k] groups gives
    to group [g] *)
Definition dealt (k n g : nat) : nat :=
  (n / k + (if bool_decide (g < n mod k) then 1 else 0))%nat.

Definition lengthsAt (k n : nat) (groupsByIndex : list (list Z)) : Prop :=
  ∀ g group, groupsByIndex !! g = Some group -> length group = dealt k n g.

(** the methods whose code reads the clock for its statistics only *)
Definition clockFree (m : Index.Method) : bool :=
  match m with
  | Index.m_roundrobin | Index.m_lpt | Index.m_kk => true
  | _ => false
  end.

(** two option records of the metaheuristic that differ at most in what the
    clock answers *)
Definition sameSearch (o1 o2 : Metaheuristic.MetaheuristicOptions) : Prop :=
  Metaheuristic.type o1 = Metaheuristic.type o2
  ∧ Metaheuristic.maxIters o1 = Metaheuristic.maxIters o2
  ∧ Metaheuristic.seed o1 = Metaheuristic.seed o2
  ∧ Metaheuristic.populationSize o1 = Metaheuristic.populationSize o2
  ∧ Metaheuristic.mutationRate o1 = Metaheuristic.mutationRate o2
  ∧ Metaheuristic.crossoverRate o1 = Metaheuristic.crossoverRate o2
  ∧ Metaheuristic.eliteSize o1 = Metaheuristic.eliteSize o2
  ∧ Metaheuristic.tabuSize o1 = Metaheuristic.tabuSize o2
  ∧ Metaheuristic.aspirationCriteria o1 = Metaheuristic.aspirationCriteria o2.

(** the budget checks of the two runs have the same outcomes *)
Definition sameChecks (o1 o2 : Metaheuristic.MetaheuristicOptions) : Prop :=
  ∀ k, (1 ≤ k ≤ Z.to_nat (Metaheuristic.maxIters o1))%nat ->
       Metaheuristic.timeUp o1 k = Metaheuristic.timeUp o2 k.

(** the options of the reproducibility tests: seed 42, ten iterations *)
Definition seeded (type : Metaheuristic.MetaheuristicType) (timeUp : nat -> bool)
  : Metaheuristic.MetaheuristicOptions :=
  Metaheuristic.mkOptions type 10 (Some 42) 50 (1 # 10) (8 # 10) 5 20 true timeUp.

(** a clock that runs out only after the tenth budget check *)
Definition lateClock : nat -> bool := fun k => bool_decide (10 < k)%nat.

(** the bucket of an items array, its oldest key and whether [set] evicts *)
Definition bucketOf {T} (c : EvaluationCache.t T) (itemsRef : nat) : EvaluationCache.Bucket T :=
  default [] (EvaluationCache.store c !! itemsRef).

Definition oldestKey {T} (c : EvaluationCache.t T) (itemsRef : nat) : option Z :=
  fst <$> head (bucketOf c itemsRef).

Definition full {T} (c : EvaluationCache.t T) (itemsRef : nat) : bool :=
  bool_decide (EvaluationCache.maxEntriesPerItemsRef c ≤ length (bucketOf c itemsRef))%nat.

(** no bucket holds more entries than the cache allows *)
Definition bounded {T} (c : EvaluationCache.t T) : Prop :=
  (0 < EvaluationCache.maxEntriesPerItemsRef c)%nat
  ∧ ∀ itemsRef bucket,
      EvaluationCache.store c !! itemsRef = Some bucket ->
      (length bucket ≤ EvaluationCache.maxEntriesPerItemsRef c)%nat.

(** every index of the grouping is an index of [items] *)
Definition allInRange (items : list Item) (groupsByIndex : list (list Z)) : bool :=
  forallb (forallb (fun idx => (0 <=? idx) && (idx <? Z.of_nat (length items)))) groupsByIndex.

(** the capacity behind an index, and zero for an index that has no item *)
Definition capOf (items : list Item) (idx : Z) : Z :=
  default 0 (capacity <$> at_ items idx).

(** an exact partition of the item indices into groups of [groupSize] *)
Definition isPartition (items : list Item) (groupsByIndex : list (list Z)) (groupSize : nat)
  : Prop :=
  Forall (fun group => length group = groupSize) groupsByIndex
  ∧ concat groupsByIndex ≡ₚ Z.of_nat <$> seq 0 (length items).

(** the inputs that pass the checks on shape, capacities and ids *)
Definition feasibleShape (items : list Item) (groups groupSize : nat) : Prop :=
  (0 < groups ≤ 1000)%nat ∧ (0 < groupSize ≤ 1000)%nat
  ∧ length items = (groups * groupSize)%nat
  ∧ Forall (fun item => 0 < capacity item) items
  ∧ NoDup (map id items).

(** no two capacities are further apart than [Number.MAX_SAFE_INTEGER / 1000] *)
Definition narrowRange (items : list Item) : Prop :=
  ∀ a b, a ∈ items -> b ∈ items ->
         capacity a - capacity b <= Validation.MAX_SAFE_INTEGER / 1000.

(** [a] does not come after [b] in the order of [compareItemsByCapacity] *)
Definition notAfter (a b : Item) : Prop := compareItemsByCapacity a b <= 0.

(** the order that the comparator describes: larger capacity first, then
    the smaller [String(id)] *)
Definition capacityThenId (a b : Item) : Prop :=
  capacity b < capacity a
  ∨ (capacity a = capacity b ∧ String.leb (String_ (id a)) (String_ (id b)) = true).

(** the ids behind the indices of a grouping *)
Definition idsOf (items : list Item) (groupsByIndex : list (list Z)) : list (list (option Id)) :=
  (fun group : list Z => (fun idx => id <$> at_ items idx) <$> group) <$> groupsByIndex.

(** [groupsById] names the items of [groupsByIndex], and [groupSums] holds
    the sums of their capacities *)
Definition consistent (items : list Item) (groupsById : list (list Id))
    (groupsByIndex : list (list Z)) (groupSums : list Z) : Prop :=
  Evaluate.sumGroups items groupsByIndex = Ok groupSums
  ∧ (fun group : list Id => Some <$> group) <$> groupsById = idsOf items groupsByIndex.

(** group [g] can take one more item *)
Definition hasRoom (groupSize : nat) (groupCounts : list nat) (g : nat) : Prop :=
  ∃ count, groupCounts !! g = Some count ∧ (count < groupSize)%nat.

(** the invariant of the capacity-aware loops: [groupCounts] counts the
    members of each group and no group is over [groupSize] *)
Definition filling (items : list Item) (groups groupSize : nat)
    (groupsById : list (list Id)) (groupsByIndex : list (list Z)) (groupSums : list Z)
    (groupCounts : list nat) : Prop :=
  length groupsByIndex = groups
  ∧ consistent items groupsById groupsByIndex groupSums
  ∧ groupCounts = length <$> groupsByIndex
  ∧ Forall (fun group => length group ≤ groupSize)%nat groupsByIndex.

(** the groups of [st'] hold the indices of [st], group sizes unchanged *)
Definition samePartition (st st' : LocalRefine.State) : Prop :=
  concat (LocalRefine.st_groupsByIndex st') ≡ₚ concat (LocalRefine.st_groupsByIndex st).

(** the state of LPT's refinement: ids and sums agree with the groups, and
    every group has [groupSize] members *)
Definition refining (items : list Item) (groupSize : nat) (st : LPT.State) : Prop :=
  consistent items (LPT.st_groupsById st) (LPT.st_groupsByIndex st) (LPT.st_groupSums st)
  ∧ Forall (fun group => length group = groupSize) (LPT.st_groupsByIndex st).

(** [st'] holds the indices of [st] and its delta is not larger *)
Definition refines (st st' : LPT.State) : Prop :=
  concat (LPT.st_groupsByIndex st') ≡ₚ concat (LPT.st_groupsByIndex st)
  ∧ length (LPT.st_groupsByIndex st') = length (LPT.st_groupsByIndex st)
  ∧ xleb (deltaOf (LPT.st_groupSums st')) (deltaOf (LPT.st_groupSums st)) = true.

(** a solver's result that the entry point hands on as it is: it passes
    [validateGrouping], has [groups] groups, and its ids, sums and delta are
    those of its [groupsByIndex] *)
Definition accepted (items : list Item) (groups groupSize : nat) (g : Grouping) : Prop :=
  Evaluate.validateGrouping items (groupsByIndex g) groupSize = true
  ∧ length (groupsByIndex g) = groups
  ∧ consistent items (groupsById g) (groupsByIndex g) (groupSums g)
  ∧ delta g = deltaOf (groupSums g).

(** the solver that [partitionBalanced] runs for [method: 'roundrobin'] and
    [method: 'lpt'] *)
Definition directSolver (items : list Item) (groups groupSize : nat)
    (options : Index.PartitionOptions) : Result Grouping :=
  match Index.method options with
  | Some Index.m_roundrobin => RoundRobin.roundRobin items groups groupSize true
  | _ =>
      LPT.lpt items groups groupSize
        (LPT.mkOptions (negb (Index.isLargeProblem (length items) groups groupSize))
           (default 1000 (Index.maxIters options) / 10) false)
  end.

(** the algorithms that [determineCandidateAlgorithms] offers for the call,
    and those that the caller's [disallowedAlgorithms] names (in any case) *)
Definition offered (items : list Item) (options : Index.AutoOptions) (a : string) : Prop :=
  a ∈ Index.determineCandidateAlgorithms (length items) (Index.a_timeLimitMs options)
        (default false (Index.a_allowPlaceholderAlgorithms options)).

Definition disallowedBy (options : Index.AutoOptions) (a : string) : Prop :=
  ∃ names, Index.a_disallowedAlgorithms options = Some names
           ∧ a ∈ map Index.toLowerCase names.

(** The capacities of the source are doubles, and the embedding computes
    with integers.  The two agree on the items whose capacities are
    non-negative integers with four times their total a safe integer: every
    sum and every difference that the evaluator, the greedy passes and the
    swap passes form over a grouping of such items is an integer of
    magnitude below 2^53, so that no double operation rounds or overflows.
    The statements that depend on exact sums carry this condition. *)
Definition exactItems (items : list Item) : bool :=
  forallb (fun item => 0 <=? capacity item) items
  && (4 * sumZ (capacities items) <=? Validation.MAX_SAFE_INTEGER).

(** names written in ASCII, on which the [toLowerCase] of the embedding is
    the one of the source *)
Definition asciiNames (names : option (list string)) : bool :=
  forallb (fun name => forallb (fun c => (nat_of_ascii c <? 128)%nat)
                         (list_ascii_of_string name))
          (default [] names).

(** a cyclic deal of the sequence [dealtItems] over [k] groups: the entry at
    position [j] lies in group [j mod k], at place [j / k] *)
Definition dealtInOrder (k : nat) (dealtItems : list (Item * Z))
    (groupsByIndex : list (list Z)) : Prop :=
  ∀ j e, dealtItems !! j = Some e ->
         (groupsByIndex !! (j mod k)%nat) ≫= (fun group => group !! (j / k)%nat) = Some e.2.

(** sums that are safe integers *)
Definition safeSums (sums : list Z) : Prop :=
  Forall (fun s => 0 <= s <= Validation.MAX_SAFE_INTEGER) sums.

(** [g] is what the [case] of algorithm [a] in the loop of the auto strategy
    produced *)
Definition producedBy (env : Index.Env) (items : list Item) (groups groupSize : nat)
    (options : Index.AutoOptions) (a : string) (g : Grouping) : Prop :=
  ∃ earlyStop, Index.runCandidate env items groups groupSize options a = Some (Ok g, earlyStop).

(** [g] is what the hybrid step obtained from [lpt] *)
Definition refinedByHybrid (items : list Item) (groups groupSize : nat)
    (options : Index.AutoOptions) (g : Grouping) : Prop :=
  ∃ h, Index.a_hybrid options = Some h ∧ default false (Index.enable h) = true
       ∧ LPT.lpt items groups groupSize
           (LPT.mkOptions true
              (Z.max 5 (default (Index.a_maxIters options / 10) (Index.refineIters h))) false)
         = Ok g.

(** * Properties *)

(** ** The evaluator and its cache *)

Section EvaluateFacts.
Import Evaluate.

Lemma get_fresh (c : Cache) (ref : nat) (key : Z) :
  EvaluationCache.store c !! ref = None -> EvaluationCache.get c ref key = None.
Proof. intros H. unfold EvaluationCache.get. rewrite H. reflexivity. Qed.

(** Without an entry under the grouping's key, [evaluateGrouping] returns
    what [evaluateGroupingFastCPU] computes, or the wrapped error. *)
Lemma evaluateGrouping_miss (c : Cache) (ref : nat) items g opts :
  groupingKeyOf g opts ≫= EvaluationCache.get c ref = None ->
  fst (evaluateGrouping c ref items g opts)
  = rethrow (fun _ => AlgorithmError "evaluate" "grouping evaluation")
      (evaluateGroupingFastCPU items g).
Proof.
  intros H. unfold evaluateGrouping. rewrite H.
  destruct (evaluateGroupingFastCPU items g); reflexivity.
Qed.

Lemma evaluateGrouping_fresh (c : Cache) (ref : nat) items g opts :
  EvaluationCache.store c !! ref = None ->
  fst (evaluateGrouping c ref items g opts)
  = rethrow (fun _ => AlgorithmError "evaluate" "grouping evaluation")
      (evaluateGroupingFastCPU items g).
Proof.
  intros H. apply evaluateGrouping_miss.
  destruct (groupingKeyOf g opts); [|reflexivity]. apply get_fresh, H.
Qed.

(** an index outside [0, items.length) makes the summation throw *)
Lemma sumGroup_out_of_range items idxs acc idx :
  idx ∈ idxs -> (idx < 0 ∨ Z.of_nat (length items) <= idx) ->
  sumGroup items idxs acc = Throw TypeError.
Proof.
  intros Hin Hout. revert acc. induction idxs as [|i rest IH]; intros acc.
  - inversion Hin.
  - cbn. destruct (at_ items i) as [it|] eqn:Hat; cbn; [|reflexivity].
    apply elem_of_cons in Hin as [->|Hin]; [|by apply IH].
    exfalso. unfold at_ in Hat. destruct (0 <=? i) eqn:Hi; [|discriminate].
    apply lookup_lt_Some in Hat. lia.
Qed.

Lemma sumGroup_throws items idxs acc e :
  sumGroup items idxs acc = Throw e -> e = TypeError.
Proof.
  revert acc. induction idxs as [|i rest IH]; intros acc; cbn; [discriminate|].
  destruct (at_ items i); cbn; [apply IH|congruence].
Qed.

Lemma sumGroups_out_of_range items g group idx :
  group ∈ g -> idx ∈ group -> (idx < 0 ∨ Z.of_nat (length items) <= idx) ->
  sumGroups items g = Throw TypeError.
Proof.
  intros Hg Hin Hout. induction g as [|grp rest IH]; [inversion Hg|].
  cbn. destruct (sumGroup items grp 0) as [s|e] eqn:Hs; cbn.
  - apply elem_of_cons in Hg as [->|Hg].
    + rewrite (sumGroup_out_of_range _ _ _ _ Hin Hout) in Hs. discriminate.
    + rewrite (IH Hg). reflexivity.
  - by rewrite (sumGroup_throws _ _ _ _ Hs).
Qed.

End EvaluateFacts.

Section EvaluateClaims.
Import Evaluate.

(** C9 (counterexample).  For the six items of the evaluator's tests and the
    grouping [[0,1],[2,6]], whose index 6 is past the end, [evaluateGrouping]
    raises, but what it raises is the [AlgorithmError] built by
    [createAlgorithmError('evaluate', 'grouping evaluation', ...)]: it is not
    a [ValidationError], whatever the message. *)
Lemma evaluateGrouping_error_class_counterexample :
  let items := fromCapacities [10; 8; 6; 4; 2; 1] in
  let outcome := fst (evaluateGrouping globalEvaluationCache 0 items [[0; 1]; [2; 6]] defaultOptions) in
  6 >= Z.of_nat (length items)
  ∧ outcome = Throw (AlgorithmError "evaluate" "grouping evaluation")
  ∧ ∀ msg, outcome ≠ Throw (ValidationError msg).
Proof. cbv zeta. split; [vm_compute; discriminate|]. split; [reflexivity|]. intros msg. vm_compute. discriminate. Qed.

(** C9 (amended).  For every items array and every [groupsByIndex] that
    contains an index that is negative or at least [items.length],
    [evaluateGrouping] raises, provided the cache holds no entry under the
    grouping's key for this items array; the error raised is the
    [AlgorithmError] of algorithm ['evaluate'], and the cache is unchanged. *)
Theorem evaluateGrouping_rejects_out_of_range
    (c : Cache) (ref : nat) (items : list Item) (g : list (list Z)) (opts : Options)
    (group : list Z) (idx : Z) :
  group ∈ g -> idx ∈ group -> (idx < 0 ∨ Z.of_nat (length items) <= idx) ->
  groupingKeyOf g opts ≫= EvaluationCache.get c ref = None ->
  evaluateGrouping c ref items g opts
  = (Throw (AlgorithmError "evaluate" "grouping evaluation"), c).
Proof.
  intros Hg Hin Hout Hmiss. unfold evaluateGrouping. rewrite Hmiss.
  unfold evaluateGroupingFastCPU.
  rewrite (sumGroups_out_of_range items g group idx Hg Hin Hout). reflexivity.
Qed.

Lemma evaluateGrouping_rejects_out_of_range_witness :
  evaluateGrouping globalEvaluationCache 0 (fromCapacities [10; 8; 6; 4; 2; 1])
    [[0; 1]; [-1; 2]] defaultOptions
  = (Throw (AlgorithmError "evaluate" "grouping evaluation"), globalEvaluationCache).
Proof.
  apply (evaluateGrouping_rejects_out_of_range globalEvaluationCache 0
           (fromCapacities [10; 8; 6; 4; 2; 1]) [[0; 1]; [-1; 2]] defaultOptions [-1; 2] (-1)).
  - repeat constructor.
  - repeat constructor.
  - left. lia.
  - reflexivity.
Defined.

(** The precondition on the cache cannot be dropped: after [[1,2]] has been
    evaluated, the grouping [[33]] over the same six items has the same key
    and is answered from the cache, without an error. *)
Lemma evaluateGrouping_out_of_range_cached :
  let items := fromCapacities [10; 8; 6; 4; 2; 1] in
  let c1 := snd (evaluateGrouping globalEvaluationCache 0 items [[1; 2]] defaultOptions) in
  fst (evaluateGrouping c1 0 items [[33]] defaultOptions)
  = Ok (mkEvaluationResult [14] (Fin 0) 14).
Proof. vm_compute. reflexivity. Qed.

(** C3.  Cache transparency fails on the code: the key of a grouping is a
    32-bit hash of the flattened index sequence, and two different valid
    3x3 partitions of nine items collide.  After the first has been
    evaluated, the second is answered with the first one's [groupSums] and
    [delta] instead of its own. *)
Theorem evaluateGrouping_cache_collision :
  let items := fromCapacities [1; 2; 3; 4; 5; 6; 7; 8; 9] in
  let A := [[0; 5; 2]; [3; 8; 6]; [7; 4; 1]] in
  let B := [[1; 2; 5]; [6; 0; 3]; [4; 7; 8]] in
  let c1 := snd (evaluateGrouping globalEvaluationCache 0 items A defaultOptions) in
  validateGrouping items A 3 = true
  ∧ validateGrouping items B 3 = true
  ∧ hashGrouping A = hashGrouping B
  ∧ evaluateGroupingFastCPU items B = Ok (mkEvaluationResult [11; 12; 22] (Fin 11) 45)
  ∧ fst (evaluateGrouping globalEvaluationCache 0 items B defaultOptions)
    = Ok (mkEvaluationResult [11; 12; 22] (Fin 11) 45)
  ∧ fst (evaluateGrouping c1 0 items B defaultOptions)
    = Ok (mkEvaluationResult [10; 20; 15] (Fin 10) 45).
Proof. vm_compute. repeat split. Qed.

(** The collision does not need the modular wrap-around: the hash ignores
    the group boundaries, so [[0,1],[2,3]] and [[0,1,2],[3]] share a key. *)
Lemma evaluateGrouping_cache_collision_boundaries :
  let items := fromCapacities [1; 2; 3; 4] in
  let c1 := snd (evaluateGrouping globalEvaluationCache 0 items [[0; 1]; [2; 3]] defaultOptions) in
  fst (evaluateGrouping c1 0 items [[0; 1; 2]; [3]] defaultOptions)
  = Ok (mkEvaluationResult [3; 7] (Fin 4) 10)
  ∧ evaluateGroupingFastCPU items [[0; 1; 2]; [3]] = Ok (mkEvaluationResult [6; 4] (Fin 2) 10).
Proof. vm_compute. split; reflexivity. Qed.

End EvaluateClaims.

(** ** Round-robin *)

(** C8.  The optimized round-robin does not always choose the lightest group
    with room.  The scan starts from group 0 without checking that it has
    room; once group 0 is full and lightest, no other group beats its sum and
    the fallback takes the first group with room.  With capacities
    [10,9,8,7,7,1,1,1,1] in 3 groups of 3, when the eighth item arrives the
    sums are [12,16,15] and the counts [3,2,2]: the item goes to group 1
    (sum 16) although group 2 (sum 15) has room. *)
Theorem optimizedRoundRobin_skips_lightest_group :
  let items := fromCapacities [10; 9; 8; 7; 7; 1; 1; 1; 1] in
  let sorted := sortBy (fun a b => compareItemsByCapacity a.1 b.1) (indexed items) in
  let init := RoundRobin.mkOptState (emptyGroups 3) (emptyGroups 3) (zeros 3) (replicate 3 0%nat) in
  (∃ st, RoundRobin.distributeOptimized 3 3 init (take 7 sorted) = Ok st
         ∧ RoundRobin.os_groupSums st = [12; 16; 15]
         ∧ RoundRobin.os_groupCounts st = [3; 2; 2]%nat)
  ∧ RoundRobin.chooseGroup 3 3 [12; 16; 15] [3; 2; 2]%nat = 1%nat
  ∧ (groupsByIndex <$> RoundRobin.optimizedRoundRobinPartition items 3 3)
    = Ok [[0; 5; 6]; [1; 4; 7]; [2; 3; 8]]
  ∧ (groupSums <$> RoundRobin.optimizedRoundRobinPartition items 3 3) = Ok [12; 17; 16].
Proof.
  cbv zeta. split; [eexists; vm_compute; repeat split|]. vm_compute. repeat split.
Qed.

(** ** Partition validity *)

(** C1.  [kk] loses items on a valid input.  With capacities
    [100,1,1,1,1,1] in 3 groups of 2, the first split isolates item 0; the
    next turn of the split loop takes that singleton off the list and then
    breaks because it cannot be split, so item 0 is gone and one set of five
    items is returned as the only group. *)
Theorem kk_drops_items :
  let items := fromCapacities [100; 1; 1; 1; 1; 1] in
  Validation.validatePartitionInputs items 3 2 = Ok tt
  ∧ (groupsByIndex <$> KK.kk items 3 2) = Ok [[1; 2; 3; 4; 5]]
  ∧ Evaluate.validateGrouping items [[1; 2; 3; 4; 5]] 2 = false.
Proof. vm_compute. repeat split. Qed.

(** [flow] overfills group 0 on a valid input: its scan also starts from
    group 0 without checking that it has room. *)
Lemma flow_overfills_first_group :
  let items := fromCapacities [10; 9; 8; 7; 7; 1; 1; 1; 1] in
  Validation.validatePartitionInputs items 3 3 = Ok tt
  ∧ (sr_groupsByIndex <$> Flow.flow items 3 3) = Ok [[0; 5; 6; 7; 8]; [1; 4]; [2; 3]]
  ∧ Evaluate.validateGrouping items [[0; 5; 6; 7; 8]; [1; 4]; [2; 3]] 3 = false.
Proof. vm_compute. repeat split. Qed.

(** ** Shape guards of the directly callable solvers *)

(** C10.  [dp], [backtracking], [flow] and [metaheuristic] raise an error,
    and return no grouping, whenever [items.length] differs from
    [groups * groupSize], whatever their options. *)
Theorem solvers_reject_mismatched_shape (items : list Item) (groups groupSize : nat) :
  length items ≠ (groups * groupSize)%nat ->
  (∀ options, DP.dp items groups groupSize options
              = Throw (Error "DP requires exact group size constraints"))
  ∧ (∀ options, Backtracking.backtracking items groups groupSize options
                = Throw (Error "Backtracking requires exact group size constraints"))
  ∧ Flow.flow items groups groupSize = Throw (Error "Flow requires exact group size constraints")
  ∧ (∀ fp options, Metaheuristic.metaheuristic fp items groups groupSize options
                   = Throw (Error "Metaheuristic requires exact group size constraints")).
Proof.
  intros H. repeat split; intros;
    unfold DP.dp, Backtracking.backtracking, Flow.flow, Metaheuristic.metaheuristic;
    cbv zeta; rewrite bool_decide_true by exact H; reflexivity.
Qed.

Lemma solvers_reject_mismatched_shape_witness :
  DP.dp (fromCapacities [4; 3; 2; 1; 1]) 2 2 (DP.defaultOptions (fun _ => false))
  = Throw (Error "DP requires exact group size constraints")
  ∧ Flow.flow (fromCapacities [4; 3; 2; 1; 1]) 2 2
    = Throw (Error "Flow requires exact group size constraints").
Proof.
  destruct (solvers_reject_mismatched_shape (fromCapacities [4; 3; 2; 1; 1]) 2 2) as (Hdp & _ & Hflow & _).
  - vm_compute. lia.
  - split; [apply Hdp | apply Hflow].
Defined.

(** ** The entry point *)

Section IndexFacts.
Import Index.

Lemma ensureInputImmutability_id items : ensureInputImmutability items = items.
Proof.
  unfold ensureInputImmutability. induction items as [|[i c] rest IH]; [reflexivity|].
  cbn. by rewrite IH.
Qed.

Lemma validateAndScore_fresh env items groupSize isLarge result :
  fresh env ->
  fst (validateAndScore env items groupSize isLarge result) = scored items groupSize result.
Proof.
  intros Hfresh. unfold validateAndScore, scored.
  destruct (Evaluate.validateGrouping _ _ _); cbn [negb]; [|reflexivity].
  match goal with |- context [Evaluate.evaluateGrouping ?c ?r ?i ?g ?o] =>
    pose proof (evaluateGrouping_fresh c r i g o Hfresh) as E;
    destruct (Evaluate.evaluateGrouping c r i g o) as [[ev|e] c'] end;
  cbn [fst] in *; destruct (Evaluate.evaluateGroupingFastCPU _ _); cbn in E; congruence.
Qed.

(** how a call that passes validation evaluates once the method has returned *)
Lemma partitionBalanced_eval env items groups groupSize options result final :
  fresh env ->
  Validation.validatePartitionInputs items groups groupSize
    ≫= (fun _ => validatePartitionOptions options) = Ok tt ->
  runMethod env items groups groupSize
    (forceSimpler (isVeryLargeProblem (length items) groups groupSize) (normalizeOptions options))
    (isLargeProblem (length items) groups groupSize) = Ok result ->
  scored items groupSize result = Ok final ->
  fst (partitionBalanced env items groups groupSize options) = Ok final.
Proof.
  intros Hfresh Hvalid Hrun Hscore. unfold partitionBalanced.
  rewrite Hvalid, ensureInputImmutability_id. cbv zeta. unfold attempt. rewrite Hrun.
  pose proof (validateAndScore_fresh env items groupSize
                (isLargeProblem (length items) groups groupSize) result Hfresh) as E.
  destruct (validateAndScore _ _ _ _ _) as [r c]. cbn [fst] in E. subst r.
  rewrite Hscore. reflexivity.
Qed.

End IndexFacts.

Section IndexClaims.
Import Index.

(** C4.  For the six items with capacities [10,8,6,4,2,1],
    [partition(items, 2, 3, {method: 'roundrobin'})] assigns the items,
    sorted by descending capacity, cyclically: group 0 receives 10, 6, 2
    (indices 0, 2, 4) and group 1 receives 8, 4, 1, so [groupSums] is
    [18, 13] and [delta] is 5. *)
Theorem roundrobin_end_to_end_example (env : Env) :
  fresh env ->
  fst (partitionBalanced env (fromCapacities [10; 8; 6; 4; 2; 1]) 2 3
         (mkPartitionOptions (Some m_roundrobin) None None None None None None None None None))
  = Ok (mkGrouping
          [[IdStr "item0"; IdStr "item2"; IdStr "item4"];
           [IdStr "item1"; IdStr "item3"; IdStr "item5"]]
          [[0; 2; 4]; [1; 3; 5]] [18; 13] (Fin 5) (Some 1%nat) "roundrobin").
Proof.
  intros Hfresh.
  eapply partitionBalanced_eval; [exact Hfresh | | |]; vm_compute; reflexivity.
Qed.

Lemma roundrobin_end_to_end_example_witness :
  fst (partitionBalanced idleEnv (fromCapacities [10; 8; 6; 4; 2; 1]) 2 3
         (mkPartitionOptions (Some m_roundrobin) None None None None None None None None None))
  = Ok (mkGrouping
          [[IdStr "item0"; IdStr "item2"; IdStr "item4"];
           [IdStr "item1"; IdStr "item3"; IdStr "item5"]]
          [[0; 2; 4]; [1; 3; 5]] [18; 13] (Fin 5) (Some 1%nat) "roundrobin").
Proof. apply (roundrobin_end_to_end_example idleEnv). reflexivity. Defined.

(** C5.  The early return is wired only into the [roundrobin], [lpt] and
    [kk] cases.  With capacities [10,8,6,4,2,1], 2 groups of 3,
    [earlyStopDelta = 20] and [preferredAlgorithms = ['dp']], the first
    candidate is [dp]; its result has delta 17, which meets the threshold,
    but the loop goes on to [roundrobin], whose result (delta 5) is the one
    returned. *)
Theorem auto_ignores_threshold_for_dp :
  let items := fromCapacities [10; 8; 6; 4; 2; 1] in
  let options :=
    mkPartitionOptions None None None None (Some 20) (Some ["dp"]) None None None None in
  let autoOptions :=
    mkAutoOptions 30000 None 1000 20 (Some ["dp"]) None None None false None in
  selectCandidates idleEnv items autoOptions = ["dp"; "roundrobin"; "backtracking"; "lpt"; "kk"]
  ∧ (∃ candidate, runCandidate idleEnv items 2 3 autoOptions "dp" = Some (Ok candidate, false)
                  ∧ delta candidate = Fin 17
                  ∧ methodUsed candidate = "dp-integer-scaled"
                  ∧ xleb (delta candidate) (Fin 20) = true)
  ∧ (methodUsed <$> executeAutoStrategy idleEnv items 2 3 autoOptions) = Ok "roundrobin"
  ∧ (methodUsed <$> fst (partitionBalanced idleEnv items 2 3 options)) = Ok "roundrobin"
  ∧ (delta <$> fst (partitionBalanced idleEnv items 2 3 options)) = Ok (Fin 5).
Proof.
  cbv zeta. split; [vm_compute; reflexivity|].
  split; [eexists; vm_compute; repeat split|].
  vm_compute. repeat split.
Qed.

End IndexClaims.

(** ** Local refinement ([algorithms/localRefine.ts]) *)

(** ** Extended numbers *)

Section Xnum.

Lemma Math_max_cases l :
  (l = [] ∧ Math_max l = NegInf)
  ∨ ∃ m, Math_max l = Fin m ∧ m ∈ l ∧ ∀ x, x ∈ l -> x <= m.
Proof.
  induction l as [|a l IH]; [by left|right].
  change (Math_max (a :: l)) with (xmax (Fin a) (Math_max l)).
  destruct IH as [[-> _]|(m & -> & Hm & Hle)].
  - exists a. split; [reflexivity|]. split; [by left|].
    intros x Hx. apply list_elem_of_singleton in Hx. lia.
  - exists (Z.max a m). split; [reflexivity|]. split.
    + destruct (Z.max_spec a m) as [[_ ->]|[_ ->]]; [by right|by left].
    + intros x Hx. apply elem_of_cons in Hx as [->|Hx]; [lia|]. specialize (Hle x Hx). lia.
Qed.

Lemma Math_min_cases l :
  (l = [] ∧ Math_min l = PosInf)
  ∨ ∃ m, Math_min l = Fin m ∧ m ∈ l ∧ ∀ x, x ∈ l -> m <= x.
Proof.
  induction l as [|a l IH]; [by left|right].
  change (Math_min (a :: l)) with (xmin (Fin a) (Math_min l)).
  destruct IH as [[-> _]|(m & -> & Hm & Hle)].
  - exists a. split; [reflexivity|]. split; [by left|].
    intros x Hx. apply list_elem_of_singleton in Hx. lia.
  - exists (Z.min a m). split; [reflexivity|]. split.
    + destruct (Z.min_spec a m) as [[_ ->]|[_ ->]]; [by left|by right].
    + intros x Hx. apply elem_of_cons in Hx as [->|Hx]; [lia|]. specialize (Hle x Hx). lia.
Qed.

(** [Math.max] and [Math.min] depend on the set of their arguments only *)
Lemma Math_max_ext l1 l2 : (∀ x, x ∈ l1 <-> x ∈ l2) -> Math_max l1 = Math_max l2.
Proof.
  intros H.
  destruct (Math_max_cases l1) as [[-> ->]|(m1 & -> & Hm1 & Hle1)];
  destruct (Math_max_cases l2) as [[-> ->]|(m2 & -> & Hm2 & Hle2)]; try reflexivity.
  - apply H in Hm2. inversion Hm2.
  - apply H in Hm1. inversion Hm1.
  - f_equal. apply Z.le_antisymm; [apply Hle2, H, Hm1 | apply Hle1, H, Hm2].
Qed.

Lemma Math_min_ext l1 l2 : (∀ x, x ∈ l1 <-> x ∈ l2) -> Math_min l1 = Math_min l2.
Proof.
  intros H.
  destruct (Math_min_cases l1) as [[-> ->]|(m1 & -> & Hm1 & Hle1)];
  destruct (Math_min_cases l2) as [[-> ->]|(m2 & -> & Hm2 & Hle2)]; try reflexivity.
  - apply H in Hm2. inversion Hm2.
  - apply H in Hm1. inversion Hm1.
  - f_equal. apply Z.le_antisymm; [apply Hle1, H, Hm2 | apply Hle2, H, Hm1].
Qed.

Lemma deltaOf_ext l1 l2 : (∀ x, x ∈ l1 <-> x ∈ l2) -> deltaOf l1 = deltaOf l2.
Proof. intros H. unfold deltaOf. by rewrite (Math_max_ext _ _ H), (Math_min_ext _ _ H). Qed.

(** the delta of a list is [-Infinity] for no group and a non-negative number otherwise *)
Lemma deltaOf_cases l :
  (l = [] ∧ deltaOf l = NegInf) ∨ ∃ d, deltaOf l = Fin d ∧ 0 <= d.
Proof.
  unfold deltaOf.
  destruct (Math_max_cases l) as [[-> ->]|(m1 & -> & Hm1 & Hle1)]; [by left|right].
  destruct (Math_min_cases l) as [[-> ->]|(m2 & -> & Hm2 & Hle2)]; [inversion Hm1|].
  exists (m1 - m2). split; [reflexivity|]. specialize (Hle1 _ Hm2). lia.
Qed.

Lemma xleb_refl_deltaOf l : xleb (deltaOf l) (deltaOf l) = true.
Proof.
  destruct (deltaOf_cases l) as [[_ ->]|(d & -> & _)]; [reflexivity|]. cbn. lia.
Qed.

Lemma xleb_trans a b c : xleb a b = true -> xleb b c = true -> xleb a c = true.
Proof.
  destruct a, b, c; cbn; try congruence; try reflexivity. lia.
Qed.

Lemma xltb_xleb a b : xltb a b = true -> xleb a b = true.
Proof. destruct a, b; cbn; try congruence; try reflexivity. lia. Qed.

(** [newDeltaOf] is the delta of the two new sums together with the others *)
Lemma newDeltaOf_cons sums g1 g2 n1 n2 :
  newDeltaOf sums g1 g2 n1 n2 = deltaOf (n1 :: n2 :: otherSums sums g1 g2).
Proof.
  unfold newDeltaOf, deltaOf.
  change (Math_max (n1 :: n2 :: ?l)) with (xmax (Fin n1) (xmax (Fin n2) (Math_max l))).
  change (Math_min (n1 :: n2 :: ?l)) with (xmin (Fin n1) (xmin (Fin n2) (Math_min l))).
  destruct (Math_max_cases (otherSums sums g1 g2)) as [[_ ->]|(m1 & -> & _)];
  destruct (Math_min_cases (otherSums sums g1 g2)) as [[_ ->]|(m2 & -> & _)];
  cbn; f_equal; lia.
Qed.

Lemma elem_of_otherSums sums g1 g2 x :
  x ∈ otherSums sums g1 g2 <-> ∃ i, i ≠ g1 ∧ i ≠ g2 ∧ sums !! i = Some x.
Proof.
  unfold otherSums. rewrite list_elem_of_fmap. split.
  - intros ([i y] & -> & H). apply list_elem_of_filter in H as [[H1 H2] H].
    apply elem_of_lookup_imap in H as (j & z & [= -> ->] & Hz). cbn in *. eauto.
  - intros (i & H1 & H2 & H). exists (i, x). split; [reflexivity|].
    apply list_elem_of_filter. split; [by cbn|].
    apply elem_of_lookup_imap. eauto.
Qed.

(** the sums seen as a set: the two groups of a move and the others *)
Lemma sums_split sums g1 g2 s1 s2 :
  sums !! g1 = Some s1 -> sums !! g2 = Some s2 ->
  ∀ x, x ∈ sums <-> x ∈ s1 :: s2 :: otherSums sums g1 g2.
Proof.
  intros H1 H2 x. rewrite !elem_of_cons, elem_of_otherSums, list_elem_of_lookup. split.
  - intros [i Hi]. destruct (decide (i = g1)) as [->|]; [left; congruence|].
    destruct (decide (i = g2)) as [->|]; [right; left; congruence|]. right. right. eauto.
  - intros [->|[->|(i & _ & _ & Hi)]]; eauto.
Qed.

Lemma updated_split (sums : list Z) g1 g2 n1 n2 :
  g1 ≠ g2 -> (g1 < length sums)%nat -> (g2 < length sums)%nat ->
  ∀ x, x ∈ <[g2 := n2]> (<[g1 := n1]> sums) <-> x ∈ n1 :: n2 :: otherSums sums g1 g2.
Proof.
  intros Hne Hl1 Hl2 x. rewrite !elem_of_cons, elem_of_otherSums, list_elem_of_lookup. split.
  - intros [i Hi]. apply list_lookup_insert_Some in Hi as [(-> & -> & _)|[Hi2 Hi]]; [by right; left|].
    apply list_lookup_insert_Some in Hi as [(-> & -> & _)|[Hi1 Hi]]; [by left|].
    right. right. exists i. eauto.
  - intros [->|[->|(i & Hi1 & Hi2 & Hi)]].
    + exists g1. rewrite list_lookup_insert_ne by done. by apply list_lookup_insert_eq.
    + exists g2. apply list_lookup_insert_eq. by rewrite length_insert.
    + exists i. by rewrite !list_lookup_insert_ne by done.
Qed.

Lemma newDeltaOf_updated (sums : list Z) g1 g2 n1 n2 :
  g1 ≠ g2 -> (g1 < length sums)%nat -> (g2 < length sums)%nat ->
  newDeltaOf sums g1 g2 n1 n2 = deltaOf (<[g2 := n2]> (<[g1 := n1]> sums)).
Proof.
  intros. rewrite newDeltaOf_cons. symmetry. apply deltaOf_ext. by apply updated_split.
Qed.

(** a "move" that keeps the total of its two groups and does not bring them
    closer together cannot lower delta *)
Lemma newDeltaOf_not_better sums g1 g2 s1 s2 n1 n2 :
  sums !! g1 = Some s1 -> sums !! g2 = Some s2 ->
  Z.max s1 s2 <= Z.max n1 n2 -> Z.min n1 n2 <= Z.min s1 s2 ->
  xltb (newDeltaOf sums g1 g2 n1 n2) (deltaOf sums) = false.
Proof.
  intros H1 H2 Hmax Hmin.
  rewrite newDeltaOf_cons, (deltaOf_ext sums _ (sums_split sums g1 g2 s1 s2 H1 H2)).
  unfold deltaOf.
  change (Math_max (?a :: ?b :: ?l)) with (xmax (Fin a) (xmax (Fin b) (Math_max l))).
  change (Math_min (?a :: ?b :: ?l)) with (xmin (Fin a) (xmin (Fin b) (Math_min l))).
  destruct (Math_max_cases (otherSums sums g1 g2)) as [[_ ->]|(m1 & -> & _)];
  destruct (Math_min_cases (otherSums sums g1 g2)) as [[_ ->]|(m2 & -> & _)];
  cbn; lia.
Qed.

End Xnum.

(** ** Group sums under index writes *)

Section SumFacts.
Context (items : list Item).
Import Evaluate.

Lemma sumGroup_shift idxs acc acc' s :
  sumGroup items idxs acc = Ok s -> sumGroup items idxs acc' = Ok (s - acc + acc').
Proof.
  revert acc acc'. induction idxs as [|i rest IH]; intros acc acc'; cbn.
  - intros [= <-]. f_equal. lia.
  - destruct (at_ items i) as [it|]; cbn; [|discriminate].
    intros H. rewrite (IH _ (acc' + capacity it) H). f_equal. lia.
Qed.

Lemma sumGroup_valid idxs acc s i idx :
  sumGroup items idxs acc = Ok s -> idxs !! i = Some idx -> is_Some (at_ items idx).
Proof.
  revert acc i. induction idxs as [|j rest IH]; intros acc i; cbn; [by rewrite lookup_nil|].
  destruct (at_ items j) as [it|] eqn:Hj; cbn; [|discriminate].
  intros H. destruct i as [|i]; cbn.
  - intros [= <-]. by rewrite Hj.
  - by apply IH with (acc := acc + capacity it).
Qed.

Lemma sumGroup_insert idxs acc s i idx it v it' :
  sumGroup items idxs acc = Ok s -> idxs !! i = Some idx ->
  at_ items idx = Some it -> at_ items v = Some it' ->
  sumGroup items (<[i := v]> idxs) acc = Ok (s - capacity it + capacity it').
Proof.
  revert acc i. induction idxs as [|j rest IH]; intros acc i; cbn; [by rewrite lookup_nil|].
  destruct (at_ items j) as [itj|] eqn:Hj; cbn; [|discriminate].
  intros H. destruct i as [|i]; cbn.
  - intros [= <-] Hidx Hv. rewrite Hv. cbn. rewrite Hidx in Hj. injection Hj as <-.
    rewrite (sumGroup_shift _ _ (acc + capacity it') _ H). f_equal. lia.
  - intros Hi Hidx Hv. rewrite Hj. cbn. by apply IH.
Qed.

Lemma sumGroups_length gbi sums : sumGroups items gbi = Ok sums -> length sums = length gbi.
Proof.
  revert sums. induction gbi as [|g rest IH]; intros sums; cbn; [by intros [= <-]|].
  destruct (sumGroup items g 0); cbn; [|discriminate].
  destruct (sumGroups items rest); cbn; [|discriminate].
  intros [= <-]. cbn. f_equal. by apply IH.
Qed.

Lemma sumGroups_lookup gbi sums g group :
  sumGroups items gbi = Ok sums -> gbi !! g = Some group ->
  ∃ s, sums !! g = Some s ∧ sumGroup items group 0 = Ok s.
Proof.
  revert sums g. induction gbi as [|grp rest IH]; intros sums g; cbn; [by rewrite lookup_nil|].
  destruct (sumGroup items grp 0) as [s0|] eqn:H0; cbn; [|discriminate].
  destruct (sumGroups items rest) as [ss|] eqn:Hs; cbn; [|discriminate].
  intros [= <-]. destruct g as [|g]; cbn.
  - intros [= <-]. eauto.
  - intros Hg. by apply IH.
Qed.

Lemma sumGroups_insert gbi sums g group' s' :
  sumGroups items gbi = Ok sums -> (g < length gbi)%nat ->
  sumGroup items group' 0 = Ok s' ->
  sumGroups items (<[g := group']> gbi) = Ok (<[g := s']> sums).
Proof.
  revert sums g. induction gbi as [|grp rest IH]; intros sums g; cbn; [lia|].
  destruct (sumGroup items grp 0) as [s0|] eqn:H0; cbn; [|discriminate].
  destruct (sumGroups items rest) as [ss|] eqn:Hs; cbn; [|discriminate].
  intros [= <-] Hlen Hg'. destruct g as [|g].
  - change (<[0%nat := group']> (grp :: rest)) with (group' :: rest).
    change (<[0%nat := s']> (s0 :: ss)) with (s' :: ss).
    cbn. rewrite Hg'. cbn. rewrite Hs. reflexivity.
  - change (<[S g := group']> (grp :: rest)) with (grp :: <[g := group']> rest).
    change (<[S g := s']> (s0 :: ss)) with (s0 :: <[g := s']> ss).
    cbn [sumGroups]. rewrite H0, (IH ss g eq_refl ltac:(lia) Hg'). reflexivity.
Qed.

Lemma setAt_insert {A} (gbi : list (list A)) g i v group :
  gbi !! g = Some group -> setAt gbi g i v = <[g := <[i := v]> group]> gbi.
Proof.
  intros H. unfold setAt. revert g H. induction gbi as [|x rest IH]; intros [|g]; cbn; try done.
  - by intros [= ->].
  - intros H. f_equal. by apply IH.
Qed.

(** one index write [groupsByIndex[g][i] = v]: what becomes of the sums *)
Lemma setAt_sums gbi sums g i v group idx it it' :
  sumGroups items gbi = Ok sums ->
  gbi !! g = Some group -> group !! i = Some idx ->
  at_ items idx = Some it -> at_ items v = Some it' ->
  sumGroups items (setAt gbi g i v)
  = Ok (<[g := sumAt sums g - capacity it + capacity it']> sums).
Proof.
  intros Hs Hg Hi Hidx Hv.
  destruct (sumGroups_lookup _ _ _ _ Hs Hg) as (s & Hsg & Hgs).
  rewrite (setAt_insert _ _ _ _ _ Hg). unfold sumAt. rewrite Hsg. cbn.
  apply sumGroups_insert; [done|by eapply lookup_lt_Some|].
  by eapply sumGroup_insert.
Qed.

Lemma setAt_lookup_eq {A} (gbi : list (list A)) g i v group :
  gbi !! g = Some group -> setAt gbi g i v !! g = Some (<[i := v]> group).
Proof. intros H. unfold setAt. by rewrite list_lookup_alter_eq, H. Qed.

Lemma setAt_lookup_ne {A} (gbi : list (list A)) g g' i v :
  g ≠ g' -> setAt gbi g i v !! g' = gbi !! g'.
Proof. intros H. unfold setAt. by rewrite list_lookup_alter_ne. Qed.

Lemma setAt_sizes {A} (gbi : list (list A)) g i v n :
  Forall (fun group => length group = n) gbi ->
  Forall (fun group => length group = n) (setAt gbi g i v).
Proof.
  intros H. unfold setAt. apply Forall_alter; [done|].
  intros x Hx Hl. by rewrite length_insert.
Qed.

Lemma member_Ok gbi g i idx cap :
  member items gbi g i = Ok (idx, cap) ->
  ∃ group it, gbi !! g = Some group ∧ group !! i = Some idx
              ∧ at_ items idx = Some it ∧ cap = capacity it.
Proof.
  unfold member. destruct (gbi !! g) as [group|]; cbn; [|discriminate].
  destruct (group !! i) as [idx'|] eqn:Hi; cbn; [|discriminate].
  destruct (at_ items idx') as [it|] eqn:Hit; cbn; [|discriminate].
  intros [= <- <-]. exists group, it. done.
Qed.

Lemma member_intro gbi g i group idx it :
  gbi !! g = Some group -> group !! i = Some idx -> at_ items idx = Some it ->
  member items gbi g i = Ok (idx, capacity it).
Proof. intros H1 H2 H3. unfold member. rewrite H1. cbn. rewrite H2. cbn. by rewrite H3. Qed.

End SumFacts.

Section LocalRefineFacts.
Context (items : list Item) (groups groupSize : nat).
Import LocalRefine.

Lemma foldM_invariant {A S} (f : S -> A -> Result S) (P : S -> Prop) l a r :
  (∀ acc x acc', x ∈ l -> P acc -> f acc x = Ok acc' -> P acc') ->
  P a -> foldM f a l = Ok r -> P r.
Proof.
  revert a. induction l as [|x l IH]; intros a Hstep Ha; cbn.
  - by intros [= <-].
  - destruct (f a x) as [a'|] eqn:Hf; cbn; [|discriminate].
    apply IH.
    + intros acc y acc' Hy. apply Hstep. by right.
    + eapply Hstep; [by left|exact Ha|exact Hf].
Qed.

Lemma noWorse_refl st : noWorse st st.
Proof. apply xleb_refl_deltaOf. Qed.

Lemma noWorse_trans st1 st2 st3 : noWorse st1 st2 -> noWorse st2 st3 -> noWorse st1 st3.
Proof. unfold noWorse. intros H1 H2. eapply xleb_trans; eassumption. Qed.

Lemma sumAt_lookup sums g s : sums !! g = Some s -> sumAt sums g = s.
Proof. unfold sumAt. by intros ->. Qed.

(** a 1-1 swap between two different groups, once applied *)
Lemma swap11_apply st g1 i1 g2 i2 d m :
  tracked items groups groupSize st -> g1 ≠ g2 -> swap11 items st g1 i1 g2 i2 = Ok (d, m) ->
  tracked items groups groupSize (applyMove m st) ∧ deltaOf (st_groupSums (applyMove m st)) = d.
Proof.
  intros (Hs & Hgr & Hsz) Hne. unfold swap11.
  destruct (member items _ g1 i1) as [[idx1 cap1]|] eqn:M1; cbn; [|discriminate].
  destruct (member items _ g2 i2) as [[idx2 cap2]|] eqn:M2; cbn; [|discriminate].
  intros [= <- <-].
  apply member_Ok in M1 as (grp1 & it1 & G1 & I1 & A1 & ->).
  apply member_Ok in M2 as (grp2 & it2 & G2 & I2 & A2 & ->).
  pose proof (sumGroups_length _ _ _ Hs) as Hlen.
  pose proof (lookup_lt_Some _ _ _ G1) as L1. pose proof (lookup_lt_Some _ _ _ G2) as L2.
  unfold applyMove. cbn [mv_writes mv_g1 mv_g2 mv_newSum1 mv_newSum2 foldl
                          st_groupsByIndex st_groupSums].
  pose proof (setAt_sums items _ _ g1 i1 idx2 _ _ _ _ Hs G1 I1 A1 A2) as S1.
  assert (G2' : setAt (st_groupsByIndex st) g1 i1 idx2 !! g2 = Some grp2)
    by (by rewrite setAt_lookup_ne).
  pose proof (setAt_sums items _ _ g2 i2 idx1 _ _ _ _ S1 G2' I2 A2 A1) as S2.
  unfold sumAt at 1 in S2. rewrite list_lookup_insert_ne in S2 by done.
  fold (sumAt (st_groupSums st) g2) in S2.
  split; [split; [|split]|].
  - exact S2.
  - cbn [st_groupsByIndex]. unfold setAt. by rewrite !length_alter.
  - by do 2 apply setAt_sizes.
  - symmetry. apply newDeltaOf_updated; [done|lia|lia].
Qed.

(** a 2-2 swap of two different positions in each of two different groups *)
Lemma swap22_apply st g1 i1a i1b g2 i2a i2b d m :
  tracked items groups groupSize st -> g1 ≠ g2 -> i1a ≠ i1b -> i2a ≠ i2b ->
  swap22 items st g1 i1a i1b g2 i2a i2b = Ok (d, m) ->
  tracked items groups groupSize (applyMove m st) ∧ deltaOf (st_groupSums (applyMove m st)) = d.
Proof.
  intros (Hs & Hgr & Hsz) Hne Hi1 Hi2. unfold swap22.
  destruct (member items _ g1 i1a) as [[idx1a c1a]|] eqn:M1a; cbn; [|discriminate].
  destruct (member items _ g1 i1b) as [[idx1b c1b]|] eqn:M1b; cbn; [|discriminate].
  destruct (member items _ g2 i2a) as [[idx2a c2a]|] eqn:M2a; cbn; [|discriminate].
  destruct (member items _ g2 i2b) as [[idx2b c2b]|] eqn:M2b; cbn; [|discriminate].
  intros [= <- <-].
  apply member_Ok in M1a as (grp1 & it1a & G1 & I1a & A1a & ->).
  apply member_Ok in M1b as (grp1' & it1b & G1' & I1b & A1b & ->).
  apply member_Ok in M2a as (grp2 & it2a & G2 & I2a & A2a & ->).
  apply member_Ok in M2b as (grp2' & it2b & G2' & I2b & A2b & ->).
  rewrite G1 in G1'. injection G1' as <-. rewrite G2 in G2'. injection G2' as <-.
  pose proof (sumGroups_length _ _ _ Hs) as Hlen.
  pose proof (lookup_lt_Some _ _ _ G1) as L1. pose proof (lookup_lt_Some _ _ _ G2) as L2.
  unfold applyMove. cbn [mv_writes mv_g1 mv_g2 mv_newSum1 mv_newSum2 foldl
                          st_groupsByIndex st_groupSums].
  set (gbi0 := st_groupsByIndex st) in *. set (sums0 := st_groupSums st) in *.
  (* first write *)
  pose proof (setAt_sums items _ _ g1 i1a idx2a _ _ _ _ Hs G1 I1a A1a A2a) as S1.
  pose proof (setAt_lookup_eq gbi0 g1 i1a idx2a _ G1) as G11.
  assert (I1b' : <[i1a := idx2a]> grp1 !! i1b = Some idx1b)
    by (by rewrite list_lookup_insert_ne).
  (* second write *)
  pose proof (setAt_sums items _ _ g1 i1b idx2b _ _ _ _ S1 G11 I1b' A1b A2b) as S2.
  unfold sumAt at 1 in S2. rewrite list_lookup_insert_eq in S2 by lia. cbn [default] in S2.
  rewrite list_insert_insert_eq in S2.
  assert (G22 : setAt (setAt gbi0 g1 i1a idx2a) g1 i1b idx2b !! g2 = Some grp2)
    by (by rewrite !setAt_lookup_ne).
  (* third write *)
  pose proof (setAt_sums items _ _ g2 i2a idx1a _ _ _ _ S2 G22 I2a A2a A1a) as S3.
  unfold sumAt at 1 in S3. rewrite list_lookup_insert_ne in S3 by done.
  fold (sumAt sums0 g2) in S3.
  pose proof (setAt_lookup_eq _ g2 i2a idx1a _ G22) as G23.
  assert (I2b' : <[i2a := idx1a]> grp2 !! i2b = Some idx2b)
    by (by rewrite list_lookup_insert_ne).
  (* fourth write *)
  pose proof (setAt_sums items _ _ g2 i2b idx1b _ _ _ _ S3 G23 I2b' A2b A1b) as S4.
  unfold sumAt at 1 in S4. rewrite list_lookup_insert_eq in S4
    by (rewrite length_insert; lia).
  cbn [default] in S4. rewrite list_insert_insert_eq in S4.
  split; [split; [|split]|].
  - cbn [st_groupsByIndex st_groupSums]. rewrite S4. unfold Datatypes.id.
    f_equal. f_equal; [lia|]. f_equal. lia.
  - cbn [st_groupsByIndex]. unfold setAt. by rewrite !length_alter.
  - by do 4 apply setAt_sizes.
  - symmetry. apply newDeltaOf_updated; [done|lia|lia].
Qed.

(** a swap inside one group is never an improvement *)
Lemma swap11_same_group st g i1 i2 d m :
  tracked items groups groupSize st -> swap11 items st g i1 g i2 = Ok (d, m) -> xltb d (getDelta st) = false.
Proof.
  intros (Hs & Hgr & Hsz). unfold swap11.
  destruct (member items _ g i1) as [[idx1 cap1]|] eqn:M1; cbn; [|discriminate].
  destruct (member items _ g i2) as [[idx2 cap2]|] eqn:M2; cbn; [|discriminate].
  intros [= <- <-].
  apply member_Ok in M1 as (grp1 & it1 & G1 & I1 & A1 & ->).
  destruct (sumGroups_lookup _ _ _ _ _ Hs G1) as (s & Hsg & _).
  rewrite (sumAt_lookup _ _ _ Hsg).
  apply (newDeltaOf_not_better _ g g s s); [done|done|lia|lia].
Qed.

Lemma swap22_same_group st g i1a i1b i2a i2b d m :
  tracked items groups groupSize st -> swap22 items st g i1a i1b g i2a i2b = Ok (d, m) -> xltb d (getDelta st) = false.
Proof.
  intros (Hs & Hgr & Hsz). unfold swap22.
  destruct (member items _ g i1a) as [[idx1a c1a]|] eqn:M1a; cbn; [|discriminate].
  destruct (member items _ g i1b) as [[idx1b c1b]|] eqn:M1b; cbn; [|discriminate].
  destruct (member items _ g i2a) as [[idx2a c2a]|] eqn:M2a; cbn; [|discriminate].
  destruct (member items _ g i2b) as [[idx2b c2b]|] eqn:M2b; cbn; [|discriminate].
  intros [= <- <-].
  apply member_Ok in M1a as (grp1 & it1a & G1 & I1a & A1a & ->).
  destruct (sumGroups_lookup _ _ _ _ _ Hs G1) as (s & Hsg & _).
  rewrite (sumAt_lookup _ _ _ Hsg).
  apply (newDeltaOf_not_better _ g g s s); [done|done|lia|lia].
Qed.

(** with groups of one item, the "2-2 swap" of the stochastic strategy reads
    the same position twice; it is never an improvement either *)
Lemma swap22_singletons st g1 i1a i1b g2 i2a i2b d m :
  tracked items groups groupSize st -> groupSize = 1%nat ->
  swap22 items st g1 i1a i1b g2 i2a i2b = Ok (d, m) -> xltb d (getDelta st) = false.
Proof.
  intros (Hs & Hgr & Hsz) Hone. unfold swap22.
  destruct (member items _ g1 i1a) as [[idx1a c1a]|] eqn:M1a; cbn; [|discriminate].
  destruct (member items _ g1 i1b) as [[idx1b c1b]|] eqn:M1b; cbn; [|discriminate].
  destruct (member items _ g2 i2a) as [[idx2a c2a]|] eqn:M2a; cbn; [|discriminate].
  destruct (member items _ g2 i2b) as [[idx2b c2b]|] eqn:M2b; cbn; [|discriminate].
  intros [= <- <-].
  apply member_Ok in M1a as (grp1 & it1a & G1 & I1a & A1a & ->).
  apply member_Ok in M1b as (grp1' & it1b & G1' & I1b & A1b & ->).
  apply member_Ok in M2a as (grp2 & it2a & G2 & I2a & A2a & ->).
  apply member_Ok in M2b as (grp2' & it2b & G2' & I2b & A2b & ->).
  rewrite G1 in G1'. injection G1' as <-. rewrite G2 in G2'. injection G2' as <-.
  destruct (sumGroups_lookup _ _ _ _ _ Hs G1) as (s1 & Hs1 & Hg1).
  destruct (sumGroups_lookup _ _ _ _ _ Hs G2) as (s2 & Hs2 & Hg2).
  rewrite (sumAt_lookup _ _ _ Hs1), (sumAt_lookup _ _ _ Hs2).
  assert (L1 : length grp1 = 1%nat).
  { rewrite <- Hone. eapply Forall_lookup_1 in Hsz; [exact Hsz|exact G1]. }
  assert (L2 : length grp2 = 1%nat).
  { rewrite <- Hone. eapply Forall_lookup_1 in Hsz; [exact Hsz|exact G2]. }
  destruct grp1 as [|x1 [|? ?]]; try discriminate L1.
  destruct grp2 as [|x2 [|? ?]]; try discriminate L2.
  destruct i1a as [|?]; [|by rewrite lookup_cons, lookup_nil in I1a].
  destruct i1b as [|?]; [|by rewrite lookup_cons, lookup_nil in I1b].
  destruct i2a as [|?]; [|by rewrite lookup_cons, lookup_nil in I2a].
  destruct i2b as [|?]; [|by rewrite lookup_cons, lookup_nil in I2b].
  cbn in I1a, I1b, I2a, I2b. simplify_eq.
  cbn in Hg1, Hg2. rewrite A1a in Hg1. rewrite A2a in Hg2. cbn in Hg1, Hg2.
  simplify_eq.
  apply (newDeltaOf_not_better _ g1 g2 (0 + capacity it1a) (0 + capacity it2a));
    [done|done|lia|lia].
Qed.

Lemma applyIfBetter_spec st c b st' :
  tracked items groups groupSize st ->
  (xltb c.1 (getDelta st) = true ->
   tracked items groups groupSize (applyMove c.2 st) ∧ deltaOf (st_groupSums (applyMove c.2 st)) = c.1) ->
  applyIfBetter st c = (b, st') -> tracked items groups groupSize st' ∧ noWorse st st'.
Proof.
  intros HI Happ. destruct c as [d m]. unfold applyIfBetter.
  destruct (xltb d (getDelta st)) eqn:Hlt; intros [= <- <-].
  - destruct (Happ Hlt) as [HI' Hd]. split; [done|].
    unfold noWorse. cbn [fst snd] in Hd. rewrite Hd. by apply xltb_xleb.
  - split; [done|apply noWorse_refl].
Qed.

Lemma apply11IfBetter_spec st g1 i1 g2 i2 b st' :
  tracked items groups groupSize st -> apply11IfBetter items st g1 i1 g2 i2 = Ok (b, st') -> tracked items groups groupSize st' ∧ noWorse st st'.
Proof.
  intros HI. unfold apply11IfBetter.
  destruct (swap11 items st g1 i1 g2 i2) as [[d m]|] eqn:Hsw; [|discriminate].
  intros H0. assert (H : applyIfBetter st (d, m) = (b, st')) by (by injection H0). clear H0.
  eapply applyIfBetter_spec; [exact HI| |exact H].
  cbn. intros Hlt. destruct (decide (g1 = g2)) as [->|Hne].
  - rewrite (swap11_same_group _ _ _ _ _ _ HI Hsw) in Hlt. discriminate.
  - by eapply swap11_apply.
Qed.

Lemma apply22IfBetter_spec st g1 i1a i1b g2 i2a i2b b st' :
  tracked items groups groupSize st ->
  (i1a = i1b ∨ i2a = i2b -> groupSize = 1%nat ∨ ¬ (i1a < groupSize ∧ i2a < groupSize)%nat) ->
  apply22IfBetter items st g1 i1a i1b g2 i2a i2b = Ok (b, st') -> tracked items groups groupSize st' ∧ noWorse st st'.
Proof.
  intros HI Hdeg. unfold apply22IfBetter.
  destruct (swap22 items st g1 i1a i1b g2 i2a i2b) as [[d m]|] eqn:Hsw; [|discriminate].
  intros H0. assert (H : applyIfBetter st (d, m) = (b, st')) by (by injection H0). clear H0.
  eapply applyIfBetter_spec; [exact HI| |exact H].
  cbn. intros Hlt. destruct (decide (g1 = g2)) as [->|Hne].
  { rewrite (swap22_same_group _ _ _ _ _ _ _ _ HI Hsw) in Hlt. discriminate. }
  destruct (decide (i1a = i1b ∨ i2a = i2b)) as [Heq|Hneq].
  - destruct (Hdeg Heq) as [Hone|Hout].
    + rewrite (swap22_singletons _ _ _ _ _ _ _ _ _ HI Hone Hsw) in Hlt. discriminate.
    + exfalso. apply Hout. clear Hout Hdeg Heq Hlt H.
      destruct HI as (Hs & Hgr & Hsz). unfold swap22 in Hsw.
      destruct (member items _ g1 i1a) as [[idx1a c1a]|] eqn:M1a; cbn in Hsw; [|discriminate].
      destruct (member items _ g1 i1b) as [[idx1b c1b]|] eqn:M1b; cbn in Hsw; [|discriminate].
      destruct (member items _ g2 i2a) as [[idx2a c2a]|] eqn:M2a; cbn in Hsw; [|discriminate].
      apply member_Ok in M1a as (grp1 & it1a & G1 & I1a & _).
      apply member_Ok in M2a as (grp2 & it2a & G2 & I2a & _).
      apply lookup_lt_Some in I1a, I2a.
      eapply Forall_lookup_1 in G1; [|exact Hsz]. eapply Forall_lookup_1 in G2; [|exact Hsz].
      cbn in G1, G2. lia.
  - apply (swap22_apply st g1 i1a i1b g2 i2a i2b); [done|done| | |done];
      intros ->; apply Hneq; [by left|by right].
Qed.



Lemma xltb_xleb_trans a b c : xltb a b = true -> xleb b c = true -> xltb a c = true.
Proof. destruct a, b, c; cbn; try congruence; try reflexivity. lia. Qed.

Lemma elem_of_pairs g1 g2 n : (g1, g2) ∈ pairs n -> (g1 < g2 < n)%nat.
Proof.
  unfold pairs. intros H. apply list_elem_of_bind in H as (a & H & Ha).
  apply list_elem_of_bind in H as (b & H & Hb).
  apply list_elem_of_singleton in H as [= -> ->].
  apply elem_of_seq in Ha, Hb. lia.
Qed.

Lemma elem_of_scan11 g1 i1 g2 i2 n :
  (g1, i1, g2, i2) ∈ scan11 groups n -> (g1 < g2 < groups ∧ i1 < n ∧ i2 < n)%nat.
Proof.
  unfold scan11. intros H. apply list_elem_of_bind in H as ([a b] & H & Hab).
  apply list_elem_of_bind in H as (c & H & Hc).
  apply list_elem_of_bind in H as (e & H & He).
  apply list_elem_of_singleton in H as [= -> -> -> ->].
  apply elem_of_pairs in Hab. apply elem_of_seq in Hc, He. lia.
Qed.

Lemma elem_of_scan22 g1 i1a i1b g2 i2a i2b n :
  (g1, i1a, i1b, g2, i2a, i2b) ∈ scan22 groups n ->
  (g1 < g2 < groups ∧ i1a < i1b < n ∧ i2a < i2b < n)%nat.
Proof.
  unfold scan22. intros H. apply list_elem_of_bind in H as ([a b] & H & Hab).
  apply list_elem_of_bind in H as (c & H & Hc).
  apply list_elem_of_bind in H as (e & H & He).
  apply list_elem_of_bind in H as (f & H & Hf).
  apply list_elem_of_bind in H as (h & H & Hh).
  apply list_elem_of_singleton in H as [= -> -> -> -> -> ->].
  apply elem_of_pairs in Hab. apply elem_of_seq in Hc, He, Hf, Hh. lia.
Qed.

Lemma keepBetter_found st acc c :
  bestSoFar items groups groupSize st acc ->
  tracked items groups groupSize (applyMove c.2 st) ∧ deltaOf (st_groupSums (applyMove c.2 st)) = c.1 ->
  bestSoFar items groups groupSize st (keepBetter acc c).
Proof.
  intros [Hle Hm] Hc. unfold keepBetter. destruct (xltb c.1 acc.1) eqn:Hlt; [|by split].
  split; [|exact Hc]. cbn [fst]. apply xltb_xleb. by eapply xltb_xleb_trans.
Qed.

Lemma scan11_found st a r :
  tracked items groups groupSize st -> bestSoFar items groups groupSize st a ->
  foldM (fun acc '(g1, i1, g2, i2) =>
           c ← swap11 items st g1 i1 g2 i2; mret (keepBetter acc c))
    a (scan11 groups groupSize) = Ok r ->
  bestSoFar items groups groupSize st r.
Proof.
  intros HI Ha. apply (foldM_invariant _ (bestSoFar items groups groupSize st)); [|exact Ha].
  intros acc [[[g1 i1] g2] i2] acc' Hx Hacc.
  destruct (swap11 items st g1 i1 g2 i2) as [[d m]|] eqn:Hsw; [|discriminate].
  intros [= <-]. apply keepBetter_found; [done|].
  apply elem_of_scan11 in Hx. eapply swap11_apply; [done| |exact Hsw]. lia.
Qed.

Lemma scan22_found st a r :
  tracked items groups groupSize st -> bestSoFar items groups groupSize st a ->
  foldM (fun acc '(g1, i1a, i1b, g2, i2a, i2b) =>
           c ← swap22 items st g1 i1a i1b g2 i2a i2b; mret (keepBetter acc c))
    a (scan22 groups groupSize) = Ok r ->
  bestSoFar items groups groupSize st r.
Proof.
  intros HI Ha. apply (foldM_invariant _ (bestSoFar items groups groupSize st)); [|exact Ha].
  intros acc [[[[[g1 i1a] i1b] g2] i2a] i2b] acc' Hx Hacc.
  destruct (swap22 items st g1 i1a i1b g2 i2a i2b) as [[d m]|] eqn:Hsw; [|discriminate].
  intros [= <-]. apply keepBetter_found; [done|].
  apply elem_of_scan22 in Hx. eapply swap22_apply; [done| | | |exact Hsw]; lia.
Qed.

Lemma iterateBest_spec options st b st' :
  tracked items groups groupSize st -> iterateBest items options groups groupSize st = Ok (b, st') ->
  tracked items groups groupSize st' ∧ noWorse st st'.
Proof.
  intros HI. unfold iterateBest.
  assert (H0 : bestSoFar items groups groupSize st (getDelta st, None)) by (split; [apply xleb_refl_deltaOf|done]).
  destruct (if enable11 options then _ else _) as [acc1|] eqn:E1; [|discriminate].
  assert (F1 : bestSoFar items groups groupSize st acc1).
  { destruct (enable11 options); [by eapply scan11_found|by injection E1 as <-]. }
  cbn [mbind Result_bind bind].
  destruct (if enable22 options then _ else _) as [acc2|] eqn:E2; [|discriminate].
  assert (F2 : bestSoFar items groups groupSize st acc2).
  { destruct (enable22 options); [by eapply scan22_found|by injection E2 as <-]. }
  cbn [mbind Result_bind bind]. destruct F2 as [Hle Hm].
  destruct acc2 as [d [m|]]; cbn [snd fst] in *; intros [= <- <-].
  - destruct Hm as [HI' Hd]. split; [exact HI'|].
    unfold noWorse.
    change (xleb (deltaOf (st_groupSums (applyMove m st))) (getDelta st) = true).
    by rewrite Hd.
  - split; [done|apply noWorse_refl].
Qed.

Lemma foldM_returns {A S} (f : S -> A -> Result S) l a :
  (∀ acc x, x ∈ l -> ∃ acc', f acc x = Ok acc') -> ∃ r, foldM f a l = Ok r.
Proof.
  revert a. induction l as [|x l IH]; intros a Hstep; cbn; [by eexists|].
  destruct (Hstep a x) as [a' ->]; [by left|]. cbn.
  apply IH. intros acc y Hy. apply Hstep. by right.
Qed.

Lemma member_returns st g i :
  tracked items groups groupSize st -> (g < groups)%nat -> (i < groupSize)%nat ->
  ∃ c, member items (st_groupsByIndex st) g i = Ok c.
Proof.
  intros (Hs & Hgr & Hsz) Hg Hi.
  destruct (lookup_lt_is_Some_2 (st_groupsByIndex st) g) as [group G]; [lia|].
  pose proof (Forall_lookup_1 _ _ _ _ Hsz G) as Hlen. cbn in Hlen.
  destruct (lookup_lt_is_Some_2 group i) as [idx I]; [lia|].
  destruct (sumGroups_lookup items _ _ _ _ Hs G) as (s & _ & Hsum).
  destruct (sumGroup_valid items _ _ _ _ _ Hsum I) as [it A].
  eexists. by eapply member_intro.
Qed.

Lemma swap11_returns st g1 i1 g2 i2 :
  tracked items groups groupSize st -> (g1 < groups)%nat -> (i1 < groupSize)%nat -> (g2 < groups)%nat ->
  (i2 < groupSize)%nat ->
  ∃ c, swap11 items st g1 i1 g2 i2 = Ok c.
Proof.
  intros HI H1 H2 H3 H4. unfold swap11.
  destruct (member_returns st g1 i1) as [[idx1 cap1] ->]; [done..|].
  destruct (member_returns st g2 i2) as [[idx2 cap2] ->]; [done..|].
  cbn. by eexists.
Qed.

Lemma swap22_returns st g1 i1a i1b g2 i2a i2b :
  tracked items groups groupSize st -> (g1 < groups)%nat -> (i1a < groupSize)%nat -> (i1b < groupSize)%nat ->
  (g2 < groups)%nat -> (i2a < groupSize)%nat -> (i2b < groupSize)%nat ->
  ∃ c, swap22 items st g1 i1a i1b g2 i2a i2b = Ok c.
Proof.
  intros HI H1 H2 H3 H4 H5 H6. unfold swap22.
  destruct (member_returns st g1 i1a) as [[idx1a c1a] ->]; [done..|].
  destruct (member_returns st g1 i1b) as [[idx1b c1b] ->]; [done..|].
  destruct (member_returns st g2 i2a) as [[idx2a c2a] ->]; [done..|].
  destruct (member_returns st g2 i2b) as [[idx2b c2b] ->]; [done..|].
  cbn. by eexists.
Qed.

Lemma iterateBest_returns options st :
  tracked items groups groupSize st -> ∃ r, iterateBest items options groups groupSize st = Ok r.
Proof.
  intros HI. unfold iterateBest.
  assert (E1 : ∃ acc1, (if enable11 options
            then foldM (fun acc '(g1, i1, g2, i2) =>
                          c ← swap11 items st g1 i1 g2 i2; mret (keepBetter acc c))
                   (getDelta st, None) (scan11 groups groupSize)
            else Ok (getDelta st, None)) = Ok acc1).
  { destruct (enable11 options); [|by eexists]. apply foldM_returns.
    intros acc [[[g1 i1] g2] i2] Hx. apply elem_of_scan11 in Hx.
    destruct (swap11_returns st g1 i1 g2 i2) as [c ->]; [done|lia..|]. by eexists. }
  destruct E1 as [acc1 ->]. cbn [mbind Result_bind bind].
  assert (E2 : ∃ acc2, (if enable22 options
            then foldM (fun acc '(g1, i1a, i1b, g2, i2a, i2b) =>
                          c ← swap22 items st g1 i1a i1b g2 i2a i2b; mret (keepBetter acc c))
                   acc1 (scan22 groups groupSize)
            else Ok acc1) = Ok acc2).
  { destruct (enable22 options); [|by eexists]. apply foldM_returns.
    intros acc [[[[[g1 i1a] i1b] g2] i2a] i2b] Hx. apply elem_of_scan22 in Hx.
    destruct (swap22_returns st g1 i1a i1b g2 i2a i2b) as [c ->]; [done|lia..|]. by eexists. }
  destruct E2 as [acc2 ->]. cbn [mbind Result_bind bind].
  destruct (acc2.2); by eexists.
Qed.

Section WithDoubles.
Context (fp : Doubles).

Lemma rand_groups st r st1 :
  rand st = (r, st1) ->
  st_groupsByIndex st1 = st_groupsByIndex st ∧ st_groupSums st1 = st_groupSums st.
Proof. unfold rand. by intros [= <- <-]. Qed.

Lemma randIndex_groups n st i st1 :
  randIndex fp n st = (i, st1) ->
  st_groupsByIndex st1 = st_groupsByIndex st ∧ st_groupSums st1 = st_groupSums st.
Proof. unfold randIndex, rand. by intros [= <- <-]. Qed.

Lemma randOther_groups n a st i st1 :
  randOther fp n a st = (i, st1) ->
  st_groupsByIndex st1 = st_groupsByIndex st ∧ st_groupSums st1 = st_groupSums st.
Proof. unfold randOther, randIndex, rand. by intros [= <- <-]. Qed.

(** the redraw [(b + 1) % n] differs from [a] unless [n] is 1 *)
Lemma randOther_distinct n a st b st1 :
  randOther fp n a st = (b, st1) -> (a < n)%nat -> b = a -> n = 1%nat.
Proof.
  unfold randOther. destruct (randIndex fp n st) as [c st2]. intros [= <- <-] Ha.
  case_bool_decide as Hc; [|congruence]. subst c. intros Hmod.
  destruct (decide (a + 1 < n)%nat).
  - rewrite Nat.mod_small in Hmod by done. lia.
  - assert (a + 1 = n)%nat as <- by lia. rewrite Nat.Div0.mod_same in Hmod. lia.
Qed.

Lemma same_groups_Inv st st1 :
  st_groupsByIndex st1 = st_groupsByIndex st ∧ st_groupSums st1 = st_groupSums st ->
  tracked items groups groupSize st -> tracked items groups groupSize st1.
Proof. intros [E1 E2]. unfold tracked. by rewrite E1, E2. Qed.

Lemma same_groups_noWorse st st1 st' :
  st_groupsByIndex st1 = st_groupsByIndex st ∧ st_groupSums st1 = st_groupSums st ->
  noWorse st1 st' -> noWorse st st'.
Proof. intros [E1 E2]. unfold noWorse. by rewrite E2. Qed.

Lemma improved_spec st st' : tracked items groups groupSize st' ∧ noWorse st st' -> tracked items groups groupSize (improved st') ∧ noWorse st (improved st').
Proof. done. Qed.

Lemma try11_spec attempts st b st' :
  tracked items groups groupSize st -> try11 fp items groups groupSize attempts st = Ok (b, st') ->
  tracked items groups groupSize st' ∧ noWorse st st'.
Proof.
  revert st. induction attempts as [|n IH]; intros st HI; cbn [try11].
  - intros [= <- <-]. split; [done|apply noWorse_refl].
  - destruct (randIndex fp groups st) as [g1 s1] eqn:R1.
    destruct (randOther fp groups g1 s1) as [g2 s2] eqn:R2.
    destruct (randIndex fp groupSize s2) as [i1 s3] eqn:R3.
    destruct (randIndex fp groupSize s3) as [i2 s4] eqn:R4.
    apply randIndex_groups in R1, R3, R4. apply randOther_groups in R2.
    assert (E : st_groupsByIndex s4 = st_groupsByIndex st ∧ st_groupSums s4 = st_groupSums st).
    { destruct R1, R2, R3, R4. split; congruence. }
    destruct (apply11IfBetter items s4 g1 i1 g2 i2) as [[applied s5]|] eqn:Ha; [|discriminate].
    cbn [mbind Result_bind bind].
    destruct (apply11IfBetter_spec _ _ _ _ _ _ _ (same_groups_Inv _ _ E HI) Ha) as [HI5 HW5].
    destruct applied.
    + intros [= <- <-]. apply improved_spec. split; [done|]. by eapply same_groups_noWorse.
    + intros H. destruct (IH s5 HI5 H) as [HI' HW']. split; [done|].
      eapply same_groups_noWorse; [exact E|]. by eapply noWorse_trans.
Qed.

Lemma try22_spec attempts st b st' :
  tracked items groups groupSize st -> try22 fp items groups groupSize attempts st = Ok (b, st') ->
  tracked items groups groupSize st' ∧ noWorse st st'.
Proof.
  revert st. induction attempts as [|n IH]; intros st HI; cbn [try22].
  - intros [= <- <-]. split; [done|apply noWorse_refl].
  - destruct (randIndex fp groups st) as [g1 s1] eqn:R1.
    destruct (randOther fp groups g1 s1) as [g2 s2] eqn:R2.
    destruct (randIndex fp groupSize s2) as [i1a s3] eqn:R3.
    destruct (randOther fp groupSize i1a s3) as [i1b s4] eqn:R4.
    destruct (randIndex fp groupSize s4) as [i2a s5] eqn:R5.
    destruct (randOther fp groupSize i2a s5) as [i2b s6] eqn:R6.
    pose proof (randOther_distinct _ _ _ _ _ R4) as D1.
    pose proof (randOther_distinct _ _ _ _ _ R6) as D2.
    apply randIndex_groups in R1, R3, R5. apply randOther_groups in R2, R4, R6.
    assert (E : st_groupsByIndex s6 = st_groupsByIndex st ∧ st_groupSums s6 = st_groupSums st).
    { destruct R1, R2, R3, R4, R5, R6. split; congruence. }
    destruct (apply22IfBetter items s6 g1 i1a i1b g2 i2a i2b) as [[applied s7]|] eqn:Ha;
      [|discriminate].
    cbn [mbind Result_bind bind].
    assert (Hdeg : i1a = i1b ∨ i2a = i2b ->
                   groupSize = 1%nat ∨ ¬ (i1a < groupSize ∧ i2a < groupSize)%nat).
    { intros [Heq|Heq].
      - destruct (decide (i1a < groupSize)%nat); [left; by apply D1|right; lia].
      - destruct (decide (i2a < groupSize)%nat); [left; by apply D2|right; lia]. }
    destruct (apply22IfBetter_spec _ _ _ _ _ _ _ _ _ (same_groups_Inv _ _ E HI) Hdeg Ha)
      as [HI7 HW7].
    destruct applied.
    + intros [= <- <-]. apply improved_spec. split; [done|]. by eapply same_groups_noWorse.
    + intros H. destruct (IH s7 HI7 H) as [HI' HW']. split; [done|].
      eapply same_groups_noWorse; [exact E|]. by eapply noWorse_trans.
Qed.

Lemma iterateStochastic_spec options st b st' :
  tracked items groups groupSize st -> iterateStochastic fp items groups groupSize options st = Ok (b, st') ->
  tracked items groups groupSize st' ∧ noWorse st st'.
Proof.
  intros HI. unfold iterateStochastic.
  destruct (if enable11 options then _ else _) as [[found1 s1]|] eqn:E1; [|discriminate].
  assert (H1 : tracked items groups groupSize s1 ∧ noWorse st s1).
  { destruct (enable11 options); [by eapply try11_spec|].
    injection E1 as <- <-. split; [done|apply noWorse_refl]. }
  cbn [mbind Result_bind bind]. destruct found1; [by intros [= <- <-]|].
  destruct (if enable22 options then _ else _) as [[found2 s2]|] eqn:E2; [|discriminate].
  cbn [mbind Result_bind bind]. intros [= <- <-]. destruct H1 as [HI1 HW1].
  destruct (enable22 options).
  - destruct (try22_spec _ _ _ _ HI1 E2) as [HI2 HW2]. split; [done|]. by eapply noWorse_trans.
  - by injection E2 as <- <-.
Qed.

Lemma loop_spec options fuel iterations st n st' :
  tracked items groups groupSize st -> loop fp items groups groupSize options fuel iterations st = Ok (n, st') ->
  tracked items groups groupSize st' ∧ noWorse st st'.
Proof.
  revert iterations st. induction fuel as [|fuel IH]; intros iterations st HI; cbn [loop].
  - intros [= <- <-]. split; [done|apply noWorse_refl].
  - destruct (match strategy options with best => _ | stochastic => _ end)
      as [[improved st1]|] eqn:E; [|discriminate].
    assert (H1 : tracked items groups groupSize st1 ∧ noWorse st st1).
    { destruct (strategy options); [by eapply iterateBest_spec|by eapply iterateStochastic_spec]. }
    cbn [mbind Result_bind bind]. destruct H1 as [HI1 HW1]. destruct improved.
    + intros H. destruct (IH _ _ HI1 H) as [HI' HW']. split; [done|]. by eapply noWorse_trans.
    + by intros [= <- <-].
Qed.

Lemma loop_best_returns options fuel iterations st :
  strategy options = best -> tracked items groups groupSize st ->
  ∃ r, loop fp items groups groupSize options fuel iterations st = Ok r.
Proof.
  intros Hbest. revert iterations st.
  induction fuel as [|fuel IH]; intros iterations st HI; cbn [loop]; [by eexists|].
  rewrite Hbest. destruct (iterateBest_returns options st HI) as [[improved st1] E].
  rewrite E. cbn [mbind Result_bind bind]. destruct improved; [|by eexists].
  apply IH. by eapply iterateBest_spec.
Qed.

End WithDoubles.

End LocalRefineFacts.

Lemma equal_sizes (gbi : list (list Z)) :
  forallb (fun group => bool_decide (length group = default 0%nat (length <$> gbi !! 0%nat)))
    (drop 1 gbi) = true ->
  Forall (fun group => length group = default 0%nat (length <$> gbi !! 0%nat)) gbi.
Proof.
  destruct gbi as [|first rest]; [constructor|]. cbn. rewrite drop_0.
  intros H. constructor; [done|]. apply Forall_forall. intros group Hin.
  rewrite forallb_forall in H. eapply bool_decide_eq_true_1, H.
  by apply list_elem_of_In.
Qed.

Lemma equal_sizes_check (gbi : list (list Z)) groupSize :
  Forall (fun group => length group = groupSize) gbi ->
  forallb (fun group => bool_decide (length group = default 0%nat (length <$> gbi !! 0%nat)))
    (drop 1 gbi) = true.
Proof.
  destruct gbi as [|first rest]; [done|]. cbn. rewrite drop_0.
  intros H. apply Forall_cons in H as [-> H]. apply forallb_forall.
  intros group Hin. apply bool_decide_eq_true_2.
  rewrite Forall_forall in H. by apply H, list_elem_of_In.
Qed.

Lemma localRefine_spec fp items gbi options r :
  LocalRefine.localRefine fp items gbi options = Ok r ->
  ∃ before,
    Evaluate.sumGroups items gbi = Ok before
    ∧ Evaluate.sumGroups items (LocalRefine.groupsByIndex r) = Ok (LocalRefine.groupSums r)
    ∧ xleb (deltaOf (LocalRefine.groupSums r)) (deltaOf before) = true.
Proof.
  unfold LocalRefine.localRefine.
  destruct (forallb _ (drop 1 gbi)) eqn:Hsz; cbn [negb]; [|discriminate].
  destruct (Evaluate.sumGroups items gbi) as [before|] eqn:Hs; [|discriminate].
  cbn [mbind Result_bind bind].
  destruct (LocalRefine.loop _ _ _ _ _ _ _ _) as [[n st]|] eqn:Hl; [|discriminate].
  cbn [mbind Result_bind bind mret Result_ret]. intros [= <-].
  cbn [LocalRefine.groupsByIndex LocalRefine.groupSums].
  eapply loop_spec in Hl as [(Hs' & _ & _) HW].
  - exists before. done.
  - split; [exact Hs|]. split; [reflexivity|]. by apply equal_sizes.
Qed.

Lemma localRefine_best_returns fp items gbi options before :
  forallb (fun group => bool_decide (length group = default 0%nat (length <$> gbi !! 0%nat)))
    (drop 1 gbi) = true ->
  Evaluate.sumGroups items gbi = Ok before ->
  LocalRefine.strategy options = LocalRefine.best ->
  ∃ r, LocalRefine.localRefine fp items gbi options = Ok r.
Proof.
  intros Hsz Hs Hbest. unfold LocalRefine.localRefine. rewrite Hsz, Hs.
  cbn [negb mbind Result_bind bind].
  edestruct (loop_best_returns items (length gbi)) as [[n st] ->]; [exact Hbest| |].
  - split; [exact Hs|]. split; [reflexivity|]. by apply equal_sizes.
  - cbn. by eexists.
Qed.

Section RoundingDrift.
Import PrimFloat.
#[local] Set Warnings "-inexact-float".
Local Open Scope float_scope.

(** C2.  The sums that [localRefine] tracks are updated by rounding double
    operations, and the swap test compares deltas of those tracked sums.
    With the default options (strategy 'best') on capacities
    [0.3, 0.3, 0.6, 0.5, 1.2, 0.9] and groups [[0,4,1],[3,2,5]], whose
    delta the evaluator gives as 0.19999999999999996, [localRefine] returns
    [[0,2,5],[3,4,1]] with tracked sums
    [1.8000000000000003, 1.9999999999999998]; the evaluator gives the
    returned grouping the sums [1.7999999999999998, 2] and the delta
    0.20000000000000018, which is larger than the delta of the input. *)
Theorem localRefine_increases_delta_on_doubles (fp : Doubles) :
  let items := OnDoubles.fromCapacities [0.3; 0.3; 0.6; 0.5; 1.2; 0.9] in
  let input := [[0; 4; 1]; [3; 2; 5]]%Z in
  let output := [[0; 2; 5]; [3; 4; 1]]%Z in
  OnDoubles.evaluateGroupingFastCPU items input = Ok ([1.8; 2], 0.19999999999999996)
  ∧ OnDoubles.localRefine fp items input LocalRefine.defaultOptions
    = Ok (OnDoubles.mkResult output [1.8000000000000003; 1.9999999999999998] 2 1)
  ∧ OnDoubles.evaluateGroupingFastCPU items output = Ok ([1.7999999999999998; 2], 0.20000000000000018)
  ∧ (0.19999999999999996 <? 0.20000000000000018) = true.
Proof. repeat split; vm_compute; reflexivity. Qed.

End RoundingDrift.

(** On the integer capacities [15,14,10,8,4,3] and groups [[0,3,5],[1,2,4]]
    of the spec's example, the 'best' strategy reaches delta 0 in two
    iterations. *)
Lemma localRefine_example :
  LocalRefine.localRefine exactDoubles (fromCapacities [15; 14; 10; 8; 4; 3])
    [[0; 3; 5]; [1; 2; 4]] LocalRefine.defaultOptions
  = Ok (LocalRefine.mkResult [[0; 3; 4]; [1; 2; 5]] [27; 27] 2 1).
Proof. vm_compute. reflexivity. Qed.

(** ** Graceful degradation and the entry point *)

Section Dealing.
Local Open Scope nat_scope.

Lemma dealt_S k n g :
  (0 < k)%nat -> (g < k)%nat ->
  dealt k (S n) g = (dealt k n g + (if bool_decide (n mod k = g) then 1 else 0))%nat.
Proof.
  intros Hk Hg. unfold dealt.
  pose proof (Nat.div_mod_eq n k) as Hn.
  pose proof (Nat.mod_upper_bound n k ltac:(lia)) as Hr.
  destruct (decide (n mod k + 1 < k)%nat) as [Hlt|Hge].
  - assert (Hq : (S n / k = n / k)%nat).
    { symmetry. apply (Nat.div_unique _ _ _ (n mod k + 1)); lia. }
    assert (Hm : (S n mod k = n mod k + 1)%nat).
    { symmetry. apply (Nat.mod_unique _ _ (n / k)); lia. }
    rewrite Hq, Hm. repeat case_bool_decide; lia.
  - assert (Hq : (S n / k = n / k + 1)%nat).
    { symmetry. apply (Nat.div_unique _ _ _ 0); lia. }
    assert (Hm : (S n mod k = 0)%nat).
    { symmetry. apply (Nat.mod_unique _ _ (n / k + 1)); lia. }
    rewrite Hq, Hm. repeat case_bool_decide; lia.
Qed.

Lemma dealt_full k groupSize g : (0 < k)%nat -> dealt k (k * groupSize) g = groupSize.
Proof.
  intros Hk. unfold dealt. rewrite (Nat.mul_comm k), Nat.div_mul, Nat.Div0.mod_mul by lia.
  case_bool_decide; lia.
Qed.

Lemma concat_pushAt {A} (a : list (list A)) i x :
  (i < length a)%nat -> concat (pushAt a i x) ≡ₚ x :: concat a.
Proof.
  revert i. induction a as [|y a IH]; intros i Hi; cbn in Hi; [lia|].
  destruct i as [|i].
  - change (pushAt (y :: a) 0 x) with ((y ++ [x]) :: a). cbn.
    rewrite <- app_assoc. symmetry. apply Permutation_middle.
  - change (pushAt (y :: a) (S i) x) with (y :: pushAt a i x). cbn.
    rewrite IH by lia. symmetry. apply Permutation_middle.
Qed.

Lemma insertSorted_perm {A} (le : A -> A -> bool) x l : insertSorted le x l ≡ₚ x :: l.
Proof.
  induction l as [|y l IH]; cbn; [done|].
  destruct (le x y); [done|]. rewrite IH. apply perm_swap.
Qed.

Lemma sort_perm {A} (le : A -> A -> bool) (l : list A) : JS.sort le l ≡ₚ l.
Proof.
  unfold JS.sort. induction l as [|x l IH]; cbn; [done|].
  by rewrite insertSorted_perm, IH.
Qed.

Lemma push_Ok {A} (a : list (list A)) i x :
  (i < length a)%nat -> push a i x = Ok (pushAt a i x).
Proof.
  intros Hi. unfold push. by destruct (lookup_lt_is_Some_2 a i Hi) as [g ->].
Qed.

Lemma lengthsAt_push k n byIndex index :
  (0 < k)%nat -> length byIndex = k -> lengthsAt k n byIndex ->
  lengthsAt k (S n) (pushAt byIndex (n mod k) index).
Proof.
  intros Hk Hlen H g group Hg. unfold pushAt in Hg.
  assert (g < k)%nat as Hgk.
  { apply lookup_lt_Some in Hg. by rewrite length_alter, Hlen in Hg. }
  rewrite dealt_S by done.
  destruct (decide (n mod k = g)) as [Heq|Hne]; [subst g|].
  - rewrite list_lookup_alter_eq in Hg.
    destruct (byIndex !! (n mod k)) as [old|] eqn:Hold; [|discriminate].
    injection Hg as <-. rewrite length_app, (H _ _ Hold). cbn.
    by rewrite bool_decide_eq_true_2.
  - rewrite list_lookup_alter_ne in Hg by done.
    rewrite (H _ _ Hg). rewrite bool_decide_eq_false_2 by done. lia.
Qed.

(** the dealing loop of [createGracefulDegradation], from position [n] on *)
Lemma deal_spec (k : nat) (l : list (Item * Z)) :
  (0 < k)%nat ->
  ∀ (n : nat) (mk : nat -> Item * Z -> nat * (Item * Z)) byId byIndex sums,
    (∀ j x, mk j x = ((n + j)%nat, x)) ->
    length byId = k -> length byIndex = k -> lengthsAt k n byIndex ->
    ∃ byId' byIndex' sums',
      foldM (fun '(groupsById, groupsByIndex, groupSums) '(i, (item, index)) =>
               let groupIndex := (i `mod` k)%nat in
               groupsById ← push groupsById groupIndex (id item);
               groupsByIndex ← push groupsByIndex groupIndex index;
               mret (groupsById, groupsByIndex, addAt groupSums groupIndex (capacity item)))
        (byId, byIndex, sums) (imap mk l)
      = Ok (byId', byIndex', sums')
      ∧ length byIndex' = k
      ∧ lengthsAt k (n + length l) byIndex'
      ∧ concat byIndex' ≡ₚ concat byIndex ++ (snd <$> l).
Proof.
  intros Hk. induction l as [|[item index] l IH]; intros n mk byId byIndex sums Hmk H1 H2 H3.
  - exists byId, byIndex, sums. cbn. rewrite Nat.add_0_r, app_nil_r. done.
  - rewrite imap_cons, Hmk, Nat.add_0_r. cbn [foldM bind].
    assert (n mod k < k)%nat as Hg by (apply Nat.mod_upper_bound; lia).
    cbn [mbind Result_bind]. rewrite !push_Ok by lia. cbn [bind mret Result_ret].
    edestruct (IH (S n) (mk ∘ S)) as (byId' & byIndex' & sums' & E & L & LA & P).
    + intros j x. cbn. rewrite Hmk. f_equal. lia.
    + unfold pushAt. rewrite length_alter. exact H1.
    + unfold pushAt. rewrite length_alter. exact H2.
    + by apply lengthsAt_push.
    + exists byId', byIndex', sums'. split; [exact E|]. split; [exact L|]. split.
      * cbn [length]. by rewrite Nat.add_succ_r.
      * rewrite P. fold (pushAt byIndex (n mod k) index). rewrite concat_pushAt by lia. cbn. apply Permutation_middle.
Qed.

Lemma remove_dups_NoDup (l : list Z) : NoDup l -> remove_dups l = l.
Proof.
  induction 1 as [|x l Hx _ IH]; cbn; [done|].
  destruct (decide_rel elem_of x l); [done|]. by rewrite IH.
Qed.

Lemma validateGrouping_intro items (groupsByIndex : list (list Z)) groupSize :
  Forall (fun group => length group = groupSize) groupsByIndex ->
  concat groupsByIndex ≡ₚ Z.of_nat <$> seq 0 (length items) ->
  Evaluate.validateGrouping items groupsByIndex groupSize = true.
Proof.
  intros Hsz Hperm. unfold Evaluate.validateGrouping.
  assert (NoDup (concat groupsByIndex)) as Hnd.
  { rewrite Hperm. apply NoDup_fmap_2; [apply _|apply NoDup_seq]. }
  rewrite (remove_dups_NoDup _ Hnd).
  assert (length (concat groupsByIndex) = length items) as Hlen.
  { by rewrite Hperm, length_fmap, length_seq. }
  rewrite !andb_true_iff. repeat split.
  - apply forallb_forall. intros group Hin. apply bool_decide_eq_true_2.
    rewrite Forall_forall in Hsz. by apply Hsz, list_elem_of_In.
  - by apply bool_decide_eq_true_2.
  - by apply bool_decide_eq_true_2.
  - apply forallb_forall. intros index Hin. apply list_elem_of_In in Hin.
    rewrite Hperm in Hin. apply list_elem_of_fmap in Hin as (i & -> & Hi).
    apply elem_of_seq in Hi. apply negb_true_iff, orb_false_iff. split; lia.
Qed.

Lemma length_concat_equal {A} (l : list (list A)) n :
  Forall (fun group => length group = n) l -> length (concat l) = (length l * n)%nat.
Proof.
  induction 1 as [|x l Hx _ IH]; cbn; [done|]. rewrite length_app, IH, Hx. lia.
Qed.

Lemma validateGrouping_groups items groupsByIndex groups groupSize :
  Evaluate.validateGrouping items groupsByIndex groupSize = true ->
  length items = (groups * groupSize)%nat -> (0 < groupSize)%nat ->
  length groupsByIndex = groups.
Proof.
  unfold Evaluate.validateGrouping. rewrite !andb_true_iff.
  intros [[[Hsz Hd] Hl] _] Hlen Hgs.
  apply bool_decide_eq_true_1 in Hd, Hl.
  assert (Forall (fun group : list Z => length group = groupSize) groupsByIndex) as HF.
  { apply Forall_forall. intros group Hin. rewrite forallb_forall in Hsz.
    eapply bool_decide_eq_true_1, Hsz. by apply list_elem_of_In. }
  apply length_concat_equal in HF. nia.
Qed.

Lemma createGracefulDegradation_valid items groups groupSize :
  (0 < groups)%nat -> length items = (groups * groupSize)%nat ->
  ∃ g, Recovery.createGracefulDegradation items groups groupSize = Ok g
       ∧ Evaluate.validateGrouping items (groupsByIndex g) groupSize = true
       ∧ methodUsed g = "graceful-degradation"%string.
Proof.
  intros Hk Hlen. unfold Recovery.createGracefulDegradation.
  set (sortedItems := sortBy _ (indexed items)).
  assert (sortedItems ≡ₚ indexed items) as Hsorted by apply sort_perm.
  edestruct (deal_spec groups sortedItems Hk 0%nat pair
               (emptyGroups groups) (emptyGroups groups) (zeros groups))
    as (byId & byIndex & sums & E & L & LA & P).
  - done.
  - apply length_replicate.
  - apply length_replicate.
  - intros g group Hg. apply lookup_replicate in Hg as [-> _].
    unfold dealt. rewrite Nat.Div0.div_0_l, Nat.Div0.mod_0_l.
    rewrite bool_decide_eq_false_2 by lia. reflexivity.
  - cbv zeta in E. rewrite E. cbn [mbind Result_bind bind mret Result_ret].
    eexists. split; [reflexivity|]. split; [|reflexivity]. cbn [groupsByIndex].
    apply validateGrouping_intro.
    + apply Forall_forall. intros group Hin. apply list_elem_of_lookup in Hin as [g Hg].
      rewrite (LA _ _ Hg). cbn. rewrite Hsorted. unfold indexed. rewrite length_imap, Hlen.
      by apply dealt_full.
    + rewrite P. cbn. rewrite Hsorted. unfold indexed, emptyGroups.
      replace (concat (replicate groups [])) with (@nil Z)
        by (clear; induction groups; cbn; done).
      cbn. rewrite fmap_imap. by rewrite <- (imap_seq_0 items Z.of_nat).
Qed.

End Dealing.

Section Fallback.
Import Index.

Lemma validatePartitionInputs_Ok items groups groupSize :
  Validation.validatePartitionInputs items groups groupSize = Ok tt ->
  (0 < groups)%nat ∧ (0 < groupSize)%nat ∧ length items = (groups * groupSize)%nat.
Proof.
  unfold Validation.validatePartitionInputs, Validation.validateGroupParameters,
    Validation.validateItemCount.
  destruct (bool_decide (length items = 0%nat)); [discriminate|].
  destruct (bool_decide (groups = 0%nat)) eqn:H1; [discriminate|].
  destruct (bool_decide (groupSize = 0%nat)) eqn:H2; [discriminate|].
  destruct (bool_decide (1000 < groups)%nat); [discriminate|].
  destruct (bool_decide (1000 < groupSize)%nat); [discriminate|].
  cbn [mbind Result_bind bind].
  destruct (bool_decide (length items ≠ (groups * groupSize)%nat)) eqn:H3; [discriminate|].
  intros _. apply bool_decide_eq_false_1 in H1, H2, H3.
  split; [lia|]. split; [lia|]. by destruct (decide (length items = (groups * groupSize)%nat)).
Qed.

Lemma recover_None items groups groupSize error :
  Recovery.defaultRecoveryManager_recover items groups groupSize error = None.
Proof. by destruct error. Qed.

Lemma validateAndScore_valid env items groupSize isLarge result g c :
  validateAndScore env items groupSize isLarge result = (Ok g, c) ->
  Evaluate.validateGrouping items (groupsByIndex g) groupSize = true.
Proof.
  unfold validateAndScore.
  destruct (Evaluate.validateGrouping items (groupsByIndex result) groupSize) eqn:Hv;
    cbn [negb]; [|discriminate].
  destruct (Evaluate.evaluateGrouping _ _ _ _ _) as [[ev|e] c']; [|discriminate].
  by intros [= <- <-].
Qed.

Lemma attempt_valid env items groups groupSize normalizedOptions isLarge g c :
  attempt env items groups groupSize normalizedOptions isLarge = (Ok g, c) ->
  Evaluate.validateGrouping items (groupsByIndex g) groupSize = true.
Proof.
  unfold attempt. destruct (runMethod _ _ _ _ _ _) as [result|e]; [|discriminate].
  apply validateAndScore_valid.
Qed.

Lemma recoverOrDegrade_valid items groups groupSize outcome :
  (0 < groups)%nat -> length items = (groups * groupSize)%nat ->
  (∀ g c, outcome = (Ok g, c) ->
          Evaluate.validateGrouping items (groupsByIndex g) groupSize = true) ->
  ∃ g c, recoverOrDegrade items groups groupSize outcome = (Ok g, c)
         ∧ Evaluate.validateGrouping items (groupsByIndex g) groupSize = true.
Proof.
  intros Hk Hlen Hout. destruct outcome as [[g|e] c]; cbn [recoverOrDegrade].
  - exists g, c. split; [done|]. by eapply Hout.
  - rewrite recover_None.
    destruct (createGracefulDegradation_valid items groups groupSize Hk Hlen)
      as (g & -> & Hv & _).
    exists g, c. done.
Qed.





End Fallback.

(** ** Reproducibility *)

Section Clock.
Import Metaheuristic.
Context (fp : Doubles) (items : list Item) (totalItems targetGroups targetGroupSize : nat).
Context (ty : MetaheuristicType) (mi : Z) (sd : option Z) (ps : nat) (mr cr : Q)
        (es ts : nat) (ac : bool) (t1 t2 : nat -> bool).

Local Abbreviation o1 := (mkOptions ty mi sd ps mr cr es ts ac t1).
Local Abbreviation o2 := (mkOptions ty mi sd ps mr cr es ts ac t2).

Lemma generations_clock fuel : ∀ iterations population best randState,
  (∀ k, (iterations < k ≤ iterations + fuel)%nat -> t1 k = t2 k) ->
  generations fp items o1 totalItems targetGroups targetGroupSize fuel iterations population
    best randState
  = generations fp items o2 totalItems targetGroups targetGroupSize fuel iterations population
      best randState.
Proof.
  induction fuel as [|fuel IH]; intros iterations population best randState H;
    cbn [generations]; [done|].
  change (timeUp o1 (S iterations)) with (t1 (S iterations)).
  change (timeUp o2 (S iterations)) with (t2 (S iterations)).
  rewrite (H (S iterations)) by lia. destruct (t2 (S iterations)); [done|].
  change (generation fp items o1 totalItems targetGroups targetGroupSize population best
            randState)
    with (generation fp items o2 totalItems targetGroups targetGroupSize population best
            randState).
  destruct (generation fp items o2 _ _ _ _ _ _) as [[[p b] r]|]; [|done].
  cbn [mbind Result_bind bind]. apply IH. intros k Hk. apply H. lia.
Qed.

Lemma annealing_clock fuel : ∀ iterations currentSolution currentFitness best randState,
  (∀ k, (iterations < k ≤ iterations + fuel)%nat -> t1 k = t2 k) ->
  annealing fp items o1 targetGroups targetGroupSize fuel iterations currentSolution
    currentFitness best randState
  = annealing fp items o2 targetGroups targetGroupSize fuel iterations currentSolution
      currentFitness best randState.
Proof.
  induction fuel as [|fuel IH]; intros iterations cur curF best randState H;
    cbn [annealing]; [done|].
  change (timeUp o1 (S iterations)) with (t1 (S iterations)).
  change (timeUp o2 (S iterations)) with (t2 (S iterations)).
  rewrite (H (S iterations)) by lia. destruct (t2 (S iterations)); [done|].
  destruct (generateNeighbor _ _ _ _ _) as [[neighbor r]|]; [|done].
  cbn [mbind Result_bind bind].
  destruct (calculateFitness _ _ _) as [nf|]; [|done].
  cbn [mbind Result_bind bind].
  destruct (if Qltb 0 _ then _ else _) as [[|] r'];
    apply IH; intros k Hk; apply H; lia.
Qed.

Lemma tabuLoop_clock fuel : ∀ iterations currentSolution best tabuList,
  (∀ k, (iterations < k ≤ iterations + fuel)%nat -> t1 k = t2 k) ->
  tabuLoop items o1 targetGroups targetGroupSize fuel iterations currentSolution best tabuList
  = tabuLoop items o2 targetGroups targetGroupSize fuel iterations currentSolution best
      tabuList.
Proof.
  induction fuel as [|fuel IH]; intros iterations cur best tabuList H;
    cbn [tabuLoop]; [done|].
  change (timeUp o1 (S iterations)) with (t1 (S iterations)).
  change (timeUp o2 (S iterations)) with (t2 (S iterations)).
  rewrite (H (S iterations)) by lia. destruct (t2 (S iterations)); [done|].
  change (bestNeighbour items o1 targetGroups targetGroupSize cur best tabuList)
    with (bestNeighbour items o2 targetGroups targetGroupSize cur best tabuList).
  destruct (bestNeighbour items o2 _ _ _ _ _) as [[[[n nf] mv]|]|]; [| |done];
    cbn [mbind Result_bind bind].
  - change (remember o1 tabuList mv) with (remember o2 tabuList mv).
    apply IH. intros k Hk. apply H. lia.
  - apply IH. intros k Hk. apply H. lia.
Qed.

End Clock.

Lemma metaheuristic_clock fp items groups groupSize o1 o2 :
  sameSearch o1 o2 -> sameChecks o1 o2 ->
  Metaheuristic.metaheuristic fp items groups groupSize o1
  = Metaheuristic.metaheuristic fp items groups groupSize o2.
Proof.
  destruct o1 as [ty mi sd ps mr cr es ts ac t1], o2 as [ty' mi' sd' ps' mr' cr' es' ts' ac' t2].
  unfold sameSearch, sameChecks. cbn.
  intros (<- & <- & <- & <- & <- & <- & <- & <- & <-) H.
  unfold Metaheuristic.metaheuristic. cbn [Metaheuristic.seed Metaheuristic.type].
  case_bool_decide; [done|]. destruct ty.
  - unfold Metaheuristic.geneticAlgorithm.
    cbn [Metaheuristic.populationSize Metaheuristic.maxIters].
    destruct (foldM _ _ (seq 0 ps)) as [[population randState]|]; [|done].
    cbn [mbind Result_bind bind].
    destruct (defined _) as [first|]; [|done]. cbn [mbind Result_bind bind].
    destruct (Metaheuristic.calculateFitness _ _ _) as [firstFitness|]; [|done].
    cbn [mbind Result_bind bind].
    rewrite (generations_clock fp items (length items) groups groupSize
               Metaheuristic.Genetic mi sd ps mr cr es ts ac t1 t2); [done|].
    intros k Hk. apply H. lia.
  - unfold Metaheuristic.simulatedAnnealing. cbn [Metaheuristic.maxIters].
    destruct (Metaheuristic.generateRandomSolution _ _ _ _) as [[cur randState]|]; [|done].
    cbn [mbind Result_bind bind].
    destruct (Metaheuristic.calculateFitness _ _ _) as [curFitness|]; [|done].
    cbn [mbind Result_bind bind].
    rewrite (annealing_clock fp items groups groupSize
               Metaheuristic.SimulatedAnnealing mi sd ps mr cr es ts ac t1 t2); [done|].
    intros k Hk. apply H. lia.
  - unfold Metaheuristic.tabuSearch. cbn [Metaheuristic.maxIters].
    destruct (Metaheuristic.generateRandomSolution _ _ _ _) as [[cur randState]|]; [|done].
    cbn [mbind Result_bind bind].
    destruct (Metaheuristic.calculateFitness _ _ _) as [curFitness|]; [|done].
    cbn [mbind Result_bind bind].
    rewrite (tabuLoop_clock items groups groupSize
               Metaheuristic.TabuSearch mi sd ps mr cr es ts ac t1 t2); [done|].
    intros k Hk. apply H. lia.
Qed.

Section EntryPoint.
Import Index.

Lemma runMethod_clockFree env1 env2 items groups groupSize normalizedOptions isLarge :
  clockFree (n_method normalizedOptions) = true ->
  runMethod env1 items groups groupSize normalizedOptions isLarge
  = runMethod env2 items groups groupSize normalizedOptions isLarge.
Proof. unfold runMethod. by destruct (n_method normalizedOptions). Qed.

Lemma forceSimpler_method isVeryLarge normalizedOptions :
  n_method (forceSimpler isVeryLarge normalizedOptions) = n_method normalizedOptions.
Proof. unfold forceSimpler. by destruct (_ && _). Qed.

Lemma recoverOrDegrade_fst items groups groupSize outcome1 outcome2 :
  fst outcome1 = fst outcome2 ->
  fst (recoverOrDegrade items groups groupSize outcome1)
  = fst (recoverOrDegrade items groups groupSize outcome2).
Proof.
  destruct outcome1 as [r1 c1], outcome2 as [r2 c2]. cbn [fst]. intros <-.
  destruct r1 as [g|e]; cbn [recoverOrDegrade]; [done|].
  by destruct (Recovery.defaultRecoveryManager_recover _ _ _ _).
Qed.

Lemma attempt_clockFree env1 env2 items groups groupSize normalizedOptions isLarge :
  fresh env1 -> fresh env2 -> clockFree (n_method normalizedOptions) = true ->
  fst (attempt env1 items groups groupSize normalizedOptions isLarge)
  = fst (attempt env2 items groups groupSize normalizedOptions isLarge).
Proof.
  intros H1 H2 Hm. unfold attempt.
  rewrite (runMethod_clockFree env1 env2) by done.
  destruct (runMethod env2 _ _ _ _ _) as [result|e]; [|done].
  by rewrite !validateAndScore_fresh.
Qed.

Lemma partitionBalanced_clockFree env1 env2 items groups groupSize options :
  fresh env1 -> fresh env2 -> clockFree (n_method (normalizeOptions options)) = true ->
  fst (partitionBalanced env1 items groups groupSize options)
  = fst (partitionBalanced env2 items groups groupSize options).
Proof.
  intros H1 H2 Hm. unfold partitionBalanced.
  destruct (_ ≫= _) as [[]|e]; [|done]. cbv zeta.
  apply recoverOrDegrade_fst, attempt_clockFree; [done..|].
  by rewrite forceSimpler_method.
Qed.

End EntryPoint.

(** C7 (counterexample).  Tabu search on eight items, two groups of four,
    seed 42 and ten iterations: when the budget check
    [performance.now() - startTime > timeLimitMs] fires at the first
    iteration the call returns the initial shuffle [[5,6,1,0],[7,4,3,2]];
    when it never fires the same call returns [[7,6,1,0],[5,4,3,2]].  Items,
    seed and method are the same in both calls. *)
Lemma metaheuristic_clock_counterexample :
  let items := fromCapacities [15; 14; 13; 12; 11; 10; 9; 8] in
  let run timeUp :=
    Metaheuristic.groupsByIndex <$>
      Metaheuristic.metaheuristic exactDoubles items 2 4 (seeded Metaheuristic.TabuSearch timeUp) in
  run always = Ok [[5; 6; 1; 0]; [7; 4; 3; 2]]
  ∧ run never = Ok [[7; 6; 1; 0]; [5; 4; 3; 2]]
  ∧ run always ≠ run never.
Proof. cbv zeta. split; [|split]; vm_compute; [reflexivity|reflexivity|discriminate]. Qed.

(** C7 (amended).  With method roundrobin, lpt or kk, two calls of
    [partitionBalanced] on the same arguments return the same grouping (or
    reject the input alike) in any two environments, that is whatever the
    clock, the performance history and the earlier contents of the cache
    are.  Two calls of [metaheuristic] on the same items, seed, type and
    parameters return the same result whenever the budget checks of the two
    runs have the same outcomes during the [maxIters] iterations. *)
Theorem solver_output_reproducible env1 env2 fp items groups groupSize options o1 o2 :
  fresh env1 -> fresh env2 -> sameSearch o1 o2 -> sameChecks o1 o2 ->
  (clockFree (Index.n_method (Index.normalizeOptions options)) = true ->
   fst (Index.partitionBalanced env1 items groups groupSize options)
   = fst (Index.partitionBalanced env2 items groups groupSize options))
  ∧ Metaheuristic.metaheuristic fp items groups groupSize o1
    = Metaheuristic.metaheuristic fp items groups groupSize o2.
Proof.
  intros H1 H2 Hs Hc. split.
  - intros Hm. by apply partitionBalanced_clockFree.
  - by apply metaheuristic_clock.
Qed.

Lemma solver_output_reproducible_witness :
  fst (Index.partitionBalanced idleEnv (fromCapacities [15; 14; 13; 12; 11; 10; 9; 8]) 2 4
         (Index.mkPartitionOptions (Some Index.m_lpt) None (Some 42) None None None None None
            None None))
  = fst (Index.partitionBalanced expiredEnv (fromCapacities [15; 14; 13; 12; 11; 10; 9; 8]) 2 4
           (Index.mkPartitionOptions (Some Index.m_lpt) None (Some 42) None None None None None
              None None))
  ∧ Metaheuristic.metaheuristic exactDoubles (fromCapacities [15; 14; 13; 12; 11; 10; 9; 8]) 2 4
      (seeded Metaheuristic.TabuSearch never)
    = Metaheuristic.metaheuristic exactDoubles (fromCapacities [15; 14; 13; 12; 11; 10; 9; 8])
        2 4 (seeded Metaheuristic.TabuSearch lateClock).
Proof.
  destruct (solver_output_reproducible idleEnv expiredEnv exactDoubles
              (fromCapacities [15; 14; 13; 12; 11; 10; 9; 8]) 2 4
              (Index.mkPartitionOptions (Some Index.m_lpt) None (Some 42) None None None None
                 None None None)
              (seeded Metaheuristic.TabuSearch never)
              (seeded Metaheuristic.TabuSearch lateClock)) as [H1 H2].
  - reflexivity.
  - reflexivity.
  - repeat split; reflexivity.
  - intros k Hk. change (Z.to_nat _) with 10%nat in Hk.
    change (false = bool_decide (10 < k)%nat). symmetry. apply bool_decide_eq_false_2. lia.
  - split; [exact (H1 eq_refl)|exact H2].
Defined.

(** ** The evaluation cache *)

Section CacheFacts.
Import EvaluationCache.
Context {T : Type}.
Implicit Types (bucket : Bucket T) (c : t T).

Lemma mapGet_cons bucket k v key :
  mapGet ((k, v) :: bucket) key = if bool_decide (k = key) then Some v else mapGet bucket key.
Proof. unfold mapGet. cbn. by case_bool_decide. Qed.

Lemma mapGet_app_None bucket1 bucket2 key :
  mapGet bucket1 key = None -> mapGet (bucket1 ++ bucket2) key = mapGet bucket2 key.
Proof.
  induction bucket1 as [|[k v] b IH]; [done|]. cbn [app]. rewrite !mapGet_cons.
  case_bool_decide; [done|]. apply IH.
Qed.

Lemma mapGet_app_Some bucket1 bucket2 key v :
  mapGet bucket1 key = Some v -> mapGet (bucket1 ++ bucket2) key = Some v.
Proof.
  induction bucket1 as [|[k w] b IH]; [done|]. cbn [app]. rewrite !mapGet_cons.
  case_bool_decide; [done|]. apply IH.
Qed.

Lemma mapGet_replace bucket key value k :
  mapGet (map (fun e => if bool_decide (e.1 = key) then (key, value) else e) bucket) k
  = if bool_decide (k = key) then (fun _ => value) <$> mapGet bucket key else mapGet bucket k.
Proof.
  induction bucket as [|[k0 v0] b IH]; cbn [map].
  - by case_bool_decide.
  - cbn [fst]. destruct (decide (k0 = key)) as [->|Hne].
    + rewrite bool_decide_eq_true_2 by done. rewrite !mapGet_cons.
      destruct (decide (k = key)) as [->|Hk].
      * by rewrite !bool_decide_eq_true_2.
      * rewrite (bool_decide_eq_false_2 (key = k)) by done.
        rewrite IH. by rewrite (bool_decide_eq_false_2 (k = key)).
    + rewrite (bool_decide_eq_false_2 (k0 = key)) by done. rewrite !mapGet_cons.
      rewrite IH. repeat case_bool_decide; congruence.
Qed.

Lemma mapGet_mapSet bucket key value k :
  mapGet (mapSet bucket key value) k
  = if bool_decide (k = key) then Some value else mapGet bucket k.
Proof.
  unfold mapSet, mapHas. case_bool_decide as Hhas.
  - rewrite mapGet_replace. case_bool_decide; [|done]. by destruct Hhas as [w ->].
  - apply eq_None_not_Some in Hhas. case_bool_decide as Hk.
    + subst k. rewrite mapGet_app_None by done. rewrite mapGet_cons.
      by rewrite bool_decide_eq_true_2.
    + destruct (mapGet bucket k) as [w|] eqn:Hw.
      * by apply mapGet_app_Some.
      * rewrite mapGet_app_None by done. rewrite mapGet_cons.
        by rewrite bool_decide_eq_false_2 by congruence.
Qed.

Lemma mapGet_mapDelete bucket key k :
  mapGet (mapDelete bucket key) k = if bool_decide (k = key) then None else mapGet bucket k.
Proof.
  unfold mapDelete, Bucket. induction bucket as [|[k0 v0] b IH].
  - by case_bool_decide.
  - rewrite filter_cons. cbn [fst]. destruct (decide (k0 ≠ key)) as [Hne|Heq].
    + rewrite !mapGet_cons, IH. repeat case_bool_decide; congruence.
    + apply dec_stable in Heq. subst k0. rewrite mapGet_cons, IH.
      repeat case_bool_decide; congruence.
Qed.

Lemma length_mapSet bucket key value :
  (length (mapSet bucket key value) ≤ S (length bucket))%nat.
Proof.
  unfold mapSet. destruct (mapHas bucket key).
  - rewrite length_map. lia.
  - rewrite length_app. cbn. lia.
Qed.

Lemma length_mapDelete_head k v bucket :
  (length (mapDelete ((k, v) :: bucket) k) ≤ length bucket)%nat.
Proof.
  unfold mapDelete, Bucket. rewrite filter_cons. cbn [fst].
  destruct (decide (k ≠ k)) as [Hne|_]; [done|]. apply length_filter.
Qed.

(** the bucket that [set] stores for [itemsRef] *)
Lemma set_lookup c itemsRef key value :
  ∃ bucket',
    store (set c itemsRef key value) !! itemsRef = Some (mapSet bucket' key value)
    ∧ (∀ k, mapGet bucket' k
            = if full c itemsRef && bool_decide (oldestKey c itemsRef = Some k)
              then None else mapGet (bucketOf c itemsRef) k)
    ∧ (length bucket' ≤ length (bucketOf c itemsRef))%nat
    ∧ (full c itemsRef = true -> bucketOf c itemsRef ≠ [] ->
       (length bucket' < length (bucketOf c itemsRef))%nat).
Proof.
  unfold set, full, oldestKey, bucketOf. cbn [store]. rewrite lookup_insert_eq.
  eexists. split; [reflexivity|].
  destruct (default [] (store c !! itemsRef)) as [|[k0 v0] b] eqn:Hb.
  - split; [|split].
    + intros k. destruct (bool_decide _); [|by rewrite andb_false_l].
      by destruct (_ && _).
    + by destruct (bool_decide _).
    + done.
  - case_bool_decide; cbn [andb head fmap option_fmap option_map fst].
    + split; [|split].
      * intros k. rewrite mapGet_mapDelete.
        destruct (decide (k = k0)) as [->|Hne].
        -- by rewrite !bool_decide_eq_true_2.
        -- rewrite !bool_decide_eq_false_2; [done|congruence|done].
      * pose proof (length_mapDelete_head k0 v0 b). cbn [length]. lia.
      * intros _ _. pose proof (length_mapDelete_head k0 v0 b). cbn [length]. lia.
    + split; [done|]. split; [done|]. discriminate.
Qed.

End CacheFacts.

(** X1.  [get] after [set]: the value just stored comes back for the same items
    array and key; another key of that array answers as before, except that
    the oldest key of a bucket that was already full is gone (FIFO); the
    buckets of other items arrays are untouched. *)
Theorem cache_get_after_set {T} (c : EvaluationCache.t T) (itemsRef : nat) (key : Z) (value : T)
    (itemsRef' : nat) (k : Z) :
  EvaluationCache.get (EvaluationCache.set c itemsRef key value) itemsRef' k
  = if bool_decide (itemsRef' = itemsRef) then
      if bool_decide (k = key) then Some value
      else if full c itemsRef && bool_decide (oldestKey c itemsRef = Some k) then None
      else EvaluationCache.get c itemsRef k
    else EvaluationCache.get c itemsRef' k.
Proof.
  case_bool_decide as Href.
  - subst itemsRef'. unfold EvaluationCache.get at 1.
    destruct (set_lookup c itemsRef key value) as (bucket' & -> & Hget & _).
    cbn. rewrite mapGet_mapSet. case_bool_decide; [done|]. rewrite Hget.
    destruct (_ && _); [done|]. unfold EvaluationCache.get, bucketOf.
    by destruct (EvaluationCache.store c !! itemsRef).
  - unfold EvaluationCache.get, EvaluationCache.set. cbn [EvaluationCache.store].
    by rewrite lookup_insert_ne.
Qed.

(** X2.  No bucket ever holds more than [maxEntriesPerItemsRef] entries: a new
    cache and a cleared one are within the bound, [set] keeps a cache within
    it, and the constructor never sets the bound below 10. *)
Theorem cache_stays_bounded {T} (n : Z) (c : EvaluationCache.t T) (itemsRef : nat) (key : Z)
    (value : T) :
  bounded c ->
  bounded (EvaluationCache.new (T := T) n)
  ∧ bounded (EvaluationCache.set c itemsRef key value)
  ∧ bounded (EvaluationCache.clear c)
  ∧ (10 ≤ EvaluationCache.maxEntriesPerItemsRef (EvaluationCache.new (T := T) n))%nat.
Proof.
  intros [Hpos Hb]. split; [|split; [|split]].
  - split; [cbn; lia|]. intros r b. cbn. by rewrite lookup_empty.
  - split; [exact Hpos|]. intros r b Hr.
    destruct (decide (r = itemsRef)) as [->|Hne].
    + destruct (set_lookup c itemsRef key value) as (bucket' & E & _ & Hle & Hlt).
      pose proof (eq_trans (eq_sym Hr) E) as Hb'. injection Hb' as ->.
      pose proof (length_mapSet bucket' key value) as Hs.
      change (EvaluationCache.maxEntriesPerItemsRef (EvaluationCache.set c itemsRef key value))
        with (EvaluationCache.maxEntriesPerItemsRef c).
      assert (length (bucketOf c itemsRef) ≤ EvaluationCache.maxEntriesPerItemsRef c)%nat
        as Hold.
      { unfold bucketOf. destruct (EvaluationCache.store c !! itemsRef) as [b0|] eqn:E0;
          cbn; [by eapply Hb|lia]. }
      destruct (full c itemsRef) eqn:Hfull.
      * unfold full in Hfull. apply bool_decide_eq_true_1 in Hfull.
        assert (bucketOf c itemsRef ≠ []) as Hne.
        { intros E0. rewrite E0 in Hfull. cbn in Hfull. lia. }
        specialize (Hlt eq_refl Hne). lia.
      * unfold full in Hfull. apply bool_decide_eq_false_1 in Hfull. lia.
    + cbn in Hr. rewrite lookup_insert_ne in Hr by done. by eapply Hb.
  - split; [exact Hpos|]. intros r b. cbn. by rewrite lookup_empty.
  - cbn. lia.
Qed.

Lemma cache_stays_bounded_witness :
  bounded (EvaluationCache.new (T := Evaluate.EvaluationResult) 3)
  ∧ bounded (EvaluationCache.set Evaluate.globalEvaluationCache 0 7
               (Evaluate.mkEvaluationResult [3; 7] (Fin 4) 10))
  ∧ bounded (EvaluationCache.clear Evaluate.globalEvaluationCache)
  ∧ (10 ≤ EvaluationCache.maxEntriesPerItemsRef
            (EvaluationCache.new (T := Evaluate.EvaluationResult) 3))%nat.
Proof.
  apply (cache_stays_bounded 3 Evaluate.globalEvaluationCache 0%nat 7
           (Evaluate.mkEvaluationResult [3; 7] (Fin 4) 10)).
  split; [vm_compute; lia|]. intros r b. cbn. by rewrite lookup_empty.
Defined.

(** ** The evaluator *)

Section EvaluatorFacts.
Import Evaluate.

Lemma sumZ_shift l a : foldl Z.add a l = a + sumZ l.
Proof.
  unfold sumZ. revert a. induction l as [|x l IH]; intros a; cbn; [lia|].
  rewrite (IH (a + x)), (IH (0 + x)). lia.
Qed.

Lemma sumZ_cons x l : sumZ (x :: l) = x + sumZ l.
Proof. unfold sumZ at 1. cbn. by rewrite sumZ_shift. Qed.

Lemma sumZ_app l1 l2 : sumZ (l1 ++ l2) = sumZ l1 + sumZ l2.
Proof.
  induction l1 as [|x l1 IH]; cbn [app]; [unfold sumZ at 2; cbn; lia|].
  rewrite !sumZ_cons, IH. lia.
Qed.

Lemma sumZ_perm l1 l2 : l1 ≡ₚ l2 -> sumZ l1 = sumZ l2.
Proof.
  induction 1 as [|x l1 l2 _ IH|x y l|l1 l2 l3 _ IH1 _ IH2]; [done|..].
  - by rewrite !sumZ_cons, IH.
  - rewrite !sumZ_cons. lia.
  - congruence.
Qed.

Lemma scanSums_from sums : ∀ total maxSum minSum,
  (maxSum = NegInf ∨ ∃ z, maxSum = Fin z) -> (minSum = PosInf ∨ ∃ z, minSum = Fin z) ->
  foldl (fun '(total, maxSum, minSum) s =>
           (total + s,
            if xltb maxSum (Fin s) then Fin s else maxSum,
            if xltb (Fin s) minSum then Fin s else minSum))
    (total, maxSum, minSum) sums
  = (total + sumZ sums, xmax maxSum (Math_max sums), xmin minSum (Math_min sums)).
Proof.
  induction sums as [|s sums IH]; intros total maxSum minSum HM Hm.
  - cbn. unfold sumZ. cbn. rewrite Z.add_0_r.
    destruct HM as [->|[z ->]], Hm as [->|[z' ->]]; reflexivity.
  - cbn [foldl]. rewrite IH.
    + rewrite sumZ_cons.
      change (Math_max (s :: sums)) with (xmax (Fin s) (Math_max sums)).
      change (Math_min (s :: sums)) with (xmin (Fin s) (Math_min sums)).
      f_equal; [f_equal; [lia|]|].
      * destruct (Math_max_cases sums) as [[_ ->]|(m1 & -> & _)];
          destruct HM as [->|[z ->]]; cbn; try reflexivity;
          destruct (z <? s) eqn:E; cbn; f_equal; lia.
      * destruct (Math_min_cases sums) as [[_ ->]|(m1 & -> & _)];
          destruct Hm as [->|[z ->]]; cbn; try reflexivity;
          destruct (s <? z) eqn:E; cbn; f_equal; lia.
    + destruct HM as [->|[z ->]]; cbn; [by right; eexists|].
      destruct (z <? s); right; by eexists.
    + destruct Hm as [->|[z ->]]; cbn; [by right; eexists|].
      destruct (s <? z); right; by eexists.
Qed.

Lemma scanSums_eq sums : scanSums sums = (sumZ sums, Math_max sums, Math_min sums).
Proof.
  unfold scanSums. rewrite scanSums_from; [|by left..]. rewrite Z.add_0_l.
  replace (xmax NegInf (Math_max sums)) with (Math_max sums) by by destruct (Math_max sums).
  replace (xmin PosInf (Math_min sums)) with (Math_min sums) by by destruct (Math_min sums).
  reflexivity.
Qed.

Lemma at_is_Some {A} (a : list A) (idx : Z) :
  is_Some (at_ a idx) <-> 0 <= idx < Z.of_nat (length a).
Proof.
  unfold at_. destruct (0 <=? idx) eqn:E.
  - rewrite lookup_lt_is_Some. lia.
  - split; [by intros [? ?]|lia].
Qed.

Lemma sumGroup_value items idxs acc s :
  sumGroup items idxs acc = Ok s -> s = acc + sumZ (capOf items <$> idxs).
Proof.
  revert acc. induction idxs as [|i rest IH]; intros acc; cbn [sumGroup].
  - intros [= <-]. unfold sumZ. cbn. lia.
  - destruct (at_ items i) as [it|] eqn:Hi; cbn [mbind Result_bind bind defined];
      [|discriminate].
    intros H. apply IH in H. rewrite fmap_cons, sumZ_cons. unfold capOf at 1.
    rewrite Hi. cbn [fmap option_fmap option_map default]. unfold Datatypes.id. lia.
Qed.

Lemma sumGroup_in_range items idxs acc :
  forallb (fun idx => (0 <=? idx) && (idx <? Z.of_nat (length items))) idxs = true ->
  ∃ s, sumGroup items idxs acc = Ok s.
Proof.
  revert acc. induction idxs as [|i rest IH]; intros acc; cbn; [by eexists|].
  rewrite andb_true_iff. intros [Hi Hrest].
  destruct (proj2 (at_is_Some items i)) as [it ->]; [lia|]. cbn. by apply IH.
Qed.

Lemma sumGroup_not_in_range items idxs acc :
  forallb (fun idx => (0 <=? idx) && (idx <? Z.of_nat (length items))) idxs = false ->
  sumGroup items idxs acc = Throw TypeError.
Proof.
  intros H. apply (sumGroup_out_of_range items idxs acc
                     (default 0 (List.find (fun idx => negb ((0 <=? idx) && (idx <? Z.of_nat (length items)))) idxs))).
  - induction idxs as [|i rest IH]; [discriminate|]. cbn in *.
    destruct ((0 <=? i) && (i <? _)) eqn:E; cbn in *; [right; by apply IH|left].
  - induction idxs as [|i rest IH]; [discriminate|]. cbn in *.
    destruct ((0 <=? i) && (i <? _)) eqn:E; cbn in *; [by apply IH|]. lia.
Qed.

Lemma sumGroups_in_range items g :
  match sumGroups items g with
  | Ok sums => allInRange items g = true
               ∧ sums = (fun group => sumZ (capOf items <$> group)) <$> g
  | Throw e => allInRange items g = false ∧ e = TypeError
  end.
Proof.
  induction g as [|group g IH]; [done|]. cbn [sumGroups].
  change (allInRange items (group :: g))
    with (forallb (fun idx => (0 <=? idx) && (idx <? Z.of_nat (length items))) group
          && allInRange items g).
  destruct (forallb _ group) eqn:Hgroup.
  - destruct (sumGroup_in_range items group 0 Hgroup) as [s Hs]. rewrite Hs.
    cbn [mbind Result_bind bind]. apply sumGroup_value in Hs.
    destruct (sumGroups items g) as [sums|e]; cbn [mbind Result_bind bind mret Result_ret].
    + destruct IH as [-> ->]. split; [done|]. rewrite fmap_cons. f_equal. lia.
    + done.
  - by rewrite (sumGroup_not_in_range items group 0 Hgroup).
Qed.

Lemma sumZ_groups (f : Z -> Z) (g : list (list Z)) :
  sumZ ((fun group => sumZ (f <$> group)) <$> g) = sumZ (f <$> concat g).
Proof.
  induction g as [|group g IH]; [done|].
  rewrite fmap_cons, sumZ_cons. cbn [concat]. by rewrite fmap_app, sumZ_app, IH.
Qed.

Lemma capOf_all items : capOf items <$> (Z.of_nat <$> seq 0 (length items)) = capacities items.
Proof.
  unfold capacities. apply list_eq. intros i. rewrite <- list_fmap_compose.
  rewrite !list_lookup_fmap.
  destruct (decide (i < length items)%nat) as [Hlt|Hge].
  - rewrite lookup_seq_lt by done. cbn. unfold capOf, at_.
    rewrite (proj2 (Z.leb_le 0 (Z.of_nat i))) by lia. rewrite Nat2Z.id.
    destruct (lookup_lt_is_Some_2 items i Hlt) as [it ->]. done.
  - rewrite lookup_seq_ge by lia. rewrite lookup_ge_None_2 by lia. done.
Qed.

Lemma remove_dups_length_le (l : list Z) : (length (remove_dups l) ≤ length l)%nat.
Proof.
  induction l as [|x l IH]; cbn; [done|].
  destruct (decide_rel elem_of x l); cbn; lia.
Qed.

Lemma remove_dups_full (l : list Z) : length l = length (remove_dups l) -> NoDup l.
Proof.
  induction l as [|x l IH]; cbn; [constructor|].
  pose proof (remove_dups_length_le l) as Hle.
  destruct (decide_rel elem_of x l) as [Hin|Hnot]; cbn; intros H; [lia|].
  constructor; [done|]. apply IH. lia.
Qed.

Lemma validateGrouping_partition items g groupSize :
  validateGrouping items g groupSize = true -> isPartition items g groupSize.
Proof.
  unfold validateGrouping. rewrite !andb_true_iff.
  intros [[[Hsz Hd] Hl] Hr]. apply bool_decide_eq_true_1 in Hd, Hl.
  assert (NoDup (concat g)) as Hnd by by apply remove_dups_full.
  split.
  - apply Forall_forall. intros group Hin. rewrite forallb_forall in Hsz.
    eapply bool_decide_eq_true_1, Hsz. by apply list_elem_of_In.
  - apply submseteq_length_Permutation.
    + apply NoDup_submseteq; [done|]. intros x Hx.
      rewrite forallb_forall in Hr. apply list_elem_of_In, Hr in Hx.
      apply negb_true_iff, orb_false_iff in Hx as [H1 H2].
      apply list_elem_of_fmap. exists (Z.to_nat x). split; [lia|].
      apply elem_of_seq. lia.
    + rewrite length_fmap, length_seq. lia.
Qed.

End EvaluatorFacts.

(** ** Sums on items of exact arithmetic *)

Section ExactFacts.

Lemma sumZ_nonneg l : Forall (fun x => 0 <= x) l -> 0 <= sumZ l.
Proof.
  induction 1 as [|x l Hx _ IH]; [done|]. rewrite sumZ_cons. lia.
Qed.

Lemma capOf_nonneg items idx :
  Forall (fun item => 0 <= capacity item) items -> 0 <= capOf items idx.
Proof.
  intros H. unfold capOf. destruct (at_ items idx) as [item|] eqn:E; cbn; [|done].
  unfold at_ in E. destruct (0 <=? idx); [|done].
  by eapply (Forall_lookup_1 _ _ _ _ H).
Qed.

Lemma group_sum_le (f : Z -> Z) (g : list (list Z)) group :
  (∀ idx, 0 <= f idx) -> group ∈ g ->
  0 <= sumZ (f <$> group) <= sumZ (f <$> concat g).
Proof.
  intros Hf. assert (∀ l, 0 <= sumZ (f <$> l)) as Hn.
  { intros l. apply sumZ_nonneg, Forall_fmap, Forall_forall. intros x _. apply Hf. }
  induction g as [|first g IH]; intros Hin; [by inversion Hin|].
  cbn [concat]. rewrite fmap_app, sumZ_app.
  apply elem_of_cons in Hin as [->|Hin].
  - pose proof (Hn (concat g)). pose proof (Hn first). lia.
  - pose proof (IH Hin). pose proof (Hn first). lia.
Qed.

(** on items of exact arithmetic, the sums of a grouping that holds every
    item index once are safe integers *)
Lemma exactItems_group_sums items g :
  exactItems items = true ->
  concat g ≡ₚ Z.of_nat <$> seq 0 (length items) ->
  safeSums ((fun group => sumZ (capOf items <$> group)) <$> g).
Proof.
  unfold exactItems. rewrite andb_true_iff, forallb_forall. intros [Hpos Htotal] Hperm.
  apply Z.leb_le in Htotal.
  assert (Forall (fun item => 0 <= capacity item) items) as Hcaps.
  { apply Forall_forall. intros item Hin. apply Z.leb_le, Hpos. by apply list_elem_of_In. }
  assert (sumZ (capOf items <$> concat g) = sumZ (capacities items)) as Hsum.
  { rewrite <- (capOf_all items). apply sumZ_perm. by rewrite Hperm. }
  unfold safeSums. apply Forall_fmap, Forall_forall. intros group Hin. cbn.
  pose proof (group_sum_le (capOf items) g group (fun idx => capOf_nonneg items idx Hcaps) Hin).
  lia.
Qed.

Lemma exactItems_sums items g sums :
  exactItems items = true ->
  Evaluate.sumGroups items g = Ok sums ->
  concat g ≡ₚ Z.of_nat <$> seq 0 (length items) ->
  safeSums sums.
Proof.
  intros He Hs Hperm.
  pose proof (sumGroups_in_range items g) as H. rewrite Hs in H. destruct H as [_ ->].
  by apply exactItems_group_sums.
Qed.

Lemma exactItems_valid items g groupSize sums :
  exactItems items = true ->
  Evaluate.validateGrouping items g groupSize = true ->
  Evaluate.sumGroups items g = Ok sums ->
  safeSums sums.
Proof.
  intros He Hv Hs. apply validateGrouping_partition in Hv as [_ Hperm].
  by eapply exactItems_sums.
Qed.

End ExactFacts.

Section EvaluatorExtras.
Import Evaluate.

Lemma hash_flat g : ∀ a,
  foldl (fun hash group => foldl hashStep hash group) a g = foldl hashStep a (concat g).
Proof.
  induction g as [|group g IH]; intros a; [done|]. cbn [foldl concat].
  by rewrite IH, foldl_app.
Qed.

Lemma toInt32_range z : -2147483648 <= toInt32 z < 2147483648.
Proof.
  unfold toInt32. pose proof (Z.mod_pos_bound z 4294967296 ltac:(lia)).
  destruct (2147483648 <=? z mod 4294967296) eqn:E; lia.
Qed.

Lemma hash_range l : ∀ a,
  -2147483648 <= a < 2147483648 -> -2147483648 <= foldl hashStep a l < 2147483648.
Proof.
  induction l as [|x l IH]; intros a Ha; [done|]. cbn [foldl]. apply IH.
  unfold hashStep. apply toInt32_range.
Qed.

Lemma evaluateGroupingFastCPU_characterised_aux (items : list Item) (g : list (list Z)) :
  match evaluateGroupingFastCPU items g with
  | Ok r =>
      allInRange items g = true
      ∧ groupSums r = (fun group => sumZ (capOf items <$> group)) <$> g
      ∧ delta r = deltaOf (groupSums r)
      ∧ totalCapacity r = sumZ (groupSums r)
  | Throw e => allInRange items g = false ∧ e = TypeError
  end.
Proof.
  unfold evaluateGroupingFastCPU. pose proof (sumGroups_in_range items g) as H.
  destruct (sumGroups items g) as [sums|e]; cbn [mbind Result_bind bind]; [|done].
  rewrite scanSums_eq. cbn. destruct H as [H1 H2]. done.
Qed.

(** X3.  [evaluateGroupingFastCPU] returns exactly when every index of the grouping
    is an index of [items]; then [groupSums] holds the capacity sum of each
    group, [delta] is max minus min of [groupSums] and [totalCapacity] their
    sum.  Otherwise it raises a [TypeError]. *)
Theorem evaluateGroupingFastCPU_characterised (items : list Item) (g : list (list Z)) :
  match evaluateGroupingFastCPU items g with
  | Ok r =>
      allInRange items g = true
      ∧ groupSums r = (fun group => sumZ (capOf items <$> group)) <$> g
      ∧ delta r = deltaOf (groupSums r)
      ∧ totalCapacity r = sumZ (groupSums r)
  | Throw e => allInRange items g = false ∧ e = TypeError
  end.
Proof.
  apply evaluateGroupingFastCPU_characterised_aux.
Qed.

(** X4.  On items of exact arithmetic (non-negative integer capacities whose
    total, times four, is a safe integer), for a grouping that
    [validateGrouping] accepts the evaluator returns, every group sum is a
    safe integer, [totalCapacity] is the sum of all item capacities, and
    there is one sum per group. *)
Theorem validated_grouping_conserves_capacity (items : list Item) (g : list (list Z))
    (groupSize : nat) :
  exactItems items = true ->
  validateGrouping items g groupSize = true ->
  ∃ r, evaluateGroupingFastCPU items g = Ok r
       ∧ safeSums (groupSums r)
       ∧ totalCapacity r = sumZ (capacities items)
       ∧ length (groupSums r) = length g.
Proof.
  intros He Hv. apply validateGrouping_partition in Hv as [_ Hperm].
  pose proof (evaluateGroupingFastCPU_characterised_aux items g) as H.
  destruct (evaluateGroupingFastCPU items g) as [r|e].
  - exists r. destruct H as (_ & Hs & _ & Ht). split; [done|]. split; [|split].
    + rewrite Hs. by apply exactItems_group_sums.
    + rewrite Ht, Hs, sumZ_groups, <- (capOf_all items).
      apply sumZ_perm. by rewrite Hperm.
    + by rewrite Hs, length_fmap.
  - destruct H as [H _]. exfalso.
    assert (allInRange items g = true); [|congruence].
    unfold allInRange. apply forallb_forall. intros group Hg.
    apply forallb_forall. intros idx Hidx.
    assert (idx ∈ concat g) as Hin.
    { apply list_elem_of_In. apply in_concat. eauto. }
    rewrite Hperm in Hin. apply list_elem_of_fmap in Hin as (i & -> & Hi).
    apply elem_of_seq in Hi. apply andb_true_iff. split; lia.
Qed.

Lemma validated_grouping_conserves_capacity_witness :
  ∃ r, evaluateGroupingFastCPU (fromCapacities [10; 8; 6; 4; 2; 1]) [[0; 3; 5]; [1; 2; 4]] = Ok r
       ∧ safeSums (groupSums r)
       ∧ totalCapacity r = sumZ (capacities (fromCapacities [10; 8; 6; 4; 2; 1]))
       ∧ length (groupSums r) = length [[0; 3; 5]; [1; 2; 4]].
Proof.
  apply (validated_grouping_conserves_capacity (fromCapacities [10; 8; 6; 4; 2; 1])
           [[0; 3; 5]; [1; 2; 4]] 3); reflexivity.
Defined.

(** X5.  [validateGrouping] reports valid exactly when every group has
    [expectedGroupSize] members and the groups together hold each index of
    [items] exactly once. *)
Theorem validateGrouping_iff_partition (items : list Item) (g : list (list Z))
    (groupSize : nat) :
  validateGrouping items g groupSize = true <-> isPartition items g groupSize.
Proof.
  split; [apply validateGrouping_partition|].
  intros [Hsz Hperm]. by apply validateGrouping_intro.
Qed.

(** X6.  [hashGrouping] depends only on the flattened sequence of indices: two
    groupings with the same concatenation get the same key, and the hash is a
    signed 32-bit integer. *)
Theorem hashGrouping_reads_flattened (g1 g2 : list (list Z)) :
  concat g1 = concat g2 ->
  hashGrouping g1 = hashGrouping g2
  ∧ -2147483648 <= hashGrouping g1 < 2147483648.
Proof.
  intros H. unfold hashGrouping. rewrite !hash_flat, H. split; [done|].
  apply hash_range. lia.
Qed.

Lemma hashGrouping_reads_flattened_witness :
  hashGrouping [[0; 1]; [2; 3]] = hashGrouping [[0; 1; 2]; [3]]
  ∧ -2147483648 <= hashGrouping [[0; 1]; [2; 3]] < 2147483648.
Proof. apply (hashGrouping_reads_flattened [[0; 1]; [2; 3]] [[0; 1; 2]; [3]]). reflexivity. Defined.

Lemma get_set_same (c : Cache) ref key value :
  EvaluationCache.get (EvaluationCache.set c ref key value) ref key = Some value.
Proof.
  unfold EvaluationCache.get.
  destruct (set_lookup c ref key value) as (bucket' & -> & _).
  cbn. rewrite mapGet_mapSet. by rewrite bool_decide_eq_true_2.
Qed.

(** X7.  A second call of [evaluateGrouping] with the same arguments, on the cache
    that the first call left, gives the same result and leaves the cache as
    it is. *)
Theorem evaluateGrouping_repeated (c : Cache) (ref : nat) (items : list Item)
    (g : list (list Z)) (opts : Options) :
  let first := evaluateGrouping c ref items g opts in
  evaluateGrouping (snd first) ref items g opts = first.
Proof.
  cbv zeta. unfold evaluateGrouping.
  destruct (groupingKeyOf g opts) as [key|]; cbn [mbind option_bind].
  - destruct (EvaluationCache.get c ref key) as [cached|] eqn:Hget; cbn [snd].
    + by rewrite Hget.
    + destruct (evaluateGroupingFastCPU items g) as [result|e]; cbn [snd].
      * by rewrite get_set_same.
      * by rewrite Hget.
  - by destruct (evaluateGroupingFastCPU items g).
Qed.

End EvaluatorExtras.

(** ** Input validation *)

Section ValidationFacts.
Import Validation.

Lemma sumZ_positive l : Forall (fun x => 0 < x) l -> l ≠ [] -> 0 < sumZ l.
Proof.
  intros H. induction H as [|x l Hx _ IH]; [done|]. intros _. rewrite sumZ_cons.
  destruct l as [|y l]; [unfold sumZ; cbn; lia|]. assert (0 < sumZ (y :: l)) by by apply IH.
  lia.
Qed.

Lemma positive_capacities items :
  forallb (fun item => 0 <? capacity item) items = true
  <-> Forall (fun item => 0 < capacity item) items.
Proof.
  rewrite forallb_forall, Forall_forall. split; intros H x Hx.
  - apply Z.ltb_lt, H. by apply list_elem_of_In.
  - apply Z.ltb_lt, H. by apply list_elem_of_In.
Qed.

Lemma range_check items :
  items ≠ [] ->
  match xsub (Math_max (capacities items)) (Math_min (capacities items)) with
  | Fin capacityRange => (MAX_SAFE_INTEGER / 1000 <? capacityRange) = false <-> narrowRange items
  | _ => False
  end.
Proof.
  intros Hne. unfold capacities.
  destruct (Math_max_cases (map capacity items)) as [[E _]|(M & -> & HM & HleM)].
  { by destruct items. }
  destruct (Math_min_cases (map capacity items)) as [[E _]|(m & -> & Hm & Hlem)].
  { by destruct items. }
  cbn. rewrite Z.ltb_ge. unfold narrowRange. split.
  - intros H a b Ha Hb.
    assert (capacity a <= M) by (apply HleM, list_elem_of_In, in_map, list_elem_of_In, Ha).
    assert (m <= capacity b) by (apply Hlem, list_elem_of_In, in_map, list_elem_of_In, Hb).
    lia.
  - intros H. apply list_elem_of_In, in_map_iff in HM as (a & <- & Ha).
    apply list_elem_of_In, in_map_iff in Hm as (b & <- & Hb).
    apply H; by apply list_elem_of_In.
Qed.

Lemma validatePartitionInputs_characterised_aux items groups groupSize :
  match validatePartitionInputs items groups groupSize with
  | Ok _ => feasibleShape items groups groupSize ∧ narrowRange items
  | Throw e =>
      ¬ (feasibleShape items groups groupSize ∧ narrowRange items)
      ∧ ∃ msg, e = ValidationError msg ∧ msg ≠ "Invalid capacities found"%string
  end.
Proof.
  unfold validatePartitionInputs, validateGroupParameters, validateItemCount,
    assertUniqueIds, validateCapacities, isItemArray, invalidItems, feasibleShape.
  destruct (bool_decide (length items = 0%nat)) eqn:H0.
  { apply bool_decide_eq_true_1 in H0.
    split; [|by eexists]. intros [(? & ? & ? & _) _]. nia. }
  destruct (bool_decide (groups = 0%nat)) eqn:H1.
  { apply bool_decide_eq_true_1 in H1.
    split; [|by eexists]. intros [(? & _) _]. lia. }
  destruct (bool_decide (groupSize = 0%nat)) eqn:H2.
  { apply bool_decide_eq_true_1 in H2.
    split; [|by eexists]. intros [(_ & ? & _) _]. lia. }
  destruct (bool_decide (1000 < groups)%nat) eqn:H3.
  { apply bool_decide_eq_true_1 in H3.
    split; [|by eexists]. intros [(? & _) _]. lia. }
  destruct (bool_decide (1000 < groupSize)%nat) eqn:H4.
  { apply bool_decide_eq_true_1 in H4.
    split; [|by eexists]. intros [(_ & ? & _) _]. lia. }
  cbn [mbind Result_bind bind].
  destruct (bool_decide (length items ≠ (groups * groupSize)%nat)) eqn:H5.
  { apply bool_decide_eq_true_1 in H5.
    split; [|by eexists]. intros [(_ & _ & ? & _) _]. done. }
  cbn [mbind Result_bind bind].
  destruct (forallb _ items) eqn:H6; cbn [negb mbind Result_bind bind].
  2:{ split; [|by eexists]. intros [(_ & _ & _ & Hc & _) _].
      apply positive_capacities in Hc. congruence. }
  destruct (bool_decide (NoDup (map id items))) eqn:H7; cbn [mbind Result_bind bind].
  2:{ apply bool_decide_eq_false_1 in H7.
      split; [|by eexists]. intros [(_ & _ & _ & _ & ?) _]. done. }
  apply bool_decide_eq_false_1 in H0, H1, H2, H3, H4, H5. apply bool_decide_eq_true_1 in H7.
  cbn [mbind Result_bind bind].
  apply positive_capacities in H6.
  assert (items ≠ []) as Hne by (intros ->; done).
  destruct (bool_decide (sumZ (capacities items) = 0)) eqn:H8.
  { apply bool_decide_eq_true_1 in H8. exfalso. assert (0 < sumZ (capacities items)); [|lia].
    apply sumZ_positive.
    - unfold capacities. apply Forall_forall. intros x Hx.
      apply list_elem_of_In, in_map_iff in Hx as (a & <- & Ha).
      rewrite Forall_forall in H6. by apply H6, list_elem_of_In.
    - by destruct items. }
  pose proof (range_check items Hne) as Hr.
  destruct (xsub _ _) as [| |capacityRange|]; try done.
  apply dec_stable in H5.
  destruct (MAX_SAFE_INTEGER / 1000 <? capacityRange) eqn:H9.
  - split; [|by eexists]. intros [_ Hn]. apply Hr in Hn. congruence.
  - split; [|by apply Hr]. repeat split; try done; lia.
Qed.

End ValidationFacts.

(** X8.  [validatePartitionInputs] returns exactly when [groups] and [groupSize]
    are in 1..1000, [items.length = groups * groupSize], the capacities are
    positive, the ids unique and no two capacities further apart than
    [MAX_SAFE_INTEGER / 1000]; otherwise it throws a [ValidationError], and
    never the [InfeasibleError] of its last branch. *)
Theorem validatePartitionInputs_characterised (items : list Item) (groups groupSize : nat) :
  match Validation.validatePartitionInputs items groups groupSize with
  | Ok _ => feasibleShape items groups groupSize ∧ narrowRange items
  | Throw e =>
      ¬ (feasibleShape items groups groupSize ∧ narrowRange items)
      ∧ ∃ msg, e = ValidationError msg ∧ msg ≠ "Invalid capacities found"%string
  end.
Proof. apply validatePartitionInputs_characterised_aux. Qed.

(** X9.  [isFeasible] is [true] exactly for the inputs with [groups] and
    [groupSize] in 1..1000, [items.length = groups * groupSize], positive
    capacities and unique ids; it never throws. *)
Theorem isFeasible_iff (items : list Item) (groups groupSize : nat) :
  isFeasible items groups groupSize = true <-> feasibleShape items groups groupSize.
Proof.
  unfold isFeasible, feasibleShape, Validation.assertUniqueIds,
    Validation.validateCapacities, Validation.isItemArray, Validation.invalidItems,
    Validation.validateGroupParameters, Validation.validateItemCount.
  destruct (forallb _ items) eqn:H6; cbn [negb].
  2:{ split; [done|]. intros (_ & _ & _ & Hc & _). apply positive_capacities in Hc. congruence. }
  apply positive_capacities in H6.
  destruct (bool_decide (NoDup (map id items))) eqn:H7; cbn [mbind Result_bind bind].
  2:{ apply bool_decide_eq_false_1 in H7. split; [done|]. by intros (_ & _ & _ & _ & ?). }
  apply bool_decide_eq_true_1 in H7.
  destruct (bool_decide (groups = 0%nat)) eqn:H1.
  { apply bool_decide_eq_true_1 in H1. split; [done|]. intros (? & _). lia. }
  destruct (bool_decide (groupSize = 0%nat)) eqn:H2.
  { apply bool_decide_eq_true_1 in H2. split; [done|]. intros (_ & ? & _). lia. }
  destruct (bool_decide (1000 < groups)%nat) eqn:H3.
  { apply bool_decide_eq_true_1 in H3. split; [done|]. intros (? & _). lia. }
  destruct (bool_decide (1000 < groupSize)%nat) eqn:H4.
  { apply bool_decide_eq_true_1 in H4. split; [done|]. intros (_ & ? & _). lia. }
  cbn [mbind Result_bind bind].
  destruct (bool_decide (length items ≠ (groups * groupSize)%nat)) eqn:H5.
  { apply bool_decide_eq_true_1 in H5. split; [done|]. by intros (_ & _ & ? & _). }
  apply bool_decide_eq_false_1 in H1, H2, H3, H4, H5. apply dec_stable in H5.
  split; [|done]. intros _. repeat split; try done; lia.
Qed.

Lemma fromCapacities_ids caps :
  map id (fromCapacities caps) = (fun i => IdStr ("item" +:+ pretty i)) <$> seq 0 (length caps).
Proof.
  unfold fromCapacities. change (map id ?l) with (id <$> l). rewrite fmap_imap.
  apply (imap_seq_0 caps (fun i => IdStr ("item" +:+ pretty i))).
Qed.

(** X10.  The items of [fromCapacities] carry the given capacities in order and
    have pairwise distinct ids; [assertUniqueIds] accepts them exactly when
    every capacity is positive (its [isItemArray] guard), and they pass the
    shape checks exactly when, in addition, the counts fit. *)
Theorem fromCapacities_well_formed (caps : list Z) (groups groupSize : nat) :
  capacities (fromCapacities caps) = caps
  ∧ NoDup (map id (fromCapacities caps))
  ∧ (Validation.assertUniqueIds (fromCapacities caps) = Ok tt
     <-> Forall (fun c => 0 < c) caps)
  ∧ (feasibleShape (fromCapacities caps) groups groupSize
     <-> (0 < groups ≤ 1000)%nat ∧ (0 < groupSize ≤ 1000)%nat
         ∧ length caps = (groups * groupSize)%nat ∧ Forall (fun c => 0 < c) caps).
Proof.
  assert (capacities (fromCapacities caps) = caps) as Hcaps.
  { unfold capacities, fromCapacities. change (map capacity ?l) with (capacity <$> l).
    apply list_eq. intros i. rewrite list_lookup_fmap, list_lookup_imap.
    by destruct (caps !! i). }
  assert (NoDup (map id (fromCapacities caps))) as Hnd.
  { rewrite fromCapacities_ids. apply NoDup_fmap_2_strong; [|apply NoDup_seq].
    intros i j _ _ [= H]. by apply (inj pretty). }
  assert (Forall (fun item => 0 < capacity item) (fromCapacities caps)
          <-> Forall (fun c => 0 < c) caps) as Hpos.
  { rewrite <- Hcaps at 2. unfold capacities. change (map capacity ?l) with (capacity <$> l).
    by rewrite Forall_fmap. }
  split; [exact Hcaps|]. split; [exact Hnd|]. split.
  - rewrite <- Hpos, <- positive_capacities.
    unfold Validation.assertUniqueIds, Validation.isItemArray.
    destruct (forallb _ _); cbn [negb]; [|done].
    by rewrite bool_decide_eq_true_2.
  - unfold feasibleShape.
    assert (length (fromCapacities caps) = length caps) as ->
      by (unfold fromCapacities; apply length_imap).
    rewrite Hpos. tauto.
Qed.

(** ** Comparators and sorting *)

Section ComparatorFacts.

Lemma Ascii_compare_trans a b c :
  Ascii.compare a b = Lt -> Ascii.compare b c = Lt -> Ascii.compare a c = Lt.
Proof. unfold Ascii.compare. rewrite !N.compare_lt_iff. lia. Qed.

Lemma String_compare_refl s : String.compare s s = Eq.
Proof.
  induction s as [|a s IH]; [done|]. cbn. unfold Ascii.compare. by rewrite N.compare_refl.
Qed.

Lemma String_compare_trans s1 : ∀ s2 s3,
  String.compare s1 s2 = Lt -> String.compare s2 s3 = Lt -> String.compare s1 s3 = Lt.
Proof.
  induction s1 as [|a s1 IH]; intros [|b s2] [|c s3]; cbn; try done.
  destruct (Ascii.compare a b) eqn:Eab; try done;
    destruct (Ascii.compare b c) eqn:Ebc; try done.
  - apply Ascii.compare_eq_iff in Eab, Ebc. subst. unfold Ascii.compare.
    rewrite N.compare_refl. apply IH.
  - apply Ascii.compare_eq_iff in Eab. subst. by rewrite Ebc.
  - apply Ascii.compare_eq_iff in Ebc. subst. by rewrite Eab.
  - by rewrite (Ascii_compare_trans _ _ _ Eab Ebc).
Qed.

Lemma compareIds_cases a b :
  match String.compare (String_ a) (String_ b) with
  | Lt => compareIds a b = -1
  | Eq => compareIds a b = 0
  | Gt => compareIds a b = 1
  end.
Proof.
  unfold compareIds, String.ltb. rewrite (String.compare_antisym (String_ b)).
  by destruct (String.compare (String_ a) (String_ b)).
Qed.

Lemma notAfter_iff a b : notAfter a b <-> capacityThenId a b.
Proof.
  unfold notAfter, capacityThenId, compareItemsByCapacity, String.leb.
  pose proof (compareIds_cases (id a) (id b)) as H.
  case_bool_decide as Hd.
  - split; [intros; left; lia|]. intros [?|[? _]]; lia.
  - destruct (String.compare (String_ (id a)) (String_ (id b))); rewrite H.
    + split; [intros _; right; split; [lia|done]|lia].
    + split; [intros _; right; split; [lia|done]|lia].
    + split; [lia|]. intros [?|[_ ?]]; [lia|done].
Qed.

Lemma capacityThenId_total a b : capacityThenId a b ∨ capacityThenId b a.
Proof.
  unfold capacityThenId.
  destruct (Z.lt_trichotomy (capacity a) (capacity b)) as [?|[?|?]]; [by right; left| |by left; left].
  destruct (String.leb_total (String_ (id a)) (String_ (id b))) as [?|?].
  - left. by right.
  - right. right. split; [lia|done].
Qed.

Lemma String_leb_trans s1 s2 s3 :
  String.leb s1 s2 = true -> String.leb s2 s3 = true -> String.leb s1 s3 = true.
Proof.
  unfold String.leb.
  destruct (String.compare s1 s2) eqn:E12; try done;
    destruct (String.compare s2 s3) eqn:E23; try done; intros _ _.
  - apply String.compare_eq_iff in E12, E23. subst. by rewrite String_compare_refl.
  - apply String.compare_eq_iff in E12. subst. by rewrite E23.
  - apply String.compare_eq_iff in E23. subst. by rewrite E12.
  - by rewrite (String_compare_trans _ _ _ E12 E23).
Qed.

Lemma capacityThenId_trans a b c :
  capacityThenId a b -> capacityThenId b c -> capacityThenId a c.
Proof.
  unfold capacityThenId. intros [?|[? H1]] [?|[? H2]]; try (left; lia).
  right. split; [lia|]. by eapply String_leb_trans.
Qed.

Lemma capacityThenId_antisym a b :
  capacityThenId a b -> capacityThenId b a ->
  capacity a = capacity b ∧ String_ (id a) = String_ (id b).
Proof.
  unfold capacityThenId. intros [?|[? H1]] [?|[? H2]]; try lia.
  split; [done|]. by apply String.leb_antisym.
Qed.

End ComparatorFacts.

Section SortFacts.
Context {A : Type} (le : A -> A -> bool).
Hypothesis le_total : ∀ a b, le a b = true ∨ le b a = true.
Hypothesis le_trans : ∀ a b c, le a b = true -> le b c = true -> le a c = true.

Lemma insertSorted_elem x l y : y ∈ insertSorted le x l <-> y = x ∨ y ∈ l.
Proof. rewrite (insertSorted_perm le x l). apply elem_of_cons. Qed.

Lemma insertSorted_sorted x l :
  StronglySorted (fun a b => le a b = true) l ->
  StronglySorted (fun a b => le a b = true) (insertSorted le x l).
Proof.
  induction 1 as [|y l Hl IH Hy]; cbn.
  - repeat constructor.
  - destruct (le x y) eqn:Exy.
    + constructor; [by constructor|]. apply Forall_cons. split; [exact Exy|].
      rewrite Forall_forall in Hy. apply Forall_forall. intros z Hz.
      apply le_trans with y; [done|]. by apply Hy.
    + constructor; [done|]. apply Forall_forall. intros z Hz.
      apply insertSorted_elem in Hz as [->|Hz].
      * destruct (le_total x y); congruence.
      * rewrite Forall_forall in Hy. by apply Hy.
Qed.

Lemma sort_sorted l : StronglySorted (fun a b => le a b = true) (JS.sort le l).
Proof.
  unfold JS.sort. induction l as [|x l IH]; cbn; [constructor|].
  by apply insertSorted_sorted.
Qed.

Lemma sorted_unique (l1 : list A) : ∀ l2,
  StronglySorted (fun a b => le a b = true) l1 ->
  StronglySorted (fun a b => le a b = true) l2 ->
  l1 ≡ₚ l2 ->
  (∀ a b, a ∈ l1 -> b ∈ l1 -> le a b = true -> le b a = true -> a = b) ->
  l1 = l2.
Proof.
  induction l1 as [|x l1 IH]; intros l2 H1 H2 Hp Hanti.
  - by apply Permutation_nil_l in Hp.
  - destruct l2 as [|y l2]; [by apply Permutation_nil_r in Hp|].
    apply StronglySorted_inv in H1 as [H1 Hx]. apply StronglySorted_inv in H2 as [H2 Hy].
    rewrite Forall_forall in Hx. rewrite Forall_forall in Hy.
    assert (x = y) as ->.
    { assert (x ∈ y :: l2) as Hxin by (rewrite <- Hp; by left).
      assert (y ∈ x :: l1) as Hyin by (rewrite Hp; by left).
      apply elem_of_cons in Hxin as [->|Hxin]; [done|].
      apply elem_of_cons in Hyin as [->|Hyin]; [done|].
      apply Hanti; [by left|by right|by apply Hx|by apply Hy]. }
    f_equal. apply IH; [done|done|by apply Permutation_cons_inv in Hp|].
    intros a b Ha Hb. apply Hanti; by right.
Qed.

End SortFacts.

Lemma StronglySorted_weaken {A} (R1 R2 : A -> A -> Prop) l :
  (∀ a b, R1 a b -> R2 a b) -> StronglySorted R1 l -> StronglySorted R2 l.
Proof.
  intros H. induction 1 as [|x l _ IH Hx]; constructor; [done|].
  rewrite Forall_forall in Hx. apply Forall_forall. intros y Hy. by apply H, Hx.
Qed.

Lemma NoDup_fmap_inj_on {A B} (f : A -> B) (l : list A) a b :
  NoDup (f <$> l) -> a ∈ l -> b ∈ l -> f a = f b -> a = b.
Proof.
  induction l as [|x l IH]; [by intros _ H; inversion H|].
  rewrite fmap_cons, NoDup_cons. intros [Hx Hnd] Ha Hb Hf.
  apply elem_of_cons in Ha as [->|Ha]; apply elem_of_cons in Hb as [->|Hb]; [done| | |by apply IH].
  - exfalso. apply Hx. rewrite Hf. by apply list_elem_of_fmap_2.
  - exfalso. apply Hx. rewrite <- Hf. by apply list_elem_of_fmap_2.
Qed.

(** X12.  [compareItemsByCapacity] is a total preorder: [a] sorts before or with
    [b] exactly when [a] has the larger capacity, or the same capacity and a
    [String(id)] not after that of [b]; it is total and transitive, is zero
    only for equal capacity and equal [String(id)], and swapping the
    arguments flips the sign. *)
Theorem compareItemsByCapacity_is_an_order (a b c : Item) :
  (notAfter a b <-> capacityThenId a b)
  ∧ (notAfter a b ∨ notAfter b a)
  ∧ (notAfter a b -> notAfter b c -> notAfter a c)
  ∧ (compareItemsByCapacity a b = 0
     <-> capacity a = capacity b ∧ String_ (id a) = String_ (id b))
  ∧ Z.sgn (compareItemsByCapacity a b) = - Z.sgn (compareItemsByCapacity b a).
Proof.
  split; [apply notAfter_iff|]. split; [|split; [|split]].
  - rewrite !notAfter_iff. apply capacityThenId_total.
  - rewrite !notAfter_iff. apply capacityThenId_trans.
  - unfold compareItemsByCapacity. pose proof (compareIds_cases (id a) (id b)) as H.
    case_bool_decide as Hd; [split; [lia|intros [? _]; lia]|].
    destruct (String.compare (String_ (id a)) (String_ (id b))) eqn:E; rewrite H.
    + apply String.compare_eq_iff in E. split; [intros _; split; [lia|done]|done].
    + split; [done|]. intros [_ Heq]. rewrite Heq, String_compare_refl in E. done.
    + split; [done|]. intros [_ Heq]. rewrite Heq, String_compare_refl in E. done.
  - unfold compareItemsByCapacity.
    pose proof (compareIds_cases (id a) (id b)) as H1.
    pose proof (compareIds_cases (id b) (id a)) as H2.
    rewrite (String.compare_antisym (String_ (id b))) in H2.
    repeat case_bool_decide; try lia.
    destruct (String.compare (String_ (id a)) (String_ (id b))); cbn in H2;
      rewrite H1, H2; reflexivity.
Qed.

(** X13.  Sorting with [compareItemsByCapacity] does not depend on the input
    order when no two items share both capacity and [String(id)]: two
    arrangements of the same items sort to the same array, a permutation of
    the input in descending capacity with ties broken by id. *)
Theorem sort_by_capacity_is_canonical {A} (proj : A -> Item) (l1 l2 : list A) :
  l1 ≡ₚ l2 -> NoDup ((fun a => (capacity (proj a), String_ (id (proj a)))) <$> l1) ->
  let sorted := sortBy (fun a b => compareItemsByCapacity (proj a) (proj b)) in
  sorted l1 = sorted l2
  ∧ sorted l1 ≡ₚ l1
  ∧ StronglySorted (fun a b => capacityThenId (proj a) (proj b)) (sorted l1).
Proof.
  intros Hp Hnd. cbv zeta. unfold sortBy.
  set (le := fun a b => compareItemsByCapacity (proj a) (proj b) <=? 0).
  assert (Hle : ∀ a b, le a b = true <-> capacityThenId (proj a) (proj b)).
  { intros a b. unfold le. rewrite Z.leb_le. apply notAfter_iff. }
  assert (Htotal : ∀ a b, le a b = true ∨ le b a = true).
  { intros a b. rewrite !Hle. apply capacityThenId_total. }
  assert (Htrans : ∀ a b c, le a b = true -> le b c = true -> le a c = true).
  { intros a b c. rewrite !Hle. apply capacityThenId_trans. }
  split; [|split].
  - apply (sorted_unique le); [by apply sort_sorted..| |].
    + by rewrite !sort_perm.
    + intros a b Ha Hb Hab Hba. rewrite sort_perm in Ha, Hb.
      apply Hle in Hab, Hba. destruct (capacityThenId_antisym _ _ Hab Hba) as [Hc Hs].
      eapply NoDup_fmap_inj_on; [exact Hnd|done|done|]. cbn. by rewrite Hc, Hs.
  - apply sort_perm.
  - eapply StronglySorted_weaken; [|by apply (sort_sorted le)]. intros a b. apply Hle.
Qed.

Lemma sort_by_capacity_is_canonical_witness :
  let sorted := sortBy compareItemsByCapacity in
  sorted [mkItem (IdStr "a") 4; mkItem (IdStr "b") 9; mkItem (IdStr "c") 4]
  = sorted [mkItem (IdStr "c") 4; mkItem (IdStr "a") 4; mkItem (IdStr "b") 9]
  ∧ sorted [mkItem (IdStr "a") 4; mkItem (IdStr "b") 9; mkItem (IdStr "c") 4]
    ≡ₚ [mkItem (IdStr "a") 4; mkItem (IdStr "b") 9; mkItem (IdStr "c") 4]
  ∧ StronglySorted capacityThenId
      (sorted [mkItem (IdStr "a") 4; mkItem (IdStr "b") 9; mkItem (IdStr "c") 4]).
Proof.
  apply (sort_by_capacity_is_canonical (fun item => item)
           [mkItem (IdStr "a") 4; mkItem (IdStr "b") 9; mkItem (IdStr "c") 4]
           [mkItem (IdStr "c") 4; mkItem (IdStr "a") 4; mkItem (IdStr "b") 9]).
  - symmetry. apply (Permutation_cons_append [_; _]).
  - apply (bool_decide_unpack _). vm_compute. reflexivity.
Defined.

(** ** Dealing items to groups *)

Section DealFacts.
Context (items : list Item).
Import Evaluate.
Local Open Scope nat_scope.

Lemma sumGroup_snoc group acc s idx it :
  sumGroup items group acc = Ok s -> at_ items idx = Some it ->
  sumGroup items (group ++ [idx]) acc = Ok (s + capacity it)%Z.
Proof.
  revert acc. induction group as [|i group IH]; intros acc; cbn [sumGroup app].
  - intros [= <-] ->. done.
  - destruct (at_ items i) as [it'|]; cbn [defined mbind Result_bind bind]; [|done].
    apply IH.
Qed.

Lemma alter_is_insert {A} (f : A -> A) (l : list A) i x :
  l !! i = Some x -> alter f i l = <[i := f x]> l.
Proof.
  revert i. induction l as [|y l IH]; intros [|i]; cbn; try done.
  - by intros [= ->].
  - intros H. f_equal. by apply IH.
Qed.

Lemma indexed_at l :
  l ≡ₚ indexed items -> Forall (fun e => at_ items e.2 = Some e.1) l.
Proof.
  intros ->. apply Forall_forall. intros [item index] H.
  apply elem_of_lookup_imap_1 in H as (i & it & [= -> ->] & Hi). cbn.
  unfold at_. rewrite (proj2 (Z.leb_le 0 (Z.of_nat i))) by lia. by rewrite Nat2Z.id.
Qed.

Lemma indexed_indices : (snd <$> indexed items) = Z.of_nat <$> seq 0 (length items).
Proof.
  unfold indexed. rewrite fmap_imap. apply (imap_seq_0 items Z.of_nat).
Qed.

(** one item pushed to group [g] *)
Lemma push_consistent byId byIndex sums g item index :
  consistent items byId byIndex sums -> g < length byIndex ->
  at_ items index = Some item ->
  push byId g (id item) = Ok (pushAt byId g (id item))
  ∧ push byIndex g index = Ok (pushAt byIndex g index)
  ∧ consistent items (pushAt byId g (id item)) (pushAt byIndex g index)
      (addAt sums g (capacity item)).
Proof.
  intros [Hs Hi] Hg Hat.
  assert (length byId = length byIndex) as Hlen.
  { apply (f_equal length) in Hi. unfold idsOf in Hi. by rewrite !length_fmap in Hi. }
  split; [apply push_Ok; lia|]. split; [by apply push_Ok|]. split.
  - destruct (lookup_lt_is_Some_2 byIndex g Hg) as [group G].
    destruct (sumGroups_lookup items _ _ _ _ Hs G) as (s & S & Hsum).
    unfold pushAt, addAt. rewrite (alter_is_insert _ _ _ _ G), (alter_is_insert _ _ _ _ S).
    apply sumGroups_insert; [done|done|]. by apply sumGroup_snoc.
  - unfold pushAt, idsOf in *.
    rewrite (list_fmap_alter (fun group : list Id => Some <$> group) _
               (fun x => x ++ [Some (id item)])).
    2:{ apply Forall_forall. intros x _. by rewrite fmap_app. }
    rewrite (list_fmap_alter
               (fun group : list Z => (fun idx => id <$> at_ items idx) <$> group) _
               (fun x => x ++ [Some (id item)])).
    2:{ apply Forall_forall. intros x _. rewrite fmap_app. cbn. by rewrite Hat. }
    by rewrite Hi.
Qed.

Lemma empty_consistent groups :
  consistent items (emptyGroups groups) (emptyGroups groups) (zeros groups).
Proof.
  unfold consistent, emptyGroups, zeros, idsOf. split.
  - induction groups as [|n IH]; [done|]. cbn [replicate sumGroups sumGroup].
    cbn [mbind Result_bind bind]. by rewrite IH.
  - by rewrite !fmap_replicate.
Qed.

Lemma empty_lengthsAt groups : lengthsAt groups 0 (emptyGroups groups).
Proof.
  intros g group Hg. apply lookup_replicate in Hg as [-> _].
  unfold dealt. rewrite Nat.Div0.div_0_l, Nat.Div0.mod_0_l.
  rewrite bool_decide_eq_false_2 by lia. reflexivity.
Qed.

(** the loop of [roundRobinPartition], from the [n]-th item on *)
Lemma distribute_spec (k : nat) (l : list (Item * Z)) :
  0 < k -> Forall (fun e => at_ items e.2 = Some e.1) l ->
  ∀ (n : nat) (st : RoundRobin.State),
    RoundRobin.st_currentGroup st = n mod k ->
    length (RoundRobin.st_groupsByIndex st) = k ->
    consistent items (RoundRobin.st_groupsById st) (RoundRobin.st_groupsByIndex st)
      (RoundRobin.st_groupSums st) ->
    lengthsAt k n (RoundRobin.st_groupsByIndex st) ->
    ∃ st',
      RoundRobin.distribute k st l = Ok st'
      ∧ length (RoundRobin.st_groupsByIndex st') = k
      ∧ consistent items (RoundRobin.st_groupsById st') (RoundRobin.st_groupsByIndex st')
          (RoundRobin.st_groupSums st')
      ∧ lengthsAt k (n + length l) (RoundRobin.st_groupsByIndex st')
      ∧ concat (RoundRobin.st_groupsByIndex st')
        ≡ₚ concat (RoundRobin.st_groupsByIndex st) ++ (snd <$> l).
Proof.
  intros Hk Hl. induction Hl as [|[item index] l Hat _ IH]; intros n st Hcur Hlen Hc Hla.
  - exists st. cbn. rewrite Nat.add_0_r, app_nil_r. done.
  - unfold RoundRobin.distribute. cbn [foldM]. unfold RoundRobin.assign at 1.
    assert (n mod k < k) as Hg by (apply Nat.mod_upper_bound; lia).
    destruct (push_consistent _ _ _ (n mod k) item index Hc ltac:(lia) Hat)
      as (P1 & P2 & Hc').
    rewrite Hcur, P1. cbn [mbind Result_bind bind]. rewrite P2.
    cbn [mbind Result_bind bind mret Result_ret].
    edestruct (IH (S n)) as (st' & E & Hlen' & Hc'' & Hla' & Hp); cycle -1.
    + exists st'. split; [exact E|]. split; [exact Hlen'|]. split; [exact Hc''|]. split.
      * cbn [length]. by rewrite Nat.add_succ_r.
      * rewrite Hp. cbn [RoundRobin.st_groupsByIndex]. rewrite concat_pushAt by lia.
        cbn. apply Permutation_middle.
    + cbn [RoundRobin.st_currentGroup].
      rewrite Nat.Div0.add_mod_idemp_l. f_equal. lia.
    + cbn [RoundRobin.st_groupsByIndex]. unfold pushAt. by rewrite length_alter.
    + exact Hc'.
    + cbn [RoundRobin.st_groupsByIndex]. by apply lengthsAt_push.
Qed.

(** the loop of [createGracefulDegradation], from position [n] on *)
Lemma degrade_spec (k : nat) (l : list (Item * Z)) :
  0 < k -> Forall (fun e => at_ items e.2 = Some e.1) l ->
  ∀ (n : nat) (mk : nat -> Item * Z -> nat * (Item * Z)) byId byIndex sums,
    (∀ j x, mk j x = ((n + j)%nat, x)) ->
    length byIndex = k -> consistent items byId byIndex sums -> lengthsAt k n byIndex ->
    ∃ byId' byIndex' sums',
      foldM (fun '(groupsById, groupsByIndex, groupSums) '(i, (item, index)) =>
               let groupIndex := (i `mod` k)%nat in
               groupsById ← push groupsById groupIndex (id item);
               groupsByIndex ← push groupsByIndex groupIndex index;
               mret (groupsById, groupsByIndex, addAt groupSums groupIndex (capacity item)))
        (byId, byIndex, sums) (imap mk l)
      = Ok (byId', byIndex', sums')
      ∧ length byIndex' = k
      ∧ consistent items byId' byIndex' sums'
      ∧ lengthsAt k (n + length l) byIndex'
      ∧ concat byIndex' ≡ₚ concat byIndex ++ (snd <$> l).
Proof.
  intros Hk Hl.
  induction Hl as [|[item index] l Hat _ IH]; intros n mk byId byIndex sums Hmk Hlen Hc Hla.
  - exists byId, byIndex, sums. cbn. rewrite Nat.add_0_r, app_nil_r. done.
  - rewrite imap_cons, Hmk, Nat.add_0_r. cbn [foldM bind].
    assert (n mod k < k) as Hg by (apply Nat.mod_upper_bound; lia).
    destruct (push_consistent _ _ _ (n mod k) item index Hc ltac:(lia) Hat)
      as (P1 & P2 & Hc').
    cbn [mbind Result_bind]. rewrite P1. cbn [bind]. rewrite P2. cbn [bind mret Result_ret].
    edestruct (IH (S n) (mk ∘ S)) as (byId' & byIndex' & sums' & E & L & Hc'' & LA & P);
      cycle -1.
    + exists byId', byIndex', sums'. split; [exact E|]. split; [exact L|].
      split; [exact Hc''|]. split.
      * cbn [length]. by rewrite Nat.add_succ_r.
      * rewrite P, concat_pushAt by lia. cbn. apply Permutation_middle.
    + intros j x. cbn. rewrite Hmk. f_equal. lia.
    + unfold pushAt. by rewrite length_alter.
    + exact Hc'.
    + by apply lengthsAt_push.
Qed.

Lemma lengthsAt_full k groupSize (byIndex : list (list Z)) :
  0 < k -> lengthsAt k (k * groupSize) byIndex ->
  Forall (fun group => length group = groupSize) byIndex.
Proof.
  intros Hk H. apply Forall_forall. intros group Hin.
  apply list_elem_of_lookup in Hin as [g Hg]. rewrite (H _ _ Hg). by apply dealt_full.
Qed.

End DealFacts.

(** ** The order of the round-robin deal *)

Section DealOrder.
Context (items : list Item).
Local Open Scope nat_scope.

Lemma dealtInOrder_push k prefix byIndex e :
  0 < k -> length byIndex = k -> lengthsAt k (length prefix) byIndex ->
  dealtInOrder k prefix byIndex ->
  dealtInOrder k (prefix ++ [e]) (pushAt byIndex (length prefix mod k) e.2).
Proof.
  intros Hk Hlen Hla Hord j e' Hj.
  assert (length prefix mod k < k) as Hg by (apply Nat.mod_upper_bound; lia).
  destruct (lookup_lt_is_Some_2 byIndex (length prefix mod k) ltac:(lia)) as [group Hgroup].
  destruct (decide (j < length prefix)) as [Hlt|Hge].
  - rewrite lookup_app_l in Hj by done. specialize (Hord j e' Hj).
    unfold pushAt. destruct (decide (j mod k = length prefix mod k)) as [Heq|Hne].
    + rewrite Heq in Hord |- *. rewrite list_lookup_alter_eq, Hgroup. rewrite Hgroup in Hord.
      cbn in Hord |- *. rewrite lookup_app_l; [done|]. by eapply lookup_lt_Some.
    + by rewrite list_lookup_alter_ne.
  - rewrite lookup_app_r in Hj by lia.
    destruct (j - length prefix) as [|m] eqn:Em; [|by destruct m].
    injection Hj as <-. assert (j = length prefix) as -> by lia.
    unfold pushAt. rewrite list_lookup_alter_eq, Hgroup. cbn.
    assert (length group = length prefix / k) as HL.
    { rewrite (Hla _ _ Hgroup). unfold dealt. rewrite bool_decide_eq_false_2 by lia. lia. }
    rewrite <- HL, lookup_app_r by lia. by rewrite Nat.sub_diag.
Qed.

(** the loop of [roundRobinPartition] deals its input in order *)
Lemma distribute_order (k : nat) (l : list (Item * Z)) :
  0 < k -> Forall (fun e => at_ items e.2 = Some e.1) l ->
  ∀ (prefix : list (Item * Z)) (st : RoundRobin.State),
    RoundRobin.st_currentGroup st = length prefix mod k ->
    length (RoundRobin.st_groupsByIndex st) = k ->
    consistent items (RoundRobin.st_groupsById st) (RoundRobin.st_groupsByIndex st)
      (RoundRobin.st_groupSums st) ->
    lengthsAt k (length prefix) (RoundRobin.st_groupsByIndex st) ->
    dealtInOrder k prefix (RoundRobin.st_groupsByIndex st) ->
    ∃ st',
      RoundRobin.distribute k st l = Ok st'
      ∧ dealtInOrder k (prefix ++ l) (RoundRobin.st_groupsByIndex st').
Proof.
  intros Hk Hl. induction Hl as [|[item index] l Hat _ IH]; intros prefix st Hcur Hlen Hc Hla Ho.
  - exists st. cbn. by rewrite app_nil_r.
  - unfold RoundRobin.distribute. cbn [foldM]. unfold RoundRobin.assign at 1.
    assert (length prefix mod k < k) as Hg by (apply Nat.mod_upper_bound; lia).
    destruct (push_consistent items _ _ _ (length prefix mod k) item index Hc ltac:(lia) Hat)
      as (P1 & P2 & Hc').
    rewrite Hcur, P1. cbn [mbind Result_bind bind]. rewrite P2.
    cbn [mbind Result_bind bind mret Result_ret].
    edestruct (IH (prefix ++ [(item, index)])) as (st' & E & Ho'); cycle -1.
    + exists st'. split; [exact E|]. by rewrite <- app_assoc in Ho'.
    + cbn [RoundRobin.st_currentGroup]. rewrite length_app. cbn [length].
      rewrite Nat.Div0.add_mod_idemp_l. done.
    + cbn [RoundRobin.st_groupsByIndex]. unfold pushAt. by rewrite length_alter.
    + exact Hc'.
    + cbn [RoundRobin.st_groupsByIndex]. rewrite length_app. cbn [length].
      rewrite Nat.add_1_r. by apply lengthsAt_push.
    + cbn [RoundRobin.st_groupsByIndex].
      by apply (dealtInOrder_push k prefix _ (item, index)).
Qed.

End DealOrder.

(** X14.  For [groups > 0], [roundRobinPartition] returns [groups] groups in
    which the item at position [j] of the sorted order (descending capacity,
    ties by id) is member [j / groups] of group [j mod groups]; the groups
    hold every item index exactly once, [groupsById] and [groupSums] are the
    ids and capacity sums of [groupsByIndex], [delta] is max minus min of
    the sums, and for [items.length = groups * groupSize] the result passes
    [validateGrouping]. *)
Theorem roundRobinPartition_deals (items : list Item) (groups groupSize : nat) :
  (0 < groups)%nat ->
  ∃ g, RoundRobin.roundRobinPartition items groups groupSize = Ok g
       ∧ length (groupsByIndex g) = groups
       ∧ dealtInOrder groups
           (sortBy (fun a b => compareItemsByCapacity a.1 b.1) (indexed items))
           (groupsByIndex g)
       ∧ concat (groupsByIndex g) ≡ₚ Z.of_nat <$> seq 0 (length items)
       ∧ lengthsAt groups (length items) (groupsByIndex g)
       ∧ consistent items (groupsById g) (groupsByIndex g) (groupSums g)
       ∧ delta g = deltaOf (groupSums g)
       ∧ (length items = (groups * groupSize)%nat ->
          Evaluate.validateGrouping items (groupsByIndex g) groupSize = true).
Proof.
  intros Hk. unfold RoundRobin.roundRobinPartition.
  set (indexedItems := sortBy _ (indexed items)).
  assert (indexedItems ≡ₚ indexed items) as Hsorted by apply sort_perm.
  edestruct (distribute_spec items groups indexedItems Hk (indexed_at items _ Hsorted) 0%nat
               (RoundRobin.mkState (emptyGroups groups) (emptyGroups groups) (zeros groups) 0))
    as (st & E & L & Hc & LA & P).
  - cbn. by rewrite Nat.Div0.mod_0_l.
  - apply length_replicate.
  - apply empty_consistent.
  - apply empty_lengthsAt.
  - edestruct (distribute_order items groups indexedItems Hk (indexed_at items _ Hsorted) []
                 (RoundRobin.mkState (emptyGroups groups) (emptyGroups groups) (zeros groups) 0))
      as (st1 & E1 & Ho).
    { cbn. by rewrite Nat.Div0.mod_0_l. }
    { apply length_replicate. }
    { apply empty_consistent. }
    { apply empty_lengthsAt. }
    { intros j e Hj. by rewrite lookup_nil in Hj. }
    rewrite E in E1. injection E1 as <-. cbn [app] in Ho.
    rewrite E. cbn. eexists. split; [reflexivity|]. cbn.
    assert (length indexedItems = length items) as Hlen.
    { rewrite Hsorted. unfold indexed. apply length_imap. }
    assert (concat (RoundRobin.st_groupsByIndex st) ≡ₚ Z.of_nat <$> seq 0 (length items))
      as Hperm.
    { rewrite P. cbn. unfold emptyGroups.
      replace (concat (replicate groups [])) with (@nil Z)
        by (clear; induction groups; cbn; done).
      cbn. by rewrite Hsorted, indexed_indices. }
    rewrite Hlen in LA. repeat split; try done.
    + apply Hc.
    + apply Hc.
    + intros HT. apply validateGrouping_intro; [|done].
      rewrite HT in LA. by eapply lengthsAt_full.
Qed.

Lemma roundRobinPartition_deals_witness :
  ∃ g, RoundRobin.roundRobinPartition (fromCapacities [10; 8; 6; 4; 2; 1; 7]) 3 2 = Ok g
       ∧ length (groupsByIndex g) = 3%nat
       ∧ dealtInOrder 3
           (sortBy (fun a b => compareItemsByCapacity a.1 b.1)
              (indexed (fromCapacities [10; 8; 6; 4; 2; 1; 7])))
           (groupsByIndex g)
       ∧ concat (groupsByIndex g) ≡ₚ Z.of_nat <$> seq 0 7
       ∧ lengthsAt 3 7 (groupsByIndex g)
       ∧ consistent (fromCapacities [10; 8; 6; 4; 2; 1; 7]) (groupsById g) (groupsByIndex g)
           (groupSums g)
       ∧ delta g = deltaOf (groupSums g)
       ∧ (7%nat = (3 * 2)%nat ->
          Evaluate.validateGrouping (fromCapacities [10; 8; 6; 4; 2; 1; 7]) (groupsByIndex g) 2
          = true).
Proof. apply (roundRobinPartition_deals (fromCapacities [10; 8; 6; 4; 2; 1; 7]) 3 2). lia. Defined.

(** X15.  For [groups > 0], [createGracefulDegradation] returns a grouping
    labelled ['graceful-degradation'] that deals every item index exactly
    once into [groups] groups of round-robin sizes, with [groupsById],
    [groupSums] and [delta] consistent with [groupsByIndex]. *)
Theorem createGracefulDegradation_deals (items : list Item) (groups groupSize : nat) :
  (0 < groups)%nat ->
  ∃ g, Recovery.createGracefulDegradation items groups groupSize = Ok g
       ∧ length (groupsByIndex g) = groups
       ∧ concat (groupsByIndex g) ≡ₚ Z.of_nat <$> seq 0 (length items)
       ∧ lengthsAt groups (length items) (groupsByIndex g)
       ∧ consistent items (groupsById g) (groupsByIndex g) (groupSums g)
       ∧ delta g = deltaOf (groupSums g)
       ∧ methodUsed g = "graceful-degradation"%string.
Proof.
  intros Hk. unfold Recovery.createGracefulDegradation.
  set (sortedItems := sortBy _ (indexed items)).
  assert (sortedItems ≡ₚ indexed items) as Hsorted by apply sort_perm.
  edestruct (degrade_spec items groups sortedItems Hk (indexed_at items _ Hsorted) 0%nat pair
               (emptyGroups groups) (emptyGroups groups) (zeros groups))
    as (byId & byIndex & sums & E & L & Hc & LA & P).
  - done.
  - apply length_replicate.
  - apply empty_consistent.
  - apply empty_lengthsAt.
  - cbv zeta in E. rewrite E. cbn [mbind Result_bind bind mret Result_ret].
    eexists. split; [reflexivity|]. cbn.
    assert (length sortedItems = length items) as Hlen.
    { rewrite Hsorted. unfold indexed. apply length_imap. }
    rewrite Hlen in LA. repeat split; try done; try apply Hc.
    rewrite P. cbn. unfold emptyGroups.
    replace (concat (replicate groups [])) with (@nil Z)
      by (clear; induction groups; cbn; done).
    cbn. by rewrite Hsorted, indexed_indices.
Qed.

Lemma createGracefulDegradation_deals_witness :
  ∃ g, Recovery.createGracefulDegradation (fromCapacities [10; 8; 6; 4; 2; 1; 7]) 3 2 = Ok g
       ∧ length (groupsByIndex g) = 3%nat
       ∧ concat (groupsByIndex g) ≡ₚ Z.of_nat <$> seq 0 7
       ∧ lengthsAt 3 7 (groupsByIndex g)
       ∧ consistent (fromCapacities [10; 8; 6; 4; 2; 1; 7]) (groupsById g) (groupsByIndex g)
           (groupSums g)
       ∧ delta g = deltaOf (groupSums g)
       ∧ methodUsed g = "graceful-degradation"%string.
Proof.
  apply (createGracefulDegradation_deals (fromCapacities [10; 8; 6; 4; 2; 1; 7]) 3 2). lia.
Defined.

(** ** Capacity-aware assignment *)

Section RoomFacts.
Local Open Scope nat_scope.

Lemma foldl_invariant {A S} (f : S -> A -> S) (P : S -> Prop) l a :
  (∀ acc x, x ∈ l -> P acc -> P (f acc x)) -> P a -> P (foldl f a l).
Proof.
  revert a. induction l as [|x l IH]; intros a Hstep Ha; cbn; [done|].
  apply IH; [|apply Hstep; [by left|done]].
  intros acc y Hy. apply Hstep. by right.
Qed.

Lemma length_concat_le (l : list (list Z)) n :
  Forall (fun group => length group ≤ n) l -> length (concat l) ≤ length l * n.
Proof. induction 1 as [|x l Hx _ IH]; cbn; [lia|]. rewrite length_app. lia. Qed.

Lemma exists_room (l : list (list Z)) n :
  length (concat l) < length l * n -> ∃ g group, l !! g = Some group ∧ length group < n.
Proof.
  induction l as [|x l IH]; cbn; [lia|]. rewrite length_app. intros H.
  destruct (decide (length x < n)) as [Hx|Hx]; [by exists 0, x|].
  destruct IH as (g & group & Hg & Hlt); [lia|]. by exists (S g), group.
Qed.

Lemma all_full (l : list (list Z)) n :
  Forall (fun group => length group ≤ n) l -> length (concat l) = length l * n ->
  Forall (fun group => length group = n) l.
Proof.
  induction 1 as [|x l Hx Hl IH]; cbn; [constructor|]. rewrite length_app. intros H.
  pose proof (length_concat_le l n Hl). constructor; [lia|]. apply IH. lia.
Qed.

Lemma hasRoom_lengths groupSize (byIndex : list (list Z)) :
  length (concat byIndex) < length byIndex * groupSize ->
  ∃ g, g < length byIndex ∧ hasRoom groupSize (length <$> byIndex) g.
Proof.
  intros H. destruct (exists_room _ _ H) as (g & group & Hg & Hlt).
  exists g. split; [by eapply lookup_lt_Some|].
  exists (length group). by rewrite list_lookup_fmap, Hg.
Qed.

(** the choice of [optimizedRoundRobinPartition] has room whenever a group has *)
Lemma chooseGroup_room groups groupSize (groupSums : list Z) (groupCounts : list nat) g0 :
  length groupCounts = groups -> length groupSums = groups ->
  g0 < groups -> hasRoom groupSize groupCounts g0 ->
  RoundRobin.chooseGroup groups groupSize groupSums groupCounts < groups
  ∧ hasRoom groupSize groupCounts
      (RoundRobin.chooseGroup groups groupSize groupSums groupCounts).
Proof.
  intros Hc Hs Hg0 Hroom. unfold RoundRobin.chooseGroup.
  assert (Hbest : ∀ s0,
    let r := RoundRobin.lightest groups groupSize groupSums groupCounts s0 in
    r.1 < groups ∧ (r.1 = 0 ∨ hasRoom groupSize groupCounts r.1)).
  { intros s0. unfold RoundRobin.lightest.
    apply (foldl_invariant _ (fun r => r.1 < groups ∧ (r.1 = 0 ∨ hasRoom groupSize groupCounts r.1))).
    - intros [b s] g Hg [Hb Hr]. apply elem_of_seq in Hg.
      destruct (groupCounts !! g) as [count|] eqn:Ec; [|done].
      destruct (groupSums !! g) as [sum|] eqn:Es; [|done].
      destruct (bool_decide (count < groupSize)) eqn:Hcount; cbn [andb]; [|done].
      destruct (sum <? s)%Z; [|done]. cbn [fst]. split; [lia|]. right.
      apply bool_decide_eq_true_1 in Hcount. by exists count.
    - cbn. split; [lia|by left]. }
  specialize (Hbest (default 0%Z (groupSums !! 0))). cbv zeta in Hbest.
  destruct (RoundRobin.lightest _ _ _ _ _) as [b s]. cbn [fst] in Hbest.
  destruct Hbest as [Hb Hr].
  destruct (lookup_lt_is_Some_2 groupCounts b ltac:(lia)) as [count Ecount]. rewrite Ecount.
  case_bool_decide as Hfull; [|split; [done|by exists count; split; [|lia]]].
  unfold RoundRobin.firstWithSpace.
  destruct (List.find _ (seq 0 groups)) as [g|] eqn:Efind.
  - apply find_some in Efind as [Hin Hp]. apply in_seq in Hin. split; [lia|].
    destruct (groupCounts !! g) as [c|] eqn:Eg; [|done].
    apply bool_decide_eq_true_1 in Hp. by exists c.
  - exfalso. destruct Hroom as (c0 & E0 & Hlt0).
    pose proof (find_none _ _ Efind g0) as Hnone. cbn in Hnone.
    rewrite E0 in Hnone. rewrite bool_decide_eq_true_2 in Hnone by done.
    assert (In g0 (seq 0 groups)) as Hin by (apply in_seq; lia).
    specialize (Hnone Hin). done.
Qed.

(** the choice of [lptPartition] has room whenever a group has *)
Lemma withSpace_room groups groupSize (groupSums : list Z) (groupCounts : list nat) g0 :
  length groupCounts = groups -> length groupSums = groups ->
  g0 < groups -> hasRoom groupSize groupCounts g0 ->
  ∃ g, LPT.withSpace groups groupSize groupSums groupCounts = Some g
       ∧ g < groups ∧ hasRoom groupSize groupCounts g.
Proof.
  intros Hc Hs Hg0 Hroom. unfold LPT.withSpace.
  set (f := fun '(bestGroup, bestSum) g => _).
  set (ok := fun g => g < groups ∧ hasRoom groupSize groupCounts g).
  assert (Hgen : ∀ l acc,
    (∀ g, g ∈ l -> g < groups) ->
    (∀ g, acc.1 = Some g -> ok g) -> (acc.1 = None -> acc.2 = PosInf) ->
    (∀ g, (foldl f acc l).1 = Some g -> ok g)
    ∧ ((foldl f acc l).1 = None ->
       acc.1 = None ∧ ∀ g, g ∈ l -> ¬ hasRoom groupSize groupCounts g)).
  { induction l as [|g l IH]; intros [best bestSum] Hl Hsome Hnone; cbn [foldl].
    - split; [done|]. intros H. split; [done|]. intros g Hg. inversion Hg.
    - assert (g < groups) as Hg by (apply Hl; by left).
      assert (∀ g', g' ∈ l -> g' < groups) as Hl' by (intros g' Hg'; apply Hl; by right).
      destruct (lookup_lt_is_Some_2 groupCounts g ltac:(lia)) as [count Ec].
      destruct (lookup_lt_is_Some_2 groupSums g ltac:(lia)) as [sum Es].
      assert (f (best, bestSum) g
              = if bool_decide (count < groupSize) && xltb (Fin sum) bestSum
                then (Some g, Fin sum) else (best, bestSum)) as ->.
      { unfold f. by rewrite Ec, Es. }
      destruct (bool_decide (count < groupSize)) eqn:Hcount; cbn [andb].
      + apply bool_decide_eq_true_1 in Hcount.
        assert (ok g) as Hok by (split; [done|by exists count]).
        destruct (xltb (Fin sum) bestSum) eqn:Hlt.
        * destruct (IH (Some g, Fin sum) Hl') as [I1 I2].
          { cbn. by intros g' [= <-]. }
          { done. }
          split; [exact I1|]. intros H. by destruct (I2 H).
        * destruct (IH (best, bestSum) Hl' Hsome Hnone) as [I1 I2].
          split; [exact I1|]. intros H. destruct (I2 H) as [Hb _]. cbn in Hb, Hnone.
          rewrite (Hnone Hb) in Hlt. done.
      + apply bool_decide_eq_false_1 in Hcount.
        destruct (IH (best, bestSum) Hl' Hsome Hnone) as [I1 I2].
        split; [exact I1|]. intros H. destruct (I2 H) as [Hb Hl2]. split; [done|].
        intros g' Hg'. apply elem_of_cons in Hg' as [->|Hg']; [|by apply Hl2].
        intros (c & E & Hlt). rewrite Ec in E. injection E as <-. lia. }
  destruct (Hgen (seq 0 groups) (None, PosInf)) as [I1 I2]; [|done|done|].
  { intros g' Hg'. apply elem_of_seq in Hg'. lia. }
  destruct (foldl f (None, PosInf) (seq 0 groups)).1 as [g|] eqn:E.
  - exists g. split; [done|]. by apply I1.
  - exfalso. destruct (I2 eq_refl) as [_ Hno]. apply (Hno g0); [|done].
    apply elem_of_seq. lia.
Qed.

End RoomFacts.

Section FillingFacts.
Context (items : list Item) (groups groupSize : nat).
Local Open Scope nat_scope.

Lemma filling_lengths byId byIndex sums counts :
  filling items groups groupSize byId byIndex sums counts ->
  length counts = groups ∧ length sums = groups.
Proof.
  intros (Hlen & [Hs _] & -> & _). rewrite length_fmap.
  apply sumGroups_length in Hs. split; [done|congruence].
Qed.

Lemma filling_push byId byIndex sums counts g item index :
  filling items groups groupSize byId byIndex sums counts ->
  g < groups -> hasRoom groupSize counts g -> at_ items index = Some item ->
  push byId g (id item) = Ok (pushAt byId g (id item))
  ∧ push byIndex g index = Ok (pushAt byIndex g index)
  ∧ filling items groups groupSize (pushAt byId g (id item)) (pushAt byIndex g index)
      (addAt sums g (capacity item)) (alter S g counts).
Proof.
  intros (Hlen & Hc & -> & Hle) Hg (count & Ecount & Hroom) Hat.
  destruct (push_consistent items _ _ _ g item index Hc ltac:(lia) Hat) as (P1 & P2 & Hc').
  split; [done|]. split; [done|]. split; [|split; [done|split]].
  - unfold pushAt. by rewrite length_alter.
  - unfold pushAt. symmetry. apply list_fmap_alter.
    apply Forall_forall. intros x _. rewrite length_app. cbn. lia.
  - unfold pushAt. apply Forall_alter; [done|]. intros group Hgroup _.
    rewrite list_lookup_fmap, Hgroup in Ecount. injection Ecount as <-.
    rewrite length_app. cbn. lia.
Qed.

Lemma empty_filling :
  filling items groups groupSize (emptyGroups groups) (emptyGroups groups) (zeros groups)
    (replicate groups 0).
Proof.
  split; [apply length_replicate|]. split; [apply empty_consistent|]. split.
  - unfold emptyGroups. by rewrite fmap_replicate.
  - unfold emptyGroups. apply Forall_replicate. cbn. lia.
Qed.

Lemma concat_emptyGroups : concat (emptyGroups (A := Z) groups) = [].
Proof. unfold emptyGroups. induction groups; cbn; done. Qed.

(** the loop of [optimizedRoundRobinPartition] *)
Lemma distributeOptimized_spec (l : list (Item * Z)) :
  Forall (fun e => at_ items e.2 = Some e.1) l ->
  ∀ (st : RoundRobin.OptState),
    filling items groups groupSize (RoundRobin.os_groupsById st)
      (RoundRobin.os_groupsByIndex st) (RoundRobin.os_groupSums st)
      (RoundRobin.os_groupCounts st) ->
    length (concat (RoundRobin.os_groupsByIndex st)) + length l ≤ groups * groupSize ->
    ∃ st',
      RoundRobin.distributeOptimized groups groupSize st l = Ok st'
      ∧ filling items groups groupSize (RoundRobin.os_groupsById st')
          (RoundRobin.os_groupsByIndex st') (RoundRobin.os_groupSums st')
          (RoundRobin.os_groupCounts st')
      ∧ concat (RoundRobin.os_groupsByIndex st')
        ≡ₚ concat (RoundRobin.os_groupsByIndex st) ++ (snd <$> l).
Proof.
  intros Hl. induction Hl as [|[item index] l Hat _ IH]; intros st Hf Hn.
  - exists st. cbn. by rewrite app_nil_r.
  - unfold RoundRobin.distributeOptimized. cbn [foldM].
    unfold RoundRobin.assignOptimized at 1.
    destruct (filling_lengths _ _ _ _ Hf) as [Lc Ls].
    pose proof Hf as (Hlen & _ & Hcounts & _).
    destruct (hasRoom_lengths groupSize (RoundRobin.os_groupsByIndex st)) as (g0 & Hg0 & Hr0).
    { cbn [length] in Hn. lia. }
    rewrite <- Hcounts in Hr0. rewrite Hlen in Hg0.
    destruct (chooseGroup_room groups groupSize _ _ g0 Lc Ls Hg0 Hr0) as [Hg Hroom].
    destruct (filling_push _ _ _ _ _ item index Hf Hg Hroom Hat) as (P1 & P2 & Hf').
    rewrite P1. cbn [mbind Result_bind bind]. rewrite P2.
    cbn [mbind Result_bind bind mret Result_ret].
    edestruct IH as (st' & E & Hf'' & Hp); cycle -1.
    + exists st'. split; [exact E|]. split; [exact Hf''|].
      rewrite Hp. cbn [RoundRobin.os_groupsByIndex]. rewrite concat_pushAt by lia.
      cbn. apply Permutation_middle.
    + cbn [RoundRobin.os_groupsByIndex RoundRobin.os_groupsById RoundRobin.os_groupSums
             RoundRobin.os_groupCounts]. exact Hf'.
    + cbn [RoundRobin.os_groupsByIndex]. rewrite concat_pushAt by lia.
      cbn [length] in *. lia.
Qed.

(** the greedy loop of [lptPartition] *)
Lemma greedy_spec (l : list (Item * Z)) :
  Forall (fun e => at_ items e.2 = Some e.1) l ->
  ∀ (st : LPT.State) (counts : list nat),
    filling items groups groupSize (LPT.st_groupsById st) (LPT.st_groupsByIndex st)
      (LPT.st_groupSums st) counts ->
    length (concat (LPT.st_groupsByIndex st)) + length l ≤ groups * groupSize ->
    ∃ st' counts',
      foldM (LPT.assign groups groupSize) (st, counts) l = Ok (st', counts')
      ∧ filling items groups groupSize (LPT.st_groupsById st') (LPT.st_groupsByIndex st')
          (LPT.st_groupSums st') counts'
      ∧ concat (LPT.st_groupsByIndex st') ≡ₚ concat (LPT.st_groupsByIndex st) ++ (snd <$> l).
Proof.
  intros Hl. induction Hl as [|[item index] l Hat _ IH]; intros st counts Hf Hn.
  - exists st, counts. cbn. by rewrite app_nil_r.
  - cbn [foldM]. unfold LPT.assign at 1.
    destruct (filling_lengths _ _ _ _ Hf) as [Lc Ls].
    pose proof Hf as (Hlen & _ & Hcounts & _).
    destruct (hasRoom_lengths groupSize (LPT.st_groupsByIndex st)) as (g0 & Hg0 & Hr0).
    { cbn [length] in Hn. lia. }
    rewrite <- Hcounts in Hr0. rewrite Hlen in Hg0.
    destruct (withSpace_room groups groupSize _ _ g0 Lc Ls Hg0 Hr0) as (g & -> & Hg & Hroom).
    cbn [default]. unfold Datatypes.id.
    destruct (filling_push _ _ _ _ _ item index Hf Hg Hroom Hat) as (P1 & P2 & Hf').
    rewrite P1. cbn [mbind Result_bind bind]. rewrite P2.
    cbn [mbind Result_bind bind mret Result_ret].
    edestruct IH as (st' & counts' & E & Hf'' & Hp); cycle -1.
    + exists st', counts'. split; [exact E|]. split; [exact Hf''|].
      rewrite Hp. cbn [LPT.st_groupsByIndex]. rewrite concat_pushAt by lia.
      cbn. apply Permutation_middle.
    + cbn [LPT.st_groupsByIndex LPT.st_groupsById LPT.st_groupSums]. exact Hf'.
    + cbn [LPT.st_groupsByIndex]. rewrite concat_pushAt by lia.
      cbn [length] in *. lia.
Qed.

Lemma filling_valid byId byIndex sums counts :
  filling items groups groupSize byId byIndex sums counts ->
  length items = groups * groupSize ->
  concat byIndex ≡ₚ Z.of_nat <$> seq 0 (length items) ->
  Evaluate.validateGrouping items byIndex groupSize = true.
Proof.
  intros (Hlen & _ & _ & Hle) HT Hp. apply validateGrouping_intro; [|done].
  apply all_full; [done|]. rewrite Hp, length_fmap, length_seq. lia.
Qed.

End FillingFacts.

(** X16.  For [groups > 0] and [items.length = groups * groupSize],
    [optimizedRoundRobinPartition] returns a grouping that passes
    [validateGrouping], has [groups] groups, and whose ids, sums and delta are
    those of its [groupsByIndex]: the capacity-aware choice never overfills a
    group. *)
Theorem optimizedRoundRobinPartition_valid (items : list Item) (groups groupSize : nat) :
  (0 < groups)%nat -> length items = (groups * groupSize)%nat ->
  ∃ g, RoundRobin.optimizedRoundRobinPartition items groups groupSize = Ok g
       ∧ Evaluate.validateGrouping items (groupsByIndex g) groupSize = true
       ∧ length (groupsByIndex g) = groups
       ∧ consistent items (groupsById g) (groupsByIndex g) (groupSums g)
       ∧ delta g = deltaOf (groupSums g).
Proof.
  intros Hk HT. unfold RoundRobin.optimizedRoundRobinPartition.
  set (indexedItems := sortBy _ (indexed items)).
  assert (indexedItems ≡ₚ indexed items) as Hsorted by apply sort_perm.
  assert (length indexedItems = length items) as Hlen.
  { rewrite Hsorted. unfold indexed. apply length_imap. }
  edestruct (distributeOptimized_spec items groups groupSize indexedItems
               (indexed_at items _ Hsorted)
               (RoundRobin.mkOptState (emptyGroups groups) (emptyGroups groups) (zeros groups)
                  (replicate groups 0%nat)))
    as (st & E & Hf & P).
  - apply empty_filling.
  - cbn. rewrite concat_emptyGroups. cbn. lia.
  - rewrite E. cbn. eexists. split; [reflexivity|]. cbn.
    cbn [RoundRobin.os_groupsByIndex LPT.st_groupsByIndex] in P.
    rewrite concat_emptyGroups in P. cbn [app] in P. rewrite Hsorted, indexed_indices in P.
    split; [by eapply filling_valid|]. destruct Hf as (L & Hc & _). done.
Qed.

Lemma optimizedRoundRobinPartition_valid_witness :
  ∃ g, RoundRobin.optimizedRoundRobinPartition (fromCapacities [10; 9; 8; 7; 7; 1; 1; 1; 1]) 3 3
       = Ok g
       ∧ Evaluate.validateGrouping (fromCapacities [10; 9; 8; 7; 7; 1; 1; 1; 1])
           (groupsByIndex g) 3 = true
       ∧ length (groupsByIndex g) = 3%nat
       ∧ consistent (fromCapacities [10; 9; 8; 7; 7; 1; 1; 1; 1]) (groupsById g)
           (groupsByIndex g) (groupSums g)
       ∧ delta g = deltaOf (groupSums g).
Proof.
  apply (optimizedRoundRobinPartition_valid (fromCapacities [10; 9; 8; 7; 7; 1; 1; 1; 1]) 3 3);
    [lia|reflexivity].
Defined.

(** X17.  On items of exact arithmetic, for [groups > 0] and
    [items.length = groups * groupSize], [lptPartition] without refinement
    returns a grouping labelled ['lpt'] that passes [validateGrouping], has
    [groups] groups, and whose ids, sums and delta are those of its
    [groupsByIndex]; the sums are safe integers, and the greedy phase always
    finds a group with space. *)
Theorem lptPartition_greedy_valid (items : list Item) (groups groupSize : nat)
    (maxRefinementIters : Z) :
  exactItems items = true ->
  (0 < groups)%nat -> length items = (groups * groupSize)%nat ->
  ∃ g, LPT.lptPartition items groups groupSize false maxRefinementIters = Ok g
       ∧ Evaluate.validateGrouping items (groupsByIndex g) groupSize = true
       ∧ length (groupsByIndex g) = groups
       ∧ consistent items (groupsById g) (groupsByIndex g) (groupSums g)
       ∧ safeSums (groupSums g)
       ∧ delta g = deltaOf (groupSums g)
       ∧ methodUsed g = "lpt"%string.
Proof.
  intros He Hk HT. unfold LPT.lptPartition, LPT.greedy.
  set (indexedItems := sortBy _ (indexed items)).
  assert (indexedItems ≡ₚ indexed items) as Hsorted by apply sort_perm.
  assert (length indexedItems = length items) as Hlen.
  { rewrite Hsorted. unfold indexed. apply length_imap. }
  edestruct (greedy_spec items groups groupSize indexedItems (indexed_at items _ Hsorted)
               (LPT.mkState (emptyGroups groups) (emptyGroups groups) (zeros groups))
               (replicate groups 0%nat))
    as (st & counts & E & Hf & P).
  - apply empty_filling.
  - cbn. rewrite concat_emptyGroups. cbn. lia.
  - rewrite E. cbn. eexists. split; [reflexivity|]. cbn.
    cbn [RoundRobin.os_groupsByIndex LPT.st_groupsByIndex] in P.
    rewrite concat_emptyGroups in P. cbn [app] in P. rewrite Hsorted, indexed_indices in P.
    split; [by eapply filling_valid|]. destruct Hf as (L & Hc & _).
    split; [exact L|]. split; [exact Hc|]. split; [|done].
    eapply exactItems_sums; [exact He|apply Hc|exact P].
Qed.

Lemma lptPartition_greedy_valid_witness :
  ∃ g, LPT.lptPartition (fromCapacities [10; 8; 6; 4; 2; 1]) 2 3 false 100 = Ok g
       ∧ Evaluate.validateGrouping (fromCapacities [10; 8; 6; 4; 2; 1]) (groupsByIndex g) 3 = true
       ∧ length (groupsByIndex g) = 2%nat
       ∧ consistent (fromCapacities [10; 8; 6; 4; 2; 1]) (groupsById g) (groupsByIndex g)
           (groupSums g)
       ∧ safeSums (groupSums g)
       ∧ delta g = deltaOf (groupSums g)
       ∧ methodUsed g = "lpt"%string.
Proof.
  apply (lptPartition_greedy_valid (fromCapacities [10; 8; 6; 4; 2; 1]) 2 3 100);
    [reflexivity|lia|reflexivity].
Defined.

(** ** Swaps keep the partition *)

Section SwapFacts.

Lemma insert_perm {A} (l : list A) i x y : l !! i = Some x -> y :: l ≡ₚ x :: <[i := y]> l.
Proof.
  revert i. induction l as [|z l IH]; intros [|i]; cbn; try done.
  - intros [= ->]. apply perm_swap.
  - intros H. change (<[S i := y]> (z :: l)) with (z :: <[i := y]> l).
    rewrite perm_swap, (IH _ H). apply perm_swap.
Qed.

Lemma concat_insert_perm {A} (ls : list (list A)) g l l' x y :
  ls !! g = Some l -> y :: l ≡ₚ x :: l' -> y :: concat ls ≡ₚ x :: concat (<[g := l']> ls).
Proof.
  revert g. induction ls as [|l0 ls IH]; intros [|g]; cbn; try done.
  - intros [= ->] H. change (y :: l ++ concat ls) with ((y :: l) ++ concat ls).
    by rewrite H.
  - intros Hg H. change (<[S g := l']> (l0 :: ls)) with (l0 :: <[g := l']> ls). cbn.
    rewrite (Permutation_middle l0 (concat ls) y), (IH _ Hg H).
    by rewrite <- Permutation_middle.
Qed.

Lemma setAt_perm {A} (gbi : list (list A)) g i v group old :
  gbi !! g = Some group -> group !! i = Some old ->
  v :: concat gbi ≡ₚ old :: concat (setAt gbi g i v).
Proof.
  intros Hg Hi. rewrite (setAt_insert _ _ _ _ _ Hg).
  eapply concat_insert_perm; [done|]. by apply insert_perm.
Qed.

Import LocalRefine.

Lemma swap11_perm items st g1 i1 g2 i2 d m :
  g1 ≠ g2 -> swap11 items st g1 i1 g2 i2 = Ok (d, m) -> samePartition st (applyMove m st).
Proof.
  intros Hne. unfold swap11.
  destruct (member items _ g1 i1) as [[idx1 cap1]|] eqn:M1; cbn; [|discriminate].
  destruct (member items _ g2 i2) as [[idx2 cap2]|] eqn:M2; cbn; [|discriminate].
  intros [= <- <-].
  apply member_Ok in M1 as (grp1 & it1 & G1 & I1 & A1 & ->).
  apply member_Ok in M2 as (grp2 & it2 & G2 & I2 & A2 & ->).
  unfold samePartition, applyMove. cbn [mv_writes foldl st_groupsByIndex].
  pose proof (setAt_perm _ g1 i1 idx2 _ _ G1 I1) as P1.
  assert (G2' : setAt (st_groupsByIndex st) g1 i1 idx2 !! g2 = Some grp2)
    by (by rewrite setAt_lookup_ne).
  pose proof (setAt_perm _ g2 i2 idx1 _ _ G2' I2) as P2.
  apply (Permutation_cons_inv (a := idx2)). by rewrite <- P2, <- P1.
Qed.

Lemma swap22_perm items st g1 i1a i1b g2 i2a i2b d m :
  g1 ≠ g2 -> i1a ≠ i1b -> i2a ≠ i2b ->
  swap22 items st g1 i1a i1b g2 i2a i2b = Ok (d, m) -> samePartition st (applyMove m st).
Proof.
  intros Hne Hi1 Hi2. unfold swap22.
  destruct (member items _ g1 i1a) as [[idx1a c1a]|] eqn:M1a; cbn; [|discriminate].
  destruct (member items _ g1 i1b) as [[idx1b c1b]|] eqn:M1b; cbn; [|discriminate].
  destruct (member items _ g2 i2a) as [[idx2a c2a]|] eqn:M2a; cbn; [|discriminate].
  destruct (member items _ g2 i2b) as [[idx2b c2b]|] eqn:M2b; cbn; [|discriminate].
  intros [= <- <-].
  apply member_Ok in M1a as (grp1 & it1a & G1 & I1a & A1a & ->).
  apply member_Ok in M1b as (grp1' & it1b & G1' & I1b & A1b & ->).
  apply member_Ok in M2a as (grp2 & it2a & G2 & I2a & A2a & ->).
  apply member_Ok in M2b as (grp2' & it2b & G2' & I2b & A2b & ->).
  rewrite G1 in G1'. injection G1' as <-. rewrite G2 in G2'. injection G2' as <-.
  unfold samePartition, applyMove. cbn [mv_writes foldl st_groupsByIndex].
  set (gbi0 := st_groupsByIndex st) in *.
  pose proof (setAt_perm _ g1 i1a idx2a _ _ G1 I1a) as P1.
  pose proof (setAt_lookup_eq gbi0 g1 i1a idx2a _ G1) as G11.
  assert (I1b' : <[i1a := idx2a]> grp1 !! i1b = Some idx1b)
    by (by rewrite list_lookup_insert_ne).
  pose proof (setAt_perm _ g1 i1b idx2b _ _ G11 I1b') as P2.
  assert (G22 : setAt (setAt gbi0 g1 i1a idx2a) g1 i1b idx2b !! g2 = Some grp2)
    by (by rewrite !setAt_lookup_ne).
  pose proof (setAt_perm _ g2 i2a idx1a _ _ G22 I2a) as P3.
  pose proof (setAt_lookup_eq _ g2 i2a idx1a _ G22) as G23.
  assert (I2b' : <[i2a := idx1a]> grp2 !! i2b = Some idx2b)
    by (by rewrite list_lookup_insert_ne).
  pose proof (setAt_perm _ g2 i2b idx1b _ _ G23 I2b') as P4.
  apply (Permutation_cons_inv (a := idx2b)), (Permutation_cons_inv (a := idx2a)).
  rewrite <- P4. rewrite (perm_swap idx1b idx2a), <- P3.
  rewrite (perm_swap idx1a idx1b), <- P2.
  rewrite (perm_swap idx2b idx1a), <- P1. apply perm_swap.
Qed.

End SwapFacts.

Section LocalRefinePartition.
Context (items : list Item) (groups groupSize : nat).
Import LocalRefine.

Lemma samePartition_refl st : samePartition st st.
Proof. unfold samePartition. reflexivity. Qed.

Lemma samePartition_trans st1 st2 st3 :
  samePartition st1 st2 -> samePartition st2 st3 -> samePartition st1 st3.
Proof. unfold samePartition. intros H1 H2. by rewrite H2. Qed.

Lemma same_groups_samePartition st st1 st' :
  st_groupsByIndex st1 = st_groupsByIndex st ∧ st_groupSums st1 = st_groupSums st ->
  samePartition st1 st' -> samePartition st st'.
Proof. intros [E1 _]. unfold samePartition. by rewrite E1. Qed.

Lemma applyIfBetter_perm st c b st' :
  (xltb c.1 (getDelta st) = true -> samePartition st (applyMove c.2 st)) ->
  applyIfBetter st c = (b, st') -> samePartition st st'.
Proof.
  intros Happ. destruct c as [d m]. unfold applyIfBetter.
  destruct (xltb d (getDelta st)) eqn:Hlt; intros [= <- <-];
    [by apply Happ|apply samePartition_refl].
Qed.

Lemma apply11IfBetter_perm st g1 i1 g2 i2 b st' :
  tracked items groups groupSize st ->
  apply11IfBetter items st g1 i1 g2 i2 = Ok (b, st') -> samePartition st st'.
Proof.
  intros HI. unfold apply11IfBetter.
  destruct (swap11 items st g1 i1 g2 i2) as [[d m]|] eqn:Hsw; [|discriminate].
  intros H0. assert (H : applyIfBetter st (d, m) = (b, st')) by (by injection H0). clear H0.
  eapply applyIfBetter_perm; [|exact H].
  cbn. intros Hlt. destruct (decide (g1 = g2)) as [->|Hne].
  - rewrite (swap11_same_group _ _ _ _ _ _ _ _ _ HI Hsw) in Hlt. discriminate.
  - by eapply swap11_perm.
Qed.

Lemma apply22IfBetter_perm st g1 i1a i1b g2 i2a i2b b st' :
  tracked items groups groupSize st ->
  (i1a = i1b ∨ i2a = i2b -> groupSize = 1%nat ∨ ¬ (i1a < groupSize ∧ i2a < groupSize)%nat) ->
  apply22IfBetter items st g1 i1a i1b g2 i2a i2b = Ok (b, st') -> samePartition st st'.
Proof.
  intros HI Hdeg. unfold apply22IfBetter.
  destruct (swap22 items st g1 i1a i1b g2 i2a i2b) as [[d m]|] eqn:Hsw; [|discriminate].
  intros H0. assert (H : applyIfBetter st (d, m) = (b, st')) by (by injection H0). clear H0.
  eapply applyIfBetter_perm; [|exact H].
  cbn. intros Hlt. destruct (decide (g1 = g2)) as [->|Hne].
  { rewrite (swap22_same_group _ _ _ _ _ _ _ _ _ _ _ HI Hsw) in Hlt. discriminate. }
  destruct (decide (i1a = i1b ∨ i2a = i2b)) as [Heq|Hneq].
  - destruct (Hdeg Heq) as [Hone|Hout].
    + rewrite (swap22_singletons _ _ _ _ _ _ _ _ _ _ _ _ HI Hone Hsw) in Hlt. discriminate.
    + exfalso. apply Hout. clear Hout Hdeg Heq Hlt H.
      destruct HI as (Hs & Hgr & Hsz). unfold swap22 in Hsw.
      destruct (member items _ g1 i1a) as [[idx1a c1a]|] eqn:M1a; cbn in Hsw; [|discriminate].
      destruct (member items _ g1 i1b) as [[idx1b c1b]|] eqn:M1b; cbn in Hsw; [|discriminate].
      destruct (member items _ g2 i2a) as [[idx2a c2a]|] eqn:M2a; cbn in Hsw; [|discriminate].
      apply member_Ok in M1a as (grp1 & it1a & G1 & I1a & _).
      apply member_Ok in M2a as (grp2 & it2a & G2 & I2a & _).
      apply lookup_lt_Some in I1a, I2a.
      eapply Forall_lookup_1 in G1; [|exact Hsz]. eapply Forall_lookup_1 in G2; [|exact Hsz].
      cbn in G1, G2. lia.
  - eapply (swap22_perm items st g1 i1a i1b g2 i2a i2b); [done| | |done];
      intros ->; apply Hneq; [by left|by right].
Qed.

Lemma iterateBest_perm options st b st' :
  iterateBest items options groups groupSize st = Ok (b, st') -> samePartition st st'.
Proof.
  unfold iterateBest.
  set (P := fun acc : xnum * option Move =>
              match acc.2 with Some m => samePartition st (applyMove m st) | None => True end).
  assert (Hkeep : ∀ acc c, P acc -> samePartition st (applyMove c.2 st) -> P (keepBetter acc c)).
  { intros acc c Ha Hc. unfold keepBetter. by destruct (xltb c.1 acc.1). }
  assert (P0 : P (getDelta st, None)) by done.
  destruct (if enable11 options then _ else _) as [acc1|] eqn:E1; [|discriminate].
  assert (F1 : P acc1).
  { destruct (enable11 options); [|by injection E1 as <-].
    eapply (foldM_invariant _ P); [|exact P0|exact E1].
    intros acc [[[g1 i1] g2] i2] acc' Hx Hacc.
    destruct (swap11 items st g1 i1 g2 i2) as [[d m]|] eqn:Hsw; [|discriminate].
    intros [= <-]. apply Hkeep; [done|].
    apply elem_of_scan11 in Hx. eapply swap11_perm; [|exact Hsw]. lia. }
  cbn [mbind Result_bind bind].
  destruct (if enable22 options then _ else _) as [acc2|] eqn:E2; [|discriminate].
  assert (F2 : P acc2).
  { destruct (enable22 options); [|by injection E2 as <-].
    eapply (foldM_invariant _ P); [|exact F1|exact E2].
    intros acc [[[[[g1 i1a] i1b] g2] i2a] i2b] acc' Hx Hacc.
    destruct (swap22 items st g1 i1a i1b g2 i2a i2b) as [[d m]|] eqn:Hsw; [|discriminate].
    intros [= <-]. apply Hkeep; [done|].
    apply elem_of_scan22 in Hx. eapply swap22_perm; [| | |exact Hsw]; lia. }
  cbn [mbind Result_bind bind]. unfold P in F2.
  destruct acc2 as [d [m|]]; cbn [snd fst] in *; intros [= <- <-];
    [exact F2|apply samePartition_refl].
Qed.

Section WithDoubles.
Context (fp : Doubles).

Lemma try11_perm attempts st b st' :
  tracked items groups groupSize st ->
  try11 fp items groups groupSize attempts st = Ok (b, st') -> samePartition st st'.
Proof.
  revert st. induction attempts as [|n IH]; intros st HI; cbn [try11].
  - intros [= <- <-]. apply samePartition_refl.
  - destruct (randIndex fp groups st) as [g1 s1] eqn:R1.
    destruct (randOther fp groups g1 s1) as [g2 s2] eqn:R2.
    destruct (randIndex fp groupSize s2) as [i1 s3] eqn:R3.
    destruct (randIndex fp groupSize s3) as [i2 s4] eqn:R4.
    apply randIndex_groups in R1, R3, R4. apply randOther_groups in R2.
    assert (E : st_groupsByIndex s4 = st_groupsByIndex st ∧ st_groupSums s4 = st_groupSums st).
    { destruct R1, R2, R3, R4. split; congruence. }
    destruct (apply11IfBetter items s4 g1 i1 g2 i2) as [[applied s5]|] eqn:Ha; [|discriminate].
    cbn [mbind Result_bind bind].
    pose proof (same_groups_Inv _ _ _ _ _ E HI) as HI4.
    destruct (apply11IfBetter_spec _ _ _ _ _ _ _ _ _ _ HI4 Ha) as [HI5 _].
    pose proof (apply11IfBetter_perm _ _ _ _ _ _ _ HI4 Ha) as HP5.
    destruct applied.
    + intros [= <- <-]. by eapply same_groups_samePartition.
    + intros H. eapply same_groups_samePartition; [exact E|].
      eapply samePartition_trans; [exact HP5|]. by eapply IH.
Qed.

Lemma try22_perm attempts st b st' :
  tracked items groups groupSize st ->
  try22 fp items groups groupSize attempts st = Ok (b, st') -> samePartition st st'.
Proof.
  revert st. induction attempts as [|n IH]; intros st HI; cbn [try22].
  - intros [= <- <-]. apply samePartition_refl.
  - destruct (randIndex fp groups st) as [g1 s1] eqn:R1.
    destruct (randOther fp groups g1 s1) as [g2 s2] eqn:R2.
    destruct (randIndex fp groupSize s2) as [i1a s3] eqn:R3.
    destruct (randOther fp groupSize i1a s3) as [i1b s4] eqn:R4.
    destruct (randIndex fp groupSize s4) as [i2a s5] eqn:R5.
    destruct (randOther fp groupSize i2a s5) as [i2b s6] eqn:R6.
    pose proof (randOther_distinct _ _ _ _ _ _ R4) as D1.
    pose proof (randOther_distinct _ _ _ _ _ _ R6) as D2.
    apply randIndex_groups in R1, R3, R5. apply randOther_groups in R2, R4, R6.
    assert (E : st_groupsByIndex s6 = st_groupsByIndex st ∧ st_groupSums s6 = st_groupSums st).
    { destruct R1, R2, R3, R4, R5, R6. split; congruence. }
    destruct (apply22IfBetter items s6 g1 i1a i1b g2 i2a i2b) as [[applied s7]|] eqn:Ha;
      [|discriminate].
    cbn [mbind Result_bind bind].
    assert (Hdeg : i1a = i1b ∨ i2a = i2b ->
                   groupSize = 1%nat ∨ ¬ (i1a < groupSize ∧ i2a < groupSize)%nat).
    { intros [Heq|Heq].
      - destruct (decide (i1a < groupSize)%nat); [left; by apply D1|right; lia].
      - destruct (decide (i2a < groupSize)%nat); [left; by apply D2|right; lia]. }
    pose proof (same_groups_Inv _ _ _ _ _ E HI) as HI6.
    destruct (apply22IfBetter_spec _ _ _ _ _ _ _ _ _ _ _ _ HI6 Hdeg Ha) as [HI7 _].
    pose proof (apply22IfBetter_perm _ _ _ _ _ _ _ _ _ HI6 Hdeg Ha) as HP7.
    destruct applied.
    + intros [= <- <-]. by eapply same_groups_samePartition.
    + intros H. eapply same_groups_samePartition; [exact E|].
      eapply samePartition_trans; [exact HP7|]. by eapply IH.
Qed.

Lemma iterateStochastic_perm options st b st' :
  tracked items groups groupSize st ->
  iterateStochastic fp items groups groupSize options st = Ok (b, st') -> samePartition st st'.
Proof.
  intros HI. unfold iterateStochastic.
  destruct (if enable11 options then _ else _) as [[found1 s1]|] eqn:E1; [|discriminate].
  assert (H1 : tracked items groups groupSize s1 ∧ samePartition st s1).
  { destruct (enable11 options).
    - split; [by eapply try11_spec|by eapply try11_perm].
    - injection E1 as <- <-. split; [done|apply samePartition_refl]. }
  cbn [mbind Result_bind bind]. destruct H1 as [HI1 HP1].
  destruct found1; [by intros [= <- <-]|].
  destruct (if enable22 options then _ else _) as [[found2 s2]|] eqn:E2; [|discriminate].
  cbn [mbind Result_bind bind]. intros [= <- <-].
  destruct (enable22 options).
  - eapply samePartition_trans; [exact HP1|]. by eapply try22_perm.
  - injection E2 as <- <-. exact HP1.
Qed.

Lemma loop_perm options fuel iterations st n st' :
  tracked items groups groupSize st ->
  loop fp items groups groupSize options fuel iterations st = Ok (n, st') ->
  samePartition st st'.
Proof.
  revert iterations st. induction fuel as [|fuel IH]; intros iterations st HI; cbn [loop].
  - intros [= <- <-]. apply samePartition_refl.
  - destruct (match strategy options with best => _ | stochastic => _ end)
      as [[improved st1]|] eqn:E; [|discriminate].
    assert (H1 : tracked items groups groupSize st1 ∧ samePartition st st1).
    { destruct (strategy options).
      - split; [by eapply iterateBest_spec|by eapply iterateBest_perm].
      - split; [by eapply iterateStochastic_spec|by eapply iterateStochastic_perm]. }
    cbn [mbind Result_bind bind]. destruct H1 as [HI1 HP1]. destruct improved.
    + intros H. eapply samePartition_trans; [exact HP1|]. by eapply IH.
    + by intros [= <- <-].
Qed.

End WithDoubles.
End LocalRefinePartition.

(** X18.  Whatever [localRefine] returns, in either mode, holds the same item
    indices as its input grouping, in the same number of groups; equal group
    sizes and validity under [validateGrouping] are preserved. *)
Theorem localRefine_keeps_partition (fp : Doubles) (items : list Item) (gbi : list (list Z))
    (options : LocalRefine.LocalRefineOptions) (r : LocalRefine.LocalRefineResult)
    (groupSize : nat) :
  LocalRefine.localRefine fp items gbi options = Ok r ->
  concat (LocalRefine.groupsByIndex r) ≡ₚ concat gbi
  ∧ length (LocalRefine.groupsByIndex r) = length gbi
  ∧ (Forall (fun group => length group = groupSize) gbi ->
     Forall (fun group => length group = groupSize) (LocalRefine.groupsByIndex r))
  ∧ (Evaluate.validateGrouping items gbi groupSize = true ->
     Evaluate.validateGrouping items (LocalRefine.groupsByIndex r) groupSize = true).
Proof.
  unfold LocalRefine.localRefine.
  destruct (forallb _ (drop 1 gbi)) eqn:Hsz; cbn [negb]; [|discriminate].
  destruct (Evaluate.sumGroups items gbi) as [before|] eqn:Hs; [|discriminate].
  cbn [mbind Result_bind bind].
  destruct (LocalRefine.loop _ _ _ _ _ _ _ _) as [[n st]|] eqn:Hl; [|discriminate].
  cbn [mbind Result_bind bind mret Result_ret]. intros [= <-].
  cbn [LocalRefine.groupsByIndex].
  set (st0 := LocalRefine.mkState gbi before _ _) in Hl.
  assert (tracked items (length gbi) (default 0%nat (length <$> gbi !! 0%nat)) st0) as HI.
  { split; [exact Hs|]. split; [reflexivity|]. by apply equal_sizes. }
  destruct (loop_spec _ _ _ _ _ _ _ _ _ _ HI Hl) as [(_ & Hlen & Hsizes) _].
  pose proof (loop_perm _ _ _ _ _ _ _ _ _ _ HI Hl) as Hp. unfold samePartition in Hp.
  cbn [LocalRefine.st_groupsByIndex st0] in Hp.
  assert (Hkeep : Forall (fun group => length group = groupSize) gbi ->
                  Forall (fun group => length group = groupSize) (LocalRefine.st_groupsByIndex st)).
  { intros HF. destruct gbi as [|first rest].
    - apply length_zero_iff_nil in Hlen. rewrite Hlen. constructor.
    - apply Forall_cons in HF as [<- _]. exact Hsizes. }
  split; [exact Hp|]. split; [exact Hlen|]. split; [exact Hkeep|].
  intros Hv. apply validateGrouping_partition in Hv as [HF Hperm].
  apply validateGrouping_intro; [by apply Hkeep|]. by rewrite Hp.
Qed.

Lemma localRefine_keeps_partition_witness :
  ∃ r, LocalRefine.localRefine exactDoubles (fromCapacities [15; 14; 10; 8; 4; 3])
         [[0; 3; 5]; [1; 2; 4]] (LocalRefine.mkOptions 50 LocalRefine.stochastic true true (Some 7))
       = Ok r
  ∧ concat (LocalRefine.groupsByIndex r) ≡ₚ concat [[0; 3; 5]; [1; 2; 4]]
  ∧ length (LocalRefine.groupsByIndex r) = length [[0; 3; 5]; [1; 2; 4]]
  ∧ (Forall (fun group => length group = 3%nat) [[0; 3; 5]; [1; 2; 4]] ->
     Forall (fun group => length group = 3%nat) (LocalRefine.groupsByIndex r))
  ∧ (Evaluate.validateGrouping (fromCapacities [15; 14; 10; 8; 4; 3]) [[0; 3; 5]; [1; 2; 4]] 3
     = true ->
     Evaluate.validateGrouping (fromCapacities [15; 14; 10; 8; 4; 3])
       (LocalRefine.groupsByIndex r) 3 = true).
Proof.
  destruct (LocalRefine.localRefine exactDoubles (fromCapacities [15; 14; 10; 8; 4; 3])
              [[0; 3; 5]; [1; 2; 4]]
              (LocalRefine.mkOptions 50 LocalRefine.stochastic true true (Some 7)))
    as [r|e] eqn:E; [|vm_compute in E; discriminate].
  exists r. split; [reflexivity|].
  exact (localRefine_keeps_partition exactDoubles (fromCapacities [15; 14; 10; 8; 4; 3])
           [[0; 3; 5]; [1; 2; 4]]
           (LocalRefine.mkOptions 50 LocalRefine.stochastic true true (Some 7)) r 3 E).
Defined.

(** ** Local refinement on items of exact arithmetic *)

Lemma localRefine_perm fp items gbi options r :
  LocalRefine.localRefine fp items gbi options = Ok r ->
  concat (LocalRefine.groupsByIndex r) ≡ₚ concat gbi.
Proof.
  unfold LocalRefine.localRefine.
  destruct (forallb _ (drop 1 gbi)) eqn:Hsz; cbn [negb]; [|discriminate].
  destruct (Evaluate.sumGroups items gbi) as [before|] eqn:Hs; [|discriminate].
  cbn [mbind Result_bind bind].
  destruct (LocalRefine.loop _ _ _ _ _ _ _ _) as [[n st]|] eqn:Hl; [|discriminate].
  cbn [mbind Result_bind bind mret Result_ret]. intros [= <-].
  cbn [LocalRefine.groupsByIndex].
  set (st0 := LocalRefine.mkState gbi before _ _) in Hl.
  assert (tracked items (length gbi) (default 0%nat (length <$> gbi !! 0%nat)) st0) as HI.
  { split; [exact Hs|]. split; [reflexivity|]. by apply equal_sizes. }
  exact (loop_perm _ _ _ _ _ _ _ _ _ _ HI Hl).
Qed.

(** X23.  On items of exact arithmetic, for a grouping that [validateGrouping]
    accepts (its sums are [before]), whatever [localRefine] returns, with
    either strategy and any iteration cap, carries the sums of the groups it
    returns, which are safe integers, and a delta that is not larger than
    the delta of the input grouping; and with the 'best' strategy
    [localRefine] does return. *)
Theorem localRefine_exact_never_increases_delta fp items gbi options groupSize before :
  exactItems items = true ->
  Evaluate.validateGrouping items gbi groupSize = true ->
  Evaluate.sumGroups items gbi = Ok before ->
  (∀ r, LocalRefine.localRefine fp items gbi options = Ok r ->
        Evaluate.sumGroups items (LocalRefine.groupsByIndex r) = Ok (LocalRefine.groupSums r)
        ∧ safeSums (LocalRefine.groupSums r)
        ∧ xleb (deltaOf (LocalRefine.groupSums r)) (deltaOf before) = true)
  ∧ (LocalRefine.strategy options = LocalRefine.best ->
     ∃ r, LocalRefine.localRefine fp items gbi options = Ok r).
Proof.
  intros He Hv Hs. pose proof (validateGrouping_partition _ _ _ Hv) as [Hsz Hperm]. split.
  - intros r Hr. pose proof (localRefine_perm _ _ _ _ _ Hr) as Hp.
    apply localRefine_spec in Hr as (before' & Hb & Hsums & Hle).
    rewrite Hs in Hb. injection Hb as <-. split; [done|]. split; [|done].
    eapply exactItems_sums; [exact He|exact Hsums|]. by rewrite Hp.
  - intros Hbest. eapply localRefine_best_returns; [|exact Hs|exact Hbest].
    by eapply equal_sizes_check.
Qed.

(** The grouping [[0,3,5],[1,2,4]] over capacities [15,14,10,8,4,3] has
    delta 2; the refinement returns a grouping of delta at most 2. *)
Lemma localRefine_exact_never_increases_delta_witness :
  (∀ r, LocalRefine.localRefine exactDoubles (fromCapacities [15; 14; 10; 8; 4; 3])
          [[0; 3; 5]; [1; 2; 4]] LocalRefine.defaultOptions = Ok r ->
        Evaluate.sumGroups (fromCapacities [15; 14; 10; 8; 4; 3]) (LocalRefine.groupsByIndex r)
          = Ok (LocalRefine.groupSums r)
        ∧ safeSums (LocalRefine.groupSums r)
        ∧ xleb (deltaOf (LocalRefine.groupSums r)) (Fin 2) = true)
  ∧ ∃ r, LocalRefine.localRefine exactDoubles (fromCapacities [15; 14; 10; 8; 4; 3])
           [[0; 3; 5]; [1; 2; 4]] LocalRefine.defaultOptions = Ok r.
Proof.
  destruct (localRefine_exact_never_increases_delta exactDoubles
              (fromCapacities [15; 14; 10; 8; 4; 3]) [[0; 3; 5]; [1; 2; 4]]
              LocalRefine.defaultOptions 3%nat [26; 28]) as [H1 H2].
  - reflexivity.
  - reflexivity.
  - reflexivity.
  - split; [exact H1|exact (H2 eq_refl)].
Defined.


(** ** The refinement of LPT *)

Section LptRefinement.
Context (items : list Item) (groupSize : nat).
Import LPT.
Local Open Scope nat_scope.

Lemma refines_refl st : refines st st.
Proof. split; [reflexivity|]. split; [reflexivity|]. apply xleb_refl_deltaOf. Qed.

Lemma refines_trans st1 st2 st3 : refines st1 st2 -> refines st2 st3 -> refines st1 st3.
Proof.
  intros (P1 & L1 & D1) (P2 & L2 & D2). split; [by rewrite P2|]. split; [congruence|].
  by eapply xleb_trans.
Qed.

Lemma consistent_lengths byId byIndex sums :
  consistent items byId byIndex sums ->
  length byId = length byIndex ∧ length sums = length byIndex.
Proof.
  intros [Hs Hi]. split.
  - apply (f_equal length) in Hi. unfold idsOf in Hi. by rewrite !length_fmap in Hi.
  - by eapply sumGroups_length.
Qed.

(** reading position [(g, i)] of a consistent grouping *)
Lemma member_consistent byId byIndex sums g i group :
  consistent items byId byIndex sums ->
  byIndex !! g = Some group -> i < length group ->
  ∃ idx it, group !! i = Some idx ∧ at_ items idx = Some it
            ∧ member items byIndex g i = Ok (idx, capacity it)
            ∧ idAt items idx = Ok (id it).
Proof.
  intros [Hs _] Hg Hi.
  destruct (lookup_lt_is_Some_2 group i Hi) as [idx I].
  destruct (sumGroups_lookup items _ _ _ _ Hs Hg) as (s & _ & Hsum).
  destruct (sumGroup_valid items _ _ _ _ _ Hsum I) as [it A].
  exists idx, it. split; [done|]. split; [done|]. split.
  - by eapply member_intro.
  - unfold idAt. by rewrite A.
Qed.

(** one write [groupsById[g][i] = items[v].id; groupsByIndex[g][i] = v] *)
Lemma setAt_consistent byId byIndex sums g i v group old it it' :
  consistent items byId byIndex sums ->
  byIndex !! g = Some group -> group !! i = Some old ->
  at_ items old = Some it -> at_ items v = Some it' ->
  consistent items (setAt byId g i (id it')) (setAt byIndex g i v)
    (<[g := (sumAt sums g - capacity it + capacity it')%Z]> sums).
Proof.
  intros [Hs Hi] Hg Hold Hat Hv. split.
  - by eapply setAt_sums.
  - unfold setAt, idsOf in *.
    rewrite (list_fmap_alter (fun group : list Id => Some <$> group) _
               (fun x => <[i := Some (id it')]> x)).
    2:{ apply Forall_forall. intros x _. by rewrite list_fmap_insert. }
    rewrite (list_fmap_alter
               (fun group : list Z => (fun idx => id <$> at_ items idx) <$> group) _
               (fun x => <[i := Some (id it')]> x)).
    2:{ apply Forall_forall. intros x _. rewrite list_fmap_insert. by rewrite Hv. }
    by rewrite Hi.
Qed.

(** the positions that the scans of the refinement visit *)
Lemma elem_of_lpt_scan11 st g1 i1 g2 i2 :
  length (st_groupsById st) = length (st_groupsByIndex st) ->
  (g1, i1, g2, i2) ∈ scan11 st ->
  g1 ≠ g2 ∧ ∃ group1 group2,
    st_groupsByIndex st !! g1 = Some group1 ∧ st_groupsByIndex st !! g2 = Some group2
    ∧ i1 < length group1 ∧ i2 < length group2.
Proof.
  intros Hlen. unfold scan11. intros H.
  apply list_elem_of_bind in H as (a & H & Ha).
  apply list_elem_of_bind in H as (b & H & Hb).
  apply list_elem_of_bind in H as (c & H & Hc).
  apply list_elem_of_bind in H as (e & H & He).
  apply list_elem_of_singleton in H as [= -> -> -> ->].
  apply elem_of_seq in Ha, Hb, Hc, He.
  destruct (lookup_lt_is_Some_2 (st_groupsByIndex st) a ltac:(lia)) as [group1 G1].
  destruct (lookup_lt_is_Some_2 (st_groupsByIndex st) b ltac:(lia)) as [group2 G2].
  rewrite G1 in Hc. rewrite G2 in He. cbn in Hc, He.
  split; [lia|]. exists group1, group2. repeat split; try done; lia.
Qed.

Lemma elem_of_lpt_scan22 st g1 i1a i1b g2 i2a i2b :
  length (st_groupsById st) = length (st_groupsByIndex st) ->
  (g1, i1a, i1b, g2, i2a, i2b) ∈ scan22 st ->
  g1 ≠ g2 ∧ i1a ≠ i1b ∧ i2a ≠ i2b ∧ ∃ group1 group2,
    st_groupsByIndex st !! g1 = Some group1 ∧ st_groupsByIndex st !! g2 = Some group2
    ∧ i1a < length group1 ∧ i1b < length group1 ∧ i2a < length group2 ∧ i2b < length group2.
Proof.
  intros Hlen. unfold scan22. intros H.
  apply list_elem_of_bind in H as (a & H & Ha).
  apply list_elem_of_bind in H as (b & H & Hb).
  apply elem_of_seq in Ha, Hb.
  destruct (lookup_lt_is_Some_2 (st_groupsByIndex st) a ltac:(lia)) as [group1 G1].
  destruct (lookup_lt_is_Some_2 (st_groupsByIndex st) b ltac:(lia)) as [group2 G2].
  rewrite G1, G2 in H. cbn [default] in H.
  destruct (MAX_22_COMBINATIONS <? _)%Z; [by inversion H|].
  apply list_elem_of_bind in H as (c & H & Hc).
  apply list_elem_of_bind in H as (d & H & Hd).
  apply list_elem_of_bind in H as (e & H & He).
  apply list_elem_of_bind in H as (f & H & Hf).
  apply list_elem_of_singleton in H as [= -> -> -> -> -> ->].
  apply elem_of_seq in Hc, Hd, He, Hf. unfold Datatypes.id in *.
  split; [lia|]. split; [lia|]. split; [clear - Hf; lia|].
  exists group1, group2. repeat split; try done; lia.
Qed.

Lemma try11Swaps_spec st candidates :
  refining items groupSize st ->
  Forall (fun '(g1, i1, g2, i2) =>
            g1 ≠ g2 ∧ ∃ group1 group2,
              st_groupsByIndex st !! g1 = Some group1 ∧ st_groupsByIndex st !! g2 = Some group2
              ∧ i1 < length group1 ∧ i2 < length group2) candidates ->
  ∃ res, try11Swaps items st candidates = Ok res
         ∧ ∀ st', res = Some st' ->
             refining items groupSize st' ∧ refines st st'
             ∧ xltb (deltaOf (st_groupSums st')) (deltaOf (st_groupSums st)) = true.
Proof.
  intros [Hc Hsz] Hall.
  induction Hall as [|[[[g1 i1] g2] i2] rest (Hne & group1 & group2 & G1 & G2 & L1 & L2) _ IH].
  - exists None. split; [done|]. by intros st' [=].
  - cbn [try11Swaps].
    destruct (member_consistent _ _ _ g1 i1 group1 Hc G1 L1) as (idx1 & it1 & I1 & A1 & M1 & D1).
    destruct (member_consistent _ _ _ g2 i2 group2 Hc G2 L2) as (idx2 & it2 & I2 & A2 & M2 & D2).
    rewrite M1. cbn [mbind Result_bind bind]. rewrite M2. cbn [mbind Result_bind bind].
    destruct (xltb _ _) eqn:Hlt; [|exact IH].
    rewrite D1. cbn [mbind Result_bind bind]. rewrite D2.
    cbn [mbind Result_bind bind mret Result_ret].
    eexists. split; [reflexivity|]. intros st' [= <-].
    cbn [st_groupsById st_groupsByIndex st_groupSums].
    pose proof (setAt_consistent _ _ _ g1 i1 idx2 _ _ _ _ Hc G1 I1 A1 A2) as C1.
    assert (G2' : setAt (st_groupsByIndex st) g1 i1 idx2 !! g2 = Some group2)
      by (by rewrite setAt_lookup_ne).
    pose proof (setAt_consistent _ _ _ g2 i2 idx1 _ _ _ _ C1 G2' I2 A2 A1) as C2.
    unfold sumAt at 1 in C2. rewrite list_lookup_insert_ne in C2 by done.
    fold (sumAt (st_groupSums st) g2) in C2.
    split; [split; [exact C2|by do 2 apply setAt_sizes]|]. split; [|exact Hlt].
    unfold refines. cbn [st_groupsById st_groupsByIndex st_groupSums].
    split; [|split].
    + pose proof (setAt_perm _ g1 i1 idx2 _ _ G1 I1) as P1.
      pose proof (setAt_perm _ g2 i2 idx1 _ _ G2' I2) as P2.
      symmetry. apply (Permutation_cons_inv (a := idx2)). by rewrite P1, P2.
    + unfold setAt. by rewrite !length_alter.
    + by apply xltb_xleb.
Qed.

Lemma try22Swaps_spec st candidates :
  refining items groupSize st ->
  Forall (fun '(g1, i1a, i1b, g2, i2a, i2b) =>
            g1 ≠ g2 ∧ i1a ≠ i1b ∧ i2a ≠ i2b ∧ ∃ group1 group2,
              st_groupsByIndex st !! g1 = Some group1 ∧ st_groupsByIndex st !! g2 = Some group2
              ∧ i1a < length group1 ∧ i1b < length group1
              ∧ i2a < length group2 ∧ i2b < length group2) candidates ->
  ∃ res, try22Swaps items st candidates = Ok res
         ∧ ∀ st', res = Some st' ->
             refining items groupSize st' ∧ refines st st'
             ∧ xltb (deltaOf (st_groupSums st')) (deltaOf (st_groupSums st)) = true.
Proof.
  intros [Hc Hsz] Hall.
  induction Hall as [|[[[[[g1 i1a] i1b] g2] i2a] i2b] rest
                       (Hne & Hi1 & Hi2 & group1 & group2 & G1 & G2 & L1a & L1b & L2a & L2b)
                       _ IH].
  - exists None. split; [done|]. by intros st' [=].
  - cbn [try22Swaps].
    destruct (member_consistent _ _ _ g1 i1a group1 Hc G1 L1a)
      as (idx1a & it1a & I1a & A1a & M1a & D1a).
    destruct (member_consistent _ _ _ g1 i1b group1 Hc G1 L1b)
      as (idx1b & it1b & I1b & A1b & M1b & D1b).
    destruct (member_consistent _ _ _ g2 i2a group2 Hc G2 L2a)
      as (idx2a & it2a & I2a & A2a & M2a & D2a).
    destruct (member_consistent _ _ _ g2 i2b group2 Hc G2 L2b)
      as (idx2b & it2b & I2b & A2b & M2b & D2b).
    rewrite M1a. cbn [mbind Result_bind bind]. rewrite M1b. cbn [mbind Result_bind bind].
    rewrite M2a. cbn [mbind Result_bind bind]. rewrite M2b. cbn [mbind Result_bind bind].
    destruct (xltb _ _) eqn:Hlt; [|exact IH].
    rewrite D1a. cbn [mbind Result_bind bind]. rewrite D1b. cbn [mbind Result_bind bind].
    rewrite D2a. cbn [mbind Result_bind bind]. rewrite D2b.
    cbn [mbind Result_bind bind mret Result_ret].
    eexists. split; [reflexivity|]. intros st' [= <-].
    cbn [st_groupsById st_groupsByIndex st_groupSums].
    set (gbi0 := st_groupsByIndex st) in *. set (sums0 := st_groupSums st) in *.
    pose proof (proj2 (consistent_lengths _ _ _ Hc)) as Hlen.
    pose proof (lookup_lt_Some _ _ _ G1) as LG1. pose proof (lookup_lt_Some _ _ _ G2) as LG2.
    pose proof (setAt_consistent _ _ _ g1 i1a idx2a _ _ _ _ Hc G1 I1a A1a A2a) as C1.
    pose proof (setAt_lookup_eq gbi0 g1 i1a idx2a _ G1) as G11.
    assert (I1b' : <[i1a := idx2a]> group1 !! i1b = Some idx1b)
      by (by rewrite list_lookup_insert_ne).
    pose proof (setAt_consistent _ _ _ g1 i1b idx2b _ _ _ _ C1 G11 I1b' A1b A2b) as C2.
    unfold sumAt at 1 in C2. rewrite list_lookup_insert_eq in C2 by lia. cbn [default] in C2.
    rewrite list_insert_insert_eq in C2.
    assert (G22 : setAt (setAt gbi0 g1 i1a idx2a) g1 i1b idx2b !! g2 = Some group2)
      by (by rewrite !setAt_lookup_ne).
    pose proof (setAt_consistent _ _ _ g2 i2a idx1a _ _ _ _ C2 G22 I2a A2a A1a) as C3.
    unfold sumAt at 1 in C3. rewrite list_lookup_insert_ne in C3 by done.
    fold (sumAt sums0 g2) in C3.
    pose proof (setAt_lookup_eq _ g2 i2a idx1a _ G22) as G23.
    assert (I2b' : <[i2a := idx1a]> group2 !! i2b = Some idx2b)
      by (by rewrite list_lookup_insert_ne).
    pose proof (setAt_consistent _ _ _ g2 i2b idx1b _ _ _ _ C3 G23 I2b' A2b A1b) as C4.
    unfold sumAt at 1 in C4. rewrite list_lookup_insert_eq in C4
      by (rewrite length_insert; lia).
    cbn [default] in C4. rewrite list_insert_insert_eq in C4.
    split; [split; [|by do 4 apply setAt_sizes]|]; [|split; [|exact Hlt]].
    + unfold Datatypes.id in C4.
      replace (<[g2 := _]> (<[g1 := _]> sums0))
        with (<[g2 := (sumAt sums0 g2 - capacity it2a + capacity it1a - capacity it2b
                       + capacity it1b)%Z]>
                (<[g1 := (sumAt sums0 g1 - capacity it1a + capacity it2a - capacity it1b
                          + capacity it2b)%Z]> sums0)); [exact C4|].
      f_equal; [lia|]. f_equal. lia.
    + unfold refines. cbn [st_groupsById st_groupsByIndex st_groupSums].
      fold gbi0 sums0. split; [|split].
      * pose proof (setAt_perm _ g1 i1a idx2a _ _ G1 I1a) as P1.
        pose proof (setAt_perm _ g1 i1b idx2b _ _ G11 I1b') as P2.
        pose proof (setAt_perm _ g2 i2a idx1a _ _ G22 I2a) as P3.
        pose proof (setAt_perm _ g2 i2b idx1b _ _ G23 I2b') as P4.
        apply (Permutation_cons_inv (a := idx2b)), (Permutation_cons_inv (a := idx2a)).
        rewrite <- P4. rewrite (perm_swap idx1b idx2a), <- P3.
        rewrite (perm_swap idx1a idx1b), <- P2.
        rewrite (perm_swap idx2b idx1a), <- P1. apply perm_swap.
      * unfold setAt. by rewrite !length_alter.
      * by apply xltb_xleb.
Qed.

Lemma performLocalRefinement_spec fuel : ∀ iterations st,
  refining items groupSize st ->
  ∃ n st', performLocalRefinement items fuel iterations st = Ok (n, st')
           ∧ n ≤ iterations + fuel
           ∧ refining items groupSize st' ∧ refines st st'.
Proof.
  induction fuel as [|fuel IH]; intros iterations st HR; cbn [performLocalRefinement].
  - exists iterations, st. split; [done|]. split; [lia|]. split; [done|apply refines_refl].
  - pose proof (proj1 (consistent_lengths _ _ _ (proj1 HR))) as Hlen.
    destruct (try11Swaps_spec st (scan11 st) HR) as (res1 & -> & H1).
    { apply Forall_forall. intros [[[g1 i1] g2] i2] Hx. by apply elem_of_lpt_scan11. }
    cbn [mbind Result_bind bind]. destruct res1 as [st1|].
    + destruct (H1 st1 eq_refl) as (HR1 & Hr1 & _).
      destruct (IH (S iterations) st1 HR1) as (n & st' & E & Hn & HR' & Hr').
      exists n, st'. split; [exact E|]. split; [lia|]. split; [exact HR'|].
      by eapply refines_trans.
    + destruct (try22Swaps_spec st (scan22 st) HR) as (res2 & -> & H2).
      { apply Forall_forall. intros [[[[[g1 i1a] i1b] g2] i2a] i2b] Hx.
        by apply elem_of_lpt_scan22. }
      cbn [mbind Result_bind bind]. destruct res2 as [st2|].
      * destruct (H2 st2 eq_refl) as (HR2 & Hr2 & _).
        destruct (IH (S iterations) st2 HR2) as (n & st' & E & Hn & HR' & Hr').
        exists n, st'. split; [exact E|]. split; [lia|]. split; [exact HR'|].
        by eapply refines_trans.
      * exists (S iterations), st. split; [done|]. split; [lia|].
        split; [done|apply refines_refl].
Qed.

Lemma refinementRoundsLoop_spec rounds roundIters : ∀ iterations st,
  refining items groupSize st ->
  ∃ n st', refinementRoundsLoop items rounds roundIters iterations st = Ok (n, st')
           ∧ n ≤ iterations + rounds * roundIters
           ∧ refining items groupSize st' ∧ refines st st'.
Proof.
  induction rounds as [|rounds IH]; intros iterations st HR; cbn [refinementRoundsLoop].
  - exists iterations, st. split; [done|]. split; [lia|]. split; [done|apply refines_refl].
  - destruct (performLocalRefinement_spec roundIters 0 st HR)
      as (n1 & st1 & -> & Hn1 & HR1 & Hr1).
    cbn [mbind Result_bind bind].
    destruct (IH (iterations + n1) st1 HR1) as (n & st' & E & Hn & HR' & Hr').
    exists n, st'. split; [exact E|]. split; [lia|]. split; [exact HR'|].
    by eapply refines_trans.
Qed.

Lemma refining_valid st :
  refining items groupSize st ->
  concat (st_groupsByIndex st) ≡ₚ Z.of_nat <$> seq 0 (length items) ->
  Evaluate.validateGrouping items (st_groupsByIndex st) groupSize = true.
Proof. intros [_ Hsz] Hp. by apply validateGrouping_intro. Qed.

Lemma greedy_refining groups :
  0 < groups -> length items = groups * groupSize ->
  ∃ st, greedy items groups groupSize = Ok st
        ∧ refining items groupSize st
        ∧ length (st_groupsByIndex st) = groups
        ∧ concat (st_groupsByIndex st) ≡ₚ Z.of_nat <$> seq 0 (length items).
Proof.
  intros Hk HT. unfold greedy.
  set (indexedItems := sortBy _ (indexed items)).
  assert (indexedItems ≡ₚ indexed items) as Hsorted by apply sort_perm.
  assert (length indexedItems = length items) as Hlen.
  { rewrite Hsorted. unfold indexed. apply length_imap. }
  edestruct (greedy_spec items groups groupSize indexedItems (indexed_at items _ Hsorted)
               (mkState (emptyGroups groups) (emptyGroups groups) (zeros groups))
               (replicate groups 0%nat))
    as (st & counts & E & Hf & P).
  - apply empty_filling.
  - cbn. rewrite concat_emptyGroups. cbn. lia.
  - rewrite E. cbn [mbind Result_bind bind mret Result_ret fst]. exists st.
    split; [reflexivity|].
    cbn [st_groupsByIndex] in P.
    rewrite concat_emptyGroups in P. cbn [app] in P. rewrite Hsorted, indexed_indices in P.
    destruct Hf as (L & Hc & _ & Hle).
    split; [split; [done|]|done].
    apply all_full; [done|]. rewrite P, length_fmap, length_seq. lia.
Qed.

End LptRefinement.

(** [lpt]: the greedy phase, then the refinement, which only swaps members *)
Lemma lpt_spec (items : list Item) (groups groupSize : nat)
    (options : LPT.Options) :
  (0 < groups)%nat -> length items = (groups * groupSize)%nat ->
  ∃ g greedy n,
    LPT.lpt items groups groupSize options = Ok g
    ∧ LPT.lptPartition items groups groupSize false 100 = Ok greedy
    ∧ Evaluate.validateGrouping items (groupsByIndex g) groupSize = true
    ∧ length (groupsByIndex g) = groups
    ∧ consistent items (groupsById g) (groupsByIndex g) (groupSums g)
    ∧ delta g = deltaOf (groupSums g)
    ∧ xleb (delta g) (delta greedy) = true
    ∧ iterations g = Some n
    ∧ (n ≤ 1 + Z.to_nat (LPT.maxRefinementIters options))%nat.
Proof.
  intros Hk HT.
  destruct (greedy_refining items groupSize groups Hk HT) as (st0 & E0 & HR0 & L0 & P0).
  assert (Hfinish : ∀ st, refining items groupSize st -> refines st0 st ->
            Evaluate.validateGrouping items (LPT.st_groupsByIndex st) groupSize = true
            ∧ length (LPT.st_groupsByIndex st) = groups
            ∧ consistent items (LPT.st_groupsById st) (LPT.st_groupsByIndex st)
                (LPT.st_groupSums st)
            ∧ xleb (deltaOf (LPT.st_groupSums st)) (deltaOf (LPT.st_groupSums st0)) = true).
  { intros st HR (Hp & Hl & Hd). split; [|split; [congruence|split; [apply HR|done]]].
    apply refining_valid; [done|]. by rewrite Hp. }
  assert (Egreedy : LPT.lptPartition items groups groupSize false 100
                    = Ok (mkGrouping (LPT.st_groupsById st0) (LPT.st_groupsByIndex st0)
                            (LPT.st_groupSums st0) (deltaOf (LPT.st_groupSums st0))
                            (Some 1%nat) "lpt")).
  { unfold LPT.lptPartition. rewrite E0. reflexivity. }
  unfold LPT.lpt. destruct options as [useRefinement maxIters useAdvanced].
  cbn [LPT.useAdvanced LPT.useRefinement LPT.maxRefinementIters].
  destruct useAdvanced.
  - unfold LPT.advancedLptPartition. rewrite Egreedy.
    cbn [mbind Result_bind bind groupsById groupsByIndex groupSums].
    replace (LPT.mkState (LPT.st_groupsById st0) (LPT.st_groupsByIndex st0)
               (LPT.st_groupSums st0)) with st0 by (by destruct st0).
    destruct useRefinement.
    + destruct (refinementRoundsLoop_spec items groupSize
                  (Z.to_nat (Z.min 3 ((maxIters + 49) / 50)))
                  (Z.to_nat (maxIters / Z.min 3 ((maxIters + 49) / 50))) 1%nat st0 HR0)
        as (n & st & -> & Hn & HR & Hr).
      cbn [mbind Result_bind bind mret Result_ret].
      destruct (Hfinish st HR Hr) as (V & L & C & D).
      eexists _, _, n. split; [reflexivity|]. split; [reflexivity|].
      cbn [groupsById groupsByIndex groupSums delta iterations].
      repeat (split; [done|]).
      assert ((Z.to_nat (Z.min 3 ((maxIters + 49) / 50))
               * Z.to_nat (maxIters / Z.min 3 ((maxIters + 49) / 50)) ≤ Z.to_nat maxIters)%nat)
        as Hb; [|lia].
      destruct (Z_le_gt_dec (Z.min 3 ((maxIters + 49) / 50)) 0) as [Hz|Hz].
      { replace (Z.to_nat (Z.min 3 ((maxIters + 49) / 50))) with 0%nat by lia. lia. }
      assert (0 <= maxIters)%Z as Hm.
      { destruct (Z_lt_le_dec maxIters 0) as [Hneg|]; [|done].
        assert ((maxIters + 49) / 50 <= 0)%Z; [|lia].
        apply Z.lt_succ_r. apply Z.div_lt_upper_bound; lia. }
      rewrite <- Z2Nat.inj_mul by (try apply Z.div_pos; lia).
      apply Z2Nat.inj_le; [apply Z.mul_nonneg_nonneg; [lia|apply Z.div_pos; lia]|lia|].
      apply Z.mul_div_le. lia.
    + cbn [mbind Result_bind bind mret Result_ret].
      destruct (Hfinish st0 HR0 (refines_refl st0)) as (V & L & C & D).
      eexists _, _, 1%nat. split; [reflexivity|]. split; [reflexivity|].
      cbn [groupsById groupsByIndex groupSums delta iterations].
      repeat (split; [done|]). lia.
  - unfold LPT.lptPartition at 1. rewrite E0. cbn [mbind Result_bind bind].
    destruct (useRefinement && _ && _).
    + destruct (performLocalRefinement_spec items groupSize (Z.to_nat maxIters) 0%nat st0 HR0)
        as (n & st & -> & Hn & HR & Hr).
      cbn [mbind Result_bind bind mret Result_ret rethrow].
      destruct (Hfinish st HR Hr) as (V & L & C & D).
      eexists _, _, (1 + n)%nat. split; [reflexivity|]. split; [exact Egreedy|].
      cbn [groupsById groupsByIndex groupSums delta iterations].
      repeat (split; [done|]). lia.
    + cbn [mbind Result_bind bind mret Result_ret rethrow].
      destruct (Hfinish st0 HR0 (refines_refl st0)) as (V & L & C & D).
      eexists _, _, 1%nat. split; [reflexivity|]. split; [exact Egreedy|].
      cbn [groupsById groupsByIndex groupSums delta iterations].
      repeat (split; [done|]). lia.
Qed.

(** X19.  On items of exact arithmetic, for [groups > 0] and
    [items.length = groups * groupSize], [lpt] returns under every option
    setting (plain, refined, advanced): the result passes [validateGrouping],
    its ids, sums and delta are consistent, the sums are safe integers, its
    delta is never larger than that of the greedy phase alone, and its
    iteration count is at most [1 + maxRefinementIters]. *)
Theorem lpt_refines_greedy (items : list Item) (groups groupSize : nat)
    (options : LPT.Options) :
  exactItems items = true ->
  (0 < groups)%nat -> length items = (groups * groupSize)%nat ->
  ∃ g greedy n,
    LPT.lpt items groups groupSize options = Ok g
    ∧ LPT.lptPartition items groups groupSize false 100 = Ok greedy
    ∧ Evaluate.validateGrouping items (groupsByIndex g) groupSize = true
    ∧ length (groupsByIndex g) = groups
    ∧ consistent items (groupsById g) (groupsByIndex g) (groupSums g)
    ∧ safeSums (groupSums g)
    ∧ delta g = deltaOf (groupSums g)
    ∧ xleb (delta g) (delta greedy) = true
    ∧ iterations g = Some n
    ∧ (n ≤ 1 + Z.to_nat (LPT.maxRefinementIters options))%nat.
Proof.
  intros He Hk HT.
  destruct (lpt_spec items groups groupSize options Hk HT)
    as (g & greedy & n & E & Eg & Hv & L & Hc & Hd & Hle & Hi & Hn).
  exists g, greedy, n. repeat (split; [done|]). split; [|done].
  eapply exactItems_valid; [exact He|exact Hv|apply Hc].
Qed.

Lemma lpt_refines_greedy_witness :
  ∃ g greedy n,
    LPT.lpt (fromCapacities [10; 9; 8; 7; 2; 1]) 2 3 LPT.defaultOptions = Ok g
    ∧ LPT.lptPartition (fromCapacities [10; 9; 8; 7; 2; 1]) 2 3 false 100 = Ok greedy
    ∧ Evaluate.validateGrouping (fromCapacities [10; 9; 8; 7; 2; 1]) (groupsByIndex g) 3 = true
    ∧ length (groupsByIndex g) = 2%nat
    ∧ consistent (fromCapacities [10; 9; 8; 7; 2; 1]) (groupsById g) (groupsByIndex g)
        (groupSums g)
    ∧ safeSums (groupSums g)
    ∧ delta g = deltaOf (groupSums g)
    ∧ xleb (delta g) (delta greedy) = true
    ∧ iterations g = Some n
    ∧ (n ≤ 1 + Z.to_nat (LPT.maxRefinementIters LPT.defaultOptions))%nat.
Proof.
  apply (lpt_refines_greedy (fromCapacities [10; 9; 8; 7; 2; 1]) 2 3 LPT.defaultOptions);
    [reflexivity|lia|reflexivity].
Defined.

(** ** The entry point with a direct method *)

Section DirectMethods.
Context (items : list Item) (groups groupSize : nat).
Import Index.
Local Open Scope nat_scope.

Lemma scored_accepted g : accepted items groups groupSize g -> scored items groupSize g = Ok g.
Proof.
  intros (Hv & _ & [Hs _] & Hd). unfold scored. rewrite Hv. cbn [negb].
  unfold Evaluate.evaluateGroupingFastCPU. rewrite Hs. cbn [mbind Result_bind bind].
  rewrite scanSums_eq. cbn [mret Result_ret Evaluate.groupSums Evaluate.delta].
  fold (deltaOf (groupSums g)). rewrite <- Hd. by destruct g.
Qed.

Lemma roundRobinPartition_accepted :
  0 < groups -> length items = groups * groupSize ->
  ∃ g, RoundRobin.roundRobinPartition items groups groupSize = Ok g
       ∧ accepted items groups groupSize g.
Proof.
  intros Hk HT. unfold RoundRobin.roundRobinPartition.
  set (indexedItems := sortBy _ (indexed items)).
  assert (indexedItems ≡ₚ indexed items) as Hsorted by apply sort_perm.
  edestruct (distribute_spec items groups indexedItems Hk (indexed_at items _ Hsorted) 0%nat
               (RoundRobin.mkState (emptyGroups groups) (emptyGroups groups) (zeros groups) 0))
    as (st & E & L & Hc & LA & P).
  - cbn. by rewrite Nat.Div0.mod_0_l.
  - apply length_replicate.
  - apply empty_consistent.
  - apply empty_lengthsAt.
  - rewrite E. cbn. eexists. split; [reflexivity|]. unfold accepted. cbn.
    assert (length indexedItems = length items) as Hlen.
    { rewrite Hsorted. unfold indexed. apply length_imap. }
    assert (concat (RoundRobin.st_groupsByIndex st) ≡ₚ Z.of_nat <$> seq 0 (length items))
      as Hperm.
    { rewrite P. cbn. rewrite concat_emptyGroups. cbn. by rewrite Hsorted, indexed_indices. }
    rewrite Hlen, HT in LA. split; [|done].
    apply validateGrouping_intro; [|done]. by eapply lengthsAt_full.
Qed.

Lemma optimizedRoundRobinPartition_accepted :
  0 < groups -> length items = groups * groupSize ->
  ∃ g, RoundRobin.optimizedRoundRobinPartition items groups groupSize = Ok g
       ∧ accepted items groups groupSize g.
Proof.
  intros Hk HT. unfold RoundRobin.optimizedRoundRobinPartition.
  set (indexedItems := sortBy _ (indexed items)).
  assert (indexedItems ≡ₚ indexed items) as Hsorted by apply sort_perm.
  assert (length indexedItems = length items) as Hlen.
  { rewrite Hsorted. unfold indexed. apply length_imap. }
  edestruct (distributeOptimized_spec items groups groupSize indexedItems
               (indexed_at items _ Hsorted)
               (RoundRobin.mkOptState (emptyGroups groups) (emptyGroups groups) (zeros groups)
                  (replicate groups 0%nat)))
    as (st & E & Hf & P).
  - apply empty_filling.
  - cbn. rewrite concat_emptyGroups. cbn. lia.
  - rewrite E. cbn. eexists. split; [reflexivity|]. unfold accepted. cbn.
    cbn [RoundRobin.os_groupsByIndex] in P.
    rewrite concat_emptyGroups in P. cbn [app] in P. rewrite Hsorted, indexed_indices in P.
    split; [by eapply filling_valid|]. destruct Hf as (L & Hc & _). done.
Qed.

Lemma lpt_accepted options :
  0 < groups -> length items = groups * groupSize ->
  ∃ g, LPT.lpt items groups groupSize options = Ok g ∧ accepted items groups groupSize g.
Proof.
  intros Hk HT.
  destruct (lpt_spec items groups groupSize options Hk HT)
    as (g & _ & _ & E & _ & Hv & L & Hc & Hd & _).
  exists g. done.
Qed.

Lemma directSolver_accepted options :
  0 < groups -> length items = groups * groupSize ->
  ∃ g, directSolver items groups groupSize options = Ok g ∧ accepted items groups groupSize g.
Proof.
  intros Hk HT. unfold directSolver.
  destruct (method options) as [[]|]; try by apply lpt_accepted.
  unfold RoundRobin.roundRobin. destruct (_ || _).
  - by apply roundRobinPartition_accepted.
  - by apply optimizedRoundRobinPartition_accepted.
Qed.

End DirectMethods.

(** X20.  On items of exact arithmetic, with method ['roundrobin'] or ['lpt'],
    validated input and a cache that has not seen the items copy,
    [partitionBalanced] returns the grouping of that solver with the same
    [groupsById], [groupsByIndex], [groupSums], [delta], [iterations] and
    [methodUsed]: the result passes validation, the evaluator's sums and
    delta are those the solver tracked (safe integers), and neither recovery
    nor graceful degradation is used. *)
Theorem partitionBalanced_runs_direct_method (env : Index.Env) (items : list Item)
    (groups groupSize : nat) (options : Index.PartitionOptions) :
  exactItems items = true ->
  fresh env ->
  Validation.validatePartitionInputs items groups groupSize = Ok tt ->
  Index.validatePartitionOptions options = Ok tt ->
  Index.method options = Some Index.m_roundrobin ∨ Index.method options = Some Index.m_lpt ->
  ∃ g, fst (Index.partitionBalanced env items groups groupSize options) = Ok g
       ∧ directSolver items groups groupSize options = Ok g
       ∧ accepted items groups groupSize g
       ∧ safeSums (groupSums g).
Proof.
  intros He Hfresh Hin Hopt Hm.
  destruct (validatePartitionInputs_Ok _ _ _ Hin) as (Hk & _ & HT).
  destruct (directSolver_accepted items groups groupSize options Hk HT) as (g & E & Ha).
  exists g. split; [|split; [done|split; [done|]]].
  2:{ destruct Ha as (Hv & _ & Hc & _). eapply exactItems_valid; [exact He|exact Hv|apply Hc]. }
  eapply partitionBalanced_eval; [done| | |by eapply scored_accepted].
  - rewrite Hin. exact Hopt.
  - rewrite <- E. unfold Index.runMethod, directSolver. rewrite forceSimpler_method.
    unfold Index.forceSimpler, Index.normalizeOptions. cbn [Index.n_method].
    destruct Hm as [Hm|Hm]; rewrite Hm; cbn [default]; [reflexivity|].
    rewrite andb_false_r. reflexivity.
Qed.

Lemma partitionBalanced_runs_direct_method_witness :
  ∃ g, fst (Index.partitionBalanced idleEnv (fromCapacities [10; 9; 8; 7; 2; 1]) 2 3
              (Index.mkPartitionOptions (Some Index.m_lpt) None None None None None None None
                 None None)) = Ok g
       ∧ directSolver (fromCapacities [10; 9; 8; 7; 2; 1]) 2 3
           (Index.mkPartitionOptions (Some Index.m_lpt) None None None None None None None
              None None) = Ok g
       ∧ accepted (fromCapacities [10; 9; 8; 7; 2; 1]) 2 3 g
       ∧ safeSums (groupSums g).
Proof.
  apply (partitionBalanced_runs_direct_method idleEnv (fromCapacities [10; 9; 8; 7; 2; 1]) 2 3
           (Index.mkPartitionOptions (Some Index.m_lpt) None None None None None None None
              None None));
    [reflexivity|reflexivity|reflexivity|reflexivity|right; reflexivity].
Defined.

(** X21.  [partitionBalanced] throws exactly when [validatePartitionInputs] or
    [validatePartitionOptions] rejects the call, always with a
    [ValidationError] and with the evaluation cache as it was; in every other
    case it returns a grouping that passes [validateGrouping] and has
    [groups] groups. *)
Theorem partitionBalanced_outcome (env : Index.Env) (items : list Item) (groups groupSize : nat)
    (options : Index.PartitionOptions) :
  match Index.partitionBalanced env items groups groupSize options with
  | (Ok g, _) =>
      feasibleShape items groups groupSize ∧ narrowRange items
      ∧ Index.validatePartitionOptions options = Ok tt
      ∧ Evaluate.validateGrouping items (groupsByIndex g) groupSize = true
      ∧ length (groupsByIndex g) = groups
  | (Throw e, c) =>
      (¬ (feasibleShape items groups groupSize ∧ narrowRange items)
       ∨ Index.validatePartitionOptions options ≠ Ok tt)
      ∧ (∃ msg, e = ValidationError msg)
      ∧ c = Index.cache env
  end.
Proof.
  unfold Index.partitionBalanced.
  pose proof (validatePartitionInputs_characterised_aux items groups groupSize) as Hin.
  destruct (Validation.validatePartitionInputs items groups groupSize) as [[]|e] eqn:Ein.
  - cbn [mbind Result_bind bind].
    destruct (Index.validatePartitionOptions options) as [[]|e] eqn:Eopt.
    + rewrite ensureInputImmutability_id. cbv zeta.
      destruct (validatePartitionInputs_Ok _ _ _ Ein) as (Hk & Hgs & HT).
      edestruct (recoverOrDegrade_valid items groups groupSize) as (g & c & -> & Hv);
        [exact Hk|exact HT| |].
      * intros g c. apply attempt_valid.
      * destruct Hin as [H1 H2]. repeat (split; [done|]).
        by eapply validateGrouping_groups.
    + split; [by right|]. split; [|done].
      unfold Index.validatePartitionOptions in Eopt.
      destruct (forallb _ _); [discriminate|]. injection Eopt as <-. by eexists.
  - cbn [mbind Result_bind bind]. destruct Hin as (Hn & msg & -> & _).
    split; [by left|]. split; [by eexists|done].
Qed.

(** ** The candidates of the auto strategy *)

Section Candidates.
Import Index.

Lemma prioritizeByHistory_elem recs candidates a :
  a ∈ prioritizeByHistory recs candidates ∧ a ≠ "undefined"%string
  <-> a ∈ candidates ∧ a ≠ "undefined"%string.
Proof.
  unfold prioritizeByHistory. destruct recs as [|r recs]; [done|].
  destruct candidates as [|first rest].
  - split; intros [H Hn]; [|by inversion H].
    apply list_elem_of_singleton in H. done.
  - rewrite !elem_of_cons, sort_perm. done.
Qed.

Lemma offered_defined items options a : offered items options a -> a ≠ "undefined"%string.
Proof.
  unfold offered, determineCandidateAlgorithms. intros H ->.
  destruct (default false _), (bool_decide (length items ≤ 12)%nat),
    (bool_decide (length items ≤ 60)%nat), (300 <=? a_timeLimitMs options);
    cbn in H; repeat (apply elem_of_cons in H as [H|H]; [discriminate|]); by inversion H.
Qed.

End Candidates.

(** the candidate list after the filter and the three reorderings *)
Lemma selectCandidates_elem (env : Index.Env) (items : list Item)
    (options : Index.AutoOptions) (a : string) :
  (a ∈ Index.selectCandidates env items options ∧ a ≠ "undefined"%string
   <-> offered items options a ∧ ¬ disallowedBy options a)
  ∧ offered items options "roundrobin".
Proof.
  split.
  - unfold Index.selectCandidates.
    set (base := Index.determineCandidateAlgorithms _ _ _).
    set (filtered := match Index.a_disallowedAlgorithms options with
                     | Some (d :: ds) => _ | _ => base end).
    set (boosted := match Index.a_preferredAlgorithms options with
                    | Some (p :: ps) => _ | _ => filtered end).
    assert (Hfiltered : a ∈ filtered <-> offered items options a ∧ ¬ disallowedBy options a).
    { unfold filtered, disallowedBy, offered. fold base.
      destruct (Index.a_disallowedAlgorithms options) as [[|d ds]|].
      - split; [|by intros []]. intros H. split; [done|].
        intros (names & [= <-] & Hin). by inversion Hin.
      - rewrite list_elem_of_In, filter_In, <- list_elem_of_In.
        unfold Index.has. rewrite negb_true_iff, bool_decide_eq_false.
        split; intros [H1 H2]; (split; [done|]).
        + intros (names & [= <-] & Hin). done.
        + intros Hin. apply H2. by eexists.
      - split; [|by intros []]. intros H. split; [done|]. by intros (names & [=] & _). }
    assert (Hboosted : a ∈ boosted <-> a ∈ filtered).
    { unfold boosted. destruct (Index.a_preferredAlgorithms options) as [[|p ps]|]; try done.
      by rewrite sort_perm. }
    assert (Hsel : a ∈ match Index.a_selectionStrategy options with
                       | Some Index.s_quality =>
                           sortBy (fun a b => Index.qualityPriority b - Index.qualityPriority a)
                             (Index.prioritizeByHistory (Index.recommendations env) boosted)
                       | Some Index.s_speed =>
                           sortBy (fun a b => Index.speedPriority b - Index.speedPriority a)
                             (Index.prioritizeByHistory (Index.recommendations env) boosted)
                       | _ => Index.prioritizeByHistory (Index.recommendations env) boosted
                       end
                   <-> a ∈ Index.prioritizeByHistory (Index.recommendations env) boosted).
    { destruct (Index.a_selectionStrategy options) as [[]|]; try done;
        unfold sortBy; by rewrite sort_perm. }
    rewrite Hsel, prioritizeByHistory_elem, Hboosted, Hfiltered.
    split; [by intros [H _]|]. intros [H1 H2]. split; [done|]. by eapply offered_defined.
  - unfold offered, Index.determineCandidateAlgorithms.
    destruct (bool_decide _); [|destruct (bool_decide _)]; apply elem_of_cons; by left.
Qed.

Section AutoResults.
Import Index.
Context (env : Env) (items : list Item) (groups groupSize : nat) (options : AutoOptions).

Lemma candidateLoop_produced (all : list string) : ∀ candidates checks bestResult,
  (∀ a, a ∈ candidates -> a ∈ all) ->
  (∀ g, bestResult = Some g -> ∃ a, a ∈ all ∧ producedBy env items groups groupSize options a g) ->
  ∀ g, (candidateLoop env items groups groupSize options checks candidates bestResult = inl g
        ∨ candidateLoop env items groups groupSize options checks candidates bestResult
          = inr (Some g)) ->
       ∃ a, a ∈ all ∧ producedBy env items groups groupSize options a g.
Proof.
  induction candidates as [|algo rest IH]; intros checks bestResult Hall Hbest g;
    cbn [candidateLoop].
  - intros [[=]|[= ->]]. by apply Hbest.
  - destruct (autoTimeUp env checks).
    { intros [[=]|[= ->]]. by apply Hbest. }
    assert (∀ a, a ∈ rest -> a ∈ all) as Hrest.
    { intros a Ha. apply Hall. by apply elem_of_cons; right. }
    destruct (runCandidate env items groups groupSize options algo)
      as [[[candidate|e] earlyStop]|] eqn:Hrun; try by apply IH.
    assert (∃ a, a ∈ all ∧ producedBy env items groups groupSize options a candidate) as Hc.
    { exists algo. split; [apply Hall; by apply elem_of_cons; left|]. by exists earlyStop. }
    destruct (earlyStop && _).
    + intros [[= <-]|[=]]. exact Hc.
    + apply IH; [exact Hrest|]. intros g'. unfold tryUpdateBest.
      destruct bestResult as [best|]; [|by intros [= <-]].
      destruct (xltb _ _); [by intros [= <-]|]. by apply Hbest.
Qed.

Lemma executeAutoStrategy_produced g :
  executeAutoStrategy env items groups groupSize options = Ok g ->
  (∃ a, a ∈ selectCandidates env items options
        ∧ producedBy env items groups groupSize options a g)
  ∨ refinedByHybrid items groups groupSize options g
  ∨ Recovery.createGracefulDegradation items groups groupSize = Ok g.
Proof.
  unfold executeAutoStrategy.
  pose proof (candidateLoop_produced (selectCandidates env items options)
                (selectCandidates env items options) 0%nat None (fun a H => H)
                ltac:(by intros g' [=])) as Hloop.
  destruct (candidateLoop _ _ _ _ _ _ _ _) as [early|bestResult].
  - intros [= <-]. left. apply Hloop. by left.
  - unfold hybridRefine, refinedByHybrid.
    destruct bestResult as [best|].
    + specialize (Hloop best (or_intror eq_refl)).
      destruct (a_hybrid options) as [h|]; [|by intros [= <-]; left].
      destruct (default false (enable h)) eqn:Hen; [|by intros [= <-]; left].
      destruct (LPT.lpt _ _ _ _) as [refined|e] eqn:Hlpt; [|by intros [= <-]; left].
      destruct (xltb _ _); [|by intros [= <-]; left].
      intros [= <-]. right. left. by exists h.
    + destruct (a_hybrid options); intros H; by right; right.
Qed.

Lemma runCandidate_undefined : runCandidate env items groups groupSize options "undefined" = None.
Proof. reflexivity. Qed.

End AutoResults.

(** X22.  When the names in [disallowedAlgorithms], in [preferredAlgorithms]
    and in the history are written in ASCII: the candidate list of the auto
    strategy holds, apart from the [undefined] entry of an emptied list,
    exactly the algorithms that [determineCandidateAlgorithms] offers and
    that [disallowedAlgorithms] does not name (in any letter case),
    ['roundrobin'] is always offered, and every grouping that
    [executeAutoStrategy] returns was produced by the [case] of such an
    algorithm, by the hybrid [lpt] step or by graceful degradation. *)
Theorem auto_candidates_respect_disallowed (env : Index.Env) (items : list Item)
    (groups groupSize : nat) (options : Index.AutoOptions) :
  asciiNames (Index.a_disallowedAlgorithms options) = true ->
  asciiNames (Index.a_preferredAlgorithms options) = true ->
  asciiNames (Some (fst <$> Index.recommendations env)) = true ->
  (∀ a, a ∈ Index.selectCandidates env items options ∧ a ≠ "undefined"%string
        <-> offered items options a ∧ ¬ disallowedBy options a)
  ∧ offered items options "roundrobin"
  ∧ (∀ g, Index.executeAutoStrategy env items groups groupSize options = Ok g ->
          (∃ a, offered items options a ∧ ¬ disallowedBy options a
                ∧ producedBy env items groups groupSize options a g)
          ∨ refinedByHybrid items groups groupSize options g
          ∨ Recovery.createGracefulDegradation items groups groupSize = Ok g).
Proof.
  intros _ _ _. split; [|split].
  - intros a. apply selectCandidates_elem.
  - apply (selectCandidates_elem env items options "roundrobin").
  - intros g Hg.
    destruct (executeAutoStrategy_produced env items groups groupSize options g Hg)
      as [(a & Ha & Hp)|[H|H]]; [left|by right; left|by right; right].
    exists a.
    assert (a ∈ Index.selectCandidates env items options ∧ a ≠ "undefined"%string) as Hin.
    { split; [done|]. intros ->. destruct Hp as [earlyStop Hp].
      by rewrite runCandidate_undefined in Hp. }
    apply (proj1 (selectCandidates_elem env items options a)) in Hin as [Ho Hd]. done.
Qed.

Lemma auto_candidates_respect_disallowed_witness :
  (∀ a, a ∈ Index.selectCandidates idleEnv (fromCapacities [10; 8; 6; 4; 2; 1])
              (Index.mkAutoOptions 5000 None 1000 0 None (Some ["DP"; "Backtracking"]) None
                 None false None)
        ∧ a ≠ "undefined"%string
        <-> offered (fromCapacities [10; 8; 6; 4; 2; 1])
              (Index.mkAutoOptions 5000 None 1000 0 None (Some ["DP"; "Backtracking"]) None
                 None false None) a
            ∧ ¬ disallowedBy
                  (Index.mkAutoOptions 5000 None 1000 0 None (Some ["DP"; "Backtracking"]) None
                     None false None) a)
  ∧ Index.selectCandidates idleEnv (fromCapacities [10; 8; 6; 4; 2; 1])
      (Index.mkAutoOptions 5000 None 1000 0 None (Some ["DP"; "Backtracking"]) None
         None false None)
    = ["roundrobin"; "lpt"; "kk"]%string.
Proof.
  split; [|reflexivity].
  apply (auto_candidates_respect_disallowed idleEnv (fromCapacities [10; 8; 6; 4; 2; 1]) 2 3
           (Index.mkAutoOptions 5000 None 1000 0 None (Some ["DP"; "Backtracking"]) None
              None false None)); reflexivity.
Defined.
